(** * Reference sequence CRDTs (src/crdts.ts): a shallow embedding

    The TypeScript module keeps a document as a flat array of items and
    integrates new items with one of four algorithms (Yjs, YjsMod,
    Automerge, Sync9).  This file embeds the functions of [src/crdts.ts]
    as Rocq functions and proves properties of them.

    Conventions of the embedding:
    - JavaScript numbers that hold indices, positions and sequence numbers
      are integers [Z]; the index [-1] (document root) is used as in the code.
    - [T | null] is [option T]; [Id | null] is [option Id].
    - [Version] (a JS object used as a dictionary) is a [gmap string Z];
      [version[agent] ?? -1] is a lookup with default [-1].
    - a function that can [throw] returns either an error or a value
      ([res]); a function that mutates the document returns the document
      as it is when the call ends together with the [outcome] ([Ok] or
      [Throw e]); mutations done before a [throw] stay visible.
    - agent names are compared with [String.ltb] (lexicographic on
      character codes, as JS [<] is on ASCII strings).
    - the counters [hits] and [misses] of the source are only read by
      [printDebugStats] and are left out.
    - outside the embedding: numbers that are not integers or exceed the
      exact range of a double, and agent names that are property names of
      [Object.prototype] (a lookup in the version object would find the
      inherited property). *)

From Stdlib Require Import ZArith String Lia Bool Permutation OrderedTypeEx.
From stdpp Require Import gmap strings list sorting.

Local Open Scope Z_scope.

(** ** Data model *)

Definition Id : Type := string * Z.

Abbreviation Version := (gmap string Z).

Record Item (T : Type) : Type := mkItem {
  item_content : option T;
  item_id : Id;
  originLeft : option Id;
  originRight : option Id;
  item_seq : Z;
  insertAfter : bool;
  isDeleted : bool;
}.
Arguments mkItem {T}.
Arguments item_content {T}.
Arguments item_id {T}.
Arguments originLeft {T}.
Arguments originRight {T}.
Arguments item_seq {T}.
Arguments insertAfter {T}.
Arguments isDeleted {T}.

Record Doc (T : Type) : Type := mkDoc {
  doc_content : list (Item T);
  doc_version : Version;
  doc_length : Z;
  maxSeq : Z;
}.
Arguments mkDoc {T}.
Arguments doc_content {T}.
Arguments doc_version {T}.
Arguments doc_length {T}.
Arguments maxSeq {T}.

(** The errors the module can raise: the three [Error(...)] messages, a
    failed [assert], and the [TypeError] of reading a field of [undefined]. *)
Inductive error : Type :=
| OutOfOrder        (* Error('Operations out of order') *)
| ItemNotFound      (* Error('Could not find item') *)
| PastEnd           (* Error('past end of the document') *)
| AssertionError    (* assert(...) failed *)
| TypeError.        (* field access on undefined *)

Definition res (A : Type) : Type := error + A.

Inductive outcome : Type :=
| Ok
| Throw (e : error).

Inductive Algorithm : Type := yjs | yjsMod | automerge | sync9.

Definition newDoc {T} : Doc T :=
  {| doc_content := []; doc_version := ∅; doc_length := 0; maxSeq := 0 |}.

(** ** Array helpers *)

(** [arr[i]] for an integer index; out of range is [undefined]. *)
Definition nthZ {A} (l : list A) (i : Z) : option A :=
  if i <? 0 then None else l !! Z.to_nat i.

Definition lenZ {A} (l : list A) : Z := Z.of_nat (List.length l).

(** [arr.findIndex(p)]: first index whose element satisfies [p], else -1. *)
Fixpoint findIndex_from {A} (p : A → bool) (l : list A) (i : Z) : Z :=
  match l with
  | [] => -1
  | x :: l' => if p x then i else findIndex_from p l' (i + 1)
  end.

Definition findIndex {A} (p : A → bool) (l : list A) : Z := findIndex_from p l 0.

(** [arr.splice(i, 0, x)] for [0 <= i <= arr.length]. *)
Definition splice {A} (l : list A) (i : Z) (x : A) : list A :=
  take (Z.to_nat i) l ++ x :: drop (Z.to_nat i) l.

(** [version[agent] ?? -1] *)
Definition lastSeen (v : Version) (agent : string) : Z := default (-1) (v !! agent).

(** ** Common code and helpers *)

Definition is_null {A} (o : option A) : bool :=
  match o with None => true | Some _ => false end.

Definition idEq2 (a : option Id) (agent : string) (seq : Z) : bool :=
  match a with
  | None => false
  | Some a => String.eqb a.1 agent && (a.2 =? seq)
  end.

Definition idEq (a b : option Id) : bool :=
  match a, b with
  | None, None => true
  | Some a, Some b => String.eqb a.1 b.1 && (a.2 =? b.2)
  | _, _ => false
  end.

(** The test applied to an item by both the hint check and the
    [findIndex] callback of [findItem2]. *)
Definition needle_match {T} (atEnd : bool) (agent : string) (seq : Z) (it : Item T) : bool :=
  (negb atEnd && idEq2 (Some (item_id it)) agent seq)
  || (negb (is_null (item_content it)) && atEnd && idEq2 (Some (item_id it)) agent seq).

Definition findItem2 {T} (doc : Doc T) (needle : option Id) (atEnd : bool) (idx_hint : Z) : res Z :=
  match needle with
  | None => inr (-1)
  | Some (agent, seq) =>
      let hit :=
        if (0 <=? idx_hint) && (idx_hint <? lenZ (doc_content doc)) then
          match nthZ (doc_content doc) idx_hint with
          | Some hint_item => needle_match atEnd agent seq hint_item
          | None => false
          end
        else false in
      if hit then inr idx_hint
      else
        let idx := findIndex (needle_match atEnd agent seq) (doc_content doc) in
        if idx <? 0 then inl ItemNotFound else inr idx
  end.

Definition findItem {T} (doc : Doc T) (needle : option Id) (idx_hint : Z) : res Z :=
  findItem2 doc needle false idx_hint.

Arguments findItem2 {T} doc needle atEnd idx_hint : simpl never.
Arguments findItem {T} doc needle idx_hint : simpl never.

(** The loop of [findItemAtPos]: [l] is the part of the array from index
    [i] on, [pos] the number of visible items still to pass. *)
Fixpoint findItemAtPos_from {T} (l : list (Item T)) (i pos : Z) (stick_end : bool) : res Z :=
  match l with
  | [] => if pos =? 0 then inr i else inl PastEnd
  | item :: l' =>
      if stick_end && (pos =? 0) then inr i
      else if isDeleted item || is_null (item_content item) then
        findItemAtPos_from l' (i + 1) pos stick_end
      else if pos =? 0 then inr i
      else findItemAtPos_from l' (i + 1) (pos - 1) stick_end
  end.

Definition findItemAtPos {T} (doc : Doc T) (pos : Z) (stick_end : bool) : res Z :=
  findItemAtPos_from (doc_content doc) 0 pos stick_end.

Definition visible {T} (i : Item T) : bool :=
  negb (isDeleted i) && negb (is_null (item_content i)).

Definition getArray {T} (doc : Doc T) : list T :=
  omap item_content (filter (λ i, visible i = true) (doc_content doc)).

Definition isInVersion (id : option Id) (version : Version) : bool :=
  match id with
  | None => true
  | Some id =>
      match version !! id.1 with
      | None => false
      | Some seq => id.2 <=? seq
      end
  end.

Arguments isInVersion id version : simpl never.

Definition canInsertNow {T} (op : Item T) (doc : Doc T) : bool :=
  negb (isInVersion (Some (item_id op)) (doc_version doc))
  && (((item_id op).2 =? 0)
      || isInVersion (Some ((item_id op).1, (item_id op).2 - 1)) (doc_version doc))
  && isInVersion (originLeft op) (doc_version doc)
  && isInVersion (originRight op) (doc_version doc).

(** Setters used by the integration functions. *)
Definition set_version {T} (doc : Doc T) (agent : string) (seq : Z) : Doc T :=
  {| doc_content := doc_content doc; doc_version := <[agent := seq]> (doc_version doc);
     doc_length := doc_length doc; maxSeq := maxSeq doc |}.

Definition set_content {T} (doc : Doc T) (c : list (Item T)) : Doc T :=
  {| doc_content := c; doc_version := doc_version doc;
     doc_length := doc_length doc; maxSeq := maxSeq doc |}.

Definition add_length {T} (doc : Doc T) (n : Z) : Doc T :=
  {| doc_content := doc_content doc; doc_version := doc_version doc;
     doc_length := doc_length doc + n; maxSeq := maxSeq doc |}.

Definition set_maxSeq {T} (doc : Doc T) (s : Z) : Doc T :=
  {| doc_content := doc_content doc; doc_version := doc_version doc;
     doc_length := doc_length doc; maxSeq := s |}.

(** [newItem.originRight == null ? doc.content.length : findItem(doc, newItem.originRight, idx_hint)] *)
Definition findRight {T} (doc : Doc T) (o : option Id) (idx_hint : Z) : res Z :=
  match o with
  | None => inr (lenZ (doc_content doc))
  | Some _ => findItem doc o idx_hint
  end.

(** ** integrateYjsMod *)

(** The [for (let i = destIdx; ; i++)] loop.  [rest] is [doc.content] from
    index [i] on, so [rest = []] is the test [i === doc.content.length].
    The result is the final [destIdx]. *)
Fixpoint yjsMod_scan {T} (doc : Doc T) (newItem : Item T) (idx_hint left right : Z)
    (rest : list (Item T)) (i destIdx : Z) (scanning : bool) : res Z :=
  let destIdx := if scanning then destIdx else i in
  match rest with
  | [] => inr destIdx
  | other :: rest' =>
      if i =? right then inr destIdx
      else
        match findItem doc (originLeft other) (idx_hint - 1) with
        | inl e => inl e
        | inr oleft =>
            match findRight doc (originRight other) idx_hint with
            | inl e => inl e
            | inr oright =>
                if oleft <? left then inr destIdx
                else if oleft =? left then
                  if oright <? right then
                    yjsMod_scan doc newItem idx_hint left right rest' (i + 1) destIdx true
                  else if oright =? right then
                    if String.ltb (item_id newItem).1 (item_id other).1 then inr destIdx
                    else yjsMod_scan doc newItem idx_hint left right rest' (i + 1) destIdx false
                  else yjsMod_scan doc newItem idx_hint left right rest' (i + 1) destIdx false
                else yjsMod_scan doc newItem idx_hint left right rest' (i + 1) destIdx scanning
            end
        end
  end.

(** The last two statements of the Yjs-family integrations. *)
Definition commit {T} (doc : Doc T) (newItem : Item T) (destIdx : Z) : Doc T :=
  let doc := set_content doc (splice (doc_content doc) destIdx newItem) in
  if isDeleted newItem then doc else add_length doc 1.

Definition integrateYjsMod {T} (doc : Doc T) (newItem : Item T) (idx_hint : Z) : Doc T * outcome :=
  if negb ((item_id newItem).2 =? lastSeen (doc_version doc) (item_id newItem).1 + 1) then
    (doc, Throw OutOfOrder)
  else
    let doc := set_version doc (item_id newItem).1 (item_id newItem).2 in
    match findItem doc (originLeft newItem) (idx_hint - 1) with
    | inl e => (doc, Throw e)
    | inr left_ =>
        match findRight doc (originRight newItem) idx_hint with
        | inl e => (doc, Throw e)
        | inr right_ =>
            match yjsMod_scan doc newItem idx_hint left_ right_
                    (drop (Z.to_nat (left_ + 1)) (doc_content doc)) (left_ + 1) (left_ + 1) false with
            | inl e => (doc, Throw e)
            | inr destIdx => (commit doc newItem destIdx, Ok)
            end
        end
    end.

(** ** integrateYjs *)

Fixpoint yjs_scan {T} (doc : Doc T) (newItem : Item T) (idx_hint left right : Z)
    (rest : list (Item T)) (i destIdx : Z) (scanning : bool) : res Z :=
  let destIdx := if scanning then destIdx else i in
  match rest with
  | [] => inr destIdx
  | other :: rest' =>
      if i =? right then inr destIdx
      else
        match findItem doc (originLeft other) (idx_hint - 1) with
        | inl e => inl e
        | inr oleft =>
            match findRight doc (originRight other) idx_hint with
            | inl e => inl e
            | inr oright =>
                if oleft <? left then inr destIdx
                else if oleft =? left then
                  if String.ltb (item_id other).1 (item_id newItem).1 then
                    yjs_scan doc newItem idx_hint left right rest' (i + 1) destIdx false
                  else if oright =? right then inr destIdx
                  else yjs_scan doc newItem idx_hint left right rest' (i + 1) destIdx true
                else yjs_scan doc newItem idx_hint left right rest' (i + 1) destIdx scanning
            end
        end
  end.

Definition integrateYjs {T} (doc : Doc T) (newItem : Item T) (idx_hint : Z) : Doc T * outcome :=
  if negb ((item_id newItem).2 =? lastSeen (doc_version doc) (item_id newItem).1 + 1) then
    (doc, Throw OutOfOrder)
  else
    let doc := set_version doc (item_id newItem).1 (item_id newItem).2 in
    match findItem doc (originLeft newItem) (idx_hint - 1) with
    | inl e => (doc, Throw e)
    | inr left_ =>
        match findRight doc (originRight newItem) idx_hint with
        | inl e => (doc, Throw e)
        | inr right_ =>
            match yjs_scan doc newItem idx_hint left_ right_
                    (drop (Z.to_nat (left_ + 1)) (doc_content doc)) (left_ + 1) (left_ + 1) false with
            | inl e => (doc, Throw e)
            | inr destIdx => (commit doc newItem destIdx, Ok)
            end
        end
    end.

(** ** integrateAutomerge *)

(** The [for (; destIdx < doc.content.length; destIdx++)] loop; [rest] is
    [doc.content] from index [destIdx] on.  [fast] tells whether the early
    [if (newItem.seq > o.seq) break] at the head of the body is present:
    the source is [fast = true]. *)
Fixpoint automerge_scan {T} (fast : bool) (doc : Doc T) (newItem : Item T) (idx_hint parent : Z)
    (rest : list (Item T)) (destIdx : Z) (lostConflict : bool) : res Z :=
  match rest with
  | [] => inr destIdx
  | o :: rest' =>
      if fast && (item_seq o <? item_seq newItem) then inr destIdx
      else
        match findItem doc (originLeft o) (idx_hint - 1) with
        | inl e => inl e
        | inr oparent =>
            if oparent <? parent then inr destIdx
            else if oparent =? parent then
              if item_seq o <? item_seq newItem then inr destIdx
              else if item_seq newItem =? item_seq o then
                if String.ltb (item_id newItem).1 (item_id o).1 then inr destIdx
                else automerge_scan fast doc newItem idx_hint parent rest' (destIdx + 1) true
              else automerge_scan fast doc newItem idx_hint parent rest' (destIdx + 1) true
            else
              if lostConflict then
                automerge_scan fast doc newItem idx_hint parent rest' (destIdx + 1) lostConflict
              else inl AssertionError
        end
  end.

Definition integrateAutomerge_gen {T} (fast : bool) (doc : Doc T) (newItem : Item T) (idx_hint : Z)
    : Doc T * outcome :=
  if negb (0 <=? item_seq newItem) then (doc, Throw AssertionError)
  else if negb ((item_id newItem).2 =? lastSeen (doc_version doc) (item_id newItem).1 + 1) then
    (doc, Throw OutOfOrder)
  else
    let doc := set_version doc (item_id newItem).1 (item_id newItem).2 in
    match findItem doc (originLeft newItem) (idx_hint - 1) with
    | inl e => (doc, Throw e)
    | inr parent =>
        match automerge_scan fast doc newItem idx_hint parent
                (drop (Z.to_nat (parent + 1)) (doc_content doc)) (parent + 1) false with
        | inl e => (doc, Throw e)
        | inr destIdx =>
            let doc := if maxSeq doc <? item_seq newItem
                       then set_maxSeq doc (item_seq newItem) else doc in
            (commit doc newItem destIdx, Ok)
        end
    end.

Definition integrateAutomerge {T} : Doc T → Item T → Z → Doc T * outcome :=
  integrateAutomerge_gen true.

(** [integrateAutomerge] with the early [break] on [newItem.seq > o.seq]
    deleted from the loop body. *)
Definition integrateAutomerge_noFastPath {T} : Doc T → Item T → Z → Doc T * outcome :=
  integrateAutomerge_gen false.

(** ** integrateSync9 *)

Fixpoint sync9_scan {T} (doc : Doc T) (newItem : Item T) (idx_hint parentIdx : Z)
    (rest : list (Item T)) (destIdx : Z) : res Z :=
  match rest with
  | [] => inr destIdx
  | other :: rest' =>
      match findItem2 doc (originLeft other) (insertAfter other) (idx_hint - 1) with
      | inl e => inl e
      | inr oparentIdx =>
          if oparentIdx <? parentIdx then inr destIdx
          else if oparentIdx =? parentIdx then
            if String.ltb (item_id newItem).1 (item_id other).1 then inr destIdx
            else sync9_scan doc newItem idx_hint parentIdx rest' (destIdx + 1)
          else sync9_scan doc newItem idx_hint parentIdx rest' (destIdx + 1)
      end
  end.

(** [{...item, content: null}] *)
Definition placeholder {T} (it : Item T) : Item T :=
  {| item_content := None; item_id := item_id it; originLeft := originLeft it;
     originRight := originRight it; item_seq := item_seq it;
     insertAfter := insertAfter it; isDeleted := isDeleted it |}.

Definition commitSync9 {T} (doc : Doc T) (newItem : Item T) (destIdx : Z) : Doc T :=
  let doc := set_content doc (splice (doc_content doc) destIdx newItem) in
  if negb (isDeleted newItem) && negb (is_null (item_content newItem))
  then add_length doc 1 else doc.

(** The [else] branch of [integrateSync9]: scan from [parentIdx + 1], then insert. *)
Definition sync9_walk {T} (doc : Doc T) (newItem : Item T) (idx_hint parentIdx : Z)
    : Doc T * outcome :=
  match sync9_scan doc newItem idx_hint parentIdx
          (drop (Z.to_nat (parentIdx + 1)) (doc_content doc)) (parentIdx + 1) with
  | inl e => (doc, Throw e)
  | inr destIdx => (commitSync9 doc newItem destIdx, Ok)
  end.

Definition integrateSync9 {T} (doc : Doc T) (newItem : Item T) (idx_hint : Z) : Doc T * outcome :=
  let '(agent, seq) := item_id newItem in
  if negb (seq =? lastSeen (doc_version doc) agent + 1) then (doc, Throw OutOfOrder)
  else
    let doc := set_version doc agent seq in
    match findItem2 doc (originLeft newItem) (insertAfter newItem) (idx_hint - 1) with
    | inl e => (doc, Throw e)
    | inr parentIdx =>
        let destIdx := parentIdx + 1 in
        if (0 <=? parentIdx) && negb (is_null (originLeft newItem))
           && negb (insertAfter newItem) then
          match nthZ (doc_content doc) parentIdx with
          | None => (doc, Throw TypeError)
          | Some parentItem =>
              if negb (is_null (item_content parentItem)) then
                let doc := set_content doc
                             (splice (doc_content doc) parentIdx (placeholder parentItem)) in
                (commitSync9 doc newItem destIdx, Ok)
              else sync9_walk doc newItem idx_hint parentIdx
          end
        else sync9_walk doc newItem idx_hint parentIdx
    end.

(** The [integrate] member of the four [Algorithm] objects. *)
Definition integrate {T} (alg : Algorithm) : Doc T → Item T → Z → Doc T * outcome :=
  match alg with
  | yjs => integrateYjs
  | yjsMod => integrateYjsMod
  | automerge => integrateAutomerge
  | sync9 => integrateSync9
  end.

(** ** Local operations *)

(** [doc.content[i]?.id ?? null] *)
Definition idAt {T} (doc : Doc T) (i : Z) : option Id :=
  item_id <$> nthZ (doc_content doc) i.

Definition localInsert {T} (this : Algorithm) (doc : Doc T) (agent : string) (pos : Z) (content : T)
    : Doc T * outcome :=
  match findItemAtPos doc pos false with
  | inl e => (doc, Throw e)
  | inr i =>
      integrate this doc
        {| item_content := Some content;
           item_id := (agent, lastSeen (doc_version doc) agent + 1);
           isDeleted := false;
           originLeft := idAt doc (i - 1);
           originRight := idAt doc i;
           insertAfter := true;
           item_seq := maxSeq doc + 1 |} i
  end.

(** The scan of [localInsertSync9]: [rest] is [doc.content] from index [i]
    on; the result is the final [(i, originLeft, insertAfter)]. *)
Fixpoint sync9_descend {T} (rest : list (Item T)) (i : Z) (parentIdBase originLeft_ : option Id)
    (insertAfter_ : bool) : Z * option Id * bool :=
  match rest with
  | [] => (i, originLeft_, insertAfter_)
  | nextItem :: rest' =>
      if negb (idEq (originLeft nextItem) parentIdBase) then (i, originLeft_, insertAfter_)
      else if negb (is_null (item_content nextItem)) then (i, Some (item_id nextItem), false)
      else sync9_descend rest' (i + 1) (Some (item_id nextItem)) (Some (item_id nextItem)) false
  end.

Definition localInsertSync9 {T} (this : Algorithm) (doc : Doc T) (agent : string) (pos : Z)
    (content : T) : Doc T * outcome :=
  match findItemAtPos doc pos true with
  | inl e => (doc, Throw e)
  | inr i =>
      let parentIdBase := idAt doc (i - 1) in
      let '(i, originLeft_, insertAfter_) :=
        sync9_descend (drop (Z.to_nat i) (doc_content doc)) i parentIdBase parentIdBase true in
      integrate this doc
        {| item_content := Some content;
           item_id := (agent, lastSeen (doc_version doc) agent + 1);
           isDeleted := false;
           originLeft := originLeft_;
           insertAfter := insertAfter_;
           originRight := None;
           item_seq := 0 |} i
  end.

(** The [localInsert] member of the four [Algorithm] objects. *)
Definition alg_localInsert {T} (alg : Algorithm) : Doc T → string → Z → T → Doc T * outcome :=
  match alg with
  | sync9 => localInsertSync9 alg
  | _ => localInsert alg
  end.

Definition set_deleted {T} (it : Item T) : Item T :=
  {| item_content := item_content it; item_id := item_id it; originLeft := originLeft it;
     originRight := originRight it; item_seq := item_seq it;
     insertAfter := insertAfter it; isDeleted := true |}.

Definition localDelete {T} (doc : Doc T) (agent : string) (pos : Z) : Doc T * outcome :=
  match findItemAtPos doc pos false with
  | inl e => (doc, Throw e)
  | inr idx =>
      match nthZ (doc_content doc) idx with
      | None => (doc, Throw TypeError)
      | Some item =>
          if negb (isDeleted item) then
            (add_length (set_content doc (<[Z.to_nat idx := set_deleted item]> (doc_content doc))) (-1),
             Ok)
          else (doc, Ok)
      end
  end.

(** ** mergeInto *)

(** One execution of the [for] loop over [missing]: the destination as it
    is after the pass, the updated [missing] array, the value of
    [mergedOnThisPass], and whether an [integrate] call threw. *)
Fixpoint merge_pass {T} (algorithm : Algorithm) (dest : Doc T) (missing : list (option (Item T)))
    : Doc T * list (option (Item T)) * Z * outcome :=
  match missing with
  | [] => (dest, [], 0, Ok)
  | None :: rest =>
      let '(d, m, n, r) := merge_pass algorithm dest rest in (d, None :: m, n, r)
  | Some op :: rest =>
      if negb (canInsertNow op dest) then
        let '(d, m, n, r) := merge_pass algorithm dest rest in (d, Some op :: m, n, r)
      else
        match integrate algorithm dest op (-1) with
        | (dest', Throw e) => (dest', missing, 0, Throw e)
        | (dest', Ok) =>
            let '(d, m, n, r) := merge_pass algorithm dest' rest in (d, None :: m, n + 1, r)
        end
  end.

(** The [while (remaining > 0)] loop.  Every pass that does not throw
    lowers [remaining] by at least one, so [fuel] passes are enough when
    [fuel] is at least [remaining]; [None] is running out of fuel. *)
Fixpoint merge_loop {T} (fuel : nat) (algorithm : Algorithm) (dest : Doc T)
    (missing : list (option (Item T))) (remaining : Z) : option (Doc T * outcome) :=
  if remaining <=? 0 then Some (dest, Ok)
  else
    match fuel with
    | O => None
    | S fuel =>
        let '(dest, missing, mergedOnThisPass, r) := merge_pass algorithm dest missing in
        match r with
        | Throw e => Some (dest, Throw e)
        | Ok =>
            if mergedOnThisPass =? 0 then Some (dest, Throw AssertionError)
            else merge_loop fuel algorithm dest missing (remaining - mergedOnThisPass)
        end
    end.

(** [src.content.filter(op => op.content != null && !isInVersion(op.id, dest.version))] *)
Definition missing_of {T} (dest src : Doc T) : list (Item T) :=
  filter (λ op, negb (is_null (item_content op))
                && negb (isInVersion (Some (item_id op)) (doc_version dest)) = true)
         (doc_content src).

Definition mergeInto {T} (algorithm : Algorithm) (dest src : Doc T) : option (Doc T * outcome) :=
  let missing := missing_of dest src in
  merge_loop (List.length missing) algorithm dest (Some <$> missing) (lenZ missing).

(** ** Definitions used by the statements below *)

(** Whether a lookup returned an index. *)
Definition is_found {A} (r : res A) : bool :=
  match r with inr _ => true | inl _ => false end.

(** The Sync9 document after agent A inserts "x" at the root and agent B
    inserts "y" before it ([insertAfter = false]): the item of A is split. *)
Definition sync9_split_doc : Doc string :=
  (integrateSync9
     (integrateSync9 newDoc
        (mkItem (Some "x"%string) ("A"%string, 0) None None 0 true false) (-1)).1
     (mkItem (Some "y"%string) ("B"%string, 0) (Some ("A"%string, 0)) None 0 false false) (-1)).1.

(** The sequence check of every [integrate]:
    [N.id.seq == (version[N.id.agent] ?? -1) + 1]. *)
Definition seq_ready {T} (doc : Doc T) (newItem : Item T) : Prop :=
  (item_id newItem).2 = lastSeen (doc_version doc) (item_id newItem).1 + 1.

(** An item with a negative Automerge [seq] whose id skips ahead. *)
Definition negative_seq_item : Item string :=
  mkItem (Some "x"%string) ("A"%string, 5) None None (-1) true false.

(** A document holding one item, and the id of that item. *)
Definition one_item_doc : Doc string :=
  (integrateYjsMod newDoc
     (mkItem (Some "x"%string) ("A"%string, 0) None None 0 true false) (-1)).1.

(** Number of items with content present and not deleted. *)
Definition visible_count {T} (l : list (Item T)) : Z :=
  lenZ (filter (λ i, visible i = true) l).

(** The Sync9 document holding the single item "x" of agent A, and an item
    of agent B to be inserted before the content of A's item. *)
Definition sync9_one_doc : Doc string :=
  (integrateSync9 newDoc
     (mkItem (Some "x"%string) ("A"%string, 0) None None 0 true false) (-1)).1.

Definition sync9_before_item : Item string :=
  mkItem (Some "y"%string) ("B"%string, 0) (Some ("A"%string, 0)) None 0 false false.

(** ** Integration orders *)

Inductive run_result (T : Type) : Type :=
| Done (d : Doc T)
| NotReady
| Failed (e : error).
Arguments Done {T}.
Arguments NotReady {T}.
Arguments Failed {T}.

(** Integrate the items of [order] one after the other, as the fuzz driver
    of the tests does: an item may be picked only when [canInsertNow]
    holds for it. *)
Fixpoint integrateAll {T} (alg : Algorithm) (doc : Doc T) (order : list (Item T)) : run_result T :=
  match order with
  | [] => Done doc
  | op :: rest =>
      if canInsertNow op doc then
        match integrate alg doc op (-1) with
        | (doc', Ok) => integrateAll alg doc' rest
        | (_, Throw e) => Failed e
        end
      else NotReady
  end.

(** The ways of taking one element out of a list. *)
Fixpoint picks {A} (l : list A) : list (A * list A) :=
  match l with
  | [] => []
  | x :: l' => (x, l') :: map (λ yr, (yr.1, x :: yr.2)) (picks l')
  end.

(** Exhaustive search: [P] holds of the final document of every order of
    [remaining] that picks only ready items, and no such order throws. *)
Fixpoint explore {T} (alg : Algorithm) (P : Doc T → bool) (fuel : nat) (doc : Doc T)
    (remaining : list (Item T)) : bool :=
  match remaining with
  | [] => P doc
  | _ =>
      match fuel with
      | O => false
      | S fuel =>
          forallb (λ pr : Item T * list (Item T),
                     if canInsertNow pr.1 doc then
                       match integrate alg doc pr.1 (-1) with
                       | (doc', Ok) => explore alg P fuel doc' pr.2
                       | (_, Throw _) => false
                       end
                     else true)
                  (picks remaining)
      end
  end.

(** [makeItem] of the tests, with the fifth argument [seq] of the comment in
    [integrateYjsMod]; [insertAfter] is not read by the Yjs family. *)
Definition makeItem {T} (content : T) (id : Id) (originLeft originRight : option Id) (seq : Z)
    : Item T :=
  {| item_content := Some content; item_id := id; originLeft := originLeft;
     originRight := originRight; item_seq := seq; insertAfter := true; isDeleted := false |}.

(** The six items of the test [interleavingForward]. *)
Definition interleavingForward : list (Item string) :=
  [ makeItem "a" ("A", 0) None None 0;
    makeItem "a" ("A", 1) (Some ("A", 0)) None 1;
    makeItem "a" ("A", 2) (Some ("A", 1)) None 2;
    makeItem "b" ("B", 0) None None 0;
    makeItem "b" ("B", 1) (Some ("B", 0)) None 1;
    makeItem "b" ("B", 2) (Some ("B", 1)) None 2 ]%string.

Definition is_aaabbb (d : Doc string) : bool :=
  bool_decide (getArray d = ["a"; "a"; "a"; "b"; "b"; "b"]%string
               ∧ item_id <$> doc_content d
                 = [("A", 0); ("A", 1); ("A", 2); ("B", 0); ("B", 1); ("B", 2)]%string).


(** ** The YjsMod integration as the specification words it

    The case analysis of the specification, written as a relation between
    the loop state [(i, destIdx, scanning)] and the index at which the item
    is committed.  Lookups are the ones of the code, with the same hints. *)
Section YjsModSpec.
Context {T : Type} (doc : Doc T) (N : Item T) (idx_hint : Z) (left right : Z).

(** "If [!scanning], track [destIdx = i]." *)
Definition track (scanning : bool) (destIdx i : Z) : Z :=
  if scanning then destIdx else i.

Inductive spec_scan : Z → Z → bool → Z → Prop :=
| scan_commit i destIdx scanning :
    i = lenZ (doc_content doc) ∨ i = right →
    spec_scan i destIdx scanning (track scanning destIdx i)
| scan_break i destIdx scanning O oleft oright :
    i ≠ lenZ (doc_content doc) → i ≠ right →
    nthZ (doc_content doc) i = Some O →
    findItem doc (originLeft O) (idx_hint - 1) = inr oleft →
    findRight doc (originRight O) idx_hint = inr oright →
    oleft < left →
    spec_scan i destIdx scanning (track scanning destIdx i)
| scan_start_scanning i destIdx scanning O oleft oright d :
    i ≠ lenZ (doc_content doc) → i ≠ right →
    nthZ (doc_content doc) i = Some O →
    findItem doc (originLeft O) (idx_hint - 1) = inr oleft →
    findRight doc (originRight O) idx_hint = inr oright →
    oleft = left → oright < right →
    spec_scan (i + 1) (track scanning destIdx i) true d →
    spec_scan i destIdx scanning d
| scan_tie_break_win i destIdx scanning O oleft oright :
    i ≠ lenZ (doc_content doc) → i ≠ right →
    nthZ (doc_content doc) i = Some O →
    findItem doc (originLeft O) (idx_hint - 1) = inr oleft →
    findRight doc (originRight O) idx_hint = inr oright →
    oleft = left → oright = right →
    String.ltb (item_id N).1 (item_id O).1 = true →
    spec_scan i destIdx scanning (track scanning destIdx i)
| scan_tie_break_lose i destIdx scanning O oleft oright d :
    i ≠ lenZ (doc_content doc) → i ≠ right →
    nthZ (doc_content doc) i = Some O →
    findItem doc (originLeft O) (idx_hint - 1) = inr oleft →
    findRight doc (originRight O) idx_hint = inr oright →
    oleft = left → oright = right →
    String.ltb (item_id N).1 (item_id O).1 = false →
    spec_scan (i + 1) (track scanning destIdx i) false d →
    spec_scan i destIdx scanning d
| scan_stop_scanning i destIdx scanning O oleft oright d :
    i ≠ lenZ (doc_content doc) → i ≠ right →
    nthZ (doc_content doc) i = Some O →
    findItem doc (originLeft O) (idx_hint - 1) = inr oleft →
    findRight doc (originRight O) idx_hint = inr oright →
    oleft = left → oright > right →
    spec_scan (i + 1) (track scanning destIdx i) false d →
    spec_scan i destIdx scanning d
| scan_skip i destIdx scanning O oleft oright d :
    i ≠ lenZ (doc_content doc) → i ≠ right →
    nthZ (doc_content doc) i = Some O →
    findItem doc (originLeft O) (idx_hint - 1) = inr oleft →
    findRight doc (originRight O) idx_hint = inr oright →
    oleft > left →
    spec_scan (i + 1) (track scanning destIdx i) scanning d →
    spec_scan i destIdx scanning d.
End YjsModSpec.

(** "Let [left = find_item(N.originLeft)], [right = find_item(N.originRight)]
    (or [len(content)] for end).  [destIdx = left + 1].  [scanning = false].
    ...  Commit: splice [N] into [content] at [destIdx]; if not deleted,
    [length += 1]."  The version vector is updated first. *)
Definition spec_integrateYjsMod {T} (doc : Doc T) (N : Item T) (idx_hint : Z) (doc' : Doc T) : Prop :=
  ∃ left right destIdx,
    findItem doc (originLeft N) (idx_hint - 1) = inr left
    ∧ findRight doc (originRight N) idx_hint = inr right
    ∧ spec_scan doc N idx_hint left right (left + 1) (left + 1) false destIdx
    ∧ doc' = {| doc_content := splice (doc_content doc) destIdx N;
                doc_version := <[(item_id N).1 := (item_id N).2]> (doc_version doc);
                doc_length := if isDeleted N then doc_length doc else doc_length doc + 1;
                maxSeq := maxSeq doc |}.


(** [v'] has seen everything [v] has. *)
Definition ver_le (v v' : Version) : Prop :=
  ∀ id, isInVersion id v = true → isInVersion id v' = true.


(** Number of entries of [missing] that are not [null]. *)
Definition count_some {A} (l : list (option A)) : Z :=
  lenZ (filter is_Some l).


(** The change a successful [integrate] makes to [content]: the new item is
    spliced in at some index, or (Sync9 split) the parent at [p] is
    replaced by its placeholder, the new item and the parent. *)
Definition content_step {T} (alg : Algorithm) (c : list (Item T)) (n : Item T)
    (c' : list (Item T)) : Prop :=
  (∃ i, c' = splice c i n)
  ∨ (alg = sync9 ∧ ∃ p P, nthZ c p = Some P ∧ item_content P ≠ None
       ∧ c' = take (Z.to_nat p) c ++ [placeholder P; n; P] ++ drop (S (Z.to_nat p)) c).

(** The amount [integrate] adds to [length]. *)
Definition length_step {T} (alg : Algorithm) (n : Item T) : Z :=
  match alg with
  | sync9 => if negb (isDeleted n) && negb (is_null (item_content n)) then 1 else 0
  | _ => if isDeleted n then 0 else 1
  end.


(** ** Length coherence *)

(** [doc.length] is the number of items with content present that are not
    deleted. *)
Definition length_coherent {T} (doc : Doc T) : Prop :=
  doc_length doc = visible_count (doc_content doc).

(** Documents built from [newDoc] by successful operations.  [ok alg n]
    says which items may be handed to [integrate] directly. *)
Inductive Reachable {T} (ok : Algorithm → Item T → Prop) (alg : Algorithm) : Doc T → Prop :=
| reach_newDoc : Reachable ok alg newDoc
| reach_localInsert doc agent pos content doc' :
    Reachable ok alg doc →
    alg_localInsert alg doc agent pos content = (doc', Ok) →
    Reachable ok alg doc'
| reach_localDelete doc agent pos doc' :
    Reachable ok alg doc →
    localDelete doc agent pos = (doc', Ok) →
    Reachable ok alg doc'
| reach_integrate doc newItem idx_hint doc' :
    Reachable ok alg doc →
    ok alg newItem →
    integrate alg doc newItem idx_hint = (doc', Ok) →
    Reachable ok alg doc'
| reach_mergeInto doc src doc' :
    Reachable ok alg doc →
    mergeInto alg doc src = Some (doc', Ok) →
    Reachable ok alg doc'.

Definition any_item {T} (alg : Algorithm) (n : Item T) : Prop := True.

(** Yjs, YjsMod and Automerge items always carry content ([YjsItem],
    [AMItem]); only Sync9 items may have none. *)
Definition content_unless_sync9 {T} (alg : Algorithm) (n : Item T) : Prop :=
  alg ≠ sync9 → item_content n ≠ None.

(** An item without content, as the type [Item<T>] allows. *)
Definition no_content_item : Item string :=
  mkItem None ("A"%string, 0) None None 0 true false.


(** ** Automerge documents as trees *)

(** Ids are unique, and the item named by an [originLeft] stands before
    the item that names it and has a smaller [seq]. *)
Record am_tree {T} (c : list (Item T)) : Prop := {
  am_nodup : NoDup (item_id <$> c);
  am_parent : ∀ i x p, c !! i = Some x → originLeft x = Some p →
    ∃ j y, (j < i)%nat ∧ c !! j = Some y ∧ item_id y = p ∧ item_seq y < item_seq x;
}.


(** ** Replicas exchanging items

    A system is one document per replica; the replica named [a] creates
    its items under the agent name [a].  Item objects are shared:
    [integrate] and [mergeInto] put the object taken from the source
    document into the destination, so all documents that hold an item
    with content hold one object (the placeholder of a Sync9 split is an
    object of its own).  The only field assigned after creation is
    [isDeleted], by [localDelete]: the flag changes in every document
    that holds the object, [length] only in the document the delete is
    applied to. *)
Definition replica {T} (sys : gmap string (Doc T)) (a : string) : Doc T :=
  default newDoc (sys !! a).

(** The id of the object that [localDelete(doc, agent, pos)] marks. *)
Definition localDelete_target {T} (doc : Doc T) (pos : Z) : option Id :=
  match findItemAtPos doc pos false with
  | inl _ => None
  | inr idx => item_id <$> nthZ (doc_content doc) idx
  end.

(** A document after the object with id [target] was marked deleted
    through another document. *)
Definition mark_deleted {T} (target : option Id) (doc : Doc T) : Doc T :=
  set_content doc
    ((λ it, if idEq (Some (item_id it)) target && negb (is_null (item_content it))
            then set_deleted it else it) <$> doc_content doc).

Inductive sys_step {T} (alg : Algorithm) (sys : gmap string (Doc T)) :
    gmap string (Doc T) → Prop :=
| step_insert a pos content d :
    alg_localInsert alg (replica sys a) a pos content = (d, Ok) →
    sys_step alg sys (<[a := d]> sys)
| step_delete a pos d :
    localDelete (replica sys a) a pos = (d, Ok) →
    sys_step alg sys
      (<[a := d]> (mark_deleted (localDelete_target (replica sys a) pos) <$> sys))
| step_deliver a b x idx_hint d :
    x ∈ doc_content (replica sys b) →
    item_content x ≠ None →
    canInsertNow x (replica sys a) = true →
    integrate alg (replica sys a) x idx_hint = (d, Ok) →
    sys_step alg sys (<[a := d]> sys)
| step_merge a b d :
    mergeInto alg (replica sys a) (replica sys b) = Some (d, Ok) →
    sys_step alg sys (<[a := d]> sys).

Inductive sys_reachable {T} (alg : Algorithm) : gmap string (Doc T) → Prop :=
| sys_init : sys_reachable alg ∅
| sys_next sys sys' :
    sys_reachable alg sys → sys_step alg sys sys' → sys_reachable alg sys'.

(** Two copies of one item: all fields agree but [isDeleted]. *)
Definition same_item {T} (x y : Item T) : Prop :=
  item_id x = item_id y ∧ originLeft x = originLeft y ∧ originRight x = originRight y
  ∧ item_seq x = item_seq y ∧ item_content x = item_content y
  ∧ insertAfter x = insertAfter y.

(** Invariant of the documents of an Automerge system. *)
Record am_wf {T} (d : Doc T) : Prop := {
  wf_tree : am_tree (doc_content d);
  wf_version : ∀ x, x ∈ doc_content d →
    isInVersion (Some (item_id x)) (doc_version d) = true;
  wf_closed : ∀ a s, 0 <= s → isInVersion (Some (a, s)) (doc_version d) = true →
    ∃ x, x ∈ doc_content d ∧ item_id x = (a, s);
  wf_seq : ∀ x, x ∈ doc_content d → 0 <= (item_id x).2 ∧ item_seq x <= maxSeq d;
  wf_lastSeen : ∀ a, -1 <= lastSeen (doc_version d) a;
}.

(** The items of the documents of a system. *)
Definition in_sys {T} (sys : gmap string (Doc T)) (x : Item T) : Prop :=
  ∃ b, x ∈ doc_content (replica sys b).

(** Invariant of an Automerge system: every document is well formed, two
    items with one id are copies of one item, and every item is in the
    version of the replica that created it. *)
Record am_inv {T} (sys : gmap string (Doc T)) : Prop := {
  inv_wf : ∀ a, am_wf (replica sys a);
  inv_same : ∀ x y, in_sys sys x → in_sys sys y → item_id x = item_id y → same_item x y;
  inv_owner : ∀ x, in_sys sys x →
    isInVersion (Some (item_id x)) (doc_version (replica sys (item_id x).1)) = true;
}.


(** A well-formed document whose items are copies of items of a system. *)

Definition fits {T} (sys : gmap string (Doc T)) (d : Doc T) : Prop :=
  am_wf d ∧ ∀ x, x ∈ doc_content d → ∃ y, in_sys sys y ∧ same_item x y.


(** The system after replica A inserted "x" into its empty document. *)
Definition one_replica_sys : gmap string (Doc string) :=
  <["A"%string := (localInsert automerge newDoc "A" 0 "x"%string).1]> ∅.

(** ** The order of a tree of items *)

(** Siblings are ordered by agent name, then by sequence number. *)
Definition key_lt (a b : Id) : Prop :=
  String.ltb a.1 b.1 = true ∨ (a.1 = b.1 ∧ a.2 < b.2).

(** Paths from the root are ordered lexicographically, a path standing
    before its extensions: this is the pre-order of the tree. *)
Inductive lex_lt : list Id → list Id → Prop :=
| lex_prefix k q : lex_lt [] (k :: q)
| lex_head a b p q : key_lt a b → lex_lt (a :: p) (b :: q)
| lex_tail a p q : lex_lt p q → lex_lt (a :: p) (a :: q).

(** The path of an item of [c]: the ids on the [originLeft] chain from the
    root down to the item. *)
Inductive has_path {T} (c : list (Item T)) : Item T → list Id → Prop :=
| path_root x :
    x ∈ c → originLeft x = None → has_path c x [item_id x]
| path_child x y p :
    x ∈ c → y ∈ c → originLeft x = Some (item_id y) → has_path c y p →
    has_path c x (p ++ [item_id x]).

(** Ids are unique and the item named by an [originLeft] stands before the
    item that names it. *)
Record forest {T} (c : list (Item T)) : Prop := {
  forest_nodup : NoDup (item_id <$> c);
  forest_parent : ∀ i x p, c !! i = Some x → originLeft x = Some p →
    ∃ j y, (j < i)%nat ∧ c !! j = Some y ∧ item_id y = p;
}.

(** A document of items appended at the end of their creator's document
    ([originRight] is the end), in the pre-order of the [originLeft] tree. *)
Record tree_sorted {T} (d : Doc T) : Prop := {
  ts_forest : forest (doc_content d);
  ts_right : ∀ x, x ∈ doc_content d → originRight x = None;
  ts_version : ∀ x, x ∈ doc_content d →
    isInVersion (Some (item_id x)) (doc_version d) = true;
  ts_path : ∀ x, x ∈ doc_content d → ∃ p, has_path (doc_content d) x p;
  ts_sorted : ∀ i j x y p q, (i < j)%nat →
    doc_content d !! i = Some x → doc_content d !! j = Some y →
    has_path (doc_content d) x p → has_path (doc_content d) y q → lex_lt p q;
  ts_last : ∀ a n, doc_version d !! a = Some n →
    ∃ x, x ∈ doc_content d ∧ item_id x = (a, n);
  ts_length : doc_length d = lenZ (filter (λ x, isDeleted x = false) (doc_content d));
  ts_maxSeq : maxSeq d = 0;
}.


(** The order of the items of [c] by their paths. *)
Definition path_lt {T} (c : list (Item T)) (x y : Item T) : Prop :=
  ∃ p q, has_path c x p ∧ has_path c y q ∧ lex_lt p q.

(** Four items that two ready orders integrate differently: C names D as
    its right anchor although A stands between the root and D. *)
Definition cross_a : Item string := makeItem "a"%string ("A"%string, 0) None None 0.
Definition cross_b : Item string := makeItem "b"%string ("B"%string, 0) None None 0.
Definition cross_c : Item string :=
  makeItem "c"%string ("C"%string, 0) None (Some ("D"%string, 0)) 0.
Definition cross_d : Item string :=
  makeItem "d"%string ("D"%string, 0) (Some ("A"%string, 0)) None 0.


(** The item sets of the tests [interleavingBackward], [withTails] and
    [localVsConcurrent]. *)
Definition interleavingBackward : list (Item string) :=
  [ makeItem "a"%string ("A"%string, 0) None None 0;
    makeItem "a"%string ("A"%string, 1) None (Some ("A"%string, 0)) 1;
    makeItem "a"%string ("A"%string, 2) None (Some ("A"%string, 1)) 2;
    makeItem "b"%string ("B"%string, 0) None None 0;
    makeItem "b"%string ("B"%string, 1) None (Some ("B"%string, 0)) 1;
    makeItem "b"%string ("B"%string, 2) None (Some ("B"%string, 1)) 2 ].

Definition withTails : list (Item string) :=
  [ makeItem "a"%string ("A"%string, 0) None None 0;
    makeItem "a0"%string ("A"%string, 1) None (Some ("A"%string, 0)) 1;
    makeItem "a1"%string ("A"%string, 2) (Some ("A"%string, 0)) None 2;
    makeItem "b"%string ("B"%string, 0) None None 0;
    makeItem "b0"%string ("B"%string, 1) None (Some ("B"%string, 0)) 1;
    makeItem "b1"%string ("B"%string, 2) (Some ("B"%string, 0)) None 2 ].

Definition localVsConcurrent : list (Item string) :=
  [ makeItem "a"%string ("A"%string, 0) None None 0;
    makeItem "b"%string ("B"%string, 0) None None 0;
    makeItem "c"%string ("C"%string, 0) None None 0;
    makeItem "d"%string ("D"%string, 0) (Some ("A"%string, 0)) (Some ("C"%string, 0)) 0 ].

(** The visible content of a document is [l]. *)
Definition has_content (l : list string) (d : Doc string) : bool := bool_decide (getArray d = l).

(** Replica A inserts "x", replica B merges A, then A deletes "x". *)
Definition shared_sys1 : gmap string (Doc string) :=
  <["A"%string := (localInsert yjsMod newDoc "A" 0 "x"%string).1]> ∅.

Definition shared_sys2 : gmap string (Doc string) :=
  <["B"%string :=
      (default (newDoc, Ok)
         (mergeInto yjsMod (replica shared_sys1 "B") (replica shared_sys1 "A"))).1]>
    shared_sys1.

Definition shared_sys3 : gmap string (Doc string) :=
  <["A"%string := (localDelete (replica shared_sys2 "A") "A" 0).1]>
    (mark_deleted (localDelete_target (replica shared_sys2 "A") 0) <$> shared_sys2).

(** ** Agent names and the version object *)

(** [Version] is a plain JavaScript object: [version[agent]] on an object
    without an own entry for [agent] reads a property inherited from
    [Object.prototype] when [agent] is one of these names, and [undefined]
    otherwise.  The lookup of the embedding is the lookup of the code for
    every other agent name. *)
Definition inherited_names : list string :=
  [ "constructor"; "__defineGetter__"; "__defineSetter__"; "hasOwnProperty";
    "__lookupGetter__"; "__lookupSetter__"; "isPrototypeOf"; "propertyIsEnumerable";
    "toString"; "valueOf"; "__proto__"; "toLocaleString" ]%string.

Definition plain_agent (agent : string) : Prop := agent ∉ inherited_names.

(** ** A document that makes the YjsMod loop take its branches

    Replica R inserts "r"; A inserts "a" concurrently; B, Z and the new
    item of M are inserted before "r" concurrently; C inserts before "b"
    and D after "b".  The document is A C B D Z R, and the loop for the
    item of M passes "a" ([oright > right]), "c" ([oright < right]), "b"
    (tie, lost), "d" ([oleft > left]) and stops at "z" (tie, won). *)
Definition scan_items : list (Item string) :=
  [ makeItem "r" ("R", 0) None None 0;
    makeItem "a" ("A", 0) None None 0;
    makeItem "b" ("B", 0) None (Some ("R", 0)) 0;
    makeItem "c" ("C", 0) None (Some ("B", 0)) 0;
    makeItem "d" ("D", 0) (Some ("B", 0)) (Some ("R", 0)) 0;
    makeItem "z" ("Z", 0) None (Some ("R", 0)) 0 ]%string.

Definition scan_doc : Doc string :=
  match integrateAll yjsMod newDoc scan_items with Done d => d | _ => newDoc end.

Definition scan_item : Item string :=
  makeItem "m"%string ("M"%string, 0) None (Some ("R"%string, 0)) 0.

(** ** The early break of integrateAutomerge *)

(** Three items handed to [integrate] directly: "o" is a child of "s" with
    a smaller [seq] than its parent. *)
Definition fast_s : Item string := makeItem "s"%string ("A"%string, 0) None None 5.
Definition fast_o : Item string :=
  makeItem "o"%string ("B"%string, 0) (Some ("A"%string, 0)) None 1.
Definition fast_n : Item string := makeItem "n"%string ("C"%string, 0) None None 3.

Definition fast_doc : Doc string :=
  (integrateAutomerge (integrateAutomerge newDoc fast_s (-1)).1 fast_o (-1)).1.

(** [n.seq] is larger than the [seq] of the item of [c] that [n.originLeft]
    names, as it is for the item [localInsert] makes ([seq = maxSeq + 1]). *)
Definition seq_above_left {T} (c : list (Item T)) (n : Item T) : Prop :=
  ∀ y, y ∈ c → originLeft n = Some (item_id y) → item_seq y < item_seq n.

(** Documents built from [newDoc] by successful local inserts and deletes,
    by [integrate] of items with a [seq] above the one of their left
    origin, and by [mergeInto] from such documents when the merged items
    have a [seq] above the one of their left origin in the destination. *)
Inductive am_reachable {T} : Doc T → Prop :=
| amr_newDoc : am_reachable newDoc
| amr_localInsert doc agent pos content doc' :
    am_reachable doc →
    localInsert automerge doc agent pos content = (doc', Ok) →
    am_reachable doc'
| amr_localDelete doc agent pos doc' :
    am_reachable doc →
    localDelete doc agent pos = (doc', Ok) →
    am_reachable doc'
| amr_integrate doc n idx_hint doc' :
    am_reachable doc →
    seq_above_left (doc_content doc) n →
    integrateAutomerge doc n idx_hint = (doc', Ok) →
    am_reachable doc'
| amr_mergeInto doc src doc' :
    am_reachable doc → am_reachable src →
    (∀ x, x ∈ missing_of doc src → seq_above_left (doc_content doc) x) →
    mergeInto automerge doc src = Some (doc', Ok) →
    am_reachable doc'.

(** A document of three items, and an item for which the early break is
    taken at "z": A inserts "x" and "y", the root item "z" of B arrives. *)
Definition fast_z : Item string := makeItem "z"%string ("B"%string, 0) None None 1.

Definition fast_path_doc : Doc string :=
  (integrateAutomerge
     (localInsert automerge (localInsert automerge newDoc "A" 0 "x"%string).1 "A" 1 "y"%string).1
     fast_z (-1)).1.

Definition fast_path_item : Item string :=
  makeItem "n"%string ("C"%string, 0) (Some ("A"%string, 1)) None 3.

(** ** Definitions used by the properties of the operations *)

(** Every entry of a version vector is a sequence number that was
    integrated, so it is [0] or more. *)
Definition version_nonneg (v : Version) : Prop := ∀ a n, v !! a = Some n → 0 <= n.

(** An item whose left anchor is an id that no document holds. *)
Definition orphan_item : Item string :=
  mkItem (Some "x"%string) ("A"%string, 0) (Some ("Z"%string, 0)) None 0 true false.

(** The body of [getArray] on the array of items. *)
Definition contents {T} (l : list (Item T)) : list T :=
  omap item_content (filter (λ i, visible i = true) l).

(** [maxSeq] is an upper bound of the [seq] fields of the document. *)
Definition seq_bounded {T} (doc : Doc T) : Prop :=
  0 <= maxSeq doc ∧ ∀ x, x ∈ doc_content doc → item_seq x <= maxSeq doc.

(** The version vector describes the ids of the content exactly: every
    item has a sequence number from [0] up to the entry of its agent, and
    every such number is the id of an item. *)
Record version_exact {T} (doc : Doc T) : Prop := {
  ve_nonneg : version_nonneg (doc_version doc);
  ve_in : ∀ x, x ∈ doc_content doc →
    0 <= (item_id x).2 ∧ isInVersion (Some (item_id x)) (doc_version doc) = true;
  ve_all : ∀ a s, 0 <= s → isInVersion (Some (a, s)) (doc_version doc) = true →
    ∃ x, x ∈ doc_content doc ∧ item_id x = (a, s);
}.

(** The entries of [missing] that are not [null] are items with content. *)
Definition with_content {T} (missing : list (option (Item T))) : Prop :=
  Forall (λ o, ∀ op, o = Some op → item_content op ≠ None) missing.

(** An item of agent B for the root of a document. *)
Definition root_item_b : Item string := makeItem "y"%string ("B"%string, 0) None None 0.

(** ** Documents of valid histories *)

(** An item of [c] with content has the id [id]. *)
Definition has_id {T} (c : list (Item T)) (id : Id) : Prop :=
  ∃ y, y ∈ c ∧ item_id y = id ∧ item_content y ≠ None.

(** The anchors of [n] are items of [c]. *)
Definition anchored {T} (c : list (Item T)) (n : Item T) : Prop :=
  (∀ id, originLeft n = Some id → has_id c id)
  ∧ (∀ id, originRight n = Some id → has_id c id).

(** The items with content, as the filter of [mergeInto] selects them. *)
Definition content_items {T} (c : list (Item T)) : list (Item T) :=
  filter (λ x, negb (is_null (item_content x)) = true) c.

(** [rank] orders the ids causally: the previous item of the same agent
    and both anchors come before an item. *)
Record causal {T} (c : list (Item T)) (rank : Id → nat) : Prop := {
  rank_pred : ∀ x, x ∈ c → (0 < (item_id x).2)%Z →
    (rank ((item_id x).1, ((item_id x).2 - 1)%Z) < rank (item_id x))%nat;
  rank_left : ∀ x id, x ∈ c → originLeft x = Some id → (rank id < rank (item_id x))%nat;
  rank_right : ∀ x id, x ∈ c → originRight x = Some id → (rank id < rank (item_id x))%nat;
}.

(** Invariant of the documents of valid histories. *)
Record valid_doc {T} (alg : Algorithm) (d : Doc T) : Prop := {
  vd_exact : version_exact d;
  vd_content : ∀ x, x ∈ doc_content d → has_id (doc_content d) (item_id x);
  vd_unique : NoDup (item_id <$> content_items (doc_content d));
  vd_anchored : ∀ x, x ∈ doc_content d → anchored (doc_content d) x;
  vd_causal : ∃ rank, causal (doc_content d) rank;
  vd_forest : alg = automerge → forest (doc_content d);
  vd_seq : alg = automerge → ∀ x, x ∈ doc_content d → 0 <= item_seq x;
  vd_maxSeq : 0 <= maxSeq d;
}.

(** Documents built from [newDoc] by successful local operations, by
    [integrate] of items that have content and whose anchors are items of
    the document, and by [mergeInto] from such documents.  Item objects are
    shared with the documents they were merged into, so a [localDelete]
    through one document marks the item in the others: [valid_marked]. *)
Inductive Valid {T} (alg : Algorithm) : Doc T → Prop :=
| valid_newDoc : Valid alg newDoc
| valid_localInsert doc agent pos content doc' :
    Valid alg doc →
    alg_localInsert alg doc agent pos content = (doc', Ok) →
    Valid alg doc'
| valid_localDelete doc agent pos doc' :
    Valid alg doc →
    localDelete doc agent pos = (doc', Ok) →
    Valid alg doc'
| valid_marked doc target :
    Valid alg doc →
    Valid alg (mark_deleted target doc)
| valid_integrate doc newItem idx_hint doc' :
    Valid alg doc →
    item_content newItem ≠ None →
    anchored (doc_content doc) newItem →
    integrate alg doc newItem idx_hint = (doc', Ok) →
    Valid alg doc'
| valid_mergeInto doc src doc' :
    Valid alg doc → Valid alg src →
    mergeInto alg doc src = Some (doc', Ok) →
    Valid alg doc'.

(** The new rank of an id after the item [n] joined the items [c]. *)
Definition rank_with {T} (rank : Id → nat) (c : list (Item T)) (n : Item T) (id : Id) : nat :=
  if decide (id = item_id n) then S (max_list (rank <$> (item_id <$> c))) else rank id.


(** The anchors of [n] name sequence numbers that are [0] or more. *)
Definition anchors_nonneg {T} (n : Item T) : Prop :=
  (∀ id, originLeft n = Some id → 0 <= id.2) ∧ (∀ id, originRight n = Some id → 0 <= id.2).


(** The state of the loop of [mergeInto(dest, src)]: the entries of
    [missing] that are left are items of [src] with content that the
    destination has not seen, no two of them share an id, and every item
    of [src] with content is among them or seen by the destination. *)
Record merging {T} (alg : Algorithm) (src dest : Doc T) (missing : list (option (Item T)))
    : Prop := {
  mg_dest : valid_doc alg dest;
  mg_from : ∀ op, Some op ∈ missing →
    op ∈ doc_content src ∧ item_content op ≠ None
    ∧ isInVersion (Some (item_id op)) (doc_version dest) = false;
  mg_uniq : ∀ i j x y, missing !! i = Some (Some x) → missing !! j = Some (Some y) →
    item_id x = item_id y → i = j;
  mg_all : ∀ x, x ∈ doc_content src → item_content x ≠ None →
    Some x ∈ missing ∨ isInVersion (Some (item_id x)) (doc_version dest) = true;
}.


(** ** The unused variants of integrateYjsMod *)

(** The loop of [integrateYjsMod2]. *)
Fixpoint yjsMod2_scan {T} (doc : Doc T) (newItem : Item T) (idx_hint left right : Z)
    (rest : list (Item T)) (i destIdx : Z) (scanning : bool) : res Z :=
  let destIdx := if scanning then destIdx else i in
  match rest with
  | [] => inr destIdx
  | other :: rest' =>
      if i =? right then inr destIdx
      else
        match findItem doc (originLeft other) (idx_hint - 1) with
        | inl e => inl e
        | inr oleft =>
            match findRight doc (originRight other) idx_hint with
            | inl e => inl e
            | inr oright =>
                if oleft <? left then inr destIdx
                else if oleft =? left then
                  if oright <? right then
                    yjsMod2_scan doc newItem idx_hint left right rest' (i + 1) destIdx true
                  else if oright =? right then
                    if String.ltb (item_id newItem).1 (item_id other).1 then inr destIdx
                    else yjsMod2_scan doc newItem idx_hint left right rest' (i + 1) destIdx false
                  else yjsMod2_scan doc newItem idx_hint left right rest' (i + 1) destIdx false
                else yjsMod2_scan doc newItem idx_hint left right rest' (i + 1) destIdx scanning
            end
        end
  end.

Definition integrateYjsMod2 {T} (doc : Doc T) (newItem : Item T) (idx_hint : Z) : Doc T * outcome :=
  if negb ((item_id newItem).2 =? lastSeen (doc_version doc) (item_id newItem).1 + 1) then
    (doc, Throw OutOfOrder)
  else
    let doc := set_version doc (item_id newItem).1 (item_id newItem).2 in
    match findItem doc (originLeft newItem) (idx_hint - 1) with
    | inl e => (doc, Throw e)
    | inr left_ =>
        match findRight doc (originRight newItem) idx_hint with
        | inl e => (doc, Throw e)
        | inr right_ =>
            match yjsMod2_scan doc newItem idx_hint left_ right_
                    (drop (Z.to_nat (left_ + 1)) (doc_content doc)) (left_ + 1) (left_ + 1) false with
            | inl e => (doc, Throw e)
            | inr destIdx => (commit doc newItem destIdx, Ok)
            end
        end
    end.

(** The loop of [integrateYjsMod3], with its
    [assert(oright !== right || oleft === oleft)]. *)
Fixpoint yjsMod3_scan {T} (doc : Doc T) (newItem : Item T) (idx_hint left right : Z)
    (rest : list (Item T)) (i destIdx : Z) (scanning : bool) : res Z :=
  let destIdx := if scanning then destIdx else i in
  match rest with
  | [] => inr destIdx
  | other :: rest' =>
      if i =? right then inr destIdx
      else
        match findItem doc (originLeft other) (idx_hint - 1) with
        | inl e => inl e
        | inr oleft =>
            match findRight doc (originRight other) idx_hint with
            | inl e => inl e
            | inr oright =>
                if negb (negb (oright =? right) || (oleft =? oleft)) then inl AssertionError
                else if oleft <? left then inr destIdx
                else if oleft =? left then
                  if oright <? right then
                    yjsMod3_scan doc newItem idx_hint left right rest' (i + 1) destIdx true
                  else if oright =? right then
                    if String.ltb (item_id newItem).1 (item_id other).1 then inr destIdx
                    else yjsMod3_scan doc newItem idx_hint left right rest' (i + 1) destIdx false
                  else yjsMod3_scan doc newItem idx_hint left right rest' (i + 1) destIdx false
                else yjsMod3_scan doc newItem idx_hint left right rest' (i + 1) destIdx scanning
            end
        end
  end.

Definition integrateYjsMod3 {T} (doc : Doc T) (newItem : Item T) (idx_hint : Z) : Doc T * outcome :=
  if negb ((item_id newItem).2 =? lastSeen (doc_version doc) (item_id newItem).1 + 1) then
    (doc, Throw OutOfOrder)
  else
    let doc := set_version doc (item_id newItem).1 (item_id newItem).2 in
    match findItem doc (originLeft newItem) (idx_hint - 1) with
    | inl e => (doc, Throw e)
    | inr left_ =>
        match findRight doc (originRight newItem) idx_hint with
        | inl e => (doc, Throw e)
        | inr right_ =>
            match yjsMod3_scan doc newItem idx_hint left_ right_
                    (drop (Z.to_nat (left_ + 1)) (doc_content doc)) (left_ + 1) (left_ + 1) false with
            | inl e => (doc, Throw e)
            | inr destIdx => (commit doc newItem destIdx, Ok)
            end
        end
    end.


(** ** The first version of the algorithm (src/unnamed/part_000)

    The file holds an earlier, self-contained version of the YjsMod
    integration with its tests: items always have content, documents have
    no [length], lookups take no hint, and the scan keeps the index where
    a conflict started instead of a [scanning] flag. *)
Module Part000.

Record Item (T : Type) : Type := mkItem {
  item_content : T;
  item_id : Id;
  originLeft : option Id;
  originRight : option Id;
  isDeleted : bool;
}.
Arguments mkItem {T}.
Arguments item_content {T}.
Arguments item_id {T}.
Arguments originLeft {T}.
Arguments originRight {T}.
Arguments isDeleted {T}.

Record Doc (T : Type) : Type := mkDoc {
  doc_content : list (Item T);
  doc_version : Version;
}.
Arguments mkDoc {T}.
Arguments doc_content {T}.
Arguments doc_version {T}.

Inductive error := OutOfOrder | ItemNotFound | UnexpectedConflict | AssertionError.

Definition res (A : Type) : Type := error + A.

Inductive outcome := Ok | Throw (e : error).

Definition newDoc {T} : Doc T := {| doc_content := []; doc_version := ∅ |}.

Definition findItem {T} (doc : Doc T) (needle : option Id) : res Z :=
  match needle with
  | None => inr (-1)
  | Some _ =>
      let idx := findIndex (λ it, idEq (Some (item_id it)) needle) (doc_content doc) in
      if idx <? 0 then inl ItemNotFound else inr idx
  end.

(** [newItem.originRight == null ? doc.content.length : findItem(doc, newItem.originRight)] *)
Definition findRight {T} (doc : Doc T) (o : option Id) : res Z :=
  match o with
  | None => inr (lenZ (doc_content doc))
  | Some _ => findItem doc o
  end.

(** The loop of [integrate]; [rest] is [doc.content] from index [i] on. *)
Fixpoint scan {T} (doc : Doc T) (newItem : Item T) (left right : Z)
    (rest : list (Item T)) (i destIdx conflictStart : Z) : res Z :=
  let destIdx := if conflictStart =? -1 then i else destIdx in
  match rest with
  | [] => inr destIdx
  | o :: rest' =>
      if i =? right then inr destIdx
      else
        match findItem doc (originLeft o) with
        | inl e => inl e
        | inr oleft =>
            match findRight doc (originRight o) with
            | inl e => inl e
            | inr oright =>
                if oleft <? left then
                  if 0 <=? conflictStart then inl UnexpectedConflict else inr destIdx
                else if oleft =? left then
                  if oright <? right then scan doc newItem left right rest' (i + 1) destIdx i
                  else if oright =? right then
                    if String.ltb (item_id newItem).1 (item_id o).1 then inr destIdx
                    else scan doc newItem left right rest' (i + 1) destIdx (-1)
                  else scan doc newItem left right rest' (i + 1) destIdx (-1)
                else scan doc newItem left right rest' (i + 1) destIdx conflictStart
            end
        end
  end.

Definition set_version {T} (doc : Doc T) (agent : string) (seq : Z) : Doc T :=
  {| doc_content := doc_content doc; doc_version := <[agent := seq]> (doc_version doc) |}.

Definition integrate {T} (doc : Doc T) (newItem : Item T) : Doc T * outcome :=
  if negb ((item_id newItem).2 =? lastSeen (doc_version doc) (item_id newItem).1 + 1) then
    (doc, Throw OutOfOrder)
  else
    let doc := set_version doc (item_id newItem).1 (item_id newItem).2 in
    match findItem doc (originLeft newItem) with
    | inl e => (doc, Throw e)
    | inr left_ =>
        match findRight doc (originRight newItem) with
        | inl e => (doc, Throw e)
        | inr right_ =>
            match scan doc newItem left_ right_
                    (drop (Z.to_nat (left_ + 1)) (doc_content doc)) (left_ + 1) (left_ + 1) (-1) with
            | inl e => (doc, Throw e)
            | inr destIdx =>
                ({| doc_content := splice (doc_content doc) destIdx newItem;
                    doc_version := doc_version doc |}, Ok)
            end
        end
    end.

(** [makeItem]: the second argument is an agent name, for the id
    [[agent, 0]], or an id. *)
Definition makeItem {T} (content : T) (idOrAgent : string + Id)
    (originLeft originRight : option Id) : Item T :=
  {| item_content := content;
     item_id := match idOrAgent with inl agent => (agent, 0) | inr id => id end;
     isDeleted := false;
     originLeft := originLeft;
     originRight := originRight |}.

(** [doc.content[i]?.id ?? null] *)
Definition idAt {T} (doc : Doc T) (i : Z) : option Id :=
  item_id <$> nthZ (doc_content doc) i.

Definition localInsert {T} (doc : Doc T) (agent : string) (pos : Z) (content : T)
    : Doc T * outcome :=
  integrate doc
    (makeItem content (inr (agent, lastSeen (doc_version doc) agent + 1))
       (idAt doc (pos - 1)) (idAt doc pos)).

Definition getArray {T} (doc : Doc T) : list T := item_content <$> doc_content doc.

Definition canInsertNow {T} (op : Item T) (doc : Doc T) : bool :=
  negb (isInVersion (Some (item_id op)) (doc_version doc))
  && (((item_id op).2 =? 0)
      || isInVersion (Some ((item_id op).1, (item_id op).2 - 1)) (doc_version doc))
  && isInVersion (originLeft op) (doc_version doc)
  && isInVersion (originRight op) (doc_version doc).

Fixpoint merge_pass {T} (dest : Doc T) (missing : list (option (Item T)))
    : Doc T * list (option (Item T)) * Z * outcome :=
  match missing with
  | [] => (dest, [], 0, Ok)
  | None :: rest =>
      let '(d, m, n, r) := merge_pass dest rest in (d, None :: m, n, r)
  | Some op :: rest =>
      if negb (canInsertNow op dest) then
        let '(d, m, n, r) := merge_pass dest rest in (d, Some op :: m, n, r)
      else
        match integrate dest op with
        | (dest', Throw e) => (dest', missing, 0, Throw e)
        | (dest', Ok) =>
            let '(d, m, n, r) := merge_pass dest' rest in (d, None :: m, n + 1, r)
        end
  end.

Fixpoint merge_loop {T} (fuel : nat) (dest : Doc T)
    (missing : list (option (Item T))) (remaining : Z) : option (Doc T * outcome) :=
  if remaining <=? 0 then Some (dest, Ok)
  else
    match fuel with
    | O => None
    | S fuel =>
        let '(dest, missing, mergedOnThisPass, r) := merge_pass dest missing in
        match r with
        | Throw e => Some (dest, Throw e)
        | Ok =>
            if mergedOnThisPass =? 0 then Some (dest, Throw AssertionError)
            else merge_loop fuel dest missing (remaining - mergedOnThisPass)
        end
    end.

Definition mergeInto {T} (dest src : Doc T) : option (Doc T * outcome) :=
  let missing :=
    filter (λ op, negb (isInVersion (Some (item_id op)) (doc_version dest)) = true)
           (doc_content src) in
  merge_loop (List.length missing) dest (Some <$> missing) (lenZ missing).

End Part000.

(** The item of the first version as an item of src/crdts.ts, and its
    document with a given [length]. *)
Definition lift_item {T} (it : Part000.Item T) : Item T :=
  {| item_content := Some (Part000.item_content it);
     item_id := Part000.item_id it;
     originLeft := Part000.originLeft it;
     originRight := Part000.originRight it;
     item_seq := 0;
     insertAfter := true;
     isDeleted := Part000.isDeleted it |}.

Definition lift_doc {T} (doc : Part000.Doc T) (length : Z) : Doc T :=
  {| doc_content := lift_item <$> Part000.doc_content doc;
     doc_version := Part000.doc_version doc;
     doc_length := length;
     maxSeq := 0 |}.

(** Ids are unique and every item is in the version. *)
Definition part000_wf {T} (doc : Part000.Doc T) : Prop :=
  NoDup (Part000.item_id <$> Part000.doc_content doc)
  ∧ ∀ x, x ∈ Part000.doc_content doc →
      isInVersion (Some (Part000.item_id x)) (Part000.doc_version doc) = true.

(** A history of two documents: A inserts "a"; C inserts "c" and merges
    A; C inserts "x" at 1 and A inserts "y" at 1. *)
Definition part000_a1 : Part000.Doc string :=
  (Part000.localInsert Part000.newDoc "A" 0 "a"%string).1.
Definition part000_c1 : Part000.Doc string :=
  (Part000.localInsert Part000.newDoc "C" 0 "c"%string).1.
Definition part000_c2 : Part000.Doc string :=
  (default (Part000.newDoc, Part000.Ok) (Part000.mergeInto part000_c1 part000_a1)).1.
Definition part000_c3 : Part000.Doc string :=
  (Part000.localInsert part000_c2 "C" 1 "x"%string).1.
Definition part000_a2 : Part000.Doc string :=
  (Part000.localInsert part000_a1 "A" 1 "y"%string).1.

(** The array [missing] of the first version as the array of src/crdts.ts. *)
Definition lift_missing {T} (missing : list (option (Part000.Item T)))
    : list (option (Item T)) :=
  fmap (M := list) (option_map (@lift_item T)) missing.

(** ** The replay loop of src/bench.ts *)

(** A patch [[pos, delCount, inserted]] of an editing trace. *)
Definition Patch : Type := Z * Z * string.

(** The body of the two [for] loops of [bench] over the patches of all
    transactions: a patch with a non-empty [inserted] is one local insert
    of agent "A", a patch with [delCount] not [0] one local delete. *)
Fixpoint replay (alg : Algorithm) (doc : Doc string) (patches : list Patch)
    : Doc string * outcome :=
  match patches with
  | [] => (doc, Ok)
  | (pos, delCount, inserted) :: rest =>
      if negb (String.length inserted =? 0)%nat then
        match alg_localInsert alg doc "A" pos inserted with
        | (doc', Ok) => replay alg doc' rest
        | (doc', Throw e) => (doc', Throw e)
        end
      else if negb (delCount =? 0) then
        match localDelete doc "A" pos with
        | (doc', Ok) => replay alg doc' rest
        | (doc', Throw e) => (doc', Throw e)
        end
      else replay alg doc rest
  end.

(** [bench] without the file and the timer: the document after all
    patches of all transactions [txns], from [newDoc]. *)
Definition bench (alg : Algorithm) (txns : list (list Patch)) : Doc string * outcome :=
  replay alg newDoc (concat txns).

(** The same patches applied to an array of strings. *)
Fixpoint edit (l : list string) (patches : list Patch) : option (list string) :=
  match patches with
  | [] => Some l
  | (pos, delCount, inserted) :: rest =>
      if negb (String.length inserted =? 0)%nat then
        if (0 <=? pos) && (pos <=? lenZ l) then edit (splice l pos inserted) rest else None
      else if negb (delCount =? 0) then
        if (0 <=? pos) && (pos <? lenZ l) then edit (delete (Z.to_nat pos) l) rest else None
      else edit l rest
  end.


(** ** The order of an Automerge document *)

(** The key of an item among the items with the same [originLeft]: the
    scan of [integrateAutomerge] puts the higher [seq] first, then the
    smaller agent name; two items of one agent are integrated in the
    order of their ids. *)
Definition akey : Type := Z * Id.

Definition am_key {T} (x : Item T) : akey := (item_seq x, item_id x).

Definition akey_lt (a b : akey) : Prop :=
  b.1 < a.1 ∨ (a.1 = b.1 ∧ key_lt a.2 b.2).

(** Paths of keys are ordered lexicographically, a path standing before
    its extensions. *)
Inductive alex_lt : list akey → list akey → Prop :=
| alex_prefix k q : alex_lt [] (k :: q)
| alex_head a b p q : akey_lt a b → alex_lt (a :: p) (b :: q)
| alex_tail a p q : alex_lt p q → alex_lt (a :: p) (a :: q).

(** The path of an item of [c]: the keys on the [originLeft] chain from
    the root down to the item. *)
Inductive am_path {T} (c : list (Item T)) : Item T → list akey → Prop :=
| am_path_root x :
    x ∈ c → originLeft x = None → am_path c x [am_key x]
| am_path_child x y p :
    x ∈ c → y ∈ c → originLeft x = Some (item_id y) → am_path c y p →
    am_path c x (p ++ [am_key x]).

(** Every item has a path and the items stand in the order of their
    paths: the pre-order of the tree, the children of one item by key. *)
Record am_sorted {T} (c : list (Item T)) : Prop := {
  as_path : ∀ x, x ∈ c → ∃ p, am_path c x p;
  as_sorted : ∀ i j x y p q, (i < j)%nat →
    c !! i = Some x → c !! j = Some y →
    am_path c x p → am_path c y q → alex_lt p q;
}.

(** The order of the items of [c] by their paths of keys. *)
Definition am_path_lt {T} (c : list (Item T)) (x y : Item T) : Prop :=
  ∃ p q, am_path c x p ∧ am_path c y q ∧ alex_lt p q.

(** In a system every item has content, and the copies of one item carry
    one [isDeleted] flag: they are one object. *)
Record am_shared {T} (sys : gmap string (Doc T)) : Prop := {
  sh_content : ∀ x, in_sys sys x → item_content x ≠ None;
  sh_flag : ∀ x y, in_sys sys x → in_sys sys y → item_id x = item_id y →
    isDeleted x = isDeleted y;
}.

(** Invariant of a system under Automerge that gives convergence. *)
Record am_conv {T} (sys : gmap string (Doc T)) : Prop := {
  cv_inv : am_inv sys;
  cv_shared : am_shared sys;
  cv_sorted : ∀ a, am_sorted (doc_content (replica sys a));
}.

(** Replica A inserts "x" and replica B merges the document of A. *)
Definition two_replica_sys : gmap string (Doc string) :=
  <["B"%string :=
      (default (newDoc, Ok)
         (mergeInto automerge (replica one_replica_sys "B") (replica one_replica_sys "A"))).1]>
    one_replica_sys.

(** Replicas A and B each insert one item into their empty documents and
    A merges the document of B. *)
Definition sibling_sys : gmap string (Doc string) :=
  let sys := <["B"%string := (localInsert automerge newDoc "B" 0 "y"%string).1]> one_replica_sys in
  <["A"%string :=
      (default (newDoc, Ok) (mergeInto automerge (replica sys "A") (replica sys "B"))).1]> sys.

Definition sibling_a : Item string :=
  mkItem (Some "x"%string) ("A"%string, 0) None None 1 true false.

Definition sibling_b : Item string :=
  mkItem (Some "y"%string) ("B"%string, 0) None None 1 true false.

(** ** The shape of a Sync9 document *)

(** An item that a lookup of [originLeft] finds stands before the item
    that names it; an item that follows an item with its own id (the
    placeholder of a split) does not stand right after its parent; no
    item names itself. *)
Record sync9_doc {T} (c : list (Item T)) : Prop := {
  s9_parent : ∀ i x a s, c !! i = Some x → originLeft x = Some (a, s) →
    ∃ j y, (j < i)%nat ∧ c !! j = Some y ∧ needle_match (insertAfter x) a s y = true;
  s9_split : ∀ i j x y z, (j < i)%nat → c !! i = Some x → c !! j = Some y →
    item_id y = item_id x → c !! (i - 1)%nat = Some z → originLeft x ≠ Some (item_id z);
  s9_self : ∀ x, x ∈ c → originLeft x ≠ Some (item_id x);
}.

(** ** Items shared between the replicas of a system *)

(** Two items with content and one id, anywhere in the system, are one
    object, and every item with content is in the version of the replica
    that created it. *)
Record sys_shared {T} (sys : gmap string (Doc T)) : Prop := {
  ss_same : ∀ x y, in_sys sys x → in_sys sys y →
    item_content x ≠ None → item_content y ≠ None → item_id x = item_id y → x = y;
  ss_owner : ∀ x, in_sys sys x → item_content x ≠ None →
    isInVersion (Some (item_id x)) (doc_version (replica sys (item_id x).1)) = true;
}.

(** ** The order of a YjsMod document *)

(** The index of the item with id [id], [-1] when there is none. *)
Definition index_of {T} (c : list (Item T)) (id : Id) : Z :=
  findIndex (needle_match false id.1 id.2) c.

(** The indices that [integrateYjsMod] computes for the anchors of an item:
    [-1] for the root and [content.length] for the end. *)
Definition leftIdx {T} (c : list (Item T)) (x : Item T) : Z :=
  match originLeft x with None => -1 | Some id => index_of c id end.

Definition rightIdx {T} (c : list (Item T)) (x : Item T) : Z :=
  match originRight x with None => lenZ c | Some id => index_of c id end.

(** The shape that YjsMod keeps: every item stands between its anchors;
    the items between an item and its left origin are descendants of that
    origin (the document is a pre-order of the tree of left origins); of
    two children of one left origin the first has its right origin at or
    before the second, or a later right origin, or the same right origin
    and the smaller id; and the left origin of the right origin of an
    item is not after the left origin of the item. *)
Record ymod_sorted {T} (c : list (Item T)) : Prop := {
  ys_nodup : NoDup (item_id <$> c);
  ys_left : ∀ i x, nthZ c i = Some x →
    leftIdx c x < i ∧ (originLeft x ≠ None → 0 <= leftIdx c x);
  ys_between : ∀ i x, nthZ c i = Some x → i < rightIdx c x;
  ys_preorder : ∀ i j x y, nthZ c i = Some x → nthZ c j = Some y →
    leftIdx c x < j < i → leftIdx c x <= leftIdx c y;
  ys_sibling : ∀ i j x y, nthZ c i = Some x → nthZ c j = Some y →
    i < j → leftIdx c x = leftIdx c y →
    rightIdx c x <= j ∨ rightIdx c y < rightIdx c x
    ∨ (rightIdx c x = rightIdx c y ∧ key_lt (item_id x) (item_id y));
  ys_right : ∀ i x r, nthZ c i = Some x → nthZ c (rightIdx c x) = Some r →
    leftIdx c r <= leftIdx c x;
}.

(** The index of an item of [c] in [splice c d m]. *)
Definition shift (d k : Z) : Z := if k <? d then k else k + 1.

(** No item of [c] names [id] as an anchor. *)
Definition unreferenced {T} (c : list (Item T)) (id : Id) : Prop :=
  ∀ y, y ∈ c → originLeft y ≠ Some id ∧ originRight y ≠ Some id.

(** The conditions under which [x] may stand at index [d] of [c]. *)
Record fits_at {T} (c : list (Item T)) (x : Item T) (d : Z) : Prop := {
  fa_range : leftIdx c x < d <= rightIdx c x;
  fa_left : originLeft x ≠ None → 0 <= leftIdx c x;
  fa_inside : ∀ k y, nthZ c k = Some y → leftIdx c x < k < d → leftIdx c x <= leftIdx c y;
  fa_outside : ∀ k y, nthZ c k = Some y → d <= k → leftIdx c y < d → leftIdx c y <= leftIdx c x;
  fa_before : ∀ k y, nthZ c k = Some y → k < d → leftIdx c y = leftIdx c x →
    rightIdx c y < d ∨ rightIdx c x < rightIdx c y
    ∨ (rightIdx c y = rightIdx c x ∧ key_lt (item_id y) (item_id x));
  fa_after : ∀ k y, nthZ c k = Some y → d <= k → leftIdx c y = leftIdx c x →
    rightIdx c x <= k ∨ rightIdx c y < rightIdx c x
    ∨ (rightIdx c x = rightIdx c y ∧ key_lt (item_id x) (item_id y));
  fa_right : ∀ r, nthZ c (rightIdx c x) = Some r → leftIdx c r <= leftIdx c x;
}.

(** The state of the loop of [integrateYjsMod] at index [i]: [e] is the
    index at which the item would be inserted if the loop ended here. *)
Record scan_inv {T} (c : list (Item T)) (x : Item T) (i e : Z) (scanning : bool) : Prop := {
  si_range : leftIdx c x < e <= i ∧ i <= rightIdx c x;
  si_inside : ∀ k y, nthZ c k = Some y → leftIdx c x < k < i → leftIdx c x <= leftIdx c y;
  si_before : ∀ k y, nthZ c k = Some y → k < e → leftIdx c y = leftIdx c x →
    rightIdx c y < e ∨ rightIdx c x < rightIdx c y
    ∨ (rightIdx c y = rightIdx c x ∧ key_lt (item_id y) (item_id x));
  si_after : ∀ k y, nthZ c k = Some y → e <= k < i → leftIdx c y = leftIdx c x →
    rightIdx c y < rightIdx c x;
  si_frozen : if scanning then ∃ y, nthZ c e = Some y ∧ leftIdx c y = leftIdx c x else e = i;
}.

(** ** A system with concurrent inserts between two items *)

(** The system after replica [a] inserted [content] at [pos], and after
    replica [a] merged the document of replica [b]. *)
Definition sys_insert {T} (alg : Algorithm) (sys : gmap string (Doc T))
    (a : string) (pos : Z) (content : T) : gmap string (Doc T) :=
  <[a := (alg_localInsert alg (replica sys a) a pos content).1]> sys.

Definition sys_merge {T} (alg : Algorithm) (sys : gmap string (Doc T))
    (a b : string) : gmap string (Doc T) :=
  <[a := (default (newDoc, Ok) (mergeInto alg (replica sys a) (replica sys b))).1]> sys.

(** Replica A inserts "a" and "c", and B and C merge the document of A.
    Then A inserts "x" and B inserts "y" between "a" and "c", while C
    inserts "w" at the start and "z" at the end.  A merges B and C, and B
    merges A. *)
Definition conv_sys_base : gmap string (Doc string) :=
  sys_merge yjsMod
    (sys_merge yjsMod
       (sys_insert yjsMod (sys_insert yjsMod ∅ "A" 0 "a"%string) "A" 1 "c"%string)
       "B" "A")
    "C" "A".

Definition conv_sys_edits : gmap string (Doc string) :=
  sys_insert yjsMod
    (sys_insert yjsMod
       (sys_insert yjsMod
          (sys_insert yjsMod conv_sys_base "A" 1 "x"%string)
          "B" 1 "y"%string)
       "C" 0 "w"%string)
    "C" 3 "z"%string.

Definition conv_sys : gmap string (Doc string) :=
  sys_merge yjsMod
    (sys_merge yjsMod (sys_merge yjsMod conv_sys_edits "A" "B") "A" "C")
    "B" "A".

(** The items of replica A in two other orders that pick only ready
    items: "a", "c", "w", "x", "y", "z" and "a", "w", "c", "x", "y", "z". *)
Definition conv_order : list (Item string) :=
  match doc_content (replica conv_sys "A") with
  | [w; a; x; y; c; z] => [a; c; w; x; y; z]
  | l => l
  end.

Definition conv_order2 : list (Item string) :=
  match doc_content (replica conv_sys "A") with
  | [w; a; x; y; c; z] => [a; w; c; x; y; z]
  | l => l
  end.

(** * Properties *)

(** *** Arrays *)

Lemma nthZ_Some {A} (l : list A) i x :
  nthZ l i = Some x ↔ 0 <= i ∧ l !! Z.to_nat i = Some x.
Proof.
  unfold nthZ. destruct (i <? 0) eqn:E.
  - apply Z.ltb_lt in E. split; [done | lia].
  - apply Z.ltb_ge in E. tauto.
Qed.

Lemma nthZ_lt {A} (l : list A) i x : nthZ l i = Some x → 0 <= i < lenZ l.
Proof.
  intros [H0 H]%nthZ_Some. apply lookup_lt_Some in H. unfold lenZ. lia.
Qed.

Lemma nthZ_is_Some {A} (l : list A) i : 0 <= i < lenZ l → is_Some (nthZ l i).
Proof.
  unfold lenZ, nthZ. intros H. destruct (i <? 0) eqn:E; [lia|].
  apply lookup_lt_is_Some. lia.
Qed.

Lemma findIndex_from_spec {A} (p : A → bool) l i :
  0 <= i →
  (findIndex_from p l i = -1 ∧ ∀ x, x ∈ l → p x = false) ∨
  ∃ n x, findIndex_from p l i = i + Z.of_nat n ∧ l !! n = Some x ∧ p x = true
         ∧ ∀ m y, (m < n)%nat → l !! m = Some y → p y = false.
Proof.
  revert i. induction l as [|a l IH]; intros i Hi; simpl.
  - left. split; [done|]. intros x Hx. by apply elem_of_nil in Hx.
  - destruct (p a) eqn:Ha.
    + right. exists 0%nat, a. repeat split; [lia|done|]. intros; lia.
    + destruct (IH (i + 1)) as [[H1 H2]|(n & x & H1 & H2 & H3 & H4)]; [lia| |].
      * left. split; [done|]. intros x [->|Hx]%elem_of_cons; auto.
      * right. exists (S n), x. repeat split; [lia|done|done|].
        intros [|m] y Hm Hy; simpl in Hy; [congruence|]. eapply H4; [|done]. lia.
Qed.

Lemma findIndex_spec {A} (p : A → bool) l :
  (findIndex p l = -1 ∧ ∀ x, x ∈ l → p x = false) ∨
  ∃ n x, findIndex p l = Z.of_nat n ∧ l !! n = Some x ∧ p x = true
         ∧ ∀ m y, (m < n)%nat → l !! m = Some y → p y = false.
Proof.
  unfold findIndex. destruct (findIndex_from_spec p l 0) as [?|(n & x & H)]; [lia|by left|].
  right. exists n, x. by rewrite Z.add_0_l in H.
Qed.

(** *** findItem2 *)

Lemma findItem2_root {T} (doc : Doc T) atEnd hint : findItem2 doc None atEnd hint = inr (-1).
Proof. done. Qed.

(** A successful lookup of a present needle returns the index of an item
    that passes the test. *)
Lemma findItem2_inr {T} (doc : Doc T) agent seq atEnd hint idx :
  findItem2 doc (Some (agent, seq)) atEnd hint = inr idx →
  ∃ it, nthZ (doc_content doc) idx = Some it ∧ needle_match atEnd agent seq it = true.
Proof.
  unfold findItem2.
  destruct ((0 <=? hint) && (hint <? lenZ (doc_content doc))) eqn:Hr.
  - destruct (nthZ (doc_content doc) hint) as [h|] eqn:Hh.
    + destruct (needle_match atEnd agent seq h) eqn:Hm.
      * intros [= <-]. eauto.
      * destruct (findIndex_spec (needle_match atEnd agent seq) (doc_content doc))
          as [[-> _]|(n & x & -> & Hx & Hp & _)]; simpl.
        -- done.
        -- destruct (Z.of_nat n <? 0) eqn:E; [apply Z.ltb_lt in E; lia|].
           intros [= <-]. exists x. split; [|done]. apply nthZ_Some. rewrite Nat2Z.id. split; [lia|done].
    + destruct (findIndex_spec (needle_match atEnd agent seq) (doc_content doc))
          as [[-> _]|(n & x & -> & Hx & Hp & _)]; simpl; [done|].
      destruct (Z.of_nat n <? 0) eqn:E; [apply Z.ltb_lt in E; lia|].
      intros [= <-]. exists x. split; [|done]. apply nthZ_Some. rewrite Nat2Z.id. split; [lia|done].
  - destruct (findIndex_spec (needle_match atEnd agent seq) (doc_content doc))
          as [[-> _]|(n & x & -> & Hx & Hp & _)]; simpl; [done|].
    destruct (Z.of_nat n <? 0) eqn:E; [apply Z.ltb_lt in E; lia|].
    intros [= <-]. exists x. split; [|done]. apply nthZ_Some. rewrite Nat2Z.id. split; [lia|done].
Qed.

(** The lookup without a hint is [findIndex] alone. *)
Lemma findItem2_nohint {T} (doc : Doc T) agent seq atEnd :
  findItem2 doc (Some (agent, seq)) atEnd (-1) =
  let idx := findIndex (needle_match atEnd agent seq) (doc_content doc) in
  if idx <? 0 then inl ItemNotFound else inr idx.
Proof. done. Qed.

(** Either the hint is not taken and the lookup is the one without a hint,
    or the hinted item passes the test and the hint is returned. *)
Lemma findItem2_hint_cases {T} (doc : Doc T) needle atEnd hint :
  findItem2 doc needle atEnd hint = findItem2 doc needle atEnd (-1) ∨
  ∃ agent seq it, needle = Some (agent, seq) ∧ nthZ (doc_content doc) hint = Some it
    ∧ needle_match atEnd agent seq it = true ∧ findItem2 doc needle atEnd hint = inr hint.
Proof.
  destruct needle as [[agent seq]|]; [|by left].
  destruct ((0 <=? hint) && (hint <? lenZ (doc_content doc))) eqn:Hr;
    [|left; unfold findItem2; by rewrite Hr].
  destruct (nthZ (doc_content doc) hint) as [h|] eqn:Hh;
    [|left; unfold findItem2; by rewrite Hr, Hh].
  destruct (needle_match atEnd agent seq h) eqn:Hm;
    [|left; unfold findItem2; by rewrite Hr, Hh, Hm].
  right. exists agent, seq, h. repeat split; [done..|].
  unfold findItem2. by rewrite Hr, Hh, Hm.
Qed.

Lemma findItem2_nohint_inr {T} (doc : Doc T) agent seq atEnd idx :
  findItem2 doc (Some (agent, seq)) atEnd (-1) = inr idx ↔
  ∃ it, nthZ (doc_content doc) idx = Some it ∧ needle_match atEnd agent seq it = true
        ∧ ∀ j y, 0 <= j < idx → nthZ (doc_content doc) j = Some y →
                 needle_match atEnd agent seq y = false.
Proof.
  rewrite findItem2_nohint. simpl.
  destruct (findIndex_spec (needle_match atEnd agent seq) (doc_content doc))
    as [[-> Hno]|(n & x & -> & Hx & Hp & Hfirst)].
  - simpl. split; [done|]. intros (it & Hit & Hm & _).
    apply nthZ_Some in Hit as [_ Hit]. apply list_elem_of_lookup_2 in Hit.
    rewrite (Hno _ Hit) in Hm. done.
  - destruct (Z.of_nat n <? 0) eqn:E; [apply Z.ltb_lt in E; lia|]. split.
    + intros [= <-]. exists x. split; [apply nthZ_Some; rewrite Nat2Z.id; split; [lia|done]|].
      split; [done|]. intros j y Hj [_ Hy]%nthZ_Some. eapply Hfirst; [|done]. lia.
    + intros (it & [H0 Hit]%nthZ_Some & Hm & Hf). f_equal.
      destruct (Z.lt_total (Z.of_nat n) idx) as [Hlt|[Heq|Hgt]]; [|done|].
      * rewrite (Hf (Z.of_nat n) x) in Hp; [done|lia|].
        apply nthZ_Some. rewrite Nat2Z.id. split; [lia|done].
      * rewrite (Hfirst (Z.to_nat idx) it) in Hm; [done|lia|done].
Qed.

Lemma findItem2_nohint_inl {T} (doc : Doc T) agent seq atEnd e :
  findItem2 doc (Some (agent, seq)) atEnd (-1) = inl e ↔
  e = ItemNotFound ∧ ∀ it, it ∈ doc_content doc → needle_match atEnd agent seq it = false.
Proof.
  rewrite findItem2_nohint. simpl.
  destruct (findIndex_spec (needle_match atEnd agent seq) (doc_content doc))
    as [[-> Hno]|(n & x & -> & Hx & Hp & Hfirst)]; simpl.
  - split; [by intros [= <-]|]. by intros [-> _].
  - destruct (Z.of_nat n <? 0) eqn:E; [apply Z.ltb_lt in E; lia|]. split; [done|].
    intros [_ Hno]. apply list_elem_of_lookup_2 in Hx. rewrite (Hno _ Hx) in Hp. done.
Qed.

(** The only error of a lookup is [ItemNotFound]. *)
Lemma findItem2_inl {T} (doc : Doc T) needle atEnd hint e :
  findItem2 doc needle atEnd hint = inl e → e = ItemNotFound.
Proof.
  destruct (findItem2_hint_cases doc needle atEnd hint) as [->|(?&?&?&?&?&?&->)]; [|done].
  destruct needle as [[agent seq]|]; [|done]. by intros [-> _]%findItem2_nohint_inl.
Qed.

(** C8, as stated, fails: in the split Sync9 document the two halves of A's
    item share an id, and the hint 2 returns the second half while the
    lookup without a hint returns the first. *)
Lemma findItem2_hint_changes_index :
  ¬ (∀ (doc : Doc string) needle atEnd hint,
       findItem2 doc needle atEnd hint = findItem2 doc needle atEnd (-1)).
Proof.
  intros H. specialize (H sync9_split_doc (Some ("A"%string, 0)) false 2).
  vm_compute in H. discriminate H.
Qed.

(** C8 (amended): the hint never changes whether the needle is found, the
    index returned holds an item that passes the test of the lookup, and
    when at most one item of the document passes that test the hinted
    lookup returns the same index as the lookup without a hint. *)
Theorem findItem2_hint_transparent {T} (doc : Doc T) needle atEnd hint :
  is_found (findItem2 doc needle atEnd hint) = is_found (findItem2 doc needle atEnd (-1))
  ∧ (∀ idx agent seq, needle = Some (agent, seq) → findItem2 doc needle atEnd hint = inr idx →
       ∃ it, nthZ (doc_content doc) idx = Some it ∧ needle_match atEnd agent seq it = true)
  ∧ ((∀ agent seq i j a b, needle = Some (agent, seq) →
        nthZ (doc_content doc) i = Some a → nthZ (doc_content doc) j = Some b →
        needle_match atEnd agent seq a = true → needle_match atEnd agent seq b = true → i = j) →
     findItem2 doc needle atEnd hint = findItem2 doc needle atEnd (-1)).
Proof.
  split; [|split].
  - destruct (findItem2_hint_cases doc needle atEnd hint)
      as [->|(agent & seq & it & -> & Hit & Hm & ->)]; [done|].
    destruct (findItem2 doc (Some (agent, seq)) atEnd (-1)) as [e|] eqn:E; [|done].
    apply findItem2_nohint_inl in E as [_ Hno].
    apply nthZ_Some in Hit as [_ Hit]. apply list_elem_of_lookup_2 in Hit.
    rewrite (Hno _ Hit) in Hm. done.
  - intros idx agent seq -> H. by apply findItem2_inr in H.
  - intros Huniq.
    destruct (findItem2_hint_cases doc needle atEnd hint)
      as [->|(agent & seq & it & -> & Hit & Hm & ->)]; [done|]. symmetry.
    apply findItem2_nohint_inr. exists it. repeat split; [done..|].
    intros j y Hj Hy. destruct (needle_match atEnd agent seq y) eqn:Hmy; [|done].
    specialize (Huniq agent seq j hint y it eq_refl Hy Hit Hmy Hm). lia.
Qed.

Lemma findItem2_hint_transparent_witness :
  findItem2 one_item_doc (Some ("A"%string, 0)) false 0
  = findItem2 one_item_doc (Some ("A"%string, 0)) false (-1).
Proof.
  refine (proj2 (proj2 (findItem2_hint_transparent one_item_doc _ false 0)) _).
  intros agent seq i j a b _ Ha%nthZ_lt Hb%nthZ_lt _ _.
  vm_compute in Ha, Hb. destruct Ha as [? Ha], Hb as [? Hb].
  destruct i, j; try done; destruct p; done.
Defined.

(** *** Errors of the scans *)

Lemma findRight_inl {T} (doc : Doc T) o hint e : findRight doc o hint = inl e → e = ItemNotFound.
Proof. destruct o; [apply findItem2_inl|done]. Qed.

Ltac scan_err IH :=
  repeat match goal with
  | |- inr _ = inl _ → _ => discriminate
  | |- inl _ = inl _ → _ => intros [= <-]
  | H : findItem _ _ _ = inl _ |- _ => apply findItem2_inl in H; subst
  | H : findItem2 _ _ _ _ = inl _ |- _ => apply findItem2_inl in H; subst
  | H : findRight _ _ _ = inl _ |- _ => apply findRight_inl in H; subst
  | |- context [match ?x with inl _ => _ | inr _ => _ end] => destruct x eqn:?
  | |- context [if ?b then _ else _] => destruct b eqn:?
  | |- _ ≠ OutOfOrder => discriminate
  | |- _ => by apply IH
  end.

Lemma yjsMod_scan_error {T} (doc : Doc T) n hint l r rest i d s e :
  yjsMod_scan doc n hint l r rest i d s = inl e → e ≠ OutOfOrder.
Proof.
  revert i d s. induction rest as [|o rest IH]; intros i d s; simpl; [done|]. scan_err IH.
Qed.

Lemma yjs_scan_error {T} (doc : Doc T) n hint l r rest i d s e :
  yjs_scan doc n hint l r rest i d s = inl e → e ≠ OutOfOrder.
Proof.
  revert i d s. induction rest as [|o rest IH]; intros i d s; simpl; [done|]. scan_err IH.
Qed.

Lemma automerge_scan_error {T} fast (doc : Doc T) n hint p rest d lc e :
  automerge_scan fast doc n hint p rest d lc = inl e → e ≠ OutOfOrder.
Proof.
  revert d lc. induction rest as [|o rest IH]; intros d lc; simpl; [done|]. scan_err IH.
Qed.

Lemma sync9_scan_error {T} (doc : Doc T) n hint p rest d e :
  sync9_scan doc n hint p rest d = inl e → e ≠ OutOfOrder.
Proof.
  revert d. induction rest as [|o rest IH]; intros d; simpl; [done|]. scan_err IH.
Qed.

(** *** The sequence check of [integrate] *)

Lemma commit_version {T} (doc : Doc T) n d : doc_version (commit doc n d) = doc_version doc.
Proof. unfold commit. by destruct (isDeleted n). Qed.

Lemma commitSync9_version {T} (doc : Doc T) n d : doc_version (commitSync9 doc n d) = doc_version doc.
Proof. unfold commitSync9. by destruct (_ && _). Qed.

Lemma integrateYjsMod_not_ready {T} (doc : Doc T) n hint :
  ¬ seq_ready doc n → integrateYjsMod doc n hint = (doc, Throw OutOfOrder).
Proof.
  unfold seq_ready, integrateYjsMod. intros H.
  destruct (Z.eqb_spec (item_id n).2 (lastSeen (doc_version doc) (item_id n).1 + 1)); done.
Qed.

Lemma integrateYjsMod_ready {T} (doc : Doc T) n hint :
  seq_ready doc n →
  doc_version (integrateYjsMod doc n hint).1 = <[(item_id n).1 := (item_id n).2]> (doc_version doc)
  ∧ (integrateYjsMod doc n hint).2 ≠ Throw OutOfOrder.
Proof.
  unfold seq_ready, integrateYjsMod. intros ->. rewrite Z.eqb_refl. simpl.
  destruct (findItem _ _ _) as [e|l] eqn:El; simpl.
  { apply findItem2_inl in El as ->. done. }
  destruct (findRight _ _ _) as [e|r] eqn:Er; simpl.
  { apply findRight_inl in Er as ->. done. }
  destruct (yjsMod_scan _ _ _ _ _ _ _ _ _) as [e|d] eqn:Es; simpl.
  - apply yjsMod_scan_error in Es. split; [done|congruence].
  - by rewrite commit_version.
Qed.

Lemma integrateYjs_not_ready {T} (doc : Doc T) n hint :
  ¬ seq_ready doc n → integrateYjs doc n hint = (doc, Throw OutOfOrder).
Proof.
  unfold seq_ready, integrateYjs. intros H.
  destruct (Z.eqb_spec (item_id n).2 (lastSeen (doc_version doc) (item_id n).1 + 1)); done.
Qed.

Lemma integrateYjs_ready {T} (doc : Doc T) n hint :
  seq_ready doc n →
  doc_version (integrateYjs doc n hint).1 = <[(item_id n).1 := (item_id n).2]> (doc_version doc)
  ∧ (integrateYjs doc n hint).2 ≠ Throw OutOfOrder.
Proof.
  unfold seq_ready, integrateYjs. intros ->. rewrite Z.eqb_refl. simpl.
  destruct (findItem _ _ _) as [e|l] eqn:El; simpl.
  { apply findItem2_inl in El as ->. done. }
  destruct (findRight _ _ _) as [e|r] eqn:Er; simpl.
  { apply findRight_inl in Er as ->. done. }
  destruct (yjs_scan _ _ _ _ _ _ _ _ _) as [e|d] eqn:Es; simpl.
  - apply yjs_scan_error in Es. split; [done|congruence].
  - by rewrite commit_version.
Qed.

Lemma integrateAutomerge_negative_seq {T} fast (doc : Doc T) n hint :
  item_seq n < 0 → integrateAutomerge_gen fast doc n hint = (doc, Throw AssertionError).
Proof.
  unfold integrateAutomerge_gen. intros H.
  destruct (Z.leb_spec 0 (item_seq n)); [lia|done].
Qed.

Lemma integrateAutomerge_not_ready {T} fast (doc : Doc T) n hint :
  0 <= item_seq n → ¬ seq_ready doc n →
  integrateAutomerge_gen fast doc n hint = (doc, Throw OutOfOrder).
Proof.
  unfold seq_ready, integrateAutomerge_gen. intros H0 H.
  destruct (Z.leb_spec 0 (item_seq n)); [|lia]. simpl.
  destruct (Z.eqb_spec (item_id n).2 (lastSeen (doc_version doc) (item_id n).1 + 1)); done.
Qed.

Lemma integrateAutomerge_ready {T} fast (doc : Doc T) n hint :
  0 <= item_seq n → seq_ready doc n →
  doc_version (integrateAutomerge_gen fast doc n hint).1
    = <[(item_id n).1 := (item_id n).2]> (doc_version doc)
  ∧ (integrateAutomerge_gen fast doc n hint).2 ≠ Throw OutOfOrder.
Proof.
  unfold seq_ready, integrateAutomerge_gen. intros H0 ->.
  destruct (Z.leb_spec 0 (item_seq n)); [|lia]. rewrite Z.eqb_refl. simpl.
  destruct (findItem _ _ _) as [e|l] eqn:El; simpl.
  { apply findItem2_inl in El as ->. done. }
  destruct (automerge_scan _ _ _ _ _ _ _ _) as [e|d] eqn:Es; simpl.
  - apply automerge_scan_error in Es. split; [done|congruence].
  - rewrite commit_version. by destruct (_ <? _).
Qed.

Lemma integrateSync9_not_ready {T} (doc : Doc T) n hint :
  ¬ seq_ready doc n → integrateSync9 doc n hint = (doc, Throw OutOfOrder).
Proof.
  unfold seq_ready, integrateSync9. destruct (item_id n) as [agent seq]. simpl. intros H.
  destruct (Z.eqb_spec seq (lastSeen (doc_version doc) agent + 1)); done.
Qed.

Lemma sync9_walk_version {T} (doc : Doc T) n hint p :
  doc_version (sync9_walk doc n hint p).1 = doc_version doc
  ∧ (sync9_walk doc n hint p).2 ≠ Throw OutOfOrder.
Proof.
  unfold sync9_walk. destruct (sync9_scan _ _ _ _ _ _) as [e|d] eqn:Es; simpl.
  - apply sync9_scan_error in Es. split; [done|congruence].
  - by rewrite commitSync9_version.
Qed.

Lemma integrateSync9_ready {T} (doc : Doc T) n hint :
  seq_ready doc n →
  doc_version (integrateSync9 doc n hint).1 = <[(item_id n).1 := (item_id n).2]> (doc_version doc)
  ∧ (integrateSync9 doc n hint).2 ≠ Throw OutOfOrder.
Proof.
  unfold seq_ready, integrateSync9. destruct (item_id n) as [agent seq]. simpl. intros ->.
  rewrite Z.eqb_refl. simpl.
  destruct (findItem2 _ _ _ _) as [e|p] eqn:El; simpl.
  { apply findItem2_inl in El as ->. done. }
  destruct (_ && _); [|apply sync9_walk_version].
  destruct (nthZ _ _) as [pi|]; [|done].
  destruct (negb _); [|apply sync9_walk_version].
  simpl. by rewrite commitSync9_version.
Qed.

(** C7, as stated, fails for Automerge: [assert(newItem.seq >= 0)] runs
    before the sequence check, so an out-of-order item with a negative
    [seq] raises an assertion error, not "Operations out of order". *)
Lemma integrate_out_of_order_not_iff :
  ¬ seq_ready (@newDoc string) negative_seq_item
  ∧ integrate automerge newDoc negative_seq_item (-1) = (newDoc, Throw AssertionError)
  ∧ ¬ (∀ alg (doc : Doc string) n hint,
         (integrate alg doc n hint).2 = Throw OutOfOrder ↔ ¬ seq_ready doc n).
Proof.
  assert (¬ seq_ready (@newDoc string) negative_seq_item) as Hn by (vm_compute; discriminate).
  split; [done|]. split; [reflexivity|].
  intros H. destruct (H automerge newDoc negative_seq_item (-1)) as [_ H2].
  specialize (H2 Hn). vm_compute in H2. discriminate H2.
Qed.

(** C7 (amended): for Yjs, YjsMod and Sync9 on every item, and for Automerge
    on every item whose [seq] is not negative, [integrate] fails with
    OutOfOrder iff the sequence check fails; on that failure the document
    is unchanged; and when the check passes the document the call leaves
    behind (whether the call then succeeds or a lookup throws) has
    [version[N.id.agent] = N.id.seq]. *)
Theorem integrate_out_of_order {T} alg (doc : Doc T) n hint :
  (alg = automerge → 0 <= item_seq n) →
  ((integrate alg doc n hint).2 = Throw OutOfOrder ↔ ¬ seq_ready doc n)
  ∧ ((integrate alg doc n hint).2 = Throw OutOfOrder → (integrate alg doc n hint).1 = doc)
  ∧ (seq_ready doc n →
     doc_version (integrate alg doc n hint).1 !! (item_id n).1 = Some (item_id n).2).
Proof.
  intros Ham.
  assert (seq_ready doc n ∨ ¬ seq_ready doc n) as [Hr|Hr].
  { unfold seq_ready. destruct (Z.eq_dec (item_id n).2 (lastSeen (doc_version doc) (item_id n).1 + 1)); auto. }
  - assert (doc_version (integrate alg doc n hint).1
            = <[(item_id n).1 := (item_id n).2]> (doc_version doc)
            ∧ (integrate alg doc n hint).2 ≠ Throw OutOfOrder) as [Hv Hne].
    { destruct alg; simpl.
      - by apply integrateYjs_ready.
      - by apply integrateYjsMod_ready.
      - apply integrateAutomerge_ready; auto.
      - by apply integrateSync9_ready. }
    split; [tauto|]. split; [done|]. intros _. rewrite Hv. apply lookup_insert_eq.
  - assert (integrate alg doc n hint = (doc, Throw OutOfOrder)) as ->.
    { destruct alg; simpl.
      - by apply integrateYjs_not_ready.
      - by apply integrateYjsMod_not_ready.
      - apply integrateAutomerge_not_ready; auto.
      - by apply integrateSync9_not_ready. }
    simpl. tauto.
Qed.

Lemma integrate_out_of_order_witness :
  ((integrate automerge one_item_doc sync9_before_item 0).2 = Throw OutOfOrder
   ↔ ¬ seq_ready one_item_doc sync9_before_item)
  ∧ ((integrate automerge one_item_doc sync9_before_item 0).2 = Throw OutOfOrder
     → (integrate automerge one_item_doc sync9_before_item 0).1 = one_item_doc)
  ∧ (seq_ready one_item_doc sync9_before_item →
     doc_version (integrate automerge one_item_doc sync9_before_item 0).1 !! "B"%string
     = Some 0).
Proof.
  apply (integrate_out_of_order automerge one_item_doc sync9_before_item 0).
  intros _. vm_compute. discriminate.
Defined.

(** *** findItemAtPos and localDelete *)

Lemma visible_count_cons {T} (it : Item T) l :
  visible_count (it :: l) = (if visible it then 1 else 0) + visible_count l.
Proof.
  unfold visible_count, lenZ. rewrite filter_cons.
  destruct (decide (visible it = true)) as [->|Hn]; simpl; [lia|].
  apply not_true_is_false in Hn. rewrite Hn. lia.
Qed.

Lemma visible_count_nonneg {T} (l : list (Item T)) : 0 <= visible_count l.
Proof. unfold visible_count, lenZ. lia. Qed.

Lemma not_visible {T} (it : Item T) :
  isDeleted it || is_null (item_content it) = negb (visible it).
Proof. unfold visible. by destruct (isDeleted it), (is_null _). Qed.

Lemma findItemAtPos_from_inside {T} (l : list (Item T)) i pos :
  0 <= pos < visible_count l →
  ∃ n it, findItemAtPos_from l i pos false = inr (i + Z.of_nat n)
          ∧ l !! n = Some it ∧ visible it = true.
Proof.
  revert i pos. induction l as [|a l IH]; intros i pos Hpos.
  - unfold visible_count, lenZ in Hpos. simpl in Hpos. lia.
  - rewrite visible_count_cons in Hpos. simpl. rewrite not_visible.
    destruct (visible a) eqn:Hv; simpl.
    + destruct (Z.eqb_spec pos 0) as [->|Hne].
      * exists 0%nat, a. by rewrite Z.add_0_r.
      * destruct (IH (i + 1) (pos - 1)) as (n & it & -> & H1 & H2); [lia|].
        exists (S n), it. split; [f_equal; lia|done].
    + destruct (IH (i + 1) pos) as (n & it & -> & H1 & H2); [lia|].
      exists (S n), it. split; [f_equal; lia|done].
Qed.

Lemma findItemAtPos_from_end {T} (l : list (Item T)) i :
  findItemAtPos_from l i (visible_count l) false = inr (i + lenZ l).
Proof.
  revert i. induction l as [|a l IH]; intros i.
  - simpl. by rewrite Z.add_0_r.
  - rewrite visible_count_cons. simpl. rewrite not_visible.
    pose proof (visible_count_nonneg l).
    destruct (visible a) eqn:Hv; simpl.
    + destruct (Z.eqb_spec (1 + visible_count l) 0); [lia|].
      replace (1 + visible_count l - 1) with (visible_count l) by lia.
      rewrite IH. f_equal. unfold lenZ. simpl. lia.
    + rewrite IH. f_equal. unfold lenZ. simpl. lia.
Qed.

Lemma findItemAtPos_from_past {T} (l : list (Item T)) i pos :
  visible_count l < pos → findItemAtPos_from l i pos false = inl PastEnd.
Proof.
  revert i pos. induction l as [|a l IH]; intros i pos Hpos.
  - unfold visible_count, lenZ in Hpos. simpl in *.
    destruct (Z.eqb_spec pos 0); [lia|done].
  - rewrite visible_count_cons in Hpos. simpl. rewrite not_visible.
    pose proof (visible_count_nonneg l).
    destruct (visible a) eqn:Hv; simpl.
    + destruct (Z.eqb_spec pos 0); [lia|]. apply IH. lia.
    + apply IH. lia.
Qed.

Lemma findItemAtPos_from_negative {T} (l : list (Item T)) i pos :
  pos < 0 → findItemAtPos_from l i pos false = inl PastEnd.
Proof.
  revert i pos. induction l as [|a l IH]; intros i pos Hpos; simpl.
  - destruct (Z.eqb_spec pos 0); [lia|done].
  - destruct (isDeleted a || is_null (item_content a)); [by apply IH|].
    destruct (Z.eqb_spec pos 0); [lia|]. apply IH. lia.
Qed.

(** C10, as stated, fails for a negative position: [-1] is below the
    number of visible items, yet [findItemAtPos] never meets [pos === 0]
    and the call fails with "past end of the document". *)
Lemma localDelete_negative_pos :
  -1 < visible_count (doc_content one_item_doc)
  ∧ localDelete one_item_doc "A" (-1) = (one_item_doc, Throw PastEnd)
  ∧ ¬ (∀ (doc : Doc string) agent pos, pos < visible_count (doc_content doc) →
         ∃ doc', localDelete doc agent pos = (doc', Ok)).
Proof.
  split; [done|]. split; [reflexivity|].
  intros H. destruct (H one_item_doc "A"%string (-1)) as [doc' H']; [done|].
  vm_compute in H'. discriminate H'.
Qed.

(** C10 (amended): with L the number of visible items of the document,
    [localDelete] at a position [0 <= pos < L] finds an item that has
    content and is not deleted, so the guard passes; in the document it
    leaves, the item at that index is the same item with [isDeleted = true],
    every other index holds what it held, and [length] is one less.  At
    [pos > L] and at [pos < 0] it fails with "past end of the document" and
    the document is unchanged; at [pos = L] [findItemAtPos] returns
    [doc.content.length], no item is there, and the call fails with a
    TypeError instead. *)
Theorem localDelete_boundary {T} (doc : Doc T) (agent : string) (pos : Z) :
  let L := visible_count (doc_content doc) in
  (0 <= pos < L →
     ∃ idx item doc',
       findItemAtPos doc pos false = inr idx
       ∧ nthZ (doc_content doc) idx = Some item
       ∧ item_content item ≠ None ∧ isDeleted item = false
       ∧ localDelete doc agent pos = (doc', Ok)
       ∧ (∃ item', nthZ (doc_content doc') idx = Some item'
            ∧ isDeleted item' = true ∧ same_item item' item)
       ∧ (∀ j, j ≠ idx → nthZ (doc_content doc') j = nthZ (doc_content doc) j)
       ∧ lenZ (doc_content doc') = lenZ (doc_content doc)
       ∧ doc_length doc' = doc_length doc - 1
       ∧ visible_count (doc_content doc') = L - 1
       ∧ doc_version doc' = doc_version doc ∧ maxSeq doc' = maxSeq doc)
  ∧ (pos < 0 ∨ L < pos → localDelete doc agent pos = (doc, Throw PastEnd))
  ∧ (pos = L →
       findItemAtPos doc pos false = inr (lenZ (doc_content doc))
       ∧ nthZ (doc_content doc) (lenZ (doc_content doc)) = None
       ∧ localDelete doc agent pos = (doc, Throw TypeError)).
Proof.
  intros L. split; [|split].
  - intros Hpos. destruct (findItemAtPos_from_inside (doc_content doc) 0 pos Hpos)
      as (n & it & Hf & Hn & Hv).
    rewrite Z.add_0_l in Hf.
    assert (nthZ (doc_content doc) (Z.of_nat n) = Some it) as Hnth.
    { apply nthZ_Some. rewrite Nat2Z.id. split; [lia|done]. }
    unfold visible in Hv. apply andb_true_iff in Hv as [Hd Hc].
    apply negb_true_iff in Hd. apply negb_true_iff in Hc.
    exists (Z.of_nat n), it,
      {| doc_content := <[n := set_deleted it]> (doc_content doc);
         doc_version := doc_version doc;
         doc_length := doc_length doc - 1;
         maxSeq := maxSeq doc |}.
    cbn [doc_content doc_version doc_length maxSeq].
    apply lookup_lt_Some in Hn as Hlt.
    split; [done|]. split; [done|]. split; [by destruct (item_content it)|]. split; [done|].
    split.
    { unfold localDelete, findItemAtPos in *. rewrite Hf, Hnth, Hd. simpl.
      by rewrite Nat2Z.id. }
    split.
    { exists (set_deleted it). split; [|split; [done|by repeat split]].
      apply nthZ_Some. rewrite Nat2Z.id. split; [lia|]. by apply list_lookup_insert_eq. }
    split.
    { intros j Hj. unfold nthZ. destruct (j <? 0) eqn:Hj0; [done|].
      apply list_lookup_insert_ne. apply Z.ltb_ge in Hj0. lia. }
    split; [unfold lenZ; by rewrite length_insert|].
    split; [done|]. split; [|done].
    unfold L. rewrite <- (take_drop_middle _ _ _ Hn) at 2.
    rewrite insert_take_drop by done.
    unfold visible_count, lenZ. rewrite !filter_app, !filter_cons, !length_app.
    rewrite decide_False, decide_True.
    + simpl. lia.
    + unfold visible. by rewrite Hd, Hc.
    + unfold visible. simpl. done.
  - intros Hpos. unfold localDelete, findItemAtPos. destruct Hpos.
    + by rewrite findItemAtPos_from_negative.
    + by rewrite findItemAtPos_from_past.
  - intros ->. unfold L.
    assert (nthZ (doc_content doc) (lenZ (doc_content doc)) = None) as Hnone.
    { unfold nthZ, lenZ. destruct (_ <? 0); [done|]. apply lookup_ge_None. lia. }
    unfold localDelete, findItemAtPos.
    rewrite findItemAtPos_from_end, Z.add_0_l, Hnone. done.
Qed.

Lemma localDelete_boundary_witness :
  ∃ idx item doc',
    findItemAtPos one_item_doc 0 false = inr idx
    ∧ nthZ (doc_content one_item_doc) idx = Some item
    ∧ item_content item ≠ None ∧ isDeleted item = false
    ∧ localDelete one_item_doc "A" 0 = (doc', Ok)
    ∧ (∃ item', nthZ (doc_content doc') idx = Some item'
         ∧ isDeleted item' = true ∧ same_item item' item)
    ∧ (∀ j, j ≠ idx → nthZ (doc_content doc') j = nthZ (doc_content one_item_doc) j)
    ∧ lenZ (doc_content doc') = lenZ (doc_content one_item_doc)
    ∧ doc_length doc' = doc_length one_item_doc - 1
    ∧ visible_count (doc_content doc') = visible_count (doc_content one_item_doc) - 1
    ∧ doc_version doc' = doc_version one_item_doc ∧ maxSeq doc' = maxSeq one_item_doc.
Proof.
  apply (proj1 (localDelete_boundary one_item_doc "A" 0)). vm_compute. split; [discriminate|done].
Defined.

(** *** Sync9: the split *)

Lemma findItem2_content {T} (d1 d2 : Doc T) needle atEnd hint :
  doc_content d1 = doc_content d2 → findItem2 d1 needle atEnd hint = findItem2 d2 needle atEnd hint.
Proof. unfold findItem2. by intros ->. Qed.

Lemma splice_twice {A} (l : list A) p x y z :
  l !! p = Some z →
  splice (splice l (Z.of_nat p) x) (Z.of_nat p + 1) y = take p l ++ [x; y; z] ++ drop (S p) l.
Proof.
  intros Hz. unfold splice. rewrite Nat2Z.id.
  replace (Z.to_nat (Z.of_nat p + 1)) with (S p) by lia.
  pose proof (lookup_lt_Some _ _ _ Hz) as Hlt.
  assert (List.length (take p l) = p) as Hlen by (rewrite length_take; lia).
  rewrite (drop_S l z p Hz).
  rewrite take_app_ge, drop_app_ge by lia. rewrite Hlen.
  replace (S p - p)%nat with 1%nat by lia. simpl. rewrite ?take_0, ?drop_0.
  by rewrite <- app_assoc.
Qed.



(** *** YjsMod: the code against the case analysis *)

Lemma findRight_content {T} (d1 d2 : Doc T) o hint :
  doc_content d1 = doc_content d2 → findRight d1 o hint = findRight d2 o hint.
Proof.
  intros H. destruct o; simpl; [unfold findItem; by apply findItem2_content|by rewrite H].
Qed.

Lemma drop_nthZ {A} (l : list A) i x rest :
  0 <= i → drop (Z.to_nat i) l = x :: rest →
  nthZ l i = Some x ∧ i < lenZ l ∧ drop (Z.to_nat (i + 1)) l = rest.
Proof.
  intros Hi Hd.
  assert (l !! Z.to_nat i = Some x) as Hx.
  { rewrite <- (Nat.add_0_r (Z.to_nat i)), <- lookup_drop, Hd. done. }
  split; [apply nthZ_Some; done|]. split.
  - apply lookup_lt_Some in Hx. unfold lenZ. lia.
  - replace (Z.to_nat (i + 1)) with (S (Z.to_nat i)) by lia.
    rewrite (drop_S _ _ _ Hx) in Hd. by injection Hd.
Qed.

Lemma nthZ_drop {A} (l : list A) i x :
  nthZ l i = Some x → drop (Z.to_nat i) l = x :: drop (Z.to_nat (i + 1)) l.
Proof.
  intros [Hi Hx]%nthZ_Some. replace (Z.to_nat (i + 1)) with (S (Z.to_nat i)) by lia.
  by apply drop_S.
Qed.

Lemma drop_nil_len {A} (l : list A) i :
  0 <= i <= lenZ l → drop (Z.to_nat i) l = [] → i = lenZ l.
Proof.
  unfold lenZ. intros Hi Hd. apply (f_equal List.length) in Hd.
  rewrite length_drop in Hd. simpl in Hd. lia.
Qed.

Lemma yjsMod_scan_spec {T} (doc : Doc T) N hint left right rest i destIdx scanning d :
  0 <= i <= lenZ (doc_content doc) →
  drop (Z.to_nat i) (doc_content doc) = rest →
  yjsMod_scan doc N hint left right rest i destIdx scanning = inr d →
  spec_scan doc N hint left right i destIdx scanning d.
Proof.
  revert i destIdx scanning.
  induction rest as [|O rest IH]; intros i destIdx scanning Hi Hd; simpl.
  - intros [= <-]. apply scan_commit. left. by apply drop_nil_len.
  - destruct (drop_nthZ _ _ _ _ (proj1 Hi) Hd) as (HO & Hlt & Hd').
    destruct (Z.eqb_spec i right) as [->|Hne]; [intros [= <-]; apply scan_commit; by right|].
    destruct (findItem doc (originLeft O) (hint - 1)) as [|oleft] eqn:El; [done|].
    destruct (findRight doc (originRight O) hint) as [|oright] eqn:Er; [done|].
    assert (i ≠ lenZ (doc_content doc)) as Hnl by lia.
    destruct (Z.ltb_spec oleft left).
    { intros [= <-]. by eapply scan_break. }
    destruct (Z.eqb_spec oleft left) as [->|].
    + destruct (Z.ltb_spec oright right).
      { intros H'. eapply scan_start_scanning; [done..|]. apply IH; [lia|done..]. }
      destruct (Z.eqb_spec oright right) as [->|].
      * destruct (String.ltb _ _) eqn:Hlt'.
        { intros [= <-]. by eapply scan_tie_break_win. }
        intros H'. eapply scan_tie_break_lose; [done..|]. apply IH; [lia|done..].
      * intros H'. eapply scan_stop_scanning; [done..|lia|]. apply IH; [lia|done..].
    + intros H'. eapply scan_skip; [done..|lia|]. apply IH; [lia|done..].
Qed.

Lemma spec_scan_yjsMod {T} (doc : Doc T) N hint left right i destIdx scanning d :
  spec_scan doc N hint left right i destIdx scanning d →
  0 <= i →
  yjsMod_scan doc N hint left right (drop (Z.to_nat i) (doc_content doc)) i destIdx scanning
  = inr d.
Proof.
  induction 1 as
    [i destIdx scanning Hc
    |i destIdx scanning O oleft oright Hnl Hnr HO El Er Hlt
    |i destIdx scanning O oleft oright d Hnl Hnr HO El Er Hl Hr Hs IH
    |i destIdx scanning O oleft oright Hnl Hnr HO El Er Hl Hr Hag
    |i destIdx scanning O oleft oright d Hnl Hnr HO El Er Hl Hr Hag Hs IH
    |i destIdx scanning O oleft oright d Hnl Hnr HO El Er Hl Hr Hs IH
    |i destIdx scanning O oleft oright d Hnl Hnr HO El Er Hl Hs IH]; intros Hi.
  - destruct (drop (Z.to_nat i) (doc_content doc)) as [|O rest] eqn:Hd; [done|].
    simpl. destruct Hc as [->| ->]; [|by rewrite Z.eqb_refl].
    apply (f_equal List.length) in Hd. rewrite length_drop in Hd.
    unfold lenZ in Hd. simpl in Hd. lia.
  - rewrite (nthZ_drop _ _ _ HO). simpl.
    destruct (Z.eqb_spec i right); [done|]. rewrite El, Er.
    by destruct (Z.ltb_spec oleft left); [|lia].
  - rewrite (nthZ_drop _ _ _ HO). simpl.
    destruct (Z.eqb_spec i right); [done|]. rewrite El, Er.
    destruct (Z.ltb_spec oleft left); [lia|]. destruct (Z.eqb_spec oleft left); [|done].
    destruct (Z.ltb_spec oright right); [|lia]. apply IH. lia.
  - rewrite (nthZ_drop _ _ _ HO). simpl.
    destruct (Z.eqb_spec i right); [done|]. rewrite El, Er.
    destruct (Z.ltb_spec oleft left); [lia|]. destruct (Z.eqb_spec oleft left); [|done].
    destruct (Z.ltb_spec oright right); [lia|]. destruct (Z.eqb_spec oright right); [|done].
    by rewrite Hag.
  - rewrite (nthZ_drop _ _ _ HO). simpl.
    destruct (Z.eqb_spec i right); [done|]. rewrite El, Er.
    destruct (Z.ltb_spec oleft left); [lia|]. destruct (Z.eqb_spec oleft left); [|done].
    destruct (Z.ltb_spec oright right); [lia|]. destruct (Z.eqb_spec oright right); [|done].
    rewrite Hag. apply IH. lia.
  - rewrite (nthZ_drop _ _ _ HO). simpl.
    destruct (Z.eqb_spec i right); [done|]. rewrite El, Er.
    destruct (Z.ltb_spec oleft left); [lia|]. destruct (Z.eqb_spec oleft left); [|done].
    destruct (Z.ltb_spec oright right); [lia|]. destruct (Z.eqb_spec oright right); [lia|].
    apply IH. lia.
  - rewrite (nthZ_drop _ _ _ HO). simpl.
    destruct (Z.eqb_spec i right); [done|]. rewrite El, Er.
    destruct (Z.ltb_spec oleft left); [lia|]. destruct (Z.eqb_spec oleft left); [lia|].
    apply IH. lia.
Qed.

Lemma findItem2_range {T} (doc : Doc T) needle atEnd hint idx :
  findItem2 doc needle atEnd hint = inr idx → -1 <= idx < lenZ (doc_content doc).
Proof.
  destruct needle as [[agent seq]|].
  - intros (it & Hit%nthZ_lt & _)%findItem2_inr. lia.
  - intros [= <-]. unfold lenZ. lia.
Qed.

Lemma yjsMod_scan_content {T} (d1 d2 : Doc T) N hint left right rest i destIdx scanning :
  doc_content d1 = doc_content d2 →
  yjsMod_scan d1 N hint left right rest i destIdx scanning
  = yjsMod_scan d2 N hint left right rest i destIdx scanning.
Proof.
  intros H. revert i destIdx scanning.
  induction rest as [|O rest IH]; intros i destIdx scanning; simpl; [done|].
  unfold findItem. rewrite (findItem2_content d1 d2), (findRight_content d1 d2) by done.
  by repeat (case_match; try done).
Qed.

(** C2: when the sequence check passes, [integrateYjsMod] succeeds with
    document [doc'] exactly when the case analysis of the specification
    ([spec_integrateYjsMod]: start at [left + 1], track [destIdx] while not
    scanning, commit at the end or at [right], break on [oleft < left], and
    on [oleft = left] compare [oright] with [right] and tie-break by agent)
    commits [N] at an index and yields [doc']. *)
Theorem integrateYjsMod_refines_spec {T} (doc : Doc T) (N : Item T) (hint : Z) (doc' : Doc T) :
  seq_ready doc N →
  integrateYjsMod doc N hint = (doc', Ok) ↔ spec_integrateYjsMod doc N hint doc'.
Proof.
  intros Hr. unfold integrateYjsMod, spec_integrateYjsMod.
  destruct (Z.eqb_spec (item_id N).2 (lastSeen (doc_version doc) (item_id N).1 + 1)) as [_|]; [|done].
  cbn [negb]. set (doc1 := set_version doc (item_id N).1 (item_id N).2).
  assert (doc_content doc1 = doc_content doc) as Hc by done.
  unfold findItem. rewrite (findItem2_content doc1 doc), (findRight_content doc1 doc) by done.
  fold (findItem doc (originLeft N) (hint - 1)).
  destruct (findItem doc (originLeft N) (hint - 1)) as [e|left] eqn:El.
  { split; [done|]. by intros (? & ? & ? & ? & _). }
  destruct (findRight doc (originRight N) hint) as [e|right] eqn:Er.
  { split; [done|]. by intros (? & ? & ? & _ & ? & _). }
  apply findItem2_range in El as Hrange.
  rewrite (yjsMod_scan_content doc1 doc), Hc by done.
  assert (∀ d, commit doc1 N d =
     {| doc_content := splice (doc_content doc) d N;
        doc_version := <[(item_id N).1 := (item_id N).2]> (doc_version doc);
        doc_length := if isDeleted N then doc_length doc else doc_length doc + 1;
        maxSeq := maxSeq doc |}) as Hcommit.
  { intros d. unfold commit. by destruct (isDeleted N). }
  split.
  - destruct (yjsMod_scan _ _ _ _ _ _ _ _ _) as [e|d] eqn:Es; [done|].
    intros [= <-]. exists left, right, d. repeat split; [|apply Hcommit].
    eapply yjsMod_scan_spec; [|done..]. lia.
  - intros (l' & r' & d & [= <-] & [= <-] & Hs & ->).
    rewrite (spec_scan_yjsMod _ _ _ _ _ _ _ _ _ Hs) by lia. by rewrite Hcommit.
Qed.

Lemma integrateYjsMod_refines_spec_witness :
  spec_integrateYjsMod scan_doc scan_item (-1)
    (integrateYjsMod scan_doc scan_item (-1)).1
  ∧ item_id <$> doc_content scan_doc
    = [("A", 0); ("C", 0); ("B", 0); ("D", 0); ("Z", 0); ("R", 0)]%string
  ∧ item_id <$> doc_content (integrateYjsMod scan_doc scan_item (-1)).1
    = [("A", 0); ("C", 0); ("B", 0); ("D", 0); ("M", 0); ("Z", 0); ("R", 0)]%string.
Proof.
  split; [|split; reflexivity].
  apply (integrateYjsMod_refines_spec scan_doc scan_item (-1)); reflexivity.
Defined.

(** *** Exhaustive search over integration orders *)

Lemma picks_elem {A} (l : list A) x r :
  (x, r) ∈ picks l ↔ ∃ l1 l2, l = l1 ++ x :: l2 ∧ r = l1 ++ l2.
Proof.
  revert r. induction l as [|a l IH]; intros r; simpl.
  - split; [by intros ?%elem_of_nil|]. intros (l1 & l2 & H & _). by destruct l1.
  - rewrite elem_of_cons, list_elem_of_fmap. split.
    + intros [[= -> ->]|([y r'] & [= -> ->] & (l1 & l2 & -> & ->)%IH)].
      * by exists [], l.
      * by exists (a :: l1), l2.
    + intros ([|b l1] & l2 & [= -> H] & ->); [by left; subst|]. subst. right.
      exists (x, l1 ++ l2). split; [done|]. apply IH. eauto.
Qed.

Lemma picks_perm {A} (l : list A) x order :
  l ≡ₚ x :: order → ∃ r, (x, r) ∈ picks l ∧ r ≡ₚ order.
Proof.
  intros Hp. assert (x ∈ l) as Hx by (rewrite Hp; left).
  apply list_elem_of_split in Hx as (l1 & l2 & ->).
  exists (l1 ++ l2). split; [apply picks_elem; eauto|].
  rewrite <- Permutation_middle in Hp. by apply (inj (cons x)) in Hp.
Qed.

Lemma explore_sound {T} alg (P : Doc T → bool) fuel doc remaining order :
  explore alg P fuel doc remaining = true →
  remaining ≡ₚ order →
  integrateAll alg doc order ≠ NotReady →
  ∃ d, integrateAll alg doc order = Done d ∧ P d = true.
Proof.
  revert doc remaining order. induction fuel as [|fuel IH]; intros doc remaining order He Hp Hr.
  - destruct remaining; [|done]. apply Permutation.Permutation_nil in Hp. subst order. simpl in *. eauto.
  - destruct order as [|op order].
    { symmetry in Hp. apply Permutation.Permutation_nil in Hp. subst remaining. simpl in *. eauto. }
    destruct remaining as [|r0 rem]; [by apply Permutation.Permutation_nil_cons in Hp|].
    destruct (picks_perm _ _ _ Hp) as (r & Hin & Hpr).
    cbn [explore] in He. rewrite forallb_forall in He.
    specialize (He (op, r)). rewrite <- list_elem_of_In in He. specialize (He Hin).
    cbn [fst snd] in He. cbn [integrateAll] in *.
    destruct (canInsertNow op doc); [|done].
    destruct (integrate alg doc op (-1)) as [d' [|e]]; [|done].
    by apply (IH d' r order).
Qed.

(** C3: every order of the six items of [interleavingForward] in which each
    item is ready when it is integrated runs to the end without an error
    and leaves the content a, a, a, b, b, b, the three items of A followed
    by the three items of B. *)
Theorem interleavingForward_yjsMod (order : list (Item string)) :
  interleavingForward ≡ₚ order →
  integrateAll yjsMod newDoc order ≠ NotReady →
  ∃ d, integrateAll yjsMod newDoc order = Done d
       ∧ getArray d = ["a"; "a"; "a"; "b"; "b"; "b"]%string
       ∧ item_id <$> doc_content d
         = [("A", 0); ("A", 1); ("A", 2); ("B", 0); ("B", 1); ("B", 2)]%string.
Proof.
  intros Hp Hr.
  destruct (explore_sound yjsMod is_aaabbb 6 newDoc interleavingForward order) as (d & Hd & HP);
    [by vm_compute|done..|].
  exists d. split; [done|]. unfold is_aaabbb in HP. by apply bool_decide_eq_true in HP.
Qed.

Lemma interleavingForward_yjsMod_witness :
  ∃ d, integrateAll yjsMod newDoc (drop 3 interleavingForward ++ take 3 interleavingForward) = Done d
       ∧ getArray d = ["a"; "a"; "a"; "b"; "b"; "b"]%string
       ∧ item_id <$> doc_content d
         = [("A", 0); ("A", 1); ("A", 2); ("B", 0); ("B", 1); ("B", 2)]%string.
Proof.
  apply (interleavingForward_yjsMod (drop 3 interleavingForward ++ take 3 interleavingForward)).
  - rewrite <- (take_drop 3 interleavingForward) at 1. apply Permutation_app_comm.
  - intros H. vm_compute in H. discriminate H.
Defined.

(** *** Version vectors *)

Lemma ver_le_refl v : ver_le v v.
Proof. by intros id. Qed.

Lemma ver_le_trans v1 v2 v3 : ver_le v1 v2 → ver_le v2 v3 → ver_le v1 v3.
Proof. intros H1 H2 id H. auto. Qed.

Lemma isInVersion_Some agent seq v :
  isInVersion (Some (agent, seq)) v = true ↔ ∃ s, v !! agent = Some s ∧ seq <= s.
Proof.
  unfold isInVersion. simpl. destruct (v !! agent) as [s|].
  - rewrite Z.leb_le. split; [eauto|]. by intros (? & [= <-] & ?).
  - split; [done|]. by intros (? & ? & _).
Qed.

Lemma ver_le_insert v agent seq :
  seq = lastSeen v agent + 1 → ver_le v (<[agent := seq]> v).
Proof.
  intros Hs [[a s]|]; [|done]. rewrite !isInVersion_Some. intros (s' & Hl & Hle).
  destruct (decide (agent = a)) as [->|Hne].
  - exists seq. rewrite lookup_insert_eq. split; [done|].
    unfold lastSeen in Hs. rewrite Hl in Hs. simpl in Hs. lia.
  - exists s'. by rewrite lookup_insert_ne.
Qed.

Lemma isInVersion_insert v agent seq :
  isInVersion (Some (agent, seq)) (<[agent := seq]> v) = true.
Proof. apply isInVersion_Some. exists seq. rewrite lookup_insert_eq. split; [done|lia]. Qed.

(** *** What a successful [integrate] leaves behind *)

Lemma integrate_ok_version {T} alg (doc doc' : Doc T) n hint :
  integrate alg doc n hint = (doc', Ok) →
  seq_ready doc n
  ∧ doc_version doc' = <[(item_id n).1 := (item_id n).2]> (doc_version doc).
Proof.
  intros H.
  assert (seq_ready doc n ∨ ¬ seq_ready doc n) as [Hr|Hr].
  { unfold seq_ready.
    destruct (Z.eq_dec (item_id n).2 (lastSeen (doc_version doc) (item_id n).1 + 1)); auto. }
  - split; [done|]. destruct alg; simpl in H.
    + destruct (integrateYjs_ready doc n hint Hr) as [Hv _]. by rewrite H in Hv.
    + destruct (integrateYjsMod_ready doc n hint Hr) as [Hv _]. by rewrite H in Hv.
    + destruct (Z.lt_ge_cases (item_seq n) 0) as [Hneg|Hpos].
      * unfold integrateAutomerge in H. by rewrite integrateAutomerge_negative_seq in H.
      * destruct (integrateAutomerge_ready true doc n hint Hpos Hr) as [Hv _].
        unfold integrateAutomerge in H. by rewrite H in Hv.
    + destruct (integrateSync9_ready doc n hint Hr) as [Hv _]. by rewrite H in Hv.
  - exfalso. destruct alg; simpl in H.
    + by rewrite integrateYjs_not_ready in H.
    + by rewrite integrateYjsMod_not_ready in H.
    + destruct (Z.lt_ge_cases (item_seq n) 0) as [Hneg|Hpos].
      * unfold integrateAutomerge in H. by rewrite integrateAutomerge_negative_seq in H.
      * unfold integrateAutomerge in H. by rewrite integrateAutomerge_not_ready in H.
    + by rewrite integrateSync9_not_ready in H.
Qed.

Lemma integrate_ok_ver_le {T} alg (doc doc' : Doc T) n hint :
  integrate alg doc n hint = (doc', Ok) →
  ver_le (doc_version doc) (doc_version doc')
  ∧ isInVersion (Some (item_id n)) (doc_version doc') = true.
Proof.
  intros [Hr ->]%integrate_ok_version. split.
  - by apply ver_le_insert.
  - destruct (item_id n). apply isInVersion_insert.
Qed.

(** *** mergeInto *)

Lemma count_some_cons {A} (o : option A) l :
  count_some (o :: l) = (if is_null o then 0 else 1) + count_some l.
Proof.
  unfold count_some, lenZ. rewrite filter_cons.
  destruct (decide (is_Some o)) as [[x ->]|Hn]; simpl; [lia|].
  destruct o; [by destruct Hn|]. simpl. lia.
Qed.

Lemma count_some_nonneg {A} (l : list (option A)) : 0 <= count_some l.
Proof. unfold count_some, lenZ. lia. Qed.

Lemma count_some_fmap {A} (l : list A) : count_some (Some <$> l) = lenZ l.
Proof.
  induction l as [|a l IH]; [done|]. rewrite fmap_cons, count_some_cons, IH.
  unfold lenZ. simpl. lia.
Qed.

Lemma count_some_zero {A} (l : list (option A)) x : count_some l <= 0 → Some x ∉ l.
Proof.
  induction l as [|o l IH]; [intros _ ?%elem_of_nil; done|].
  rewrite count_some_cons. pose proof (count_some_nonneg l).
  destruct o; simpl; [lia|]. intros H' [?|?]%elem_of_cons; [done|]. apply IH; [lia|done].
Qed.

(** A pass that does not throw: the destination only learns more, the
    entries it nulls are now in the version of the destination, the others
    are kept, and [mergedOnThisPass] counts the nulled entries. *)
Lemma merge_pass_ok {T} alg (dest : Doc T) missing d m n :
  merge_pass alg dest missing = (d, m, n, Ok) →
  ver_le (doc_version dest) (doc_version d)
  ∧ 0 <= n ∧ count_some m = count_some missing - n
  ∧ (∀ op, Some op ∈ missing →
       Some op ∈ m ∨ isInVersion (Some (item_id op)) (doc_version d) = true).
Proof.
  revert dest d m n. induction missing as [|o missing IH]; intros dest d m n; simpl.
  - intros [= <- <- <-]. split; [apply ver_le_refl|]. split; [lia|]. split; [done|].
    by intros op ?%elem_of_nil.
  - destruct o as [op|].
    + destruct (canInsertNow op dest); simpl.
      * destruct (integrate alg dest op (-1)) as [dest' [|e]] eqn:Hi; [|done].
        destruct (merge_pass alg dest' missing) as [[[d1 m1] n1] r1] eqn:Hp.
        intros [= <- <- <- ->].
        destruct (IH _ _ _ _ Hp) as (Hle & Hn & Hc & Hin).
        destruct (integrate_ok_ver_le _ _ _ _ _ Hi) as [Hle' Hop].
        split; [by eapply ver_le_trans|]. split; [lia|].
        split; [rewrite !count_some_cons; simpl; lia|].
        intros op' [[= ->]|Hop']%elem_of_cons.
        -- right. by apply Hle.
        -- destruct (Hin _ Hop'); [left; by right|by right].
      * destruct (merge_pass alg dest missing) as [[[d1 m1] n1] r1] eqn:Hp.
        intros [= <- <- <- ->].
        destruct (IH _ _ _ _ Hp) as (Hle & Hn & Hc & Hin).
        split; [done|]. split; [done|]. split; [rewrite !count_some_cons; simpl; lia|].
        intros op' [[= ->]|Hop']%elem_of_cons; [left; by left|].
        destruct (Hin _ Hop'); [left; by right|by right].
    + destruct (merge_pass alg dest missing) as [[[d1 m1] n1] r1] eqn:Hp.
      intros [= <- <- <- ->].
      destruct (IH _ _ _ _ Hp) as (Hle & Hn & Hc & Hin).
      split; [done|]. split; [done|]. split; [rewrite !count_some_cons; simpl; lia|].
      intros op' [[=]|Hop']%elem_of_cons.
      destruct (Hin _ Hop'); [left; by right|by right].
Qed.

Lemma merge_loop_ok {T} fuel alg (dest : Doc T) missing remaining d :
  merge_loop fuel alg dest missing remaining = Some (d, Ok) →
  remaining = count_some missing →
  ver_le (doc_version dest) (doc_version d)
  ∧ ∀ op, Some op ∈ missing → isInVersion (Some (item_id op)) (doc_version d) = true.
Proof.
  revert dest missing remaining.
  induction fuel as [|fuel IH]; intros dest missing remaining; simpl.
  - destruct (Z.leb_spec remaining 0) as [Hz|]; [|done].
    intros [= <-] ->. split; [apply ver_le_refl|]. intros op Hop.
    by apply count_some_zero in Hop.
  - destruct (Z.leb_spec remaining 0) as [Hz|].
    { intros [= <-] ->. split; [apply ver_le_refl|]. intros op Hop.
      by apply count_some_zero in Hop. }
    destruct (merge_pass alg dest missing) as [[[d1 m1] n1] [|e]] eqn:Hp; [|done].
    destruct (Z.eqb_spec n1 0); [done|]. intros Hl ->.
    destruct (merge_pass_ok _ _ _ _ _ _ Hp) as (Hle & Hn & Hc & Hin).
    destruct (IH _ _ _ Hl) as [Hle' Hall]; [lia|].
    split; [by eapply ver_le_trans|].
    intros op Hop. destruct (Hin _ Hop) as [Hm|Hv]; [by apply Hall|by apply Hle'].
Qed.

(** The loop cannot run out of fuel. *)
Lemma merge_loop_total {T} fuel alg (dest : Doc T) missing remaining :
  remaining = count_some missing → remaining <= Z.of_nat fuel →
  is_Some (merge_loop fuel alg dest missing remaining).
Proof.
  revert dest missing remaining.
  induction fuel as [|fuel IH]; intros dest missing remaining Hr Hf; simpl.
  - destruct (Z.leb_spec remaining 0); [done|lia].
  - destruct (Z.leb_spec remaining 0); [done|].
    destruct (merge_pass alg dest missing) as [[[d1 m1] n1] [|e]] eqn:Hp; [|done].
    destruct (Z.eqb_spec n1 0); [done|].
    destruct (merge_pass_ok _ _ _ _ _ _ Hp) as (Hle & Hn & Hc & Hin).
    apply IH; lia.
Qed.

Lemma mergeInto_total {T} alg (dest src : Doc T) : is_Some (mergeInto alg dest src).
Proof.
  unfold mergeInto. apply merge_loop_total; [by rewrite count_some_fmap|]. unfold lenZ. lia.
Qed.

(** *** The shape of a successful [integrate] *)

Lemma commit_shape {T} (doc : Doc T) n d :
  commit doc n d =
  {| doc_content := splice (doc_content doc) d n; doc_version := doc_version doc;
     doc_length := doc_length doc + (if isDeleted n then 0 else 1); maxSeq := maxSeq doc |}.
Proof.
  unfold commit, add_length, set_content. destruct (isDeleted n); simpl; [|done].
  by rewrite Z.add_0_r.
Qed.

Lemma commitSync9_shape {T} (doc : Doc T) n d :
  commitSync9 doc n d =
  {| doc_content := splice (doc_content doc) d n; doc_version := doc_version doc;
     doc_length := doc_length doc + length_step sync9 n; maxSeq := maxSeq doc |}.
Proof.
  unfold commitSync9, length_step, add_length, set_content. destruct (_ && _); simpl; [done|].
  by rewrite Z.add_0_r.
Qed.

Lemma integrate_ok_shape {T} alg (doc doc' : Doc T) n hint :
  integrate alg doc n hint = (doc', Ok) →
  content_step alg (doc_content doc) n (doc_content doc')
  ∧ doc_length doc' = doc_length doc + length_step alg n.
Proof.
  destruct alg; simpl.
  - unfold integrateYjs. destruct (negb _); [done|].
    destruct (findItem _ _ _); [done|]. destruct (findRight _ _ _); [done|].
    destruct (yjs_scan _ _ _ _ _ _ _ _ _) as [|d]; [done|]. intros [= <-].
    rewrite commit_shape. cbn [doc_content doc_length set_version set_maxSeq set_content]. split; [left; eauto|done].
  - unfold integrateYjsMod. destruct (negb _); [done|].
    destruct (findItem _ _ _); [done|]. destruct (findRight _ _ _); [done|].
    destruct (yjsMod_scan _ _ _ _ _ _ _ _ _) as [|d]; [done|]. intros [= <-].
    rewrite commit_shape. cbn [doc_content doc_length set_version set_maxSeq set_content]. split; [left; eauto|done].
  - unfold integrateAutomerge, integrateAutomerge_gen. destruct (negb _); [done|].
    destruct (negb _); [done|]. destruct (findItem _ _ _); [done|].
    destruct (automerge_scan _ _ _ _ _ _ _ _) as [|d]; [done|]. intros [= <-].
    rewrite commit_shape. cbn [doc_content doc_length set_version set_maxSeq set_content]. destruct (_ <? _); cbn [doc_content doc_length set_version set_maxSeq set_content]; (split; [left; eauto|done]).
  - unfold integrateSync9. destruct (item_id n) as [agent seq]. destruct (negb _); [done|].
    destruct (findItem2 _ _ _ _) as [|p] eqn:Hp; [done|].
    assert (∀ dc, sync9_walk (set_version doc agent seq) n hint p = (dc, Ok) →
              content_step sync9 (doc_content doc) n (doc_content dc)
              ∧ doc_length dc = doc_length doc + length_step sync9 n) as Hwalk.
    { intros dc. unfold sync9_walk. destruct (sync9_scan _ _ _ _ _ _) as [|d]; [done|].
      intros [= <-]. rewrite commitSync9_shape. cbn [doc_content doc_length set_version set_maxSeq set_content]. split; [left; eauto|done]. }
    destruct ((0 <=? p) && negb (is_null (originLeft n)) && negb (insertAfter n)) eqn:Hsplit;
      [|apply Hwalk].
    destruct (nthZ _ p) as [P|] eqn:HP; [|done].
    destruct (negb (is_null (item_content P))) eqn:HcP; [|apply Hwalk].
    intros [= <-]. rewrite commitSync9_shape. cbn [doc_content doc_length set_version set_maxSeq set_content]. split; [|done].
    right. split; [done|]. exists p, P. split; [done|].
    split; [by destruct (item_content P)|].
    apply nthZ_Some in HP as [H0 HP].
    pose proof (splice_twice (doc_content doc) (Z.to_nat p) (placeholder P) n P HP) as Hs.
    rewrite Z2Nat.id in Hs by lia. done.
Qed.

Lemma visible_count_app {T} (l1 l2 : list (Item T)) :
  visible_count (l1 ++ l2) = visible_count l1 + visible_count l2.
Proof.
  unfold visible_count, lenZ. rewrite filter_app, length_app. lia.
Qed.

Lemma visible_count_splice {T} (l : list (Item T)) i n :
  visible_count (splice l i n) = visible_count l + (if visible n then 1 else 0).
Proof.
  unfold splice. rewrite visible_count_app, visible_count_cons.
  rewrite <- (take_drop (Z.to_nat i) l) at 3. rewrite visible_count_app. lia.
Qed.

Lemma visible_placeholder {T} (P : Item T) : visible (placeholder P) = false.
Proof. unfold visible. simpl. by rewrite andb_false_r. Qed.

Lemma content_step_visible_count {T} alg (c c' : list (Item T)) n :
  content_step alg c n c' →
  visible_count c' = visible_count c + (if visible n then 1 else 0).
Proof.
  intros [[i ->]|(_ & p & P & [H0 HP]%nthZ_Some & _ & ->)].
  - apply visible_count_splice.
  - assert (visible_count c = visible_count (take (Z.to_nat p) c)
              + ((if visible P then 1 else 0) + visible_count (drop (S (Z.to_nat p)) c))) as ->.
    { rewrite <- (take_drop (Z.to_nat p) c) at 1.
      by rewrite visible_count_app, (drop_S _ _ _ HP), visible_count_cons. }
    rewrite !visible_count_app, !visible_count_cons, visible_placeholder.
    replace (visible_count (@nil (Item T))) with 0 by done. lia.
Qed.

Lemma content_step_elem {T} alg (c c' : list (Item T)) n x :
  content_step alg c n c' → x ∈ c' → x ∈ c ∨ x = n ∨ item_content x = None.
Proof.
  intros [[i ->]|(_ & p & P & [H0 HP]%nthZ_Some & _ & ->)].
  - unfold splice. rewrite elem_of_app, elem_of_cons.
    intros [?%subseteq_take|[->|?%subseteq_drop]]; auto.
  - rewrite !elem_of_app, !elem_of_cons.
    intros [?%subseteq_take|[[->|[->|[->|?%elem_of_nil]]]|?%subseteq_drop]];
      [by left|by right; right|by right; left| |done|by left].
    left. by eapply list_elem_of_lookup_2.
Qed.

(** *** Merging twice *)

Lemma filter_none {A} (P : A → Prop) `{!∀ x, Decision (P x)} (l : list A) :
  (∀ x, x ∈ l → ¬ P x) → filter P l = [].
Proof.
  induction l as [|a l IH]; [done|]. intros Hall. rewrite filter_cons.
  rewrite decide_False by (apply Hall; left). apply IH. intros x Hx. apply Hall. by right.
Qed.

(** Items with content that a pass adds to the destination are in its version. *)
Lemma merge_pass_content {T} alg (dest : Doc T) missing d m n r x :
  merge_pass alg dest missing = (d, m, n, r) →
  r = Ok →
  x ∈ doc_content d → item_content x ≠ None →
  x ∈ doc_content dest ∨ isInVersion (Some (item_id x)) (doc_version d) = true.
Proof.
  revert dest d m n. induction missing as [|o missing IH]; intros dest d m n; simpl.
  - intros [= <- <- <- <-]. auto.
  - destruct o as [op|].
    + destruct (canInsertNow op dest); simpl.
      * destruct (integrate alg dest op (-1)) as [dest' [|e]] eqn:Hi.
        2:{ by intros [= <- <- <- <-]. }
        destruct (merge_pass alg dest' missing) as [[[d1 m1] n1] r1] eqn:Hp.
        intros [= <- <- <- <-] -> Hx Hc.
        destruct (merge_pass_ok _ _ _ _ _ _ Hp) as (Hle & _).
        destruct (integrate_ok_ver_le _ _ _ _ _ Hi) as [_ Hop].
        destruct (integrate_ok_shape _ _ _ _ _ Hi) as [Hstep _].
        destruct (IH _ _ _ _ Hp eq_refl Hx Hc) as [Hx'|?]; [|by right].
        destruct (content_step_elem _ _ _ _ _ Hstep Hx') as [?|[->|?]];
          [by left|right; by apply Hle|done].
      * destruct (merge_pass alg dest missing) as [[[d1 m1] n1] r1] eqn:Hp.
        intros [= <- <- <- <-] -> Hx Hc. by eapply IH.
    + destruct (merge_pass alg dest missing) as [[[d1 m1] n1] r1] eqn:Hp.
      intros [= <- <- <- <-] -> Hx Hc. by eapply IH.
Qed.

Lemma merge_loop_ver_le {T} fuel alg (dest : Doc T) missing remaining d :
  merge_loop fuel alg dest missing remaining = Some (d, Ok) →
  ver_le (doc_version dest) (doc_version d).
Proof.
  revert dest missing remaining.
  induction fuel as [|fuel IH]; intros dest missing remaining; simpl.
  - destruct (remaining <=? 0); [|done]. intros [= <-]. apply ver_le_refl.
  - destruct (remaining <=? 0); [intros [= <-]; apply ver_le_refl|].
    destruct (merge_pass alg dest missing) as [[[d1 m1] n1] [|e]] eqn:Hp; [|done].
    destruct (n1 =? 0); [done|]. intros Hl.
    destruct (merge_pass_ok _ _ _ _ _ _ Hp) as (Hle & _).
    eapply ver_le_trans; [done|]. by eapply IH.
Qed.

Lemma merge_loop_content {T} fuel alg (dest : Doc T) missing remaining d x :
  merge_loop fuel alg dest missing remaining = Some (d, Ok) →
  x ∈ doc_content d → item_content x ≠ None →
  x ∈ doc_content dest ∨ isInVersion (Some (item_id x)) (doc_version d) = true.
Proof.
  revert dest missing remaining.
  induction fuel as [|fuel IH]; intros dest missing remaining; simpl.
  - destruct (remaining <=? 0); [|done]. intros [= <-]. auto.
  - destruct (remaining <=? 0); [intros [= <-]; auto|].
    destruct (merge_pass alg dest missing) as [[[d1 m1] n1] [|e]] eqn:Hp; [|done].
    destruct (n1 =? 0); [done|]. intros Hl Hx Hc.
    destruct (IH _ _ _ Hl Hx Hc) as [Hx1|?]; [|by right].
    destruct (merge_pass_content _ _ _ _ _ _ _ _ Hp eq_refl Hx1 Hc) as [?|Hv]; [by left|].
    right. revert Hv. apply (merge_loop_ver_le _ _ _ _ _ _ Hl).
Qed.

(** After a successful merge every item of the source that has content is
    in the version of the destination. *)
Lemma mergeInto_covers {T} alg (a b a' : Doc T) x :
  mergeInto alg a b = Some (a', Ok) →
  x ∈ doc_content b → item_content x ≠ None →
  isInVersion (Some (item_id x)) (doc_version a') = true.
Proof.
  unfold mergeInto. intros Hm Hx Hc.
  destruct (merge_loop_ok _ _ _ _ _ _ Hm) as [Hle Hall]; [by rewrite count_some_fmap|].
  destruct (isInVersion (Some (item_id x)) (doc_version a)) eqn:Hv; [by apply Hle|].
  apply Hall. apply list_elem_of_fmap. exists x. split; [done|].
  unfold missing_of. apply list_elem_of_filter. split; [|done].
  rewrite Hv. by destruct (item_content x).
Qed.

Lemma missing_of_nil {T} (a b : Doc T) :
  (∀ x, x ∈ doc_content b → item_content x ≠ None →
        isInVersion (Some (item_id x)) (doc_version a) = true) →
  missing_of a b = [].
Proof.
  intros Hall. unfold missing_of. apply filter_none. intros x Hx.
  destruct (item_content x) eqn:Hc; simpl; [|done].
  rewrite Hall; [done..|]. by rewrite Hc.
Qed.

(** C9: when [mergeInto(a, b)] succeeds and leaves [a'], the missing set of a
    second [mergeInto(a', b)] is empty and the call returns [a'] unchanged
    (content, version, length and maxSeq); the same holds when [a] and [b]
    are one document, where the second call reads the merged [a'] as its
    source. *)
Theorem mergeInto_idempotent {T} alg (a b a' : Doc T) :
  mergeInto alg a b = Some (a', Ok) →
  (missing_of a' b = [] ∧ mergeInto alg a' b = Some (a', Ok))
  ∧ (b = a → missing_of a' a' = [] ∧ mergeInto alg a' a' = Some (a', Ok)).
Proof.
  intros Hm.
  assert (∀ c, missing_of a' c = [] → mergeInto alg a' c = Some (a', Ok)) as Hnoop.
  { intros c Hc. unfold mergeInto. by rewrite Hc. }
  split.
  - assert (missing_of a' b = []) as Hmiss; [|by auto].
    apply missing_of_nil. intros x. by apply (mergeInto_covers alg a b).
  - intros ->. assert (missing_of a' a' = []) as Hmiss; [|by auto].
    apply missing_of_nil. intros x Hx Hc.
    destruct (merge_loop_content _ _ _ _ _ _ x Hm Hx Hc) as [Hxa|?]; [|done].
    by eapply mergeInto_covers.
Qed.

Lemma mergeInto_idempotent_witness :
  missing_of one_item_doc one_item_doc = []
  ∧ mergeInto yjsMod one_item_doc one_item_doc = Some (one_item_doc, Ok).
Proof.
  refine (proj1 (mergeInto_idempotent yjsMod newDoc one_item_doc one_item_doc _)).
  reflexivity.
Defined.

(** *** Length coherence *)

Lemma integrate_length_coherent {T} alg (doc doc' : Doc T) n hint :
  content_unless_sync9 alg n →
  integrate alg doc n hint = (doc', Ok) →
  length_coherent doc → length_coherent doc'.
Proof.
  unfold length_coherent. intros Hok [Hstep Hlen]%integrate_ok_shape Hco.
  rewrite Hlen, (content_step_visible_count _ _ _ _ Hstep), Hco. f_equal.
  unfold length_step, visible. destruct alg; try done;
    (destruct (item_content n) eqn:Hc; [by destruct (isDeleted n)|by destruct Hok]).
Qed.

Lemma localInsert_length_coherent {T} alg (doc doc' : Doc T) agent pos content :
  alg_localInsert alg doc agent pos content = (doc', Ok) →
  length_coherent doc → length_coherent doc'.
Proof.
  assert (∀ this, localInsert this doc agent pos content = (doc', Ok) →
            length_coherent doc → length_coherent doc') as Hstd.
  { intros this. unfold localInsert. destruct (findItemAtPos _ _ _); [done|].
    apply integrate_length_coherent. by intros _. }
  destruct alg; simpl; try apply Hstd.
  unfold localInsertSync9. destruct (findItemAtPos _ _ _); [done|].
  destruct (sync9_descend _ _ _ _ _) as [[i ol] ia].
  apply integrate_length_coherent. by intros _.
Qed.

Lemma findItemAtPos_from_ge {T} (l : list (Item T)) i pos se r :
  findItemAtPos_from l i pos se = inr r → i <= r.
Proof.
  revert i pos. induction l as [|a l IH]; intros i pos; simpl.
  - destruct (pos =? 0); [|done]. intros [= <-]. lia.
  - destruct (se && _); [intros [= <-]; lia|].
    destruct (_ || _); [intros ?%IH; lia|].
    destruct (pos =? 0); [intros [= <-]; lia|intros ?%IH; lia].
Qed.

Lemma findItemAtPos_from_visible {T} (l : list (Item T)) i pos r it :
  findItemAtPos_from l i pos false = inr r →
  nthZ l (r - i) = Some it → visible it = true.
Proof.
  revert i pos. induction l as [|a l IH]; intros i pos; simpl.
  - intros _ [_ H]%nthZ_Some. done.
  - rewrite not_visible. destruct (visible a) eqn:Hv; simpl.
    + destruct (pos =? 0).
      * intros [= <-]. rewrite Z.sub_diag. by intros [= <-].
      * intros Hf [H0 Hn]%nthZ_Some. pose proof (findItemAtPos_from_ge _ _ _ _ _ Hf).
        apply (IH _ _ Hf). apply nthZ_Some. split; [lia|].
        replace (Z.to_nat (r - i)) with (S (Z.to_nat (r - (i + 1)))) in Hn by lia. done.
    + intros Hf [H0 Hn]%nthZ_Some. pose proof (findItemAtPos_from_ge _ _ _ _ _ Hf).
      apply (IH _ _ Hf). apply nthZ_Some. split; [lia|].
      replace (Z.to_nat (r - i)) with (S (Z.to_nat (r - (i + 1)))) in Hn by lia. done.
Qed.

Lemma visible_count_delete {T} (l : list (Item T)) n it :
  l !! n = Some it → visible it = true →
  visible_count (<[n := set_deleted it]> l) = visible_count l - 1.
Proof.
  intros Hn Hv.
  rewrite <- (take_drop_middle l n it Hn) at 2.
  rewrite (insert_take_drop l n) by (by eapply lookup_lt_Some).
  rewrite !visible_count_app, !visible_count_cons, Hv.
  unfold visible at 1. simpl. lia.
Qed.

Lemma localDelete_length_coherent {T} (doc doc' : Doc T) agent pos :
  localDelete doc agent pos = (doc', Ok) →
  length_coherent doc → length_coherent doc'.
Proof.
  unfold localDelete, findItemAtPos, length_coherent.
  destruct (findItemAtPos_from _ _ _ _) as [|idx] eqn:Hf; [done|].
  destruct (nthZ _ idx) as [it|] eqn:Hit; [|done].
  destruct (isDeleted it) eqn:Hd; simpl; [by intros [= <-]|].
  intros [= <-] Hco. simpl. rewrite Hco.
  apply nthZ_Some in Hit as Hit'. destruct Hit' as [H0 Hit'].
  rewrite (visible_count_delete _ _ _ Hit'); [lia|].
  eapply findItemAtPos_from_visible; [done|]. by rewrite Z.sub_0_r.
Qed.

Lemma merge_pass_length_coherent {T} alg (dest : Doc T) missing d m n r :
  Forall (λ o, ∀ op, o = Some op → item_content op ≠ None) missing →
  merge_pass alg dest missing = (d, m, n, r) → r = Ok →
  length_coherent dest →
  length_coherent d ∧ Forall (λ o, ∀ op, o = Some op → item_content op ≠ None) m.
Proof.
  intros Hall. revert dest d m n.
  induction Hall as [|o missing Ho Hall IH]; intros dest d m n; simpl.
  - by intros [= <- <- <- <-].
  - destruct o as [op|].
    + destruct (canInsertNow op dest); simpl.
      * destruct (integrate alg dest op (-1)) as [dest' [|e]] eqn:Hi.
        2:{ by intros [= <- <- <- <-]. }
        destruct (merge_pass alg dest' missing) as [[[d1 m1] n1] r1] eqn:Hp.
        intros [= <- <- <- <-] -> Hco.
        destruct (IH _ _ _ _ Hp eq_refl) as [? ?]; [|split; [done|by constructor]].
        eapply integrate_length_coherent; [|done..]. intros _. by apply Ho.
      * destruct (merge_pass alg dest missing) as [[[d1 m1] n1] r1] eqn:Hp.
        intros [= <- <- <- <-] -> Hco.
        destruct (IH _ _ _ _ Hp eq_refl Hco) as [? ?]. split; [done|by constructor].
    + destruct (merge_pass alg dest missing) as [[[d1 m1] n1] r1] eqn:Hp.
      intros [= <- <- <- <-] -> Hco.
      destruct (IH _ _ _ _ Hp eq_refl Hco) as [? ?]. split; [done|by constructor].
Qed.

Lemma merge_loop_length_coherent {T} fuel alg (dest : Doc T) missing remaining d :
  Forall (λ o, ∀ op, o = Some op → item_content op ≠ None) missing →
  merge_loop fuel alg dest missing remaining = Some (d, Ok) →
  length_coherent dest → length_coherent d.
Proof.
  revert dest missing remaining.
  induction fuel as [|fuel IH]; intros dest missing remaining Hall; simpl.
  - destruct (remaining <=? 0); [|done]. by intros [= <-].
  - destruct (remaining <=? 0); [by intros [= <-]|].
    destruct (merge_pass alg dest missing) as [[[d1 m1] n1] [|e]] eqn:Hp; [|done].
    destruct (n1 =? 0); [done|]. intros Hl Hco.
    destruct (merge_pass_length_coherent _ _ _ _ _ _ _ Hall Hp eq_refl Hco) as [? ?].
    by eapply IH.
Qed.

Lemma mergeInto_length_coherent {T} alg (dest src d : Doc T) :
  mergeInto alg dest src = Some (d, Ok) →
  length_coherent dest → length_coherent d.
Proof.
  unfold mergeInto. apply merge_loop_length_coherent.
  apply Forall_fmap, Forall_forall. intros x [Hx _]%list_elem_of_filter op [= <-].
  by destruct (item_content x).
Qed.

(** C4, as stated, fails: [integrateYjsMod] adds one to [length] for every
    item that is not deleted, also for one without content, which the
    count of visible items leaves out. *)
Lemma length_coherence_fails_without_content :
  Reachable any_item yjsMod (integrate yjsMod newDoc no_content_item (-1)).1
  ∧ doc_length (integrate yjsMod newDoc no_content_item (-1)).1 = 1
  ∧ visible_count (doc_content (integrate yjsMod newDoc no_content_item (-1)).1) = 0
  ∧ ¬ (∀ alg (doc : Doc string), Reachable any_item alg doc → length_coherent doc).
Proof.
  assert (Reachable any_item yjsMod (integrate yjsMod newDoc no_content_item (-1)).1) as Hr.
  { apply (reach_integrate _ _ newDoc no_content_item (-1)); [apply reach_newDoc|done|reflexivity]. }
  split; [done|]. split; [reflexivity|]. split; [reflexivity|].
  intros H. specialize (H _ _ Hr). vm_compute in H. discriminate H.
Qed.

(** C4 (amended): in every document built from [newDoc] by successful
    [localInsert], [localDelete], [integrate] and [mergeInto] calls, where
    the items handed to the [integrate] of Yjs, YjsMod and Automerge have
    content, [length] is the number of items with content that are not
    deleted. *)
Theorem length_coherence {T} alg (doc : Doc T) :
  Reachable content_unless_sync9 alg doc → length_coherent doc.
Proof.
  induction 1 as [|doc agent pos content doc' _ IH Hop|doc agent pos doc' _ IH Hop
                 |doc n hint doc' _ IH Hok Hop|doc src doc' _ IH Hop].
  - done.
  - by eapply localInsert_length_coherent.
  - by eapply localDelete_length_coherent.
  - by eapply integrate_length_coherent.
  - by eapply mergeInto_length_coherent.
Qed.

Lemma length_coherence_witness : length_coherent one_item_doc.
Proof.
  apply (length_coherence yjsMod).
  apply (reach_integrate _ _ newDoc
           (mkItem (Some "x"%string) ("A"%string, 0) None None 0 true false) (-1));
    [apply reach_newDoc|by intros _|reflexivity].
Defined.

(** The part of C4 that the amended statement leaves out: the item objects
    are shared between documents, so after B merged A's item, deleting it
    through A marks it deleted in B as well, and the [length] of B stays 1
    with no visible item left. *)
Lemma shared_delete_breaks_length :
  sys_reachable yjsMod shared_sys3
  ∧ doc_length (replica shared_sys3 "B") = 1
  ∧ visible_count (doc_content (replica shared_sys3 "B")) = 0
  ∧ ¬ length_coherent (replica shared_sys3 "B").
Proof.
  split; [|split; [reflexivity|split; [reflexivity|]]].
  - apply (sys_next yjsMod shared_sys2).
    + apply (sys_next yjsMod shared_sys1).
      * apply (sys_next yjsMod ∅); [apply sys_init|].
        apply (step_insert yjsMod ∅ "A" 0 "x"%string). reflexivity.
      * apply (step_merge yjsMod shared_sys1 "B" "A"). reflexivity.
    + apply (step_delete yjsMod shared_sys2 "A" 0). reflexivity.
  - intros H. vm_compute in H. discriminate H.
Qed.

(** *** Lookup in a document with unique ids *)

Lemma idEq2_true (a : Id) agent seq : idEq2 (Some a) agent seq = true ↔ a = (agent, seq).
Proof.
  destruct a as [a s]. unfold idEq2. simpl.
  rewrite andb_true_iff, String.eqb_eq, Z.eqb_eq. split; [by intros [-> ->]|by intros [= -> ->]].
Qed.

Lemma needle_match_false_true {T} agent seq (it : Item T) :
  needle_match false agent seq it = true ↔ item_id it = (agent, seq).
Proof.
  unfold needle_match. simpl. rewrite andb_false_r, orb_false_r. apply idEq2_true.
Qed.

Lemma NoDup_ids_lookup {T} (c : list (Item T)) i j x y :
  NoDup (item_id <$> c) → c !! i = Some x → c !! j = Some y → item_id x = item_id y → i = j.
Proof.
  intros Hnd Hx Hy Hid. eapply NoDup_lookup; [done|..].
  - rewrite list_lookup_fmap, Hx. done.
  - rewrite list_lookup_fmap, Hy. simpl. by rewrite Hid.
Qed.

Lemma findItem_unique {T} (doc : Doc T) p j y hint :
  NoDup (item_id <$> doc_content doc) →
  doc_content doc !! j = Some y → item_id y = p →
  findItem doc (Some p) hint = inr (Z.of_nat j).
Proof.
  intros Hnd Hy Hid. unfold findItem.
  assert (findItem2 doc (Some p) false (-1) = inr (Z.of_nat j)) as Hno.
  { destruct p as [agent seq]. apply findItem2_nohint_inr. exists y.
    split; [apply nthZ_Some; rewrite Nat2Z.id; split; [lia|done]|].
    split; [by apply needle_match_false_true|].
    intros k z Hk [_ Hz]%nthZ_Some.
    destruct (needle_match false agent seq z) eqn:Hm; [|done].
    apply needle_match_false_true in Hm.
    assert (Z.to_nat k = j) by (eapply NoDup_ids_lookup; [done..|congruence]). lia. }
  destruct (findItem2_hint_cases doc (Some p) false hint)
    as [->|(agent & seq & it & [= ->] & [H0 Hit]%nthZ_Some & Hm & ->)]; [done|].
  apply needle_match_false_true in Hm.
  assert (Z.to_nat hint = j) by (eapply NoDup_ids_lookup; [done..|congruence]).
  f_equal. lia.
Qed.

(** In a tree the lookup of [originLeft] of the item at index [i] succeeds
    with an index below [i]. *)
Lemma findItem_parent {T} (doc : Doc T) i x hint :
  am_tree (doc_content doc) → doc_content doc !! i = Some x →
  ∃ op, findItem doc (originLeft x) hint = inr op ∧ -1 <= op < Z.of_nat i
        ∧ (0 <= op → ∃ y, doc_content doc !! Z.to_nat op = Some y ∧ item_seq y < item_seq x).
Proof.
  intros [Hnd Hpar] Hx. destruct (originLeft x) as [p|] eqn:Hol.
  - destruct (Hpar _ _ _ Hx Hol) as (j & y & Hj & Hy & Hid & Hseq).
    exists (Z.of_nat j). rewrite (findItem_unique doc p j y) by done.
    split; [done|]. split; [lia|]. intros _. exists y. by rewrite Nat2Z.id.
  - exists (-1). split; [done|]. split; [lia|]. intros ?. lia.
Qed.

(** *** The fast path of [integrateAutomerge] *)

Lemma automerge_scan_fast_path {T} (doc : Doc T) N hint parent rest destIdx lc :
  am_tree (doc_content doc) →
  -1 <= parent < destIdx →
  drop (Z.to_nat destIdx) (doc_content doc) = rest →
  (∀ j y, parent < j < destIdx → nthZ (doc_content doc) j = Some y →
          item_seq N <= item_seq y) →
  automerge_scan true doc N hint parent rest destIdx lc
  = automerge_scan false doc N hint parent rest destIdx lc.
Proof.
  intros Htree. revert destIdx lc.
  induction rest as [|O rest IH]; intros destIdx lc Hp Hd Hseen; [done|].
  assert (0 <= destIdx) as H0 by lia.
  destruct (drop_nthZ _ _ _ _ H0 Hd) as (HO & Hlt & Hd').
  apply nthZ_Some in HO as HO'. destruct HO' as [_ HO'].
  destruct (findItem_parent doc _ O (hint - 1) Htree HO') as (op & Hop & Hrange & Hop').
  cbn [automerge_scan andb]. rewrite Hop.
  destruct (Z.ltb_spec (item_seq O) (item_seq N)) as [Hfast|Hslow].
  - assert (op <= parent) as Hle.
    { destruct (Z.le_gt_cases op parent) as [|Hgt]; [done|].
      destruct Hop' as (y & Hy & Hsy); [lia|].
      assert (item_seq N <= item_seq y); [|lia].
      apply (Hseen op); [lia|]. apply nthZ_Some. split; [lia|done]. }
    destruct (Z.ltb_spec op parent); [done|].
    destruct (Z.eqb_spec op parent); [done|lia].
  - assert (∀ lc', automerge_scan true doc N hint parent rest (destIdx + 1) lc'
                 = automerge_scan false doc N hint parent rest (destIdx + 1) lc') as Hrec.
    { intros lc'. apply IH; [lia|done|]. intros j y Hj Hy.
      destruct (Z.eq_dec j destIdx) as [->|].
      - rewrite HO in Hy. injection Hy as <-. lia.
      - apply (Hseen j); [lia|done]. }
    by rewrite !Hrec.
Qed.

(** On a document that is a tree the two variants of [integrateAutomerge]
    agree on every item and hint. *)
Lemma integrateAutomerge_fast_path_tree {T} (doc : Doc T) (N : Item T) (hint : Z) :
  am_tree (doc_content doc) →
  integrateAutomerge doc N hint = integrateAutomerge_noFastPath doc N hint.
Proof.
  intros Htree. unfold integrateAutomerge, integrateAutomerge_noFastPath, integrateAutomerge_gen.
  destruct (negb (0 <=? item_seq N)); [done|].
  destruct (negb _); [done|].
  destruct (findItem _ _ _) as [|parent] eqn:Hp; [done|].
  apply findItem2_range in Hp.
  rewrite (automerge_scan_fast_path _ N hint parent); [done|done|lia|done|].
  intros j y Hj. lia.
Qed.

(** *** Splicing *)

Lemma splice_lookup {A} (c : list A) (d : Z) (N : A) (i : nat) x :
  0 <= d <= lenZ c →
  splice c d N !! i = Some x ↔
    (Z.of_nat i < d ∧ c !! i = Some x) ∨ (Z.of_nat i = d ∧ x = N)
    ∨ (d < Z.of_nat i ∧ c !! (i - 1)%nat = Some x).
Proof.
  unfold splice, lenZ. intros Hd.
  assert (List.length (take (Z.to_nat d) c) = Z.to_nat d) as Hlen
    by (rewrite length_take; lia).
  destruct (Z.lt_total (Z.of_nat i) d) as [Hlt|[Heq|Hgt]].
  - rewrite lookup_app_l by lia. rewrite lookup_take_lt by lia.
    split; [auto|]. intros [[_ ?]|[[? _]|[? _]]]; [done|lia..].
  - rewrite list_lookup_middle by lia.
    split; [intros [= <-]; auto|]. intros [[? _]|[[_ ->]|[? _]]]; [lia|done|lia].
  - rewrite lookup_app_r by lia. rewrite Hlen.
    destruct (i - Z.to_nat d)%nat as [|k] eqn:Hk; [lia|]. simpl.
    rewrite lookup_drop. replace (Z.to_nat d + k)%nat with (i - 1)%nat by lia.
    split; [auto|]. intros [[? _]|[[? _]|[_ ?]]]; [lia..|done].
Qed.

Lemma splice_elem_of {A} (c : list A) (d : Z) (N x : A) :
  x ∈ splice c d N ↔ x ∈ c ∨ x = N.
Proof.
  unfold splice. rewrite elem_of_app, elem_of_cons.
  rewrite <- (take_drop (Z.to_nat d) c) at 3. rewrite elem_of_app. tauto.
Qed.

Lemma splice_fmap {A B} (f : A → B) (c : list A) d N :
  f <$> splice c d N = splice (f <$> c) d (f N).
Proof. unfold splice. by rewrite fmap_app, fmap_cons, fmap_take, fmap_drop. Qed.

Lemma splice_NoDup {A} (c : list A) d N : NoDup c → N ∉ c → NoDup (splice c d N).
Proof.
  intros Hnd Hn. unfold splice. rewrite <- (take_drop (Z.to_nat d) c) in Hnd, Hn.
  apply NoDup_app in Hnd as (H1 & H2 & H3). rewrite elem_of_app in Hn.
  apply NoDup_app. split; [done|]. split.
  - intros x Hx [->|Hx']%elem_of_cons; [tauto|]. by eapply H2.
  - apply NoDup_cons. tauto.
Qed.

(** *** Range of the Automerge scan *)

Lemma automerge_scan_range {T} fast (doc : Doc T) N hint parent rest destIdx lc r :
  automerge_scan fast doc N hint parent rest destIdx lc = inr r →
  destIdx <= r <= destIdx + lenZ rest.
Proof.
  revert destIdx lc. induction rest as [|O rest IH]; intros destIdx lc; simpl.
  - intros [= <-]. unfold lenZ. simpl. lia.
  - assert (lenZ (O :: rest) = lenZ rest + 1) as -> by (unfold lenZ; simpl; lia).
    pose proof (IH (destIdx + 1)) as IH'.
    repeat (case_match; try done); try (intros [= <-]; unfold lenZ; lia);
      intros ?%IH'; lia.
Qed.

(** *** A successful [integrateAutomerge] *)

Lemma integrateAutomerge_ok {T} fast (doc doc' : Doc T) N hint :
  integrateAutomerge_gen fast doc N hint = (doc', Ok) →
  ∃ parent destIdx,
    0 <= item_seq N ∧ seq_ready doc N
    ∧ findItem doc (originLeft N) (hint - 1) = inr parent
    ∧ parent < destIdx <= lenZ (doc_content doc)
    ∧ doc' = {| doc_content := splice (doc_content doc) destIdx N;
                doc_version := <[(item_id N).1 := (item_id N).2]> (doc_version doc);
                doc_length := doc_length doc + (if isDeleted N then 0 else 1);
                maxSeq := Z.max (maxSeq doc) (item_seq N) |}.
Proof.
  unfold integrateAutomerge_gen.
  destruct (Z.leb_spec 0 (item_seq N)) as [Hs|]; [|done].
  destruct (Z.eqb_spec (item_id N).2 (lastSeen (doc_version doc) (item_id N).1 + 1))
    as [Hr|]; [|done].
  cbn [negb]. unfold findItem. rewrite (findItem2_content _ doc) by done.
  destruct (findItem2 doc (originLeft N) false (hint - 1)) as [|parent] eqn:Hp; [done|].
  destruct (automerge_scan _ _ _ _ _ _ _ _) as [|destIdx] eqn:Hscan; [done|].
  intros [= <-]. exists parent, destIdx.
  apply automerge_scan_range in Hscan. apply findItem2_range in Hp as Hrange.
  assert (lenZ (drop (Z.to_nat (parent + 1)) (doc_content doc))
          = lenZ (doc_content doc) - (parent + 1)) as Hlen.
  { unfold lenZ in *. rewrite length_drop. lia. }
  cbn [doc_content set_version] in Hscan. rewrite Hlen in Hscan.
  split; [done|]. split; [done|]. split; [done|]. split; [lia|].
  rewrite commit_shape.
  destruct (Z.ltb_spec (maxSeq doc) (item_seq N)); cbn; f_equal; lia.
Qed.

Lemma seq_ready_not_in_version {T} (doc : Doc T) N :
  seq_ready doc N → isInVersion (Some (item_id N)) (doc_version doc) = false.
Proof.
  unfold seq_ready, lastSeen. intros Hr. destruct (item_id N) as [a s]. simpl in *.
  destruct (isInVersion (Some (a, s)) (doc_version doc)) eqn:Hv; [|done].
  apply isInVersion_Some in Hv as (s' & Hs' & Hle). rewrite Hs' in Hr. simpl in Hr. lia.
Qed.

Lemma isInVersion_insert_inv (v : Version) ag sq a s :
  sq = lastSeen v ag + 1 → 0 <= s →
  isInVersion (Some (a, s)) (<[ag := sq]> v) = true →
  (a, s) = (ag, sq) ∨ isInVersion (Some (a, s)) v = true.
Proof.
  intros Hsq Hs. rewrite !isInVersion_Some. intros (s' & Hl & Hle).
  destruct (decide (ag = a)) as [->|Hne].
  - rewrite lookup_insert_eq in Hl. injection Hl as <-.
    destruct (Z.eq_dec s sq) as [->|Hne]; [by left|]. right.
    unfold lastSeen in Hsq. destruct (v !! a) as [m|]; simpl in Hsq; [|lia].
    exists m. split; [done|lia].
  - rewrite lookup_insert_ne in Hl by done. right. eauto.
Qed.

Lemma am_wf_integrate {T} fast (doc doc' : Doc T) N hint :
  am_wf doc →
  (∀ p, originLeft N = Some p →
        ∃ y, y ∈ doc_content doc ∧ item_id y = p ∧ item_seq y < item_seq N) →
  integrateAutomerge_gen fast doc N hint = (doc', Ok) →
  am_wf doc'
  ∧ (∀ x, x ∈ doc_content doc' ↔ x ∈ doc_content doc ∨ x = N)
  ∧ doc_version doc' = <[(item_id N).1 := (item_id N).2]> (doc_version doc)
  ∧ seq_ready doc N.
Proof.
  intros [[Hnd Hpar] Hver Hclosed Hseq Hlast] HparN
         (parent & destIdx & Hs & Hr & Hfind & Hrange & ->)%integrateAutomerge_ok.
  assert (0 <= (item_id N).2) as HidN.
  { rewrite Hr. specialize (Hlast (item_id N).1). lia. }
  assert (-1 <= parent) as Hp1 by (apply findItem2_range in Hfind; lia).
  assert (item_id N ∉ item_id <$> doc_content doc) as Hfresh.
  { intros (x & Hid & Hx)%list_elem_of_fmap. apply Hver in Hx.
    rewrite <- Hid, seq_ready_not_in_version in Hx; done. }
  split; [|split; [|done]]; cbn [doc_content doc_version maxSeq].
  2:{ intros x. apply splice_elem_of. }
  split; cbn [doc_content doc_version maxSeq].
  - split.
    + rewrite splice_fmap. by apply splice_NoDup.
    + intros i x p Hx Hol. apply splice_lookup in Hx; [|lia].
      destruct Hx as [[Hi Hx]|[[Hi ->]|[Hi Hx]]].
      * destruct (Hpar _ _ _ Hx Hol) as (j & y & Hj & Hy & Hid & Hsy).
        exists j, y. split; [done|]. split; [|done].
        apply splice_lookup; [lia|]. left. split; [lia|done].
      * destruct (HparN _ Hol) as (y & Hy & Hid & Hsy).
        apply list_elem_of_lookup in Hy as [j Hy].
        rewrite Hol, (findItem_unique doc p j y) in Hfind by done.
        injection Hfind as <-. exists j, y. split; [lia|]. split; [|done].
        apply splice_lookup; [lia|]. left. split; [lia|done].
      * destruct (Hpar _ _ _ Hx Hol) as (j & y & Hj & Hy & Hid & Hsy).
        destruct (Z.lt_ge_cases (Z.of_nat j) destIdx).
        -- exists j, y. split; [lia|]. split; [|done].
           apply splice_lookup; [lia|]. left. split; [lia|done].
        -- exists (S j), y. split; [lia|]. split; [|done].
           apply splice_lookup; [lia|]. right. right. split; [lia|].
           by replace (S j - 1)%nat with j by lia.
  - intros x [Hx| ->]%splice_elem_of.
    + eapply ver_le_insert; [apply Hr|]. by apply Hver.
    + destruct (item_id N). apply isInVersion_insert.
  - intros a s Hs0 Hin. apply isInVersion_insert_inv in Hin; [|apply Hr|done].
    destruct Hin as [Heq|Hin].
    + exists N. split; [apply splice_elem_of; by right|]. by destruct (item_id N).
    + destruct (Hclosed _ _ Hs0 Hin) as (x & Hx & Hid). exists x.
      split; [apply splice_elem_of; by left|done].
  - intros x [Hx| ->]%splice_elem_of.
    + destruct (Hseq _ Hx). split; [done|lia].
    + split; [done|lia].
  - intros a. unfold lastSeen. destruct (decide ((item_id N).1 = a)) as [<-|Hne].
    + rewrite lookup_insert_eq. simpl. lia.
    + rewrite lookup_insert_ne by done. apply Hlast.
Qed.

(** *** Copies of items *)

Lemma same_item_refl {T} (x : Item T) : same_item x x.
Proof. by repeat split. Qed.

Lemma same_item_sym {T} (x y : Item T) : same_item x y → same_item y x.
Proof. intros (?&?&?&?&?&?). by repeat split. Qed.

Lemma same_item_trans {T} (x y z : Item T) : same_item x y → same_item y z → same_item x z.
Proof. intros (?&?&?&?&?&?) (?&?&?&?&?&?). repeat split; congruence. Qed.

Lemma same_item_set_deleted {T} (x : Item T) : same_item (set_deleted x) x.
Proof. by repeat split. Qed.

(** A document whose items are copies, index by index, of the items of a
    well-formed document with the same version and [maxSeq] is well formed. *)
Lemma am_wf_copies {T} (d d' : Doc T) :
  am_wf d →
  Forall2 same_item (doc_content d') (doc_content d) →
  doc_version d' = doc_version d → maxSeq d' = maxSeq d →
  am_wf d'.
Proof.
  intros [[Hnd Hpar] Hver Hclosed Hseq Hlast] Hcopy Hv Hm.
  assert (item_id <$> doc_content d' = item_id <$> doc_content d) as Hids.
  { clear -Hcopy. induction Hcopy as [|x y c' c [Hid _] _ IH]; [done|].
    rewrite !fmap_cons. by rewrite Hid, IH. }
  assert (∀ x, x ∈ doc_content d' → ∃ y, y ∈ doc_content d ∧ same_item x y) as Hin.
  { intros x [i Hx]%list_elem_of_lookup.
    destruct (Forall2_lookup_l _ _ _ _ _ Hcopy Hx) as (y & Hy & Hs).
    exists y. split; [by eapply list_elem_of_lookup_2|done]. }
  split.
  - split; [by rewrite Hids|].
    intros i x p Hx Hol.
    destruct (Forall2_lookup_l _ _ _ _ _ Hcopy Hx) as (x0 & Hx0 & (_ & Hol0 & _ & Hs0 & _)).
    rewrite Hol0 in Hol. destruct (Hpar _ _ _ Hx0 Hol) as (j & y0 & Hj & Hy0 & Hid & Hsy).
    destruct (Forall2_lookup_r _ _ _ _ _ Hcopy Hy0) as (y & Hy & (Hidy & _ & _ & Hsy' & _)).
    exists j, y. repeat split; [done..|congruence|lia].
  - intros x (y & Hy & (Hid & _))%Hin. rewrite Hv, Hid. by apply Hver.
  - intros a s Hs Hv'. rewrite Hv in Hv'. destruct (Hclosed _ _ Hs Hv') as (y & Hy & Hid).
    apply list_elem_of_lookup in Hy as [i Hy].
    destruct (Forall2_lookup_r _ _ _ _ _ Hcopy Hy) as (x & Hx & (Hidx & _)).
    exists x. split; [by eapply list_elem_of_lookup_2|congruence].
  - intros x (y & Hy & (Hid & _ & _ & Hs & _))%Hin. rewrite Hm, Hid, Hs. by apply Hseq.
  - intros a. rewrite Hv. apply Hlast.
Qed.

Lemma am_wf_newDoc {T} : am_wf (@newDoc T).
Proof.
  split; simpl.
  - split; [constructor|]. intros i x p Hx. done.
  - intros x Hx. by apply elem_of_nil in Hx.
  - intros a s _ Hv. apply isInVersion_Some in Hv as (? & Hl & _).
    by rewrite lookup_empty in Hl.
  - intros x Hx. by apply elem_of_nil in Hx.
  - intros a. unfold lastSeen. rewrite lookup_empty. simpl. lia.
Qed.

Lemma fits_deliver {T} (sys : gmap string (Doc T)) (d d' : Doc T) x hint :
  am_inv sys → fits sys d → in_sys sys x →
  canInsertNow x d = true →
  integrate automerge d x hint = (d', Ok) →
  fits sys d'.
Proof.
  intros [Hwf Hsame Hown] [Hd Hcopies] [b Hx] Hcan Hint.
  destruct (am_wf_integrate true d d' x hint Hd) as (Hwf' & Hmem & _); [|done|].
  - intros p Hol.
    destruct (Hwf b) as [[_ Hpar] _ _ Hseq _].
    apply list_elem_of_lookup in Hx as Hx'. destruct Hx' as [i Hi].
    destruct (Hpar _ _ _ Hi Hol) as (j & y' & _ & Hy' & Hid' & Hsy').
    apply list_elem_of_lookup_2 in Hy'.
    unfold canInsertNow in Hcan. rewrite !andb_true_iff in Hcan.
    destruct Hcan as [[_ Hleft] _]. rewrite Hol in Hleft.
    destruct Hd as [_ _ Hclosed _ _]. destruct p as [pa ps].
    destruct (Hclosed pa ps) as (y & Hy & Hid); [|done|].
    { destruct (Hseq _ Hy') as [H0 _]. by rewrite Hid' in H0. }
    exists y. split; [done|]. split; [done|].
    destruct (Hcopies _ Hy) as (y'' & Hy'' & Hs).
    assert (same_item y'' y') as Hs'.
    { apply Hsame; [done|by exists b|]. destruct Hs as [<- _]. congruence. }
    destruct Hs as (_ & _ & _ & Hq & _). destruct Hs' as (_ & _ & _ & Hq' & _). lia.
  - split; [done|]. intros z [Hz| ->]%Hmem; [by apply Hcopies|].
    exists x. split; [by exists b|apply same_item_refl].
Qed.

Lemma fits_merge_pass {T} (sys : gmap string (Doc T)) (dest : Doc T) missing d m n :
  am_inv sys → fits sys dest →
  Forall (λ o, ∀ op, o = Some op → in_sys sys op) missing →
  merge_pass automerge dest missing = (d, m, n, Ok) →
  fits sys d ∧ Forall (λ o, ∀ op, o = Some op → in_sys sys op) m.
Proof.
  intros Hinv Hfit Hall. revert dest d m n Hfit.
  induction Hall as [|o missing Ho Hall IH]; intros dest d m n Hfit; cbn [merge_pass].
  - by intros [= <- <- <-].
  - destruct o as [op|].
    + destruct (canInsertNow op dest) eqn:Hcan; cbn [negb].
      * destruct (integrate automerge dest op (-1)) as [dest' [|e]] eqn:Hi; [|done].
        destruct (merge_pass automerge dest' missing) as [[[d1 m1] n1] r1] eqn:Hp.
        intros [= <- <- <- ->].
        destruct (IH _ _ _ _ (fits_deliver _ _ _ _ _ Hinv Hfit (Ho _ eq_refl) Hcan Hi) Hp).
        split; [done|by constructor].
      * destruct (merge_pass automerge dest missing) as [[[d1 m1] n1] r1] eqn:Hp.
        intros [= <- <- <- ->]. destruct (IH _ _ _ _ Hfit Hp). split; [done|by constructor].
    + destruct (merge_pass automerge dest missing) as [[[d1 m1] n1] r1] eqn:Hp.
      intros [= <- <- <- ->]. destruct (IH _ _ _ _ Hfit Hp). split; [done|by constructor].
Qed.

Lemma fits_merge_loop {T} fuel (sys : gmap string (Doc T)) (dest : Doc T) missing remaining d :
  am_inv sys → fits sys dest →
  Forall (λ o, ∀ op, o = Some op → in_sys sys op) missing →
  merge_loop fuel automerge dest missing remaining = Some (d, Ok) →
  fits sys d.
Proof.
  intros Hinv. revert dest missing remaining.
  induction fuel as [|fuel IH]; intros dest missing remaining Hfit Hall; simpl.
  - destruct (remaining <=? 0); [|done]. by intros [= <-].
  - destruct (remaining <=? 0); [by intros [= <-]|].
    destruct (merge_pass automerge dest missing) as [[[d1 m1] n1] [|e]] eqn:Hp; [|done].
    destruct (n1 =? 0); [done|].
    destruct (fits_merge_pass _ _ _ _ _ _ Hinv Hfit Hall Hp). by apply IH.
Qed.

(** *** The invariant of an Automerge system *)

Lemma replica_insert {T} (sys : gmap string (Doc T)) a d b :
  replica (<[a := d]> sys) b = if decide (a = b) then d else replica sys b.
Proof.
  unfold replica. destruct (decide (a = b)) as [->|Hne].
  - by rewrite lookup_insert_eq.
  - by rewrite lookup_insert_ne.
Qed.

Lemma in_sys_insert {T} (sys : gmap string (Doc T)) a d x :
  in_sys (<[a := d]> sys) x → x ∈ doc_content d ∨ in_sys sys x.
Proof.
  intros [b Hx]. rewrite replica_insert in Hx. destruct (decide (a = b)); [by left|].
  right. by exists b.
Qed.

(** Replacing the document of replica [a] by a well-formed one that has
    seen at least as much, and whose items are copies of items of the
    system or new items of [a], keeps the invariant. *)
Lemma am_inv_update {T} (sys : gmap string (Doc T)) a d :
  am_inv sys → am_wf d →
  ver_le (doc_version (replica sys a)) (doc_version d) →
  (∀ x, x ∈ doc_content d →
     (∃ y, in_sys sys y ∧ same_item x y)
     ∨ ((∀ y, in_sys sys y → item_id y ≠ item_id x) ∧ (item_id x).1 = a)) →
  am_inv (<[a := d]> sys).
Proof.
  intros [Hwf Hsame Hown] Hd Hle Hitems. split.
  - intros b. rewrite replica_insert. by destruct (decide (a = b)).
  - assert (∀ x y, x ∈ doc_content d → in_sys sys y → item_id x = item_id y →
                   same_item x y) as Hmixed.
    { intros x y Hx Hy Hid. destruct (Hitems _ Hx) as [(x0 & Hx0 & Hs)|[Hfresh _]].
      - eapply same_item_trans; [done|]. apply Hsame; [done..|].
        destruct Hs as [<- _]. done.
      - by destruct (Hfresh _ Hy). }
    intros x y [Hx|Hx]%in_sys_insert [Hy|Hy]%in_sys_insert Hid.
    + destruct Hd as [[Hnd _] _ _ _ _].
      apply list_elem_of_lookup in Hx as [i Hi]. apply list_elem_of_lookup in Hy as [j Hj].
      assert (i = j) as -> by (by eapply NoDup_ids_lookup).
      rewrite Hi in Hj. injection Hj as ->. apply same_item_refl.
    + by apply Hmixed.
    + apply same_item_sym. by apply Hmixed.
    + by apply Hsame.
  - assert (∀ x, in_sys sys x →
              isInVersion (Some (item_id x))
                (doc_version (replica (<[a := d]> sys) (item_id x).1)) = true) as Hold.
    { intros x Hx. rewrite replica_insert. destruct (decide (a = (item_id x).1)) as [->|].
      - apply Hle. by apply Hown.
      - by apply Hown. }
    intros x [Hx|Hx]%in_sys_insert; [|by apply Hold].
    destruct (Hitems _ Hx) as [(x0 & Hx0 & [Hid _])|[_ Ha]].
    + rewrite Hid. by apply Hold.
    + rewrite replica_insert, Ha. rewrite decide_True by done. by apply (wf_version _ Hd).
Qed.

Lemma am_inv_fits {T} (sys : gmap string (Doc T)) a : am_inv sys → fits sys (replica sys a).
Proof.
  intros Hinv. split; [apply (inv_wf _ Hinv)|]. intros x Hx.
  exists x. split; [by exists a|apply same_item_refl].
Qed.

Lemma am_inv_fits_update {T} (sys : gmap string (Doc T)) a d :
  am_inv sys → fits sys d →
  ver_le (doc_version (replica sys a)) (doc_version d) →
  am_inv (<[a := d]> sys).
Proof.
  intros Hinv [Hwf Hcopies] Hle. apply am_inv_update; [done..|].
  intros x Hx. left. by apply Hcopies.
Qed.

Lemma replica_fmap {T} (f : Doc T → Doc T) (sys : gmap string (Doc T)) b :
  f newDoc = newDoc → replica (f <$> sys) b = f (replica sys b).
Proof.
  intros Hf. unfold replica. rewrite lookup_fmap. by destruct (sys !! b).
Qed.

Lemma mark_deleted_copies {T} target (d : Doc T) :
  Forall2 same_item (doc_content (mark_deleted target d)) (doc_content d).
Proof.
  unfold mark_deleted. cbn [doc_content set_content].
  apply Forall2_fmap_l, Forall_Forall2_diag, Forall_forall. intros x _.
  unfold compose. destruct (idEq (Some (item_id x)) target && negb (is_null (item_content x)));
    [apply same_item_set_deleted|apply same_item_refl].
Qed.

(** A system whose documents are copies, item by item, of the documents of
    a system that satisfies the invariant satisfies it too. *)
Lemma am_inv_copies {T} (sys sys' : gmap string (Doc T)) :
  am_inv sys →
  (∀ b, Forall2 same_item (doc_content (replica sys' b)) (doc_content (replica sys b))
        ∧ doc_version (replica sys' b) = doc_version (replica sys b)
        ∧ maxSeq (replica sys' b) = maxSeq (replica sys b)) →
  am_inv sys'.
Proof.
  intros [Hwf Hsame Hown] Hcopies.
  assert (∀ x, in_sys sys' x → ∃ x0, in_sys sys x0 ∧ same_item x x0) as Hrep.
  { intros x [b [i Hx]%list_elem_of_lookup]. destruct (Hcopies b) as (Hc & _).
    destruct (Forall2_lookup_l _ _ _ _ _ Hc Hx) as (x0 & Hx0 & Hs).
    exists x0. split; [|done]. exists b. by eapply list_elem_of_lookup_2. }
  split.
  - intros b. destruct (Hcopies b) as (Hc & Hv & Hm). by apply (am_wf_copies (replica sys b)).
  - intros x y (x0 & Hx0 & Hsx)%Hrep (y0 & Hy0 & Hsy)%Hrep Hid.
    eapply same_item_trans; [done|]. eapply same_item_trans; [|by apply same_item_sym].
    apply Hsame; [done..|]. destruct Hsx as [<- _], Hsy as [<- _]. done.
  - intros x (x0 & Hx0 & [Hid _])%Hrep. destruct (Hcopies (item_id x).1) as (_ & -> & _).
    rewrite Hid. by apply Hown.
Qed.

Lemma am_inv_step {T} (sys sys' : gmap string (Doc T)) :
  am_inv sys → sys_step automerge sys sys' → am_inv sys'.
Proof.
  intros Hinv [a pos content d Hop|a pos d Hop|a b x hint d Hx Hc Hcan Hop|a b d Hop].
  - (* localInsert *)
    simpl in Hop. unfold localInsert in Hop.
    destruct (findItemAtPos (replica sys a) pos false) as [|i] eqn:Hi; [done|].
    set (N := {| item_content := Some content;
                 item_id := (a, lastSeen (doc_version (replica sys a)) a + 1);
                 originLeft := idAt (replica sys a) (i - 1);
                 originRight := idAt (replica sys a) i;
                 item_seq := maxSeq (replica sys a) + 1;
                 insertAfter := true; isDeleted := false |}) in Hop.
    pose proof (inv_wf _ Hinv a) as Hwf.
    destruct (am_wf_integrate true _ d N i Hwf) as (Hwf' & Hmem & Hv & Hr); [|done|].
    { intros p Hol. simpl in Hol. unfold idAt in Hol.
      destruct (nthZ (doc_content (replica sys a)) (i - 1)) as [y|] eqn:Hy; [|done].
      injection Hol as <-. apply nthZ_Some in Hy as [_ Hy].
      apply list_elem_of_lookup_2 in Hy. exists y. split; [done|]. split; [done|].
      destruct (wf_seq _ Hwf _ Hy). simpl. lia. }
    apply am_inv_update; [done..| |].
    + rewrite Hv. by apply ver_le_insert.
    + intros x [Hx| ->]%Hmem.
      * left. exists x. split; [by exists a|apply same_item_refl].
      * right. split; [|done]. intros y Hy Hid.
        apply (inv_owner _ Hinv) in Hy. rewrite Hid in Hy. simpl in Hy.
        apply seq_ready_not_in_version in Hr. simpl in Hr. congruence.
  - (* localDelete *)
    apply (am_inv_copies sys); [done|]. intros b.
    rewrite replica_insert. destruct (decide (a = b)) as [<-|Hne].
    2:{ rewrite replica_fmap by done. split; [apply mark_deleted_copies|done]. }
    unfold localDelete in Hop.
    destruct (findItemAtPos (replica sys a) pos false) as [|idx]; [done|].
    destruct (nthZ (doc_content (replica sys a)) idx) as [it|] eqn:Hit; [|done].
    destruct (negb (isDeleted it)).
    2:{ injection Hop as <-. split; [|done]. apply Forall2_same_length_lookup.
        split; [done|]. intros i x y Hx Hy. rewrite Hx in Hy. injection Hy as <-.
        apply same_item_refl. }
    injection Hop as <-. apply nthZ_Some in Hit as [_ Hit]. split; [|done].
    cbn [doc_content add_length set_content].
    apply Forall2_same_length_lookup. split; [by rewrite length_insert|].
    intros i x y Hx Hy.
    destruct (decide (i = Z.to_nat idx)) as [->|Hne].
    + rewrite list_lookup_insert_eq in Hx by (by eapply lookup_lt_Some).
      injection Hx as <-. rewrite Hit in Hy. injection Hy as <-.
      apply same_item_set_deleted.
    + rewrite list_lookup_insert_ne in Hx by done. rewrite Hx in Hy. injection Hy as <-.
      apply same_item_refl.
  - (* delivery of one item *)
    apply am_inv_fits_update; [done| |].
    + eapply fits_deliver; [done|by apply am_inv_fits|by exists b|done..].
    + by destruct (integrate_ok_ver_le _ _ _ _ _ Hop).
  - (* mergeInto *)
    unfold mergeInto in Hop. apply am_inv_fits_update; [done| |].
    + eapply fits_merge_loop; [done|by apply am_inv_fits| |done].
      apply Forall_fmap, Forall_forall. intros x [_ Hx]%list_elem_of_filter op [= <-].
      by exists b.
    + by eapply merge_loop_ver_le.
Qed.

Lemma am_inv_reachable {T} (sys : gmap string (Doc T)) :
  sys_reachable automerge sys → am_inv sys.
Proof.
  induction 1 as [|sys sys' _ IH Hstep]; [|by eapply am_inv_step].
  assert (∀ a, replica (∅ : gmap string (Doc T)) a = newDoc) as Hempty.
  { intros a. unfold replica. by rewrite lookup_empty. }
  split.
  - intros a. rewrite Hempty. apply am_wf_newDoc.
  - intros x y [b Hx]. rewrite Hempty in Hx. by apply elem_of_nil in Hx.
  - intros x [b Hx]. rewrite Hempty in Hx. by apply elem_of_nil in Hx.
Qed.

(** *** Documents built with [seq] above the left origin *)

Lemma integrateAutomerge_left_found {T} fast (doc doc' : Doc T) N hint p :
  integrateAutomerge_gen fast doc N hint = (doc', Ok) → originLeft N = Some p →
  ∃ y, y ∈ doc_content doc ∧ item_id y = p.
Proof.
  intros (parent & destIdx & _ & _ & Hfind & _)%integrateAutomerge_ok Hol.
  rewrite Hol in Hfind. destruct p as [agent seq]. unfold findItem in Hfind.
  apply findItem2_inr in Hfind as (y & [_ Hy]%nthZ_Some & Hm%needle_match_false_true).
  exists y. split; [by eapply list_elem_of_lookup_2|done].
Qed.

Lemma am_wf_integrate_above {T} (doc doc' : Doc T) N hint :
  am_wf doc → seq_above_left (doc_content doc) N →
  integrateAutomerge doc N hint = (doc', Ok) →
  am_wf doc' ∧ (∀ x, x ∈ doc_content doc' ↔ x ∈ doc_content doc ∨ x = N).
Proof.
  intros Hwf Habove Hi.
  destruct (am_wf_integrate true doc doc' N hint Hwf) as (Hwf' & Hmem & _); [|done|done].
  intros p Hol. destruct (integrateAutomerge_left_found _ _ _ _ _ _ Hi Hol) as (y & Hy & Hid).
  exists y. split; [done|]. split; [done|]. apply Habove; [done|]. by rewrite Hid.
Qed.

Lemma am_wf_localInsert {T} (doc doc' : Doc T) agent pos content :
  am_wf doc → localInsert automerge doc agent pos content = (doc', Ok) → am_wf doc'.
Proof.
  intros Hwf Hop. unfold localInsert in Hop.
  destruct (findItemAtPos doc pos false) as [|i]; [done|].
  eapply am_wf_integrate_above; [done| |exact Hop].
  intros y Hy _. cbn [item_seq]. destruct (wf_seq _ Hwf _ Hy). lia.
Qed.

Lemma localDelete_copies {T} (doc doc' : Doc T) agent pos :
  localDelete doc agent pos = (doc', Ok) →
  Forall2 same_item (doc_content doc') (doc_content doc)
  ∧ doc_version doc' = doc_version doc ∧ maxSeq doc' = maxSeq doc.
Proof.
  unfold localDelete. intros Hop.
  destruct (findItemAtPos doc pos false) as [|idx]; [done|].
  destruct (nthZ (doc_content doc) idx) as [it|] eqn:Hit; [|done].
  destruct (negb (isDeleted it)).
  2:{ injection Hop as <-. split; [|done]. apply Forall_Forall2_diag, Forall_forall.
      intros x _. apply same_item_refl. }
  injection Hop as <-. apply nthZ_Some in Hit as [_ Hit]. split; [|done].
  cbn [doc_content add_length set_content].
  apply Forall2_same_length_lookup. split; [by rewrite length_insert|].
  intros i x y Hx Hy.
  destruct (decide (i = Z.to_nat idx)) as [->|Hne].
  - rewrite list_lookup_insert_eq in Hx by (by eapply lookup_lt_Some).
    injection Hx as <-. rewrite Hit in Hy. injection Hy as <-.
    apply same_item_set_deleted.
  - rewrite list_lookup_insert_ne in Hx by done. rewrite Hx in Hy. injection Hy as <-.
    apply same_item_refl.
Qed.

(** The state of a merge from [src] into a document that held the items
    [c0]: the destination is well formed and holds items of [c0] and of
    [src]. *)
Lemma am_wf_merge_step {T} (src : Doc T) (c0 : list (Item T)) (dest dest' : Doc T) op :
  am_wf src → am_wf dest →
  (∀ z, z ∈ doc_content dest → z ∈ c0 ∨ z ∈ doc_content src) →
  op ∈ doc_content src → seq_above_left c0 op →
  integrate automerge dest op (-1) = (dest', Ok) →
  am_wf dest' ∧ (∀ z, z ∈ doc_content dest' → z ∈ c0 ∨ z ∈ doc_content src).
Proof.
  intros Hsrc Hwf Hfrom Hop Habove Hi.
  destruct (am_wf_integrate_above dest dest' op (-1) Hwf) as [Hwf' Hmem]; [|done|].
  - intros y Hy Hol. destruct (Hfrom _ Hy) as [H0|Hs]; [by apply Habove|].
    apply list_elem_of_lookup in Hop as [i Hi'].
    destruct (am_parent _ (wf_tree _ Hsrc) _ _ _ Hi' Hol) as (j & y' & _ & Hy' & Hid & Hlt).
    apply list_elem_of_lookup in Hs as [k Hk].
    assert (j = k) as -> by (eapply NoDup_ids_lookup; [apply (am_nodup _ (wf_tree _ Hsrc))|done..]).
    rewrite Hk in Hy'. by injection Hy' as ->.
  - split; [done|]. intros z [Hz| ->]%Hmem; [by apply Hfrom|by right].
Qed.

Lemma am_wf_merge_pass {T} (src : Doc T) (c0 : list (Item T)) dest missing d m n :
  am_wf src → am_wf dest →
  (∀ z, z ∈ doc_content dest → z ∈ c0 ∨ z ∈ doc_content src) →
  Forall (λ o, ∀ op, o = Some op → op ∈ doc_content src ∧ seq_above_left c0 op) missing →
  merge_pass automerge dest missing = (d, m, n, Ok) →
  am_wf d ∧ (∀ z, z ∈ doc_content d → z ∈ c0 ∨ z ∈ doc_content src)
  ∧ Forall (λ o, ∀ op, o = Some op → op ∈ doc_content src ∧ seq_above_left c0 op) m.
Proof.
  intros Hsrc Hwf Hfrom Hall. revert dest d m n Hwf Hfrom.
  induction Hall as [|o missing Ho Hall IH]; intros dest d m n Hwf Hfrom; cbn [merge_pass].
  - by intros [= <- <- <-].
  - destruct o as [op|].
    + destruct (canInsertNow op dest); cbn [negb].
      * destruct (integrate automerge dest op (-1)) as [dest' [|e]] eqn:Hi; [|done].
        destruct (merge_pass automerge dest' missing) as [[[d1 m1] n1] r1] eqn:Hp.
        intros [= <- <- <- ->]. destruct (Ho _ eq_refl) as [Hin Habove].
        destruct (am_wf_merge_step src c0 dest dest' op) as [Hwf' Hfrom']; [done..|].
        destruct (IH _ _ _ _ Hwf' Hfrom' Hp) as (? & ? & ?).
        split; [done|]. split; [done|]. by constructor.
      * destruct (merge_pass automerge dest missing) as [[[d1 m1] n1] r1] eqn:Hp.
        intros [= <- <- <- ->]. destruct (IH _ _ _ _ Hwf Hfrom Hp) as (? & ? & ?).
        split; [done|]. split; [done|]. by constructor.
    + destruct (merge_pass automerge dest missing) as [[[d1 m1] n1] r1] eqn:Hp.
      intros [= <- <- <- ->]. destruct (IH _ _ _ _ Hwf Hfrom Hp) as (? & ? & ?).
      split; [done|]. split; [done|]. by constructor.
Qed.

Lemma am_wf_merge_loop {T} fuel (src : Doc T) (c0 : list (Item T)) dest missing remaining d :
  am_wf src → am_wf dest →
  (∀ z, z ∈ doc_content dest → z ∈ c0 ∨ z ∈ doc_content src) →
  Forall (λ o, ∀ op, o = Some op → op ∈ doc_content src ∧ seq_above_left c0 op) missing →
  merge_loop fuel automerge dest missing remaining = Some (d, Ok) →
  am_wf d.
Proof.
  intros Hsrc. revert dest missing remaining.
  induction fuel as [|fuel IH]; intros dest missing remaining Hwf Hfrom Hall; simpl.
  - destruct (remaining <=? 0); [|done]. by intros [= <-].
  - destruct (remaining <=? 0); [by intros [= <-]|].
    destruct (merge_pass automerge dest missing) as [[[d1 m1] n1] [|e]] eqn:Hp; [|done].
    destruct (n1 =? 0); [done|].
    destruct (am_wf_merge_pass _ _ _ _ _ _ _ Hsrc Hwf Hfrom Hall Hp) as (? & ? & ?).
    by apply IH.
Qed.

Lemma am_reachable_wf {T} (doc : Doc T) : am_reachable doc → am_wf doc.
Proof.
  induction 1 as [|doc agent pos content doc' _ IH Hop|doc agent pos doc' _ IH Hop
                  |doc n hint doc' _ IH Habove Hop|doc src doc' _ IHd _ IHs Habove Hop].
  - apply am_wf_newDoc.
  - by eapply am_wf_localInsert.
  - destruct (localDelete_copies _ _ _ _ Hop) as (? & ? & ?). by eapply am_wf_copies.
  - by eapply am_wf_integrate_above.
  - unfold mergeInto in Hop.
    refine (am_wf_merge_loop _ src (doc_content doc) doc _ _ doc' IHs IHd _ _ Hop);
      [intros z Hz; by left|].
    apply Forall_fmap, Forall_forall. intros x Hx op [= <-].
    split; [|by apply Habove]. by apply list_elem_of_filter in Hx as [_ Hx].
Qed.

(** C5, as stated, fails: [integrate] accepts an item whose [seq] is below
    the one of its left origin.  After "s" (root, seq 5) and its child "o"
    (seq 1), the root item "n" (seq 3) passes "s" and meets "o": the early
    break inserts it there, before "o"; without the break "o" is skipped
    as a descendant of "s" and "n" goes to the end. *)
Lemma integrateAutomerge_fast_path_differs :
  Reachable any_item automerge fast_doc
  ∧ item_id <$> doc_content fast_doc = [("A", 0); ("B", 0)]%string
  ∧ canInsertNow fast_n fast_doc = true ∧ 0 <= item_seq fast_n
  ∧ (integrateAutomerge fast_doc fast_n (-1)).2 = Ok
  ∧ (integrateAutomerge_noFastPath fast_doc fast_n (-1)).2 = Ok
  ∧ item_id <$> doc_content (integrateAutomerge fast_doc fast_n (-1)).1
    = [("A", 0); ("C", 0); ("B", 0)]%string
  ∧ item_id <$> doc_content (integrateAutomerge_noFastPath fast_doc fast_n (-1)).1
    = [("A", 0); ("B", 0); ("C", 0)]%string
  ∧ integrateAutomerge fast_doc fast_n (-1) ≠ integrateAutomerge_noFastPath fast_doc fast_n (-1).
Proof.
  split.
  { apply (reach_integrate _ _ (integrateAutomerge newDoc fast_s (-1)).1 fast_o (-1));
      [|done|reflexivity].
    apply (reach_integrate _ _ newDoc fast_s (-1)); [apply reach_newDoc|done|reflexivity]. }
  repeat (split; [reflexivity || done|]).
  intros H. apply (f_equal (λ r, item_id <$> doc_content r.1)) in H.
  vm_compute in H. discriminate H.
Qed.

(** C5 (amended): when each item of the document stands after the item its
    [originLeft] names and has a larger [seq] than it (and ids are unique),
    [integrateAutomerge] and the variant without the early [break] return
    the same document and the same outcome, for every item and every hint.
    Such are the documents built by local inserts and deletes, by
    [integrate] of items with a [seq] above the one of their left origin
    and by [mergeInto] of such items, and the documents of every system of
    replicas reached by local inserts, local deletes, deliveries of ready
    items and merges. *)
Theorem integrateAutomerge_fast_path {T} :
  (∀ (doc : Doc T) N hint, am_tree (doc_content doc) →
     integrateAutomerge doc N hint = integrateAutomerge_noFastPath doc N hint)
  ∧ (∀ (doc : Doc T) N hint, am_reachable doc →
     integrateAutomerge doc N hint = integrateAutomerge_noFastPath doc N hint)
  ∧ (∀ (sys : gmap string (Doc T)) a N hint, sys_reachable automerge sys →
     integrateAutomerge (replica sys a) N hint
     = integrateAutomerge_noFastPath (replica sys a) N hint).
Proof.
  split; [|split].
  - intros doc N hint Htree. by apply integrateAutomerge_fast_path_tree.
  - intros doc N hint Hwf%am_reachable_wf.
    apply integrateAutomerge_fast_path_tree. apply (wf_tree _ Hwf).
  - intros sys a N hint Hinv%am_inv_reachable.
    apply integrateAutomerge_fast_path_tree. apply (wf_tree _ (inv_wf _ Hinv a)).
Qed.

Lemma integrateAutomerge_fast_path_witness :
  integrateAutomerge fast_path_doc fast_path_item (-1)
  = integrateAutomerge_noFastPath fast_path_doc fast_path_item (-1)
  ∧ item_id <$> doc_content fast_path_doc = [("A", 0); ("A", 1); ("B", 0)]%string
  ∧ item_seq <$> doc_content fast_path_doc = [1; 2; 1]
  ∧ item_id <$> doc_content (integrateAutomerge fast_path_doc fast_path_item (-1)).1
    = [("A", 0); ("A", 1); ("C", 0); ("B", 0)]%string.
Proof.
  split; [|repeat split; reflexivity].
  apply (proj1 (proj2 (@integrateAutomerge_fast_path string))).
  apply (amr_integrate
           (localInsert automerge (localInsert automerge newDoc "A" 0 "x"%string).1
              "A" 1 "y"%string).1 fast_z (-1)).
  - apply (amr_localInsert (localInsert automerge newDoc "A" 0 "x"%string).1 "A" 1 "y"%string).
    + apply (amr_localInsert newDoc "A" 0 "x"%string); [apply amr_newDoc|reflexivity].
    + reflexivity.
  - intros y _ H. discriminate H.
  - reflexivity.
Defined.

(** *** The order on agent names and keys *)

Lemma ltb_lt (a b : string) : String.ltb a b = true ↔ String_as_OT.lt a b.
Proof.
  unfold String.ltb. rewrite <- String_as_OT.cmp_lt. unfold String_as_OT.cmp.
  destruct (String.compare a b); split; congruence.
Qed.

Lemma ltb_trans (a b c : string) :
  String.ltb a b = true → String.ltb b c = true → String.ltb a c = true.
Proof. rewrite !ltb_lt. apply String_as_OT.lt_trans. Qed.

Lemma ltb_irrefl (a : string) : String.ltb a a = false.
Proof.
  destruct (String.ltb a a) eqn:H; [|done]. apply ltb_lt in H.
  by apply String_as_OT.lt_not_eq in H.
Qed.

Lemma ltb_total (a b : string) :
  String.ltb a b = true ∨ a = b ∨ String.ltb b a = true.
Proof.
  unfold String.ltb. rewrite (String.compare_antisym b a).
  destruct (String.compare a b) eqn:H; simpl; auto.
  right. left. by apply String.compare_eq_iff.
Qed.

Lemma key_lt_trans a b c : key_lt a b → key_lt b c → key_lt a c.
Proof.
  intros [H1|[H1 H1']] [H2|[H2 H2']].
  - left. by eapply ltb_trans.
  - left. by rewrite <- H2.
  - left. by rewrite H1.
  - right. split; [congruence|lia].
Qed.

Lemma key_lt_irrefl a : ¬ key_lt a a.
Proof. intros [H|[_ H]]; [by rewrite ltb_irrefl in H|lia]. Qed.

(** *** The lexicographic order on paths *)

Lemma lex_lt_trans p q r : lex_lt p q → lex_lt q r → lex_lt p r.
Proof.
  intros H. revert r. induction H as [k q|a b p q Hab|a p q Hpq IH]; intros r Hr.
  - inversion Hr; constructor.
  - inversion Hr as [|b' c q' r' Hbc|b' q' r' Hqr]; subst.
    + apply lex_head. by eapply key_lt_trans.
    + by apply lex_head.
  - inversion Hr as [|a' c q' r' Hac|a' q' r' Hqr]; subst.
    + by apply lex_head.
    + apply lex_tail. by apply IH.
Qed.

Lemma lex_lt_irrefl p : ¬ lex_lt p p.
Proof.
  induction p as [|a p IH]; intros H; inversion H; subst; [by eapply key_lt_irrefl|done].
Qed.

Lemma lex_lt_asym p q : lex_lt p q → lex_lt q p → False.
Proof. intros H1 H2. by eapply lex_lt_irrefl, lex_lt_trans. Qed.

Lemma lex_lt_app p a b : lex_lt (p ++ a) (p ++ b) ↔ lex_lt a b.
Proof.
  induction p as [|k p IH]; [done|]. simpl. split.
  - intros H. inversion H; subst; [by destruct (key_lt_irrefl k)|by apply IH].
  - intros H. apply lex_tail. by apply IH.
Qed.

Lemma lex_lt_extend p k r : lex_lt p (p ++ k :: r).
Proof. rewrite <- (app_nil_r p) at 1. apply lex_lt_app. constructor. Qed.

(** A path after [p] that does not extend [p] is after every extension of [p]. *)
Lemma lex_lt_not_extension p q r :
  lex_lt p q → (∀ s, q ≠ p ++ s) → lex_lt (p ++ r) q.
Proof.
  intros H. revert r. induction H as [k q|a b p q Hab|a p q Hpq IH]; intros r Hne.
  - by destruct (Hne (k :: q)).
  - by apply lex_head.
  - simpl. apply lex_tail. apply IH. intros s ->. by destruct (Hne s).
Qed.

(** An extension of [p] before [p ++ [k]] stays before it when extended. *)
Lemma lex_lt_child p k0 r k s :
  lex_lt (p ++ k0 :: r) (p ++ [k]) → lex_lt (p ++ k0 :: r ++ s) (p ++ [k]).
Proof.
  rewrite !lex_lt_app. intros H. inversion H; subst; [by apply lex_head|].
  match goal with H' : lex_lt _ [] |- _ => inversion H' end.
Qed.

(** *** Paths *)

Lemma NoDup_ids_elem {T} (c : list (Item T)) x y :
  NoDup (item_id <$> c) → x ∈ c → y ∈ c → item_id x = item_id y → x = y.
Proof.
  intros Hnd [i Hi]%list_elem_of_lookup [j Hj]%list_elem_of_lookup Hid.
  assert (i = j) as -> by (by eapply NoDup_ids_lookup). congruence.
Qed.

Lemma has_path_elem {T} (c : list (Item T)) x p : has_path c x p → x ∈ c.
Proof. by destruct 1. Qed.

Lemma has_path_mono {T} (c c' : list (Item T)) x p :
  (∀ y, y ∈ c → y ∈ c') → has_path c x p → has_path c' x p.
Proof.
  intros Hsub. induction 1 as [x Hx Hol|x y p Hx Hy Hol _ IH].
  - apply path_root; auto.
  - apply path_child with y; auto.
Qed.

Lemma has_path_unique {T} (c : list (Item T)) x p q :
  NoDup (item_id <$> c) → has_path c x p → has_path c x q → p = q.
Proof.
  intros Hnd H. revert q. induction H as [x Hx Hol|x y p Hx Hy Hol _ IH]; intros q Hq.
  - inversion Hq; subst; [done|congruence].
  - inversion Hq as [|x' y' p' _ Hy' Hol' Hp']; subst; [congruence|].
    assert (y' = y) as -> by (eapply NoDup_ids_elem; [done..|congruence]).
    by rewrite (IH _ Hp').
Qed.

(** The path of an item is the path of its parent followed by its own id. *)
Lemma has_path_inv {T} (c : list (Item T)) x p :
  has_path c x p →
  ∃ p0, p = p0 ++ [item_id x]
    ∧ (originLeft x = None → p0 = [])
    ∧ (∀ q, originLeft x = Some q → ∃ y, y ∈ c ∧ item_id y = q ∧ has_path c y p0).
Proof.
  destruct 1 as [x Hx Hol|x y p Hx Hy Hol Hp].
  - exists []. split; [done|]. split; [done|]. intros q. congruence.
  - exists p. split; [done|]. split; [congruence|]. intros q Hq. rewrite Hol in Hq.
    injection Hq as <-. eauto.
Qed.

Lemma forest_lookup {T} (doc : Doc T) i o hint :
  forest (doc_content doc) → doc_content doc !! i = Some o →
  ∃ ol, findItem doc (originLeft o) hint = inr ol ∧ -1 <= ol < Z.of_nat i
    ∧ (originLeft o = None → ol = -1)
    ∧ (∀ q, originLeft o = Some q →
         ∃ y, 0 <= ol ∧ doc_content doc !! Z.to_nat ol = Some y ∧ item_id y = q).
Proof.
  intros [Hnd Hpar] Ho. destruct (originLeft o) as [p|] eqn:Hol.
  - destruct (Hpar _ _ _ Ho Hol) as (j & y & Hj & Hy & Hid).
    exists (Z.of_nat j). rewrite (findItem_unique doc p j y) by done.
    split; [done|]. split; [lia|]. split; [done|]. intros q Hq. injection Hq as <-.
    exists y. rewrite Nat2Z.id. split; [lia|done].
  - exists (-1). split; [done|]. split; [lia|]. split; [done|]. done.
Qed.

(** In a sorted document the order of two paths gives the order of the indices. *)
Lemma tree_sorted_index {T} (d : Doc T) i j x y p q :
  tree_sorted d →
  doc_content d !! i = Some x → doc_content d !! j = Some y →
  has_path (doc_content d) x p → has_path (doc_content d) y q →
  lex_lt p q → (i < j)%nat.
Proof.
  intros Hs Hx Hy Hp Hq Hlt. destruct (Nat.lt_total i j) as [|[->|Hgt]]; [done|..].
  - rewrite Hx in Hy. injection Hy as <-.
    rewrite (has_path_unique _ _ _ _ (forest_nodup _ (ts_forest _ Hs)) Hp Hq) in Hlt.
    by apply lex_lt_irrefl in Hlt.
  - destruct (lex_lt_asym _ _ Hlt). by eapply (ts_sorted _ Hs j i).
Qed.

Lemma has_path_last {T} (c : list (Item T)) a b p :
  NoDup (item_id <$> c) → has_path c a p → has_path c b p → a = b.
Proof.
  intros Hnd Ha Hb.
  destruct (has_path_inv _ _ _ Ha) as (pa & Hpa & _).
  destruct (has_path_inv _ _ _ Hb) as (pb & Hpb & _).
  rewrite Hpa in Hpb. apply app_inj_tail in Hpb as [_ Hid].
  eapply NoDup_ids_elem; [done|by eapply has_path_elem..|done].
Qed.

(** *** The YjsMod scan on a sorted document *)

Section TreeScan.
Context {T : Type} (doc : Doc T) (x : Item T) (hint left : Z) (P : list Id).
Hypothesis Hs : tree_sorted doc.
Hypothesis HP :
  (left = -1 ∧ P = [])
  ∨ (∃ y, 0 <= left ∧ doc_content doc !! Z.to_nat left = Some y
          ∧ has_path (doc_content doc) y P).
Hypothesis Hkey :
  ∀ o, o ∈ doc_content doc → (item_id o).1 = (item_id x).1 →
       (item_id o).2 < (item_id x).2.

(** The item at a later index whose parent stands before [left] is after
    every extension of [P]. *)
Lemma tree_scan_break i o ol q r :
  left < Z.of_nat i → doc_content doc !! i = Some o →
  findItem doc (originLeft o) (hint - 1) = inr ol → ol < left →
  has_path (doc_content doc) o q → lex_lt (P ++ r) q.
Proof using Hs HP.
  intros Hi Ho Hol Hlt Hq.
  pose proof (ts_forest _ Hs) as Hf. pose proof (forest_nodup _ Hf) as Hnd.
  destruct (forest_lookup doc i o (hint - 1) Hf Ho) as (ol' & Hol' & Hr & Hnone & Hsome).
  rewrite Hol in Hol'. injection Hol' as <-.
  destruct HP as [[-> _]|(y & H0 & Hy & Hpy)]; [lia|].
  apply lex_lt_not_extension.
  { eapply (ts_sorted _ Hs (Z.to_nat left) i); [lia|done..]. }
  intros s ->.
  destruct (has_path_inv _ _ _ Hq) as (p0 & Hp0 & Hroot & Hchild).
  destruct s as [|k s _] using rev_ind.
  - rewrite app_nil_r in Hq.
    assert (o = y) as -> by (by eapply has_path_last).
    assert (i = Z.to_nat left) by (eapply NoDup_ids_lookup; done). lia.
  - rewrite app_assoc in Hp0. apply app_inj_tail in Hp0 as [<- _].
    destruct (originLeft o) as [qid|] eqn:Hoo.
    + destruct (Hsome _ eq_refl) as (yo & Hol0 & Hyo & Hidyo).
      destruct (Hchild _ eq_refl) as (yo' & Hyo' & Hid' & Hpyo).
      assert (yo' = yo) as ->.
      { eapply NoDup_ids_elem; [done..|by eapply list_elem_of_lookup_2|congruence]. }
      destruct s as [|k' s].
      * rewrite app_nil_r in Hpyo.
        assert (yo = y) as -> by (by eapply has_path_last).
        assert (Z.to_nat ol = Z.to_nat left) by (eapply NoDup_ids_lookup; done). lia.
      * assert (Z.to_nat left < Z.to_nat ol)%nat; [|lia].
        eapply (tree_sorted_index doc); [done..|]. apply lex_lt_extend.
    + specialize (Hroot eq_refl). destruct (has_path_inv _ _ _ Hpy) as (py & -> & _).
      by destruct py, s.
Qed.

(** The item at a later index whose parent is at [left] has the path [P]
    followed by its id. *)
Lemma tree_scan_sibling i o q :
  left < Z.of_nat i → doc_content doc !! i = Some o →
  findItem doc (originLeft o) (hint - 1) = inr left →
  has_path (doc_content doc) o q → q = P ++ [item_id o].
Proof using Hs HP.
  intros Hi Ho Hol Hq.
  pose proof (ts_forest _ Hs) as Hf. pose proof (forest_nodup _ Hf) as Hnd.
  destruct (forest_lookup doc i o (hint - 1) Hf Ho) as (ol' & Hol' & Hr & Hnone & Hsome).
  rewrite Hol in Hol'. injection Hol' as <-.
  destruct (has_path_inv _ _ _ Hq) as (p0 & -> & Hroot & Hchild). f_equal.
  destruct (originLeft o) as [qid|] eqn:Hoo.
  - destruct (Hsome _ eq_refl) as (yo & Hol0 & Hyo & Hidyo).
    destruct (Hchild _ eq_refl) as (yo' & Hyo' & Hid' & Hpyo).
    assert (yo' = yo) as ->.
    { eapply NoDup_ids_elem; [done..|by eapply list_elem_of_lookup_2|congruence]. }
    destruct HP as [[-> _]|(y & H0 & Hy & Hpy)]; [lia|].
    rewrite Hyo in Hy. injection Hy as ->. by eapply has_path_unique.
  - rewrite (Hroot eq_refl). destruct HP as [[_ ->]|(y & H0 & _)]; [done|].
    specialize (Hnone eq_refl). lia.
Qed.

(** The item at a later index whose parent has a path [P ++ k :: r] before
    [P ++ [id x]] has such a path too. *)
Lemma tree_scan_descendant i o ol yo k r q :
  doc_content doc !! i = Some o →
  findItem doc (originLeft o) (hint - 1) = inr ol → 0 <= ol →
  doc_content doc !! Z.to_nat ol = Some yo →
  has_path (doc_content doc) yo (P ++ k :: r) →
  lex_lt (P ++ k :: r) (P ++ [item_id x]) →
  has_path (doc_content doc) o q →
  (∃ k' r', q = P ++ k' :: r') ∧ lex_lt q (P ++ [item_id x]).
Proof using Hs.
  intros Ho Hol H0 Hyo Hpyo Hlt Hq.
  pose proof (ts_forest _ Hs) as Hf. pose proof (forest_nodup _ Hf) as Hnd.
  destruct (forest_lookup doc i o (hint - 1) Hf Ho) as (ol' & Hol' & Hr & Hnone & Hsome).
  rewrite Hol in Hol'. injection Hol' as <-.
  destruct (has_path_inv _ _ _ Hq) as (p0 & -> & Hroot & Hchild).
  destruct (originLeft o) as [qid|] eqn:Hoo; [|specialize (Hnone eq_refl); lia].
  destruct (Hsome _ eq_refl) as (yo1 & _ & Hyo1 & Hidyo).
  destruct (Hchild _ eq_refl) as (yo' & Hyo' & Hid' & Hpyo').
  rewrite Hyo in Hyo1. injection Hyo1 as <-.
  assert (yo' = yo) as ->.
  { eapply NoDup_ids_elem; [done..|by eapply list_elem_of_lookup_2|congruence]. }
  rewrite (has_path_unique _ _ _ _ Hnd Hpyo' Hpyo).
  split.
  - exists k, (r ++ [item_id o]). by rewrite <- app_assoc.
  - rewrite <- app_assoc. simpl. by apply lex_lt_child.
Qed.
End TreeScan.

Lemma findRight_end {T} (doc : Doc T) hint : findRight doc None hint = inr (lenZ (doc_content doc)).
Proof. done. Qed.

(** On a sorted document the scan for an item [x] whose parent has path
    [P] never starts scanning and stops at the index that splits the
    document into the paths before and after [P ++ [id x]]. *)
Lemma tree_scan {T} (doc : Doc T) (x : Item T) (hint left : Z) (P : list Id) rest i dI :
  tree_sorted doc →
  ((left = -1 ∧ P = [])
   ∨ (∃ y, 0 <= left ∧ doc_content doc !! Z.to_nat left = Some y
           ∧ has_path (doc_content doc) y P)) →
  (∀ o, o ∈ doc_content doc → (item_id o).1 = (item_id x).1 →
        (item_id o).2 < (item_id x).2) →
  left < i <= lenZ (doc_content doc) →
  drop (Z.to_nat i) (doc_content doc) = rest →
  (∀ j y q, left < Z.of_nat j < i → doc_content doc !! j = Some y →
     has_path (doc_content doc) y q →
     (∃ k r, q = P ++ k :: r) ∧ lex_lt q (P ++ [item_id x])) →
  ∃ d, yjsMod_scan doc x hint left (lenZ (doc_content doc)) rest i dI false = inr d
    ∧ i <= d <= lenZ (doc_content doc)
    ∧ (∀ j y q, left < Z.of_nat j < d → doc_content doc !! j = Some y →
         has_path (doc_content doc) y q → lex_lt q (P ++ [item_id x]))
    ∧ (∀ j y q, d <= Z.of_nat j → doc_content doc !! j = Some y →
         has_path (doc_content doc) y q → lex_lt (P ++ [item_id x]) q).
Proof.
  intros Hs HP Hkey.
  assert (-1 <= left) as Hl1 by (destruct HP as [[-> _]|(y & H0 & _)]; lia).
  revert i dI.
  induction rest as [|o rest IH]; intros i dI Hi Hd Hpre.
  - exists i. apply drop_nil_len in Hd; [|lia]. subst i. simpl.
    split; [done|]. split; [lia|]. split; [intros j y q Hj Hy Hq; by eapply Hpre|].
    intros j y q Hj Hy. apply lookup_lt_Some in Hy. unfold lenZ in Hj. lia.
  - assert (0 <= i) as Hi0 by lia.
    destruct (drop_nthZ _ _ _ _ Hi0 Hd) as ([_ Ho]%nthZ_Some & Hlt & Hd').
    pose proof (ts_forest _ Hs) as Hf.
    destruct (forest_lookup doc _ o (hint - 1) Hf Ho) as (ol & Hol & Hr & Hnone & Hsome).
    assert (o ∈ doc_content doc) as Hoin by (by eapply list_elem_of_lookup_2).
    destruct (ts_path _ Hs _ Hoin) as [qo Hqo].
    assert (∀ d, lex_lt (P ++ [item_id x]) qo → d = i →
              ∀ j y q, d <= Z.of_nat j → doc_content doc !! j = Some y →
                has_path (doc_content doc) y q → lex_lt (P ++ [item_id x]) q) as Hafter.
    { intros d Hlto -> j y q Hj Hy Hq.
      destruct (decide (j = Z.to_nat i)) as [->|Hne].
      - rewrite Ho in Hy. injection Hy as <-.
        by rewrite (has_path_unique _ _ _ _ (forest_nodup _ Hf) Hq Hqo).
      - eapply lex_lt_trans; [done|].
        eapply (ts_sorted _ Hs (Z.to_nat i) j); [lia|done..]. }
    assert (∀ k r, qo = P ++ k :: r → lex_lt qo (P ++ [item_id x]) →
              ∀ j y q, left < Z.of_nat j < i + 1 → doc_content doc !! j = Some y →
                has_path (doc_content doc) y q →
                (∃ k r, q = P ++ k :: r) ∧ lex_lt q (P ++ [item_id x])) as Hnext.
    { intros k r Hk Hlto j y q Hj Hy Hq.
      destruct (decide (j = Z.to_nat i)) as [->|Hne]; [|apply (Hpre j y); [lia|done..]].
      rewrite Ho in Hy. injection Hy as <-.
      rewrite (has_path_unique _ _ _ _ (forest_nodup _ Hf) Hq Hqo). eauto. }
    cbn [yjsMod_scan]. destruct (Z.eqb_spec i (lenZ (doc_content doc))); [lia|].
    rewrite Hol, (ts_right _ Hs _ Hoin), findRight_end.
    destruct (Z.ltb_spec ol left) as [Holl|Holl].
    { exists i. split; [done|]. split; [lia|].
      split; [intros j y q Hj Hy Hq; by eapply Hpre|].
      apply Hafter; [|done].
      eapply (tree_scan_break doc hint left P Hs HP (Z.to_nat i)); [lia|done..]. }
    destruct (Z.eqb_spec ol left) as [->|Hne].
    + rewrite Z.ltb_irrefl, Z.eqb_refl.
      assert (qo = P ++ [item_id o]) as Hqo'.
      { eapply (tree_scan_sibling doc hint left P Hs HP (Z.to_nat i)); [lia|done..]. }
      destruct (String.ltb (item_id x).1 (item_id o).1) eqn:Hag.
      * exists i. split; [done|]. split; [lia|].
        split; [intros j y q Hj Hy Hq; by eapply Hpre|].
        apply Hafter; [|done]. rewrite Hqo'. apply lex_lt_app, lex_head. by left.
      * destruct (IH (i + 1) i) as (d & Hscan & Hd1 & Hd2 & Hd3); [lia|done| |].
        { apply (Hnext (item_id o) []); [done|]. rewrite Hqo'. apply lex_lt_app, lex_head.
          destruct (ltb_total (item_id o).1 (item_id x).1) as [?|[Heq|Hgt]];
            [by left| |congruence].
          right. split; [done|]. by apply Hkey. }
        exists d. split; [done|]. split; [lia|]. done.
    + assert (left < ol) as Hgt by lia.
      destruct (originLeft o) as [qid|] eqn:Hoo; [|specialize (Hnone eq_refl); lia].
      destruct (Hsome _ eq_refl) as (yo & Hol0 & Hyo & Hidyo).
      assert (yo ∈ doc_content doc) as Hyoin by (by eapply list_elem_of_lookup_2).
      destruct (ts_path _ Hs _ Hyoin) as [qyo Hqyo].
      destruct (Hpre (Z.to_nat ol) yo qyo) as [(k & r & ->) Hltyo]; [lia|done..|].
      destruct (tree_scan_descendant doc x hint P Hs (Z.to_nat i) o ol yo k r qo)
        as [(k' & r' & Hk') Hlto]; [done|by rewrite Hoo|done..|].
      destruct (IH (i + 1) i) as (d & Hscan & Hd1 & Hd2 & Hd3); [lia|done| |].
      { by apply (Hnext k' r'). }
      exists d. split; [done|]. split; [lia|]. done.
Qed.

(** *** A successful [integrateYjsMod] *)

Lemma integrateYjsMod_ok {T} (doc doc' : Doc T) N hint :
  integrateYjsMod doc N hint = (doc', Ok) →
  ∃ left right destIdx,
    seq_ready doc N
    ∧ findItem doc (originLeft N) (hint - 1) = inr left
    ∧ findRight doc (originRight N) hint = inr right
    ∧ yjsMod_scan doc N hint left right
        (drop (Z.to_nat (left + 1)) (doc_content doc)) (left + 1) (left + 1) false
      = inr destIdx
    ∧ doc' = {| doc_content := splice (doc_content doc) destIdx N;
                doc_version := <[(item_id N).1 := (item_id N).2]> (doc_version doc);
                doc_length := doc_length doc + (if isDeleted N then 0 else 1);
                maxSeq := maxSeq doc |}.
Proof.
  unfold integrateYjsMod.
  destruct (Z.eqb_spec (item_id N).2 (lastSeen (doc_version doc) (item_id N).1 + 1))
    as [Hr|]; [|done].
  cbn [negb]. set (doc1 := set_version doc (item_id N).1 (item_id N).2).
  unfold findItem. rewrite (findItem2_content doc1 doc), (findRight_content doc1 doc) by done.
  destruct (findItem2 doc (originLeft N) false (hint - 1)) as [|left] eqn:Hl; [done|].
  destruct (findRight doc (originRight N) hint) as [|right] eqn:Hrt; [done|].
  rewrite (yjsMod_scan_content doc1 doc) by done.
  destruct (yjsMod_scan doc N hint left right _ _ _ _) as [|d] eqn:Hscan; [done|].
  intros [= <-]. exists left, right, d. rewrite commit_shape. done.
Qed.

Lemma forest_splice {T} (c : list (Item T)) d N :
  forest c → item_id N ∉ item_id <$> c → 0 <= d <= lenZ c →
  (∀ p, originLeft N = Some p →
        ∃ j y, Z.of_nat j < d ∧ c !! j = Some y ∧ item_id y = p) →
  forest (splice c d N).
Proof.
  intros [Hnd Hpar] Hfresh Hd HparN. split.
  - rewrite splice_fmap. by apply splice_NoDup.
  - intros i x p Hx Hol. apply splice_lookup in Hx; [|lia].
    destruct Hx as [[Hi Hx]|[[Hi ->]|[Hi Hx]]].
    + destruct (Hpar _ _ _ Hx Hol) as (j & y & Hj & Hy & Hid).
      exists j, y. split; [done|]. split; [|done].
      apply splice_lookup; [lia|]. left. split; [lia|done].
    + destruct (HparN _ Hol) as (j & y & Hj & Hy & Hid).
      exists j, y. split; [lia|]. split; [|done].
      apply splice_lookup; [lia|]. left. split; [lia|done].
    + destruct (Hpar _ _ _ Hx Hol) as (j & y & Hj & Hy & Hid).
      destruct (Z.lt_ge_cases (Z.of_nat j) d).
      * exists j, y. split; [lia|]. split; [|done].
        apply splice_lookup; [lia|]. left. split; [lia|done].
      * exists (S j), y. split; [lia|]. split; [|done].
        apply splice_lookup; [lia|]. right. right. split; [lia|].
        by replace (S j - 1)%nat with j by lia.
Qed.

Lemma live_count_splice {T} (c : list (Item T)) d N :
  lenZ (filter (λ x, isDeleted x = false) (splice c d N))
  = lenZ (filter (λ x, isDeleted x = false) c) + (if isDeleted N then 0 else 1).
Proof.
  unfold splice, lenZ. rewrite <- (take_drop (Z.to_nat d) c) at 3.
  rewrite !filter_app, filter_cons, !length_app.
  destruct (isDeleted N) eqn:HdN.
  - rewrite decide_False by done. lia.
  - rewrite decide_True by done. simpl. lia.
Qed.

Lemma tree_sorted_newDoc {T} : tree_sorted (@newDoc T).
Proof.
  split; simpl.
  - split; [constructor|]. intros i x p Hx. done.
  - intros x Hx. by apply elem_of_nil in Hx.
  - intros x Hx. by apply elem_of_nil in Hx.
  - intros x Hx. by apply elem_of_nil in Hx.
  - intros i j x y p q _ Hx. done.
  - intros a n Hn. by rewrite lookup_empty in Hn.
  - done.
  - done.
Qed.

Lemma tree_sorted_integrate {T} (doc doc' : Doc T) N hint :
  tree_sorted doc → originRight N = None →
  integrateYjsMod doc N hint = (doc', Ok) →
  tree_sorted doc' ∧ ∃ d, doc_content doc' = splice (doc_content doc) d N.
Proof.
  intros Hs HrN (left & right & d & Hr & Hleft & Hright & Hscan & ->)%integrateYjsMod_ok.
  rewrite HrN, findRight_end in Hright. injection Hright as <-.
  pose proof (ts_forest _ Hs) as Hf. pose proof (forest_nodup _ Hf) as Hnd.
  set (c := doc_content doc) in *.
  (* the parent and its path *)
  assert (∃ P, ((left = -1 ∧ P = [])
                ∨ (∃ y, 0 <= left ∧ c !! Z.to_nat left = Some y ∧ has_path c y P))
               ∧ (originLeft N = None → P = [])
               ∧ (∀ p, originLeft N = Some p →
                    ∃ y, 0 <= left ∧ c !! Z.to_nat left = Some y ∧ item_id y = p
                         ∧ has_path c y P)) as (P & HP & HPnone & HPsome).
  { destruct (originLeft N) as [[pa ps]|] eqn:Hol.
    - apply findItem2_inr in Hleft as (y & [H0 Hy]%nthZ_Some & Hm).
      apply needle_match_false_true in Hm.
      destruct (ts_path _ Hs y) as [P HyP]; [by eapply list_elem_of_lookup_2|].
      exists P. split; [right; eauto|]. split; [done|]. intros p [= <-]. eauto 6.
    - injection Hleft as <-. exists []. split; [by left|]. split; [done|]. done. }
  assert (-1 <= left) as Hl1 by (destruct HP as [[-> _]|(y & H0 & _)]; (subst c; lia)).
  assert (left < lenZ c) as Hl2.
  { destruct HP as [[-> _]|(y & H0 & Hy%lookup_lt_Some & _)]; unfold lenZ in *; (subst c; lia). }
  assert (∀ o, o ∈ c → (item_id o).1 = (item_id N).1 → (item_id o).2 < (item_id N).2)
    as Hkey.
  { intros o Ho Hag. apply (ts_version _ Hs) in Ho. destruct (item_id o) as [oa os].
    apply isInVersion_Some in Ho as (s & Hv & Hle). simpl in *. subst oa.
    unfold seq_ready, lastSeen in Hr. rewrite Hv in Hr. simpl in Hr. (subst c; lia). }
  destruct (tree_scan doc N hint left P (drop (Z.to_nat (left + 1)) c) (left + 1) (left + 1)
              Hs HP Hkey) as (d' & Hscan' & Hd & Hbetween & Hafter); [(subst c; lia)|done| |].
  { intros j y q Hj. (subst c; lia). }
  fold c in Hscan'. rewrite Hscan in Hscan'. injection Hscan' as <-.
  assert (∀ j y q, Z.of_nat j < d → c !! j = Some y → has_path c y q →
            lex_lt q (P ++ [item_id N])) as Hbefore.
  { intros j y q Hj Hy Hq. destruct (Z.lt_ge_cases left (Z.of_nat j)).
    - apply (Hbetween j y); [(subst c; lia)|done..].
    - destruct HP as [[-> _]|(yp & H0 & Hyp & HypP)]; [(subst c; lia)|].
      destruct (decide (j = Z.to_nat left)) as [->|Hne].
      + rewrite Hyp in Hy. injection Hy as <-.
        rewrite (has_path_unique _ _ _ _ Hnd Hq HypP). apply lex_lt_extend.
      + eapply lex_lt_trans; [|apply lex_lt_extend].
        eapply (ts_sorted _ Hs j (Z.to_nat left)); [(subst c; lia)|done..]. }
  assert (item_id N ∉ item_id <$> c) as Hfresh.
  { intros (o & Hid & Ho)%list_elem_of_fmap. apply (ts_version _ Hs) in Ho.
    rewrite <- Hid, seq_ready_not_in_version in Ho; done. }
  assert (forest (splice c d N)) as Hf'.
  { apply forest_splice; [done..|(subst c; lia)|]. intros p Hol.
    destruct (HPsome _ Hol) as (y & H0 & Hy & Hid & _).
    exists (Z.to_nat left), y. split; [(subst c; lia)|done]. }
  assert (has_path (splice c d N) N (P ++ [item_id N])) as HNpath.
  { destruct (originLeft N) as [p|] eqn:Hol.
    - destruct (HPsome _ eq_refl) as (y & H0 & Hy & Hid & HyP).
      apply path_child with y.
      + apply splice_elem_of. by right.
      + apply splice_elem_of. left. by eapply list_elem_of_lookup_2.
      + by rewrite Hol, Hid.
      + eapply has_path_mono; [|done]. intros z Hz. apply splice_elem_of. by left.
    - rewrite (HPnone eq_refl). apply path_root; [|done]. apply splice_elem_of. by right. }
  assert (∀ y q, y ∈ c → has_path (splice c d N) y q → has_path c y q) as Hold.
  { intros y q Hy Hq. destruct (ts_path _ Hs _ Hy) as [q0 Hq0].
    assert (has_path (splice c d N) y q0) as Hq0'.
    { eapply has_path_mono; [|done]. intros z Hz. apply splice_elem_of. by left. }
    by rewrite (has_path_unique _ _ _ _ (forest_nodup _ Hf') Hq Hq0'). }
  split; [|by exists d].
  split; cbn [doc_content doc_version doc_length maxSeq]; [done|..].
  - intros z [Hz| ->]%splice_elem_of; [by apply (ts_right _ Hs)|done].
  - intros z [Hz| ->]%splice_elem_of.
    + eapply ver_le_insert; [apply Hr|]. by apply (ts_version _ Hs).
    + destruct (item_id N). apply isInVersion_insert.
  - intros z [Hz| ->]%splice_elem_of; [|eauto].
    destruct (ts_path _ Hs _ Hz) as [q Hq]. exists q.
    eapply has_path_mono; [|done]. intros z' Hz'. apply splice_elem_of. by left.
  - intros i j a b p q Hij Ha Hb Hp Hq.
    apply splice_lookup in Ha; [|(subst c; lia)]. apply splice_lookup in Hb; [|(subst c; lia)].
    assert (∀ q', has_path (splice c d N) N q' → q' = P ++ [item_id N]) as HNq.
    { intros q' Hq'. by eapply has_path_unique; [apply (forest_nodup _ Hf')|..]. }
    destruct Ha as [[Hi Ha]|[[Hi ->]|[Hi Ha]]], Hb as [[Hj Hb]|[[Hj ->]|[Hj Hb]]];
      try (subst c; lia).
    + apply (ts_sorted _ Hs i j a b p q); [(subst c; lia)|done|done|..];
        (apply Hold; [by eapply list_elem_of_lookup_2|done]).
    + rewrite (HNq _ Hq). apply (Hbefore i a); [(subst c; lia)|done|].
      apply Hold; [by eapply list_elem_of_lookup_2|done].
    + apply (ts_sorted _ Hs i (j - 1) a b p q); [(subst c; lia)|done|done|..];
        (apply Hold; [by eapply list_elem_of_lookup_2|done]).
    + rewrite (HNq _ Hp). apply (Hafter (j - 1)%nat b); [(subst c; lia)|done|].
      apply Hold; [by eapply list_elem_of_lookup_2|done].
    + apply (ts_sorted _ Hs (i - 1) (j - 1) a b p q); [(subst c; lia)|done|done|..];
        (apply Hold; [by eapply list_elem_of_lookup_2|done]).
  - intros a n Hn. destruct (decide ((item_id N).1 = a)) as [<-|Hne].
    + rewrite lookup_insert_eq in Hn. injection Hn as <-. exists N.
      split; [apply splice_elem_of; by right|by destruct (item_id N)].
    + rewrite lookup_insert_ne in Hn by done.
      destruct (ts_last _ Hs _ _ Hn) as (z & Hz & Hid). exists z.
      split; [apply splice_elem_of; by left|done].
  - rewrite (ts_length _ Hs). fold c. rewrite live_count_splice.
    by destruct (isDeleted N).
  - apply (ts_maxSeq _ Hs).
Qed.

(** *** Runs of ready items *)

Lemma splice_perm {A} (c : list A) d N : splice c d N ≡ₚ N :: c.
Proof.
  unfold splice. rewrite <- Permutation_middle.
  by rewrite take_drop.
Qed.

Lemma integrateAll_app {T} alg (d : Doc T) o1 o2 :
  integrateAll alg d (o1 ++ o2)
  = match integrateAll alg d o1 with
    | Done d' => integrateAll alg d' o2
    | r => r
    end.
Proof.
  revert d. induction o1 as [|x o1 IH]; intros d; simpl; [done|].
  destruct (canInsertNow x d); [|done].
  destruct (integrate alg d x (-1)) as [d' [|e]]; [apply IH|done].
Qed.

Lemma integrateAll_tree_sorted {T} (d d' : Doc T) order :
  tree_sorted d → Forall (λ x, originRight x = None) order →
  integrateAll yjsMod d order = Done d' →
  tree_sorted d' ∧ doc_content d' ≡ₚ order ++ doc_content d.
Proof.
  intros Hs Hall. revert d Hs. induction Hall as [|x order Hx Hall IH]; intros d Hs; simpl.
  - by intros [= <-].
  - destruct (canInsertNow x d); [|done].
    destruct (integrateYjsMod d x (-1)) as [d1 [|e]] eqn:Hi; [|done].
    destruct (tree_sorted_integrate _ _ _ _ Hs Hx Hi) as [Hs1 [i Hc]].
    intros [Hs' Hp]%IH; [|done]. split; [done|].
    rewrite Hp, Hc, splice_perm. by rewrite Permutation_middle.
Qed.

(** *** Two sorted documents with the same items *)

Lemma index_sorted_StronglySorted {A} (R : relation A) (l : list A) :
  (∀ i j x y, (i < j)%nat → l !! i = Some x → l !! j = Some y → R x y) →
  StronglySorted R l.
Proof.
  induction l as [|a l IH]; intros H; constructor.
  - apply IH. intros i j x y Hij Hx Hy. by apply (H (S i) (S j)); [lia|..].
  - apply Forall_forall. intros y [j Hy]%list_elem_of_lookup.
    by apply (H 0%nat (S j)); [lia|..].
Qed.

Lemma tree_sorted_eq {T} (d1 d2 : Doc T) :
  tree_sorted d1 → tree_sorted d2 → doc_content d1 ≡ₚ doc_content d2 → d1 = d2.
Proof.
  intros H1 H2 Hp.
  assert (∀ x p, has_path (doc_content d2) x p → has_path (doc_content d1) x p) as H21.
  { intros x p. apply has_path_mono. intros y. by rewrite Hp. }
  pose proof (forest_nodup _ (ts_forest _ H1)) as Hnd.
  assert (doc_content d1 = doc_content d2) as Hc.
  { apply (StronglySorted_unique_strong (path_lt (doc_content d1))); [| | |done].
    - intros x y _ _ (p & q & Hp1 & Hq1 & Hlt) (q' & p' & Hq2 & Hp2 & Hlt').
      rewrite (has_path_unique _ _ _ _ Hnd Hp2 Hp1) in Hlt'.
      rewrite (has_path_unique _ _ _ _ Hnd Hq2 Hq1) in Hlt'.
      by destruct (lex_lt_asym _ _ Hlt).
    - apply index_sorted_StronglySorted. intros i j x y Hij Hx Hy.
      destruct (ts_path _ H1 x) as [p Hpx]; [by eapply list_elem_of_lookup_2|].
      destruct (ts_path _ H1 y) as [q Hqy]; [by eapply list_elem_of_lookup_2|].
      exists p, q. split; [done|]. split; [done|]. by eapply (ts_sorted _ H1 i j).
    - apply index_sorted_StronglySorted. intros i j x y Hij Hx Hy.
      destruct (ts_path _ H2 x) as [p Hpx]; [by eapply list_elem_of_lookup_2|].
      destruct (ts_path _ H2 y) as [q Hqy]; [by eapply list_elem_of_lookup_2|].
      exists p, q. split; [auto|]. split; [auto|]. by eapply (ts_sorted _ H2 i j). }
  assert (∀ da db : Doc T, tree_sorted da → tree_sorted db →
            doc_content da = doc_content db →
            ∀ a n, doc_version da !! a = Some n →
                   ∃ m, doc_version db !! a = Some m ∧ n <= m) as Hle.
  { intros da db Ha Hb Hab a n Hn. destruct (ts_last _ Ha _ _ Hn) as (x & Hx & Hid).
    rewrite Hab in Hx. apply (ts_version _ Hb) in Hx. rewrite Hid in Hx.
    by apply isInVersion_Some in Hx. }
  assert (doc_version d1 = doc_version d2) as Hv.
  { apply map_eq. intros a.
    destruct (doc_version d1 !! a) as [n|] eqn:Hn1, (doc_version d2 !! a) as [m|] eqn:Hn2.
    - destruct (Hle d1 d2 H1 H2 Hc _ _ Hn1) as (m' & Hm' & ?).
      destruct (Hle d2 d1 H2 H1 (eq_sym Hc) _ _ Hn2) as (n' & Hn' & ?).
      f_equal. simplify_eq. lia.
    - destruct (Hle d1 d2 H1 H2 Hc _ _ Hn1) as (m' & Hm' & ?). congruence.
    - destruct (Hle d2 d1 H2 H1 (eq_sym Hc) _ _ Hn2) as (n' & Hn' & ?). congruence.
    - done. }
  pose proof (ts_length _ H1) as Hl1. pose proof (ts_length _ H2) as Hl2.
  pose proof (ts_maxSeq _ H1) as Hm1. pose proof (ts_maxSeq _ H2) as Hm2.
  destruct d1, d2. simpl in *. subst. f_equal.
Qed.

(** *** [mergeInto] integrates the missing items in a ready order *)

Lemma omap_id_Some {A} (l : list A) : omap id (Some <$> l) = l.
Proof. induction l as [|a l IH]; [done|]. csimpl. by f_equal. Qed.

Lemma count_some_omap {A} (l : list (option A)) : count_some l = lenZ (omap id l).
Proof.
  induction l as [|o l IH]; [done|]. rewrite count_some_cons, IH.
  destruct o; csimpl; unfold lenZ; simpl; lia.
Qed.

Lemma merge_pass_order {T} alg (dest : Doc T) missing d m n :
  merge_pass alg dest missing = (d, m, n, Ok) →
  ∃ order, integrateAll alg dest order = Done d ∧ omap id missing ≡ₚ order ++ omap id m.
Proof.
  revert dest d m n. induction missing as [|o missing IH]; intros dest d m n; cbn [merge_pass].
  - intros [= <- <- <-]. by exists [].
  - destruct o as [op|].
    + destruct (canInsertNow op dest) eqn:Hcan; cbn [negb].
      * destruct (integrate alg dest op (-1)) as [dest' [|e]] eqn:Hi; [|done].
        destruct (merge_pass alg dest' missing) as [[[d1 m1] n1] r1] eqn:Hp.
        intros [= <- <- <- ->]. destruct (IH _ _ _ _ Hp) as (order & Ho & Hperm).
        exists (op :: order). simpl. rewrite Hcan, Hi. split; [done|].
        by rewrite Hperm.
      * destruct (merge_pass alg dest missing) as [[[d1 m1] n1] r1] eqn:Hp.
        intros [= <- <- <- ->]. destruct (IH _ _ _ _ Hp) as (order & Ho & Hperm).
        exists order. split; [done|]. simpl. by rewrite Hperm, Permutation_middle.
    + destruct (merge_pass alg dest missing) as [[[d1 m1] n1] r1] eqn:Hp.
      intros [= <- <- <- ->]. destruct (IH _ _ _ _ Hp) as (order & Ho & Hperm).
      exists order. split; [done|]. done.
Qed.

Lemma merge_loop_order {T} fuel alg (dest : Doc T) missing remaining d :
  merge_loop fuel alg dest missing remaining = Some (d, Ok) →
  remaining = count_some missing →
  ∃ order, integrateAll alg dest order = Done d ∧ omap id missing ≡ₚ order.
Proof.
  revert dest missing remaining.
  assert (∀ (dest : Doc T) missing remaining,
            remaining <= 0 → remaining = count_some missing →
            ∃ order, integrateAll alg dest order = Done dest ∧ omap id missing ≡ₚ order)
    as Hzero.
  { intros dest missing remaining Hz ->. exists []. split; [done|].
    rewrite count_some_omap in Hz. destruct (omap id missing); [done|].
    unfold lenZ in Hz. simpl in Hz. lia. }
  induction fuel as [|fuel IH]; intros dest missing remaining; simpl.
  - destruct (Z.leb_spec remaining 0) as [Hz|]; [|done]. intros [= <-]. by apply Hzero.
  - destruct (Z.leb_spec remaining 0) as [Hz|]; [intros [= <-]; by apply Hzero|].
    destruct (merge_pass alg dest missing) as [[[d1 m1] n1] [|e]] eqn:Hp; [|done].
    destruct (Z.eqb_spec n1 0); [done|]. intros Hl ->.
    destruct (merge_pass_ok _ _ _ _ _ _ Hp) as (_ & _ & Hc & _).
    destruct (merge_pass_order _ _ _ _ _ _ Hp) as (o1 & Ho1 & Hperm1).
    destruct (IH _ _ _ Hl) as (o2 & Ho2 & Hperm2); [lia|].
    exists (o1 ++ o2). rewrite integrateAll_app, Ho1. split; [done|].
    by rewrite Hperm1, Hperm2.
Qed.

Lemma mergeInto_order {T} alg (dest src d : Doc T) :
  mergeInto alg dest src = Some (d, Ok) →
  ∃ order, integrateAll alg dest order = Done d ∧ missing_of dest src ≡ₚ order.
Proof.
  unfold mergeInto. intros Hm.
  destruct (merge_loop_order _ _ _ _ _ _ Hm) as (order & Ho & Hp).
  { by rewrite count_some_fmap. }
  exists order. split; [done|]. by rewrite omap_id_Some in Hp.
Qed.

(** C1, as stated, fails: the four items below are integrated by two orders
    that both pick only ready items, and the contents differ. *)
Lemma yjsMod_order_dependent :
  [cross_a; cross_b; cross_c; cross_d] ≡ₚ [cross_a; cross_b; cross_d; cross_c]
  ∧ [cross_a; cross_b; cross_c; cross_d] ≡ₚ [cross_a; cross_d; cross_c; cross_b]
  ∧ ∃ d1 d2,
      integrateAll yjsMod newDoc [cross_a; cross_b; cross_d; cross_c] = Done d1
      ∧ integrateAll yjsMod newDoc [cross_a; cross_d; cross_c; cross_b] = Done d2
      ∧ getArray d1 = ["a"; "c"; "d"; "b"]%string
      ∧ getArray d2 = ["a"; "b"; "c"; "d"]%string
      ∧ doc_content d1 ≠ doc_content d2.
Proof.
  split; [apply perm_skip, perm_skip, perm_swap|].
  split; [apply perm_skip, (Permutation_rev [cross_b; cross_c; cross_d])|].
  eexists _, _. split; [vm_compute; reflexivity|]. split; [vm_compute; reflexivity|].
  split; [reflexivity|]. split; [reflexivity|]. intros H. discriminate H.
Qed.

Lemma appended_confluence {T} (S o1 o2 : list (Item T)) (d1 d2 : Doc T) :
  Forall (λ x, originRight x = None) S →
  S ≡ₚ o1 → S ≡ₚ o2 →
  integrateAll yjsMod newDoc o1 = Done d1 →
  integrateAll yjsMod newDoc o2 = Done d2 →
  d1 = d2.
Proof.
  intros HS Hp1 Hp2 H1 H2.
  destruct (integrateAll_tree_sorted newDoc d1 o1) as [Hs1 Hc1];
    [apply tree_sorted_newDoc|by rewrite <- Hp1|done|].
  destruct (integrateAll_tree_sorted newDoc d2 o2) as [Hs2 Hc2];
    [apply tree_sorted_newDoc|by rewrite <- Hp2|done|].
  apply tree_sorted_eq; [done..|]. simpl in Hc1, Hc2.
  by rewrite Hc1, Hc2, !app_nil_r, <- Hp1, <- Hp2.
Qed.

Lemma scenario_sound (S order : list (Item string)) (expected : list string) :
  explore yjsMod (has_content expected) (List.length S) newDoc S = true →
  S ≡ₚ order → integrateAll yjsMod newDoc order ≠ NotReady →
  ∃ d, integrateAll yjsMod newDoc order = Done d ∧ getArray d = expected.
Proof.
  intros He Hp Hr.
  destruct (explore_sound _ _ _ _ _ _ He Hp Hr) as (d & Hd & HP).
  exists d. split; [done|]. by apply bool_decide_eq_true in HP.
Qed.


(** ** Properties of the operations *)

Lemma lastSeen_insert v a s : lastSeen (<[a := s]> v) a = s.
Proof. unfold lastSeen. by rewrite lookup_insert_eq. Qed.

Lemma lastSeen_insert_ne v a b s : a ≠ b → lastSeen (<[a := s]> v) b = lastSeen v b.
Proof. intros. unfold lastSeen. by rewrite lookup_insert_ne. Qed.

Lemma canInsertNow_ready {T} (op : Item T) (doc : Doc T) :
  version_nonneg (doc_version doc) →
  canInsertNow op doc = true ↔
    seq_ready doc op
    ∧ isInVersion (originLeft op) (doc_version doc) = true
    ∧ isInVersion (originRight op) (doc_version doc) = true.
Proof.
  intros Hv. unfold canInsertNow, seq_ready, lastSeen.
  destruct (item_id op) as [a s]. cbn [fst snd].
  rewrite !andb_true_iff, negb_true_iff, orb_true_iff.
  assert ((isInVersion (Some (a, s)) (doc_version doc) = false
           ∧ ((s =? 0) = true ∨ isInVersion (Some (a, s - 1)) (doc_version doc) = true))
          ↔ s = default (-1) (doc_version doc !! a) + 1) as ->; [|tauto].
  unfold isInVersion. cbn [fst snd].
  destruct (doc_version doc !! a) as [k|] eqn:Hk; cbn [default].
  - apply Hv in Hk. rewrite Z.leb_gt, Z.eqb_eq, Z.leb_le. unfold id. lia.
  - rewrite Z.eqb_eq. split; [intros [_ [?|?]]; [lia|done]|]. intros ->. by split; [|left].
Qed.

(** X1: for an item whose agent name is not a property name of
    [Object.prototype], on a document whose version entries are all [0] or
    more, [canInsertNow(op, doc)] holds exactly when the sequence check of
    [integrate] passes for [op] and both anchors of [op] are in the version
    of the document. *)
Theorem canInsertNow_iff {T} (op : Item T) (doc : Doc T) :
  plain_agent (item_id op).1 →
  version_nonneg (doc_version doc) →
  canInsertNow op doc = true ↔
    seq_ready doc op
    ∧ isInVersion (originLeft op) (doc_version doc) = true
    ∧ isInVersion (originRight op) (doc_version doc) = true.
Proof. intros _. exact (canInsertNow_ready op doc). Qed.

Lemma canInsertNow_iff_witness :
  canInsertNow root_item_b one_item_doc = true ↔
    seq_ready one_item_doc root_item_b
    ∧ isInVersion (originLeft root_item_b) (doc_version one_item_doc) = true
    ∧ isInVersion (originRight root_item_b) (doc_version one_item_doc) = true.
Proof.
  apply (canInsertNow_iff root_item_b one_item_doc).
  - unfold plain_agent, inherited_names. cbn [item_id root_item_b makeItem fst].
    rewrite !elem_of_cons, elem_of_nil. intros H. repeat destruct H as [H|H]; done.
  - assert (doc_version one_item_doc = <["A"%string := 0]> ∅) as -> by reflexivity.
    intros a n [[_ <-]|[_ H]]%lookup_insert_Some; [lia|by rewrite lookup_empty in H].
Defined.


Lemma integrate_seq_nonneg {T} (doc doc' : Doc T) n h :
  integrate automerge doc n h = (doc', Ok) → 0 <= item_seq n.
Proof.
  simpl. unfold integrateAutomerge, integrateAutomerge_gen.
  destruct (Z.leb_spec 0 (item_seq n)); [done|]. simpl. done.
Qed.

Lemma integrate_stale {T} alg (doc : Doc T) n h :
  (alg = automerge → 0 <= item_seq n) →
  ¬ seq_ready doc n → integrate alg doc n h = (doc, Throw OutOfOrder).
Proof.
  intros Hs Hr. destruct alg; simpl.
  - by apply integrateYjs_not_ready.
  - by apply integrateYjsMod_not_ready.
  - apply integrateAutomerge_not_ready; [by apply Hs|done].
  - by apply integrateSync9_not_ready.
Qed.

(** X2: an item that was integrated is rejected when it is delivered
    again: the second [integrate] fails with "Operations out of order", the
    document stays as the first call left it, and [canInsertNow] is false
    for the item. *)
Theorem integrate_twice {T} alg (doc doc' : Doc T) n h h' :
  integrate alg doc n h = (doc', Ok) →
  integrate alg doc' n h' = (doc', Throw OutOfOrder) ∧ canInsertNow n doc' = false.
Proof.
  intros H. destruct (integrate_ok_version _ _ _ _ _ H) as [Hr Hv]. split.
  - apply integrate_stale.
    + intros ->. by eapply integrate_seq_nonneg.
    + unfold seq_ready. rewrite Hv, lastSeen_insert. lia.
  - unfold canInsertNow. rewrite Hv. destruct (item_id n) as [a s]. cbn [fst snd].
    by rewrite isInVersion_insert.
Qed.

Lemma integrate_twice_witness :
  integrate sync9 sync9_split_doc sync9_before_item 0
    = (sync9_split_doc, Throw OutOfOrder) ∧ canInsertNow sync9_before_item sync9_split_doc = false.
Proof.
  apply (integrate_twice sync9 sync9_one_doc sync9_split_doc sync9_before_item (-1) 0).
  reflexivity.
Defined.




(** A failing [integrate] leaves the document as it was, or with only the
    version entry of the item's agent advanced. *)
Lemma integrate_throw {T} alg (doc doc' : Doc T) n h e :
  integrate alg doc n h = (doc', Throw e) →
  (doc' = doc ∧ (e = OutOfOrder ∨ e = AssertionError ∧ alg = automerge ∧ item_seq n < 0))
  ∨ (doc' = set_version doc (item_id n).1 (item_id n).2 ∧ seq_ready doc n ∧ e ≠ OutOfOrder
     ∧ (alg = automerge → 0 <= item_seq n)).
Proof.
  destruct alg; simpl.
  - unfold integrateYjs, seq_ready. destruct (Z.eqb_spec (item_id n).2 (lastSeen (doc_version doc) (item_id n).1 + 1)) as [Hr|Hr]; simpl.
    + destruct (findItem _ _ _) as [e1|l] eqn:E1; [intros [= <- <-]; apply findItem2_inl in E1 as ->; right; done|].
      destruct (findRight _ _ _) as [e1|r] eqn:E2; [intros [= <- <-]; apply findRight_inl in E2 as ->; right; done|].
      destruct (yjs_scan _ _ _ _ _ _ _ _ _) as [e1|d] eqn:E3; [|done].
      intros [= <- <-]. apply yjs_scan_error in E3. right. done.
    + intros [= <- <-]. left. split; [done|by left].
  - unfold integrateYjsMod, seq_ready. destruct (Z.eqb_spec (item_id n).2 (lastSeen (doc_version doc) (item_id n).1 + 1)) as [Hr|Hr]; simpl.
    + destruct (findItem _ _ _) as [e1|l] eqn:E1; [intros [= <- <-]; apply findItem2_inl in E1 as ->; right; done|].
      destruct (findRight _ _ _) as [e1|r] eqn:E2; [intros [= <- <-]; apply findRight_inl in E2 as ->; right; done|].
      destruct (yjsMod_scan _ _ _ _ _ _ _ _ _) as [e1|d] eqn:E3; [|done].
      intros [= <- <-]. apply yjsMod_scan_error in E3. right. done.
    + intros [= <- <-]. left. split; [done|by left].
  - unfold integrateAutomerge, integrateAutomerge_gen, seq_ready.
    destruct (Z.leb_spec 0 (item_seq n)) as [H0|H0]; simpl.
    2:{ intros [= <- <-]. left. split; [done|]. right. done. }
    destruct (Z.eqb_spec (item_id n).2 (lastSeen (doc_version doc) (item_id n).1 + 1)) as [Hr|Hr]; simpl.
    + destruct (findItem _ _ _) as [e1|l] eqn:E1; [intros [= <- <-]; apply findItem2_inl in E1 as ->; right; done|].
      destruct (automerge_scan _ _ _ _ _ _ _ _) as [e1|d] eqn:E3; [|done].
      intros [= <- <-]. apply automerge_scan_error in E3. right. done.
    + intros [= <- <-]. left. split; [done|by left].
  - unfold integrateSync9, seq_ready. destruct (item_id n) as [a s]. cbn [fst snd].
    destruct (Z.eqb_spec s (lastSeen (doc_version doc) a + 1)) as [Hr|Hr]; simpl.
    2:{ intros [= <- <-]. left. split; [done|by left]. }
    destruct (findItem2 _ _ _ _) as [e1|p] eqn:E1; [intros [= <- <-]; apply findItem2_inl in E1 as ->; right; done|].
    assert (∀ d, sync9_walk (set_version doc a s) n h p = (d, Throw e) →
      d = set_version doc a s ∧ e ≠ OutOfOrder) as Hw.
    { intros d. unfold sync9_walk. destruct (sync9_scan _ _ _ _ _ _) as [e1|dd] eqn:E3; [|done].
      intros [= <- <-]. by apply sync9_scan_error in E3. }
    destruct (_ && _ && _) eqn:Hc.
    + destruct (nthZ _ _) as [P|] eqn:HP.
      * destruct (negb (is_null (item_content P))); [intros [=]|]. intros Hx. apply Hw in Hx as [-> ?]. right. done.
      * intros [= <- <-]. right. done.
    + intros Hx. apply Hw in Hx as [-> ?]. right. done.
Qed.

(** X3: a failing [integrate] never touches [content], [length] or
    [maxSeq].  On "Operations out of order" the document is unchanged.
    When an anchor is not found the version entry of the item's agent has
    already been advanced, so every later [integrate] of the same item
    fails with "Operations out of order". *)
Theorem integrate_failure {T} alg (doc doc' : Doc T) n h e :
  integrate alg doc n h = (doc', Throw e) →
  doc_content doc' = doc_content doc
  ∧ doc_length doc' = doc_length doc
  ∧ maxSeq doc' = maxSeq doc
  ∧ (e = OutOfOrder → doc' = doc)
  ∧ (e = ItemNotFound →
       doc_version doc' = <[(item_id n).1 := (item_id n).2]> (doc_version doc)
       ∧ ∀ h', integrate alg doc' n h' = (doc', Throw OutOfOrder)).
Proof.
  intros [[-> He]|(-> & Hr & Hne & Hs)]%integrate_throw.
  - do 3 (split; [done|]). split; [done|]. intros HeN. subst e. by destruct He as [|[? _]].
  - do 4 (split; [done|]). intros _. split; [done|]. intros h'.
    apply integrate_stale; [done|]. unfold seq_ready. cbn [set_version doc_version].
    rewrite lastSeen_insert. lia.
Qed.

Lemma integrate_failure_witness :
  doc_content (integrate yjsMod newDoc orphan_item (-1)).1 = []
  ∧ doc_length (integrate yjsMod newDoc orphan_item (-1)).1 = 0
  ∧ maxSeq (integrate yjsMod newDoc orphan_item (-1)).1 = 0
  ∧ (ItemNotFound = OutOfOrder → (integrate yjsMod newDoc orphan_item (-1)).1 = newDoc)
  ∧ (ItemNotFound = ItemNotFound →
      doc_version (integrate yjsMod newDoc orphan_item (-1)).1 = <["A"%string := 0]> ∅
      ∧ ∀ h', integrate yjsMod (integrate yjsMod newDoc orphan_item (-1)).1 orphan_item h'
              = ((integrate yjsMod newDoc orphan_item (-1)).1, Throw OutOfOrder)).
Proof.
  apply (integrate_failure yjsMod newDoc _ orphan_item (-1) ItemNotFound). reflexivity.
Defined.



(** *** What [integrate] does to the items already there *)

Lemma sublist_splice {A} (l : list A) i x : l `sublist_of` splice l i x.
Proof.
  unfold splice. rewrite <- (take_drop (Z.to_nat i) l) at 1.
  apply sublist_app; [done|]. by apply sublist_cons_r; left.
Qed.

Lemma content_step_sublist {T} alg (c c' : list (Item T)) n :
  content_step alg c n c' → c `sublist_of` c' ∧ n ∈ c'.
Proof.
  intros [[i ->]|(_ & p & P & [H0 HP]%nthZ_Some & _ & ->)].
  - split; [apply sublist_splice|]. unfold splice. set_solver.
  - split; [|set_solver].
    rewrite <- (take_drop_middle c (Z.to_nat p) P HP) at 1.
    apply sublist_app; [done|]. simpl.
    apply sublist_cons_r; left. apply sublist_cons_r; left. done.
Qed.

Lemma contents_app {T} (l1 l2 : list (Item T)) : contents (l1 ++ l2) = contents l1 ++ contents l2.
Proof. unfold contents. by rewrite filter_app, omap_app. Qed.

Lemma contents_cons {T} (x : Item T) l :
  contents (x :: l) = (if visible x then option_list (item_content x) else []) ++ contents l.
Proof.
  unfold contents. rewrite filter_cons.
  destruct (decide (visible x = true)) as [Hv|Hv].
  - rewrite Hv. simpl. by destruct (item_content x).
  - apply not_true_is_false in Hv. by rewrite Hv.
Qed.

Lemma contents_length {T} (l : list (Item T)) : lenZ (contents l) = visible_count l.
Proof.
  unfold lenZ. induction l as [|x l IH]; [done|].
  rewrite contents_cons, visible_count_cons, length_app.
  destruct (visible x) eqn:Hv; simpl; [|lia].
  unfold visible in Hv. destruct (item_content x); simpl; [lia|].
  by rewrite andb_false_r in Hv.
Qed.

Lemma contents_splice {T} (l : list (Item T)) i n :
  0 <= i <= lenZ l →
  contents (splice l i n) =
  match item_content n with
  | Some c => if isDeleted n then contents l
              else splice (contents l) (visible_count (take (Z.to_nat i) l)) c
  | None => contents l
  end.
Proof.
  intros Hi. unfold splice at 1. rewrite contents_app, contents_cons.
  assert (contents l = contents (take (Z.to_nat i) l) ++ contents (drop (Z.to_nat i) l)) as Hl.
  { by rewrite <- contents_app, take_drop. }
  unfold visible. destruct (item_content n) as [c|]; simpl.
  - destruct (isDeleted n); simpl; [done|].
    unfold splice. rewrite Hl, <- contents_length. unfold lenZ. rewrite Nat2Z.id.
    by rewrite take_app_length, drop_app_length.
  - by rewrite andb_false_r.
Qed.

Lemma splice_clamp {A} (l : list A) i x :
  ∃ j, 0 <= j <= lenZ l ∧ splice l i x = splice l j x.
Proof.
  unfold lenZ. destruct (Z.le_gt_cases i (Z.of_nat (length l))).
  - exists (Z.max 0 i). split; [lia|]. unfold splice. by replace (Z.to_nat (Z.max 0 i)) with (Z.to_nat i) by lia.
  - exists (Z.of_nat (length l)). split; [lia|]. unfold splice.
    rewrite Nat2Z.id, !take_ge, !drop_ge by lia. done.
Qed.

Lemma content_step_contents {T} alg (c c' : list (Item T)) n :
  content_step alg c n c' →
  ∃ i, 0 <= i <= lenZ c ∧ contents c' = contents (splice c i n).
Proof.
  intros [[i ->]|(_ & p & P & HP & Hc & ->)].
  - destruct (splice_clamp c i n) as (j & Hj & ->). eauto.
  - exists p. split; [apply nthZ_lt in HP; lia|].
    apply nthZ_Some in HP as [H0 HP].
    unfold splice. rewrite (drop_S _ _ _ HP), !contents_app. f_equal.
    rewrite !contents_cons. unfold visible at 1. simpl. rewrite andb_false_r. simpl.
    unfold contents at 1. simpl. by rewrite app_nil_r, <- !app_assoc.
Qed.

Lemma integrate_contents {T} alg (doc doc' : Doc T) n h :
  integrate alg doc n h = (doc', Ok) →
  doc_content doc `sublist_of` doc_content doc'
  ∧ n ∈ doc_content doc'
  ∧ (if visible n
     then ∃ k c, item_content n = Some c ∧ 0 <= k <= lenZ (getArray doc)
                 ∧ getArray doc' = splice (getArray doc) k c
     else getArray doc' = getArray doc).
Proof.
  intros [Hs _]%integrate_ok_shape.
  destruct (content_step_sublist _ _ _ _ Hs) as [Hsub Hin].
  split; [done|]. split; [done|].
  destruct (content_step_contents _ _ _ _ Hs) as (i & Hi & Hc).
  change (getArray doc') with (contents (doc_content doc')).
  change (getArray doc) with (contents (doc_content doc)).
  rewrite Hc, contents_splice by done. unfold visible.
  destruct (item_content n) as [c|]; simpl.
  - destruct (isDeleted n); simpl; [done|].
    exists (visible_count (take (Z.to_nat i) (doc_content doc))), c.
    split; [done|]. split; [|done].
    rewrite contents_length. split; [apply visible_count_nonneg|].
    rewrite <- (take_drop (Z.to_nat i) (doc_content doc)) at 2.
    rewrite visible_count_app. pose proof (visible_count_nonneg (drop (Z.to_nat i) (doc_content doc))). lia.
  - by rewrite andb_false_r.
Qed.

(** X4: a successful [integrate] keeps the items of the document in their
    order and adds the new item.  [getArray] is unchanged when the new item
    is deleted or has no content; otherwise its content is inserted at one
    position of the array. *)
Theorem integrate_keeps_items {T} alg (doc doc' : Doc T) n h :
  integrate alg doc n h = (doc', Ok) →
  doc_content doc `sublist_of` doc_content doc'
  ∧ n ∈ doc_content doc'
  ∧ (if visible n
     then ∃ k c, item_content n = Some c ∧ 0 <= k <= lenZ (getArray doc)
                 ∧ getArray doc' = splice (getArray doc) k c
     else getArray doc' = getArray doc).
Proof. exact (integrate_contents alg doc doc' n h). Qed.

Lemma integrate_keeps_items_witness :
  doc_content one_item_doc `sublist_of` doc_content (integrate yjs one_item_doc root_item_b (-1)).1.
Proof.
  refine (proj1 (integrate_keeps_items yjs one_item_doc _ root_item_b (-1) _)).
  reflexivity.
Defined.

(** *** findItemAtPos *)

Lemma findItemAtPos_from_take {T} (l : list (Item T)) i pos :
  0 <= pos <= visible_count l →
  ∃ n, findItemAtPos_from l i pos false = inr (i + Z.of_nat n)
       ∧ (n <= length l)%nat
       ∧ visible_count (take n l) = pos
       ∧ (pos = visible_count l → n = length l)
       ∧ (pos < visible_count l → ∃ it, l !! n = Some it ∧ visible it = true).
Proof.
  intros Hpos. destruct (decide (pos = visible_count l)) as [->|Hne].
  - exists (length l). rewrite findItemAtPos_from_end. rewrite firstn_all.
    split; [done|]. split; [done|]. split; [done|]. split; [done|]. lia.
  - revert i pos Hpos Hne. induction l as [|a l IH]; intros i pos Hpos Hne.
    + unfold visible_count, lenZ in *. simpl in *. lia.
    + rewrite visible_count_cons in Hpos, Hne. simpl. rewrite not_visible.
      pose proof (visible_count_nonneg l).
      destruct (visible a) eqn:Hv; simpl.
      * destruct (Z.eqb_spec pos 0) as [->|Hp0].
        { exists 0%nat. rewrite Z.add_0_r. split; [done|]. split; [simpl; lia|].
          split; [done|]. split; [rewrite visible_count_cons, Hv; lia|]. intros _. eauto. }
        destruct (IH (i + 1) (pos - 1)) as (n & -> & Hn & Ht & _ & Hin); [lia..|].
        exists (S n). split; [f_equal; lia|]. split; [simpl; lia|].
        split; [simpl; rewrite visible_count_cons, Hv; lia|].
        split; [rewrite visible_count_cons, Hv; lia|].
        intros _. apply Hin. lia.
      * destruct (IH (i + 1) pos) as (n & -> & Hn & Ht & _ & Hin); [lia..|].
        exists (S n). split; [f_equal; lia|]. split; [simpl; lia|].
        split; [simpl; rewrite visible_count_cons, Hv; lia|].
        split; [rewrite visible_count_cons, Hv; lia|].
        intros _. apply Hin. lia.
Qed.

Lemma findItemAtPos_from_outside {T} (l : list (Item T)) i pos se :
  pos < 0 ∨ visible_count l < pos → findItemAtPos_from l i pos se = inl PastEnd.
Proof.
  revert i pos. induction l as [|a l IH]; intros i pos Hpos.
  - unfold visible_count, lenZ in Hpos. simpl in *.
    destruct (Z.eqb_spec pos 0); [lia|done].
  - rewrite visible_count_cons in Hpos. simpl. rewrite not_visible.
    pose proof (visible_count_nonneg l).
    destruct (Z.eqb_spec pos 0) as [->|Hp0].
    { destruct (visible a); lia. }
    rewrite andb_false_r.
    destruct (visible a) eqn:Hv; simpl; apply IH; lia.
Qed.

(** *** The lookups of a local insert hit their hints *)

Lemma idEq2_self (id : Id) : idEq2 (Some id) id.1 id.2 = true.
Proof. unfold idEq2. by rewrite String.eqb_refl, Z.eqb_refl. Qed.

Lemma findItem_hint_self {T} (d d1 : Doc T) j :
  doc_content d1 = doc_content d → -1 <= j →
  (j < lenZ (doc_content d) → findItem d1 (idAt d j) j = inr j).
Proof.
  intros Hc Hj Hlt. unfold idAt.
  destruct (nthZ (doc_content d) j) as [it|] eqn:Hit; simpl.
  - unfold findItem, findItem2. destruct (item_id it) as [a s] eqn:Hid.
    rewrite Hc, Hit. apply nthZ_lt in Hit.
    destruct (Z.leb_spec 0 j); [|lia]. destruct (Z.ltb_spec j (lenZ (doc_content d))); [|lia].
    cbn [andb negb]. unfold needle_match, idEq2. rewrite Hid. cbn [fst snd].
    by rewrite String.eqb_refl, Z.eqb_refl.
  - unfold findItem, findItem2. destruct (decide (j = -1)) as [->|]; [done|].
    destruct (nthZ_is_Some (doc_content d) j) as [? ?]; [lia|congruence].
Qed.

Lemma findRight_hint_self {T} (d d1 : Doc T) j :
  doc_content d1 = doc_content d → 0 <= j <= lenZ (doc_content d) →
  findRight d1 (idAt d j) j = inr j.
Proof.
  intros Hc Hj. unfold findRight.
  destruct (idAt d j) as [id|] eqn:Hid.
  - rewrite <- Hid. apply findItem_hint_self; [done|lia|].
    unfold idAt in Hid. destruct (nthZ _ _) eqn:Hn; [|done]. apply nthZ_lt in Hn. lia.
  - rewrite Hc. f_equal. unfold idAt in Hid.
    destruct (decide (j = lenZ (doc_content d))); [done|].
    destruct (nthZ_is_Some (doc_content d) j) as [x Hx]; [lia|]. by rewrite Hx in Hid.
Qed.

Lemma take_Z_nat {A} (l : list A) (n : nat) : take (Z.to_nat (Z.of_nat n)) l = take n l.
Proof. by rewrite Nat2Z.id. Qed.

Lemma alg_localInsert_at {T} alg (doc : Doc T) agent pos c :
  alg ≠ sync9 →
  (alg = automerge → seq_bounded doc) →
  0 <= pos <= lenZ (getArray doc) →
  ∃ doc', alg_localInsert alg doc agent pos c = (doc', Ok)
    ∧ getArray doc' = splice (getArray doc) pos c
    ∧ doc_length doc' = doc_length doc + 1
    ∧ doc_version doc' = <[agent := lastSeen (doc_version doc) agent + 1]> (doc_version doc).
Proof.
  intros Hs9 Hb Hpos.
  change (getArray doc) with (contents (doc_content doc)) in *.
  rewrite contents_length in Hpos.
  destruct (findItemAtPos_from_take (doc_content doc) 0 pos Hpos) as (n & Hf & Hn & Ht & _ & _).
  rewrite Z.add_0_l in Hf.
  set (N := {| item_content := Some c; item_id := (agent, lastSeen (doc_version doc) agent + 1);
               isDeleted := false; originLeft := idAt doc (Z.of_nat n - 1);
               originRight := idAt doc (Z.of_nat n); insertAfter := true;
               item_seq := maxSeq doc + 1 |}).
  set (d1 := set_version doc agent (lastSeen (doc_version doc) agent + 1)).
  assert (findItem d1 (idAt doc (Z.of_nat n - 1)) (Z.of_nat n - 1) = inr (Z.of_nat n - 1)) as Hl.
  { apply findItem_hint_self; [done|lia|unfold lenZ; lia]. }
  assert (findRight d1 (idAt doc (Z.of_nat n)) (Z.of_nat n) = inr (Z.of_nat n)) as Hr.
  { apply findRight_hint_self; [done|unfold lenZ; lia]. }
  assert (alg_localInsert alg doc agent pos c = (commit (if alg is automerge then set_maxSeq d1 (maxSeq doc + 1) else d1) N (Z.of_nat n), Ok)) as Hli.
  { assert (alg_localInsert alg doc agent pos c = integrate alg doc N (Z.of_nat n)) as ->.
    { destruct alg; try done; simpl; unfold localInsert, findItemAtPos; by rewrite Hf. }
    destruct alg; [| | |done]; simpl.
    - unfold integrateYjs. simpl. rewrite Z.eqb_refl. simpl. fold d1. rewrite Hl, Hr.
      replace (Z.of_nat n - 1 + 1) with (Z.of_nat n) by lia.
      destruct (drop _ _) as [|o rest]; simpl; [done|]. by rewrite Z.eqb_refl.
    - unfold integrateYjsMod. simpl. rewrite Z.eqb_refl. simpl. fold d1. rewrite Hl, Hr.
      replace (Z.of_nat n - 1 + 1) with (Z.of_nat n) by lia.
      destruct (drop _ _) as [|o rest]; simpl; [done|]. by rewrite Z.eqb_refl.
    - destruct (Hb eq_refl) as [Hm Hbound].
      unfold integrateAutomerge, integrateAutomerge_gen. simpl.
      destruct (Z.leb_spec 0 (maxSeq doc + 1)); [|lia]. simpl.
      rewrite Z.eqb_refl. simpl. fold d1. rewrite Hl.
      replace (Z.of_nat n - 1 + 1) with (Z.of_nat n) by lia.
      destruct (Z.ltb_spec (maxSeq doc) (maxSeq doc + 1)); [|lia].
      destruct (drop _ _) as [|o rest] eqn:Hd; simpl; [done|].
      assert (o ∈ doc_content doc) as Ho.
      { eapply (subseteq_drop (Z.to_nat (Z.of_nat n))). rewrite Hd. by left. }
      apply Hbound in Ho. destruct (Z.ltb_spec (item_seq o) (maxSeq doc + 1)); [done|lia]. }
  eexists. split; [exact Hli|]. rewrite commit_shape.
  change (getArray ?d) with (contents (doc_content d)).
  assert (doc_content (if alg is automerge then set_maxSeq d1 (maxSeq doc + 1) else d1) = doc_content doc) as ->.
  { by destruct alg. }
  cbn [doc_content doc_length doc_version].
  split; [|split; [by destruct alg|by destruct alg]].
  rewrite contents_splice by (unfold lenZ; lia). simpl. by rewrite take_Z_nat, Ht.
Qed.

(** X5: under Yjs, YjsMod and Automerge a local insert at a position
    [0 <= pos <= getArray(doc).length] succeeds and puts the content at
    index [pos] of [getArray]: the anchors are found through the index
    hint and the scan stops at once.  For Automerge [maxSeq] has to bound
    the [seq] fields of the document.  [length] grows by one and the
    version entry of the agent by one. *)
Theorem localInsert_getArray {T} alg (doc : Doc T) agent pos c :
  alg ≠ sync9 →
  (alg = automerge → seq_bounded doc) →
  0 <= pos <= lenZ (getArray doc) →
  ∃ doc', alg_localInsert alg doc agent pos c = (doc', Ok)
    ∧ getArray doc' = splice (getArray doc) pos c
    ∧ doc_length doc' = doc_length doc + 1
    ∧ doc_version doc' = <[agent := lastSeen (doc_version doc) agent + 1]> (doc_version doc).
Proof. exact (alg_localInsert_at alg doc agent pos c). Qed.

Lemma localInsert_getArray_witness :
  ∃ doc', alg_localInsert yjsMod one_item_doc "B" 1 "y"%string = (doc', Ok)
    ∧ getArray doc' = splice (getArray one_item_doc) 1 "y"%string
    ∧ doc_length doc' = doc_length one_item_doc + 1
    ∧ doc_version doc'
      = <["B"%string := lastSeen (doc_version one_item_doc) "B" + 1]> (doc_version one_item_doc).
Proof.
  apply (localInsert_getArray yjsMod one_item_doc "B" 1 "y"%string);
    [discriminate|discriminate|vm_compute; split; discriminate].
Defined.


(** X6: a local insert at a negative position or at a position above
    [getArray(doc).length] fails with "past end of the document" under all
    four algorithms and leaves the document unchanged. *)
Theorem localInsert_past_end {T} alg (doc : Doc T) agent pos c :
  pos < 0 ∨ lenZ (getArray doc) < pos →
  alg_localInsert alg doc agent pos c = (doc, Throw PastEnd).
Proof.
  change (getArray doc) with (contents (doc_content doc)). rewrite contents_length. intros Hpos.
  destruct alg; simpl; unfold localInsert, localInsertSync9, findItemAtPos;
    by rewrite findItemAtPos_from_outside.
Qed.

Lemma localInsert_past_end_witness :
  alg_localInsert sync9 sync9_one_doc "B" 2 "y"%string = (sync9_one_doc, Throw PastEnd).
Proof.
  apply (localInsert_past_end sync9 sync9_one_doc "B" 2 "y"%string). right. reflexivity.
Defined.


Lemma localDelete_at {T} (doc : Doc T) agent pos :
  0 <= pos < lenZ (getArray doc) →
  ∃ doc', localDelete doc agent pos = (doc', Ok)
    ∧ getArray doc' = delete (Z.to_nat pos) (getArray doc)
    ∧ item_id <$> doc_content doc' = item_id <$> doc_content doc
    ∧ doc_version doc' = doc_version doc
    ∧ doc_length doc' = doc_length doc - 1.
Proof.
  change (getArray doc) with (contents (doc_content doc)). rewrite contents_length. intros Hpos.
  destruct (findItemAtPos_from_take (doc_content doc) 0 pos) as (n & Hf & Hn & Ht & _ & Hin); [lia|].
  destruct Hin as (it & Hit & Hv); [lia|]. rewrite Z.add_0_l in Hf.
  unfold localDelete, findItemAtPos. rewrite Hf.
  assert (nthZ (doc_content doc) (Z.of_nat n) = Some it) as ->.
  { apply nthZ_Some. rewrite Nat2Z.id. split; [lia|done]. }
  pose proof Hv as Hv'. unfold visible in Hv'. apply andb_true_iff in Hv' as [Hd Hc].
  rewrite Hd. eexists. split; [done|].
  change (getArray ?d) with (contents (doc_content d)).
  cbn [doc_content doc_length doc_version add_length set_content]. rewrite Nat2Z.id.
  split; [|split; [|done]].
  - rewrite <- (take_drop_middle _ _ _ Hit) at 2.
    rewrite insert_take_drop by (by eapply lookup_lt_Some).
    rewrite !contents_app, !contents_cons, Hv. unfold visible at 1. simpl.
    destruct (item_content it) as [ci|]; [|discriminate Hc]. simpl.
    assert (Z.to_nat pos = length (contents (take n (doc_content doc)))) as ->.
    { pose proof (contents_length (take n (doc_content doc))) as Hl. unfold lenZ in Hl. lia. }
    by rewrite delete_middle.
  - rewrite list_fmap_insert. apply list_insert_id. by rewrite list_lookup_fmap, Hit.
Qed.

(** X7: a local delete at a position [0 <= pos < getArray(doc).length]
    succeeds and removes the element at index [pos] from [getArray]; the
    ids of [content] and the version stay the same and [length] drops by
    one. *)
Theorem localDelete_getArray {T} (doc : Doc T) agent pos :
  0 <= pos < lenZ (getArray doc) →
  ∃ doc', localDelete doc agent pos = (doc', Ok)
    ∧ getArray doc' = delete (Z.to_nat pos) (getArray doc)
    ∧ item_id <$> doc_content doc' = item_id <$> doc_content doc
    ∧ doc_version doc' = doc_version doc
    ∧ doc_length doc' = doc_length doc - 1.
Proof. exact (localDelete_at doc agent pos). Qed.

Lemma localDelete_getArray_witness :
  ∃ doc', localDelete one_item_doc "A" 0 = (doc', Ok)
    ∧ getArray doc' = delete (Z.to_nat 0) (getArray one_item_doc)
    ∧ item_id <$> doc_content doc' = item_id <$> doc_content one_item_doc
    ∧ doc_version doc' = doc_version one_item_doc
    ∧ doc_length doc' = doc_length one_item_doc - 1.
Proof.
  apply (localDelete_getArray one_item_doc "A" 0). vm_compute. split; [discriminate|done].
Defined.


(** *** Invariants of reachable documents *)

Lemma merge_pass_invariant {T} alg (P : Doc T → Prop) :
  (∀ d n d', P d → item_content n ≠ None → integrate alg d n (-1) = (d', Ok) → P d') →
  ∀ missing dest d m k,
    with_content missing → P dest →
    merge_pass alg dest missing = (d, m, k, Ok) → P d ∧ with_content m.
Proof.
  intros Hstep missing. induction missing as [|o missing IH]; intros dest d m k Hall HP; simpl.
  - intros [= <- <- <-]. done.
  - apply Forall_cons in Hall as [Ho Hall]. destruct o as [op|].
    + destruct (negb (canInsertNow op dest)).
      * destruct (merge_pass alg dest missing) as [[[d1 m1] n1] r1] eqn:E.
        intros [= <- <- <- ->]. destruct (IH _ _ _ _ Hall HP E) as [? ?].
        split; [done|]. by apply Forall_cons.
      * destruct (integrate alg dest op (-1)) as [dest' [|e]] eqn:Ei; [|done].
        destruct (merge_pass alg dest' missing) as [[[d1 m1] n1] r1] eqn:E.
        intros [= <- <- <- ->].
        destruct (IH _ _ _ _ Hall (Hstep _ _ _ HP (Ho _ eq_refl) Ei) E) as [? ?].
        split; [done|]. by apply Forall_cons.
    + destruct (merge_pass alg dest missing) as [[[d1 m1] n1] r1] eqn:E.
      intros [= <- <- <- ->]. destruct (IH _ _ _ _ Hall HP E) as [? ?].
      split; [done|]. by apply Forall_cons.
Qed.

Lemma merge_loop_invariant {T} alg (P : Doc T → Prop) :
  (∀ d n d', P d → item_content n ≠ None → integrate alg d n (-1) = (d', Ok) → P d') →
  ∀ fuel dest missing remaining d,
    with_content missing → P dest →
    merge_loop fuel alg dest missing remaining = Some (d, Ok) → P d.
Proof.
  intros Hstep fuel. induction fuel as [|fuel IH]; intros dest missing remaining d Hall HP; simpl.
  - destruct (remaining <=? 0); [|done]. by intros [= <-].
  - destruct (remaining <=? 0); [by intros [= <-]|].
    destruct (merge_pass alg dest missing) as [[[d1 m1] n1] r1] eqn:E.
    destruct r1; [|by intros [= ]].
    destruct (merge_pass_invariant alg P Hstep _ _ _ _ _ Hall HP E) as [HP1 Hall1].
    destruct (n1 =? 0); [done|]. by apply IH.
Qed.

Lemma missing_with_content {T} (dest src : Doc T) : with_content (Some <$> missing_of dest src).
Proof.
  apply Forall_fmap, Forall_forall. intros x [Hx _]%list_elem_of_filter op [= <-].
  apply andb_true_iff in Hx as [Hc _]. by destruct (item_content x).
Qed.

Lemma mergeInto_invariant {T} alg (P : Doc T → Prop) :
  (∀ d n d', P d → item_content n ≠ None → integrate alg d n (-1) = (d', Ok) → P d') →
  ∀ dest src d, P dest → mergeInto alg dest src = Some (d, Ok) → P d.
Proof.
  intros Hstep dest src d HP. unfold mergeInto.
  apply merge_loop_invariant; [done|apply missing_with_content|done].
Qed.

Lemma alg_localInsert_integrate {T} alg (doc doc' : Doc T) agent pos c :
  alg_localInsert alg doc agent pos c = (doc', Ok) →
  ∃ n h, item_content n = Some c ∧ isDeleted n = false ∧ (item_id n).1 = agent
         ∧ integrate alg doc n h = (doc', Ok).
Proof.
  assert (∀ this, localInsert this doc agent pos c = (doc', Ok) →
            ∃ n h, item_content n = Some c ∧ isDeleted n = false ∧ (item_id n).1 = agent
                   ∧ integrate this doc n h = (doc', Ok)) as Hstd.
  { intros this. unfold localInsert. destruct (findItemAtPos _ _ _) as [|i]; [done|].
    intros H. eexists _, _. split; [|split; [|split; [|exact H]]]; done. }
  destruct alg; simpl; try apply Hstd.
  unfold localInsertSync9. destruct (findItemAtPos _ _ _) as [|i]; [done|].
  destruct (sync9_descend _ _ _ _ _) as [[i' ol] ia].
  intros H. eexists _, _. split; [|split; [|split; [|exact H]]]; done.
Qed.

(** An invariant of [newDoc] that successful [integrate] and
    [localDelete] calls keep holds of every reachable document. *)
Lemma Reachable_invariant {T} ok alg (P : Doc T → Prop) :
  P newDoc →
  (∀ d n h d', P d → ok alg n ∨ item_content n ≠ None →
     integrate alg d n h = (d', Ok) → P d') →
  (∀ d a p d', P d → localDelete d a p = (d', Ok) → P d') →
  ∀ d, Reachable ok alg d → P d.
Proof.
  intros H0 Hi Hd d Hr. induction Hr as [|d a p c d' _ IH H|d a p d' _ IH H|d n h d' _ IH Hok H|d src d' _ IH H].
  - done.
  - apply alg_localInsert_integrate in H as (n & h & Hc & _ & _ & H).
    eapply Hi; [done| |done]. right. by rewrite Hc.
  - by eapply Hd.
  - eapply Hi; [done| |done]. by left.
  - eapply (mergeInto_invariant alg P); [|done..]. intros ? ? ? ? ?. eapply Hi; [done|by right].
Qed.

Lemma content_step_ids {T} alg (c c' : list (Item T)) n :
  content_step alg c n c' →
  ∀ x, x ∈ c' → x = n ∨ ∃ y, y ∈ c ∧ item_id y = item_id x.
Proof.
  intros [[i ->]|(_ & p & P & [H0 HP]%nthZ_Some & _ & ->)] x.
  - rewrite splice_elem_of. intros [?|?]; eauto.
  - apply list_elem_of_lookup_2 in HP.
    rewrite !elem_of_app, !elem_of_cons.
    intros [?%subseteq_take|[[->|[->|[->|?%elem_of_nil]]]|?%subseteq_drop]];
      [right; eauto|right; by exists P|by left|right; eauto|done|right; eauto].
Qed.

Lemma lastSeen_nonneg v a : version_nonneg v → -1 <= lastSeen v a.
Proof.
  intros Hv. unfold lastSeen. destruct (v !! a) as [k|] eqn:Hk; simpl; [|lia].
  apply Hv in Hk. lia.
Qed.

Lemma version_exact_integrate {T} alg (d d' : Doc T) n h :
  version_exact d → integrate alg d n h = (d', Ok) → version_exact d'.
Proof.
  intros [Hn Hin Hall] H.
  destruct (integrate_ok_version _ _ _ _ _ H) as [Hr Hv].
  destruct (integrate_ok_shape _ _ _ _ _ H) as [Hs _].
  destruct (content_step_sublist _ _ _ _ Hs) as [Hsub Hnin].
  pose proof (lastSeen_nonneg _ (item_id n).1 Hn) as Hls.
  assert (ver_le (doc_version d) (doc_version d')) as Hle.
  { rewrite Hv. by apply ver_le_insert. }
  split.
  - rewrite Hv. intros a k. destruct (decide ((item_id n).1 = a)) as [<-|Hne].
    + rewrite lookup_insert_eq. intros [= <-]. unfold seq_ready in Hr. lia.
    + rewrite lookup_insert_ne by done. apply Hn.
  - intros x Hx. destruct (content_step_ids _ _ _ _ Hs x Hx) as [->|(y & Hy & Hid)].
    + split; [unfold seq_ready in Hr; lia|]. rewrite Hv. destruct (item_id n). apply isInVersion_insert.
    + rewrite <- Hid. destruct (Hin y Hy) as [? ?]. split; [done|]. by apply Hle.
  - intros a s Hs0 Ha. rewrite Hv in Ha. apply isInVersion_Some in Ha as (k & Hk & Hsk).
    destruct (decide ((item_id n).1 = a)) as [<-|Hne].
    + rewrite lookup_insert_eq in Hk. injection Hk as <-.
      destruct (decide (s = (item_id n).2)) as [->|Hne].
      * exists n. split; [done|]. by destruct (item_id n).
      * destruct (Hall (item_id n).1 s Hs0) as (x & Hx & Hid).
        { unfold seq_ready, lastSeen in Hr. apply isInVersion_Some.
          destruct (doc_version d !! (item_id n).1) as [k|]; simpl in Hr.
          - exists k. split; [done|lia].
          - lia. }
        exists x. split; [|done]. by eapply elem_of_sublist.
    + rewrite lookup_insert_ne in Hk by done.
      destruct (Hall a s Hs0) as (x & Hx & Hid); [apply isInVersion_Some; eauto|].
      exists x. split; [|done]. by eapply elem_of_sublist.
Qed.

Lemma localDelete_ok {T} (d d' : Doc T) a p :
  localDelete d a p = (d', Ok) →
  d' = d ∨ ∃ i it, doc_content d !! i = Some it ∧ isDeleted it = false
       ∧ d' = add_length (set_content d (<[i := set_deleted it]> (doc_content d))) (-1).
Proof.
  unfold localDelete. destruct (findItemAtPos _ _ _) as [|i]; [done|].
  destruct (nthZ _ _) as [it|] eqn:Hit; [|done]. apply nthZ_Some in Hit as [? Hit].
  destruct (isDeleted it) eqn:Hd; simpl; intros [= <-]; [by left|]. right. eauto.
Qed.

Lemma localDelete_ids {T} (d d' : Doc T) a p :
  localDelete d a p = (d', Ok) →
  doc_version d' = doc_version d ∧ maxSeq d' = maxSeq d
  ∧ Forall2 (λ x y, same_item x y) (doc_content d') (doc_content d).
Proof.
  intros [->|(i & it & Hit & Hd & ->)]%localDelete_ok.
  - split; [done|]. split; [done|]. apply Forall_Forall2_diag, Forall_forall. intros. apply same_item_refl.
  - split; [done|]. split; [done|]. cbn [doc_content add_length set_content].
    apply Forall2_same_length_lookup. split; [by rewrite length_insert|].
    intros j x y Hx Hy. destruct (decide (i = j)) as [<-|Hne].
    + rewrite list_lookup_insert_eq in Hx by (by eapply lookup_lt_Some).
      injection Hx as <-. rewrite Hit in Hy. injection Hy as <-. done.
    + rewrite list_lookup_insert_ne in Hx by done. rewrite Hx in Hy. injection Hy as <-.
      apply same_item_refl.
Qed.

Lemma same_items_fmap {T} {B} (f : Item T → B) (c c' : list (Item T)) :
  (∀ x y, same_item x y → f x = f y) →
  Forall2 (λ x y, same_item x y) c' c → f <$> c' = f <$> c.
Proof.
  intros Hf H. induction H as [|x y c' c Hxy _ IH]; [done|]. rewrite !fmap_cons. by rewrite IH, (Hf _ _ Hxy).
Qed.

Lemma version_exact_localDelete {T} (d d' : Doc T) a p :
  version_exact d → localDelete d a p = (d', Ok) → version_exact d'.
Proof.
  intros [Hn Hin Hall] (Hv & _ & Hc)%localDelete_ids.
  assert (item_id <$> doc_content d' = item_id <$> doc_content d) as Hids.
  { eapply same_items_fmap; [|done]. by intros x y [? _]. }
  assert (∀ id, (∃ x, x ∈ doc_content d' ∧ item_id x = id) ↔ (∃ x, x ∈ doc_content d ∧ item_id x = id)) as Hiff.
  { intros id.
    assert (∀ c : list (Item T), (∃ x, x ∈ c ∧ item_id x = id) ↔ id ∈ item_id <$> c) as Hc'.
    { intros c. rewrite list_elem_of_fmap. split; intros (x & ? & ?); eauto. }
    by rewrite !Hc', Hids. }
  split; rewrite ?Hv.
  - done.
  - intros x Hx. destruct (proj1 (Hiff (item_id x))) as (y & Hy & <-); [eauto|]. by apply Hin.
  - intros a' s Hs Ha. apply Hiff. by apply Hall.
Qed.

Lemma version_exact_newDoc {T} : version_exact (@newDoc T).
Proof.
  split.
  - intros a n Hx. simpl in Hx. by rewrite lookup_empty in Hx.
  - by intros x ?%elem_of_nil.
  - intros a s _ (k & Hk & _)%isInVersion_Some. simpl in Hk. by rewrite lookup_empty in Hk.
Qed.

(** X8: in every document built from [newDoc] by successful operations,
    under each of the four algorithms, the version vector describes the
    ids of [content] exactly: every item's id has a sequence number from
    [0] up to the version entry of its agent, and every id in that range
    is the id of an item. *)
Theorem reachable_version_exact {T} alg (doc : Doc T) :
  Reachable any_item alg doc → version_exact doc.
Proof.
  apply Reachable_invariant.
  - apply version_exact_newDoc.
  - intros d n h d' Hd _. by apply version_exact_integrate.
  - intros d a p d'. apply version_exact_localDelete.
Qed.

Lemma reachable_version_exact_witness : version_exact sync9_split_doc.
Proof.
  apply (reachable_version_exact sync9).
  apply (reach_integrate _ _ sync9_one_doc sync9_before_item (-1)); [|done|reflexivity].
  apply (reach_integrate _ _ newDoc (mkItem (Some "x"%string) ("A"%string, 0) None None 0 true false) (-1));
    [apply reach_newDoc|done|reflexivity].
Defined.




Lemma content_step_splice {T} alg (c c' : list (Item T)) n :
  alg ≠ sync9 → content_step alg c n c' → ∃ i, c' = splice c i n.
Proof. intros Hne [?|[? _]]; done. Qed.

Lemma unique_ids_integrate {T} alg (d d' : Doc T) n h :
  alg ≠ sync9 → version_exact d → NoDup (item_id <$> doc_content d) →
  integrate alg d n h = (d', Ok) → NoDup (item_id <$> doc_content d').
Proof.
  intros Hne Hve Hnd H.
  destruct (integrate_ok_version _ _ _ _ _ H) as [Hr Hv].
  destruct (integrate_ok_shape _ _ _ _ _ H) as [Hs _].
  apply (content_step_splice _ _ _ _ Hne) in Hs as [i ->].
  rewrite splice_fmap. apply splice_NoDup; [done|].
  intros (x & Hid & Hx)%list_elem_of_fmap.
  apply (ve_in _ Hve) in Hx as [_ Hx]. rewrite <- Hid in Hx.
  by rewrite (seq_ready_not_in_version _ _ Hr) in Hx.
Qed.

Lemma reachable_unique_ids {T} alg (doc : Doc T) :
  alg ≠ sync9 → Reachable any_item alg doc →
  version_exact doc ∧ NoDup (item_id <$> doc_content doc).
Proof.
  intros Hne. apply (Reachable_invariant any_item alg (λ d, version_exact d ∧ NoDup (item_id <$> doc_content d))).
  - split; [apply version_exact_newDoc|constructor].
  - intros d n h d' [Hve Hnd] _ H. split; [by eapply version_exact_integrate|by eapply unique_ids_integrate].
  - intros d a p d' [Hve Hnd] H. split; [by eapply version_exact_localDelete|].
    apply localDelete_ids in H as (_ & _ & Hc).
    erewrite same_items_fmap; [done| |done]. by intros x y [? _].
Qed.

Lemma findItem_hint_irrelevant {T} (doc : Doc T) needle hint :
  NoDup (item_id <$> doc_content doc) →
  findItem doc needle hint = findItem doc needle (-1).
Proof.
  intros Hnd. unfold findItem.
  destruct (findItem2_hint_cases doc needle false hint) as [->|(a & s & it & -> & Hit & Hm & ->)]; [done|].
  apply nthZ_Some in Hit as [H0 Hit].
  assert (item_id it = (a, s)) as Hid by (by apply needle_match_false_true).
  pose proof (findItem_unique doc (a, s) _ it (-1) Hnd Hit Hid) as Hu.
  unfold findItem in Hu. symmetry. etransitivity; [exact Hu|]. f_equal. lia.
Qed.

(** X9: in every document built from [newDoc] by successful operations
    under Yjs, YjsMod or Automerge the ids of the items are pairwise
    different, and [findItem] returns the same result with every index
    hint as without one. *)
Theorem reachable_hint_irrelevant {T} alg (doc : Doc T) needle hint :
  alg ≠ sync9 → Reachable any_item alg doc →
  NoDup (item_id <$> doc_content doc)
  ∧ findItem doc needle hint = findItem doc needle (-1).
Proof.
  intros Hne Hr. destruct (reachable_unique_ids alg doc Hne Hr) as [_ Hnd].
  split; [done|]. by apply findItem_hint_irrelevant.
Qed.

Lemma reachable_hint_irrelevant_witness :
  NoDup (item_id <$> doc_content one_item_doc)
  ∧ findItem one_item_doc (Some ("A"%string, 0)) 0 = findItem one_item_doc (Some ("A"%string, 0)) (-1).
Proof.
  apply (reachable_hint_irrelevant yjsMod one_item_doc); [discriminate|].
  apply (reach_integrate _ _ newDoc (mkItem (Some "x"%string) ("A"%string, 0) None None 0 true false) (-1));
    [apply reach_newDoc|done|reflexivity].
Defined.


(** *** maxSeq *)

Lemma integrate_maxSeq {T} alg (d d' : Doc T) n h :
  integrate alg d n h = (d', Ok) →
  maxSeq d' = if alg is automerge then Z.max (maxSeq d) (item_seq n) else maxSeq d.
Proof.
  destruct alg; simpl.
  - unfold integrateYjs. destruct (negb _); [done|].
    destruct (findItem _ _ _); [done|]. destruct (findRight _ _ _); [done|].
    destruct (yjs_scan _ _ _ _ _ _ _ _ _) as [|dd]; [done|]. intros [= <-]. by rewrite commit_shape.
  - unfold integrateYjsMod. destruct (negb _); [done|].
    destruct (findItem _ _ _); [done|]. destruct (findRight _ _ _); [done|].
    destruct (yjsMod_scan _ _ _ _ _ _ _ _ _) as [|dd]; [done|]. intros [= <-]. by rewrite commit_shape.
  - unfold integrateAutomerge, integrateAutomerge_gen. destruct (negb _); [done|]. destruct (negb _); [done|].
    destruct (findItem _ _ _); [done|].
    destruct (automerge_scan _ _ _ _ _ _ _ _) as [|dd]; [done|]. intros [= <-]. rewrite commit_shape.
    simpl. destruct (Z.ltb_spec (maxSeq d) (item_seq n)); simpl; lia.
  - unfold integrateSync9. destruct (item_id n) as [a s]. destruct (negb _); [done|].
    destruct (findItem2 _ _ _ _) as [|p]; [done|].
    assert (∀ dd, sync9_walk (set_version d a s) n h p = (dd, Ok) → maxSeq dd = maxSeq d) as Hw.
    { intros dd. unfold sync9_walk. destruct (sync9_scan _ _ _ _ _ _); [done|].
      intros [= <-]. unfold commitSync9. by destruct (_ && _). }
    destruct (_ && _ && _).
    + destruct (nthZ _ _) as [P|]; [|done]. destruct (negb (is_null (item_content P))); [|apply Hw].
      intros [= <-]. unfold commitSync9. by destruct (_ && _).
    + apply Hw.
Qed.

Lemma seq_bounded_integrate {T} (d d' : Doc T) n h :
  seq_bounded d → integrate automerge d n h = (d', Ok) → seq_bounded d'.
Proof.
  intros [H0 Hb] H. pose proof (integrate_maxSeq _ _ _ _ _ H) as Hm. simpl in Hm.
  split; [lia|]. intros x Hx.
  destruct (integrate_ok_shape _ _ _ _ _ H) as [[[i Hs]|[? _]] _]; [|done].
  rewrite Hs in Hx. apply splice_elem_of in Hx as [Hx| ->]; [apply Hb in Hx|]; lia.
Qed.

Lemma seq_bounded_localDelete {T} (d d' : Doc T) a p :
  seq_bounded d → localDelete d a p = (d', Ok) → seq_bounded d'.
Proof.
  intros [H0 Hb] (_ & Hm & Hc)%localDelete_ids. split; [lia|]. intros x Hx. rewrite Hm.
  apply list_elem_of_lookup in Hx as [i Hi].
  destruct (Forall2_lookup_l _ _ _ _ _ Hc Hi) as (y & Hy & Hs).
  apply list_elem_of_lookup_2, Hb in Hy. destruct Hs as (_ & _ & _ & -> & _). done.
Qed.

(** X10: [maxSeq] is only written by [integrateAutomerge].  In every
    document built from [newDoc] by successful operations it is [0] under
    Yjs, YjsMod and Sync9; under Automerge it is [0] or more and at least
    the [seq] of every item. *)
Theorem reachable_maxSeq {T} alg (doc : Doc T) :
  Reachable any_item alg doc →
  if alg is automerge then seq_bounded doc else maxSeq doc = 0.
Proof.
  apply (Reachable_invariant any_item alg
           (λ d, if alg is automerge then seq_bounded d else maxSeq d = 0)).
  - destruct alg; try done. split; [done|]. by intros x ?%elem_of_nil.
  - intros d n h d' HP _ H.
    pose proof (integrate_maxSeq _ _ _ _ _ H) as Hm.
    destruct alg; try congruence. by eapply seq_bounded_integrate.
  - intros d a p d' HP H. pose proof (localDelete_ids _ _ _ _ H) as (_ & Hm & _).
    destruct alg; try congruence. by eapply seq_bounded_localDelete.
Qed.

Lemma reachable_maxSeq_witness : seq_bounded (localInsert automerge newDoc "A" 0 "x"%string).1.
Proof.
  apply (reachable_maxSeq automerge).
  eapply (reach_localInsert _ _ newDoc "A"%string 0 "x"%string); [apply reach_newDoc|reflexivity].
Defined.


(** ** Valid histories *)

(** *** The invariant of valid documents *)

Lemma has_id_mono {T} (c c' : list (Item T)) id : c ⊆ c' → has_id c id → has_id c' id.
Proof. intros Hs (y & Hy & ?). exists y. split; [by apply Hs|done]. Qed.

Lemma anchored_mono {T} (c c' : list (Item T)) n : c ⊆ c' → anchored c n → anchored c' n.
Proof. intros Hs [Hl Hr]. split; intros id Hid; eapply has_id_mono; eauto. Qed.

Lemma content_step_elem3 {T} alg (c c' : list (Item T)) n x :
  content_step alg c n c' → x ∈ c' →
  x = n ∨ x ∈ c ∨ ∃ P, P ∈ c ∧ x = placeholder P.
Proof.
  intros [[i ->]|(_ & p & P & [H0 HP]%nthZ_Some & _ & ->)].
  - rewrite splice_elem_of. tauto.
  - apply list_elem_of_lookup_2 in HP. rewrite !elem_of_app, !elem_of_cons.
    intros [?%subseteq_take|[[->|[->|[->|?%elem_of_nil]]]|?%subseteq_drop]];
      [by right; left|right; right; by exists P|by left|by right; left|done|by right; left].
Qed.

Lemma content_step_perm {T} alg (c c' : list (Item T)) n :
  content_step alg c n c' → c' ≡ₚ n :: c ∨ ∃ P, c' ≡ₚ placeholder P :: n :: c.
Proof.
  intros [[i ->]|(_ & p & P & [H0 HP]%nthZ_Some & _ & ->)].
  - left. apply splice_perm.
  - right. exists P. rewrite <- (take_drop_middle c (Z.to_nat p) P HP) at 3.
    rewrite <- !Permutation_middle. simpl. rewrite <- !Permutation_middle.
    done.
Qed.

Lemma content_items_cons {T} (x : Item T) c :
  content_items (x :: c) = if is_null (item_content x) then content_items c else x :: content_items c.
Proof.
  unfold content_items. rewrite filter_cons.
  destruct (decide (negb (is_null (item_content x)) = true)) as [H|H];
    destruct (item_content x); simpl in *; congruence.
Qed.

Lemma content_items_elem {T} (x : Item T) c :
  x ∈ content_items c ↔ x ∈ c ∧ item_content x ≠ None.
Proof.
  unfold content_items. rewrite list_elem_of_filter.
  destruct (item_content x); simpl; split; intros [? ?]; done.
Qed.

Lemma content_step_unique {T} alg (c c' : list (Item T)) n :
  content_step alg c n c' → item_content n ≠ None →
  item_id <$> content_items c' ≡ₚ item_id n :: (item_id <$> content_items c).
Proof.
  intros Hs Hn.
  assert (content_items c' ≡ₚ n :: content_items c) as ->; [|done].
  destruct (content_step_perm _ _ _ _ Hs) as [Hp|[P Hp]]; unfold content_items at 1; rewrite Hp.
  - fold (content_items (n :: c)). rewrite content_items_cons. by destruct (item_content n).
  - fold (content_items (placeholder P :: n :: c)). rewrite !content_items_cons. simpl.
    by destruct (item_content n).
Qed.

Lemma rank_with_old {T} rank (c : list (Item T)) n id :
  id ≠ item_id n → rank_with rank c n id = rank id.
Proof. intros. unfold rank_with. by destruct (decide _). Qed.

Lemma rank_with_new {T} rank (c : list (Item T)) n y :
  y ∈ c → item_id y ≠ item_id n →
  (rank_with rank c n (item_id y) < rank_with rank c n (item_id n))%nat.
Proof.
  intros Hy Hne. rewrite rank_with_old by done. unfold rank_with.
  destruct (decide _); [|done]. apply Nat.lt_succ_r, max_list_elem_of_le.
  apply list_elem_of_fmap. exists (item_id y). split; [done|].
  apply list_elem_of_fmap. eauto.
Qed.

Lemma version_exact_fresh {T} (d : Doc T) n y :
  version_exact d → seq_ready d n → y ∈ doc_content d → item_id y ≠ item_id n.
Proof.
  intros Hve Hr Hy Heq. apply (ve_in _ Hve) in Hy as [_ Hy]. rewrite Heq in Hy.
  by rewrite (seq_ready_not_in_version _ _ Hr) in Hy.
Qed.

Lemma version_exact_pred {T} (d : Doc T) x :
  version_exact d → x ∈ doc_content d → 0 < (item_id x).2 →
  ∃ y, y ∈ doc_content d ∧ item_id y = ((item_id x).1, (item_id x).2 - 1).
Proof.
  intros Hve Hx Hs. destruct (ve_in _ Hve x Hx) as [_ Hv].
  apply (ve_all _ Hve); [lia|]. destruct (item_id x) as [a s]. simpl in *.
  apply isInVersion_Some in Hv as (k & Hk & Hle). apply isInVersion_Some. exists k. split; [done|lia].
Qed.

Lemma seq_ready_pred {T} (d : Doc T) n :
  version_exact d → seq_ready d n → 0 < (item_id n).2 →
  ∃ y, y ∈ doc_content d ∧ item_id y = ((item_id n).1, (item_id n).2 - 1).
Proof.
  intros Hve Hr Hs. apply (ve_all _ Hve); [lia|].
  unfold seq_ready, lastSeen in Hr. apply isInVersion_Some.
  destruct (doc_version d !! (item_id n).1) as [k|]; simpl in Hr; [|lia].
  exists k. split; [done|lia].
Qed.

Lemma causal_integrate {T} alg (d d' : Doc T) n rank :
  version_exact d → (∀ x, x ∈ doc_content d → anchored (doc_content d) x) →
  anchored (doc_content d) n →
  causal (doc_content d) rank →
  seq_ready d n → content_step alg (doc_content d) n (doc_content d') →
  causal (doc_content d') (rank_with rank (doc_content d) n).
Proof.
  intros Hve Hanc Hn [Hp Hl Hr] Hready Hs.
  assert (∀ y, y ∈ doc_content d → item_id y ≠ item_id n) as Hfresh
    by (intros; by eapply version_exact_fresh).
  assert (∀ id, has_id (doc_content d) id → id ≠ item_id n) as Hfresh'.
  { intros id (y & Hy & <- & _). by apply Hfresh. }
  assert (∀ id, has_id (doc_content d) id →
            (rank_with rank (doc_content d) n id < rank_with rank (doc_content d) n (item_id n))%nat) as Hnew.
  { intros id (y & Hy & <- & _). apply rank_with_new; [done|by apply Hfresh]. }
  assert (∀ x, x ∈ doc_content d →
     ((0 < (item_id x).2 → (rank_with rank (doc_content d) n ((item_id x).1, ((item_id x).2 - 1)%Z)
                             < rank_with rank (doc_content d) n (item_id x))%nat)
      ∧ (∀ id, originLeft x = Some id →
           (rank_with rank (doc_content d) n id < rank_with rank (doc_content d) n (item_id x))%nat)
      ∧ (∀ id, originRight x = Some id →
           (rank_with rank (doc_content d) n id < rank_with rank (doc_content d) n (item_id x))%nat))) as Hold.
  { intros x Hx. destruct (Hanc x Hx) as [Ha1 Ha2]. split; [|split].
    - intros Hs0. destruct (version_exact_pred d x Hve Hx Hs0) as (y & Hy & Hid).
      rewrite !rank_with_old; [by apply Hp|by apply Hfresh|rewrite <- Hid; by apply Hfresh].
    - intros id Hid. rewrite !rank_with_old; [by eapply Hl|by apply Hfresh|by apply Hfresh', Ha1].
    - intros id Hid. rewrite !rank_with_old; [by eapply Hr|by apply Hfresh|by apply Hfresh', Ha2]. }
  assert (∀ x, x ∈ doc_content d' → x = n ∨ ∃ y, y ∈ doc_content d ∧ item_id y = item_id x
            ∧ originLeft y = originLeft x ∧ originRight y = originRight x) as Hel.
  { intros x Hx. destruct (content_step_elem3 _ _ _ _ _ Hs Hx) as [->|[?|(P & HP & ->)]];
      [by left|right; by exists x|right; by exists P]. }
  destruct Hn as [Hn1 Hn2].
  split.
  - intros x Hx Hs0. destruct (Hel x Hx) as [->|(y & Hy & Hid & _)].
    + destruct (seq_ready_pred d n Hve Hready Hs0) as (y & Hy & <-).
      apply rank_with_new; [done|by apply Hfresh].
    + rewrite <- Hid in *. destruct (Hold y Hy) as (H1 & _ & _). by apply H1.
  - intros x id Hx Hid. destruct (Hel x Hx) as [->|(y & Hy & Hi & Hol & _)].
    + by apply Hnew, Hn1.
    + rewrite <- Hi. destruct (Hold y Hy) as (_ & H2 & _). apply H2. congruence.
  - intros x id Hx Hid. destruct (Hel x Hx) as [->|(y & Hy & Hi & _ & Hor)].
    + by apply Hnew, Hn2.
    + rewrite <- Hi. destruct (Hold y Hy) as (_ & _ & H3). apply H3. congruence.
Qed.

Lemma valid_doc_integrate {T} alg (d d' : Doc T) n h :
  valid_doc alg d → item_content n ≠ None → anchored (doc_content d) n →
  integrate alg d n h = (d', Ok) → valid_doc alg d'.
Proof.
  intros [Hve Hc Hu Ha [rank Hk] Hf Hsq Hms] Hn Han H.
  destruct (integrate_ok_version _ _ _ _ _ H) as [Hr Hv].
  destruct (integrate_ok_shape _ _ _ _ _ H) as [Hs _].
  destruct (content_step_sublist _ _ _ _ Hs) as [Hsub%sublist_subseteq Hnin].
  assert (∀ x, x ∈ doc_content d' → x = n ∨ ∃ y, y ∈ doc_content d ∧ item_id y = item_id x
            ∧ originLeft y = originLeft x ∧ originRight y = originRight x
            ∧ item_seq y = item_seq x) as Hel.
  { intros x Hx. destruct (content_step_elem3 _ _ _ _ _ Hs Hx) as [->|[?|(P & HP & ->)]];
      [by left|right; by exists x|right; by exists P]. }
  split.
  - by eapply version_exact_integrate.
  - intros x Hx. destruct (Hel x Hx) as [->|(y & Hy & <- & _)].
    + by exists n.
    + eapply has_id_mono; [done|]. by apply Hc.
  - rewrite (content_step_unique _ _ _ _ Hs Hn). apply NoDup_cons. split; [|done].
    intros (y & Hid & [Hy _]%content_items_elem)%list_elem_of_fmap.
    by eapply (version_exact_fresh d n y).
  - intros x Hx. destruct (Hel x Hx) as [->|(y & Hy & _ & Hl & Hr' & _)].
    + by eapply anchored_mono.
    + destruct (Ha y Hy) as [H1 H2]. split; intros id Hid; (eapply has_id_mono; [done|]).
      * apply H1. congruence.
      * apply H2. congruence.
  - eexists. by eapply causal_integrate.
  - intros ->. simpl in H. apply integrateAutomerge_ok in H
      as (parent & dI & Hs0 & _ & Hfind & Hrange & ->). cbn [doc_content].
    pose proof (findItem2_range _ _ _ _ _ Hfind) as Hpr.
    apply forest_splice; [by apply Hf| |lia|].
    + intros (y & Hid & Hy)%list_elem_of_fmap. by eapply (version_exact_fresh d n y).
    + intros p Hp. rewrite Hp in Hfind. destruct p as [a s].
      apply findItem2_inr in Hfind as (it & [H0 Hit]%nthZ_Some & Hm%needle_match_false_true).
      exists (Z.to_nat parent), it. split; [lia|done].
  - intros -> x Hx. destruct (Hel x Hx) as [->|(y & Hy & _ & _ & _ & <-)].
    + by eapply integrate_seq_nonneg.
    + by apply Hsq.
  - rewrite (integrate_maxSeq _ _ _ _ _ H). destruct alg; lia.
Qed.



Lemma valid_doc_newDoc {T} alg : valid_doc alg (@newDoc T).
Proof.
  split.
  - apply version_exact_newDoc.
  - by intros x ?%elem_of_nil.
  - constructor.
  - by intros x ?%elem_of_nil.
  - exists (λ _, 0%nat). split; [by intros x ?%elem_of_nil|by intros x ? ?%elem_of_nil..].
  - intros _. split; [constructor|]. by intros i x p ?.
  - by intros _ x ?%elem_of_nil.
  - done.
Qed.

(** *** Copies of the items *)

Lemma same_items_l {T} (c' c : list (Item T)) x' :
  Forall2 (λ x y, same_item x y) c' c → x' ∈ c' → ∃ x, x ∈ c ∧ same_item x' x.
Proof.
  intros H [i Hi]%list_elem_of_lookup.
  destruct (Forall2_lookup_l _ _ _ _ _ H Hi) as (y & Hy & Hs).
  exists y. split; [by eapply list_elem_of_lookup_2|done].
Qed.

Lemma same_items_r {T} (c' c : list (Item T)) x :
  Forall2 (λ x y, same_item x y) c' c → x ∈ c → ∃ x', x' ∈ c' ∧ same_item x' x.
Proof.
  intros H [i Hi]%list_elem_of_lookup.
  destruct (Forall2_lookup_r _ _ _ _ _ H Hi) as (y & Hy & Hs).
  exists y. split; [by eapply list_elem_of_lookup_2|done].
Qed.

Lemma same_items_has_id {T} (c' c : list (Item T)) id :
  Forall2 (λ x y, same_item x y) c' c → has_id c id → has_id c' id.
Proof.
  intros H (y & Hy & Hid & Hc). destruct (same_items_r _ _ _ H Hy) as (y' & Hy' & Hs).
  exists y'. destruct Hs as (-> & _ & _ & _ & -> & _). done.
Qed.

Lemma same_items_content_ids {T} (c' c : list (Item T)) :
  Forall2 (λ x y, same_item x y) c' c →
  item_id <$> content_items c' = item_id <$> content_items c.
Proof.
  intros H. induction H as [|x y c' c Hxy _ IH]; [done|].
  rewrite !content_items_cons. destruct Hxy as (Hid & _ & _ & _ & Hc & _). rewrite Hc.
  destruct (is_null (item_content y)); [done|]. rewrite !fmap_cons. by rewrite IH, Hid.
Qed.

Lemma version_exact_copies {T} (d d' : Doc T) :
  version_exact d →
  Forall2 (λ x y, same_item x y) (doc_content d') (doc_content d) →
  doc_version d' = doc_version d → version_exact d'.
Proof.
  intros [Hn Hin Hall] Hsame Hv. split; rewrite ?Hv.
  - done.
  - intros x' Hx'. destruct (same_items_l _ _ _ Hsame Hx') as (x & Hx & (-> & _)). by apply Hin.
  - intros a s Hs Ha. destruct (Hall a s Hs Ha) as (x & Hx & <-).
    destruct (same_items_r _ _ _ Hsame Hx) as (x' & Hx' & (? & _)). eauto.
Qed.

(** A document whose items are copies, index by index, of the items of a
    valid document with the same version is valid. *)
Lemma valid_doc_copies {T} alg (d d' : Doc T) :
  valid_doc alg d →
  Forall2 (λ x y, same_item x y) (doc_content d') (doc_content d) →
  doc_version d' = doc_version d → maxSeq d' = maxSeq d → valid_doc alg d'.
Proof.
  intros [Hve Hc Hu Ha [rank Hk] Hf Hsq Hms] Hsame Hv Hm.
  split.
  - by eapply version_exact_copies.
  - intros x' Hx'. destruct (same_items_l _ _ _ Hsame Hx') as (x & Hx & Hs).
    destruct Hs as (-> & _). eapply same_items_has_id; [done|]. by apply Hc.
  - by rewrite (same_items_content_ids _ _ Hsame).
  - intros x' Hx'. destruct (same_items_l _ _ _ Hsame Hx') as (x & Hx & Hs).
    destruct Hs as (_ & Hl & Hr & _). destruct (Ha x Hx) as [H1 H2].
    split; intros id Hid; (eapply same_items_has_id; [done|]); [apply H1|apply H2]; congruence.
  - exists rank. destruct Hk as [Hp Hl Hr]. split.
    + intros x' Hx'. destruct (same_items_l _ _ _ Hsame Hx') as (x & Hx & (-> & _)). by apply Hp.
    + intros x' id Hx'. destruct (same_items_l _ _ _ Hsame Hx') as (x & Hx & (-> & Hl' & _)).
      rewrite Hl'. by apply Hl.
    + intros x' id Hx'. destruct (same_items_l _ _ _ Hsame Hx') as (x & Hx & (-> & _ & Hr' & _)).
      rewrite Hr'. by apply Hr.
  - intros Hal. destruct (Hf Hal) as [Hnd Hpar]. split.
    + erewrite same_items_fmap; [done| |done]. by intros x y [? _].
    + intros i x' q Hi Hol.
      destruct (Forall2_lookup_l _ _ _ _ _ Hsame Hi) as (x & Hx & (_ & Hl & _)).
      rewrite Hl in Hol. destruct (Hpar _ _ _ Hx Hol) as (j & y & Hj & Hy & Hid).
      destruct (Forall2_lookup_r _ _ _ _ _ Hsame Hy) as (y' & Hy' & (Hid' & _)).
      exists j, y'. split; [done|]. split; [done|]. congruence.
  - intros Hal x' Hx'. destruct (same_items_l _ _ _ Hsame Hx') as (x & Hx & (_ & _ & _ & -> & _)).
    by apply Hsq.
  - by rewrite Hm.
Qed.

Lemma valid_doc_localDelete {T} alg (d d' : Doc T) a p :
  valid_doc alg d → localDelete d a p = (d', Ok) → valid_doc alg d'.
Proof.
  intros Hd (Hv & Hm & Hsame)%localDelete_ids. by eapply valid_doc_copies.
Qed.

Lemma valid_doc_mark_deleted {T} alg (d : Doc T) target :
  valid_doc alg d → valid_doc alg (mark_deleted target d).
Proof.
  intros Hd. eapply valid_doc_copies; [done|apply mark_deleted_copies|done|done].
Qed.

(** *** The items of local inserts *)

Lemma idAt_elem {T} (d : Doc T) i id :
  idAt d i = Some id → ∃ y, y ∈ doc_content d ∧ item_id y = id.
Proof.
  unfold idAt. destruct (nthZ _ _) as [y|] eqn:Hy; [|done]. intros [= <-].
  apply nthZ_Some in Hy as [_ Hy]. exists y. split; [by eapply list_elem_of_lookup_2|done].
Qed.

Lemma sync9_descend_origin {T} (rest : list (Item T)) i pb ol ia i' ol' ia' id :
  sync9_descend rest i pb ol ia = (i', ol', ia') → ol' = Some id →
  ol = Some id ∨ ∃ y, y ∈ rest ∧ item_id y = id.
Proof.
  revert i pb ol ia. induction rest as [|x rest IH]; intros i pb ol ia; simpl.
  - intros [= <- <- <-] ->. by left.
  - destruct (negb (idEq _ _)); [intros [= <- <- <-] ->; by left|].
    destruct (negb (is_null _)).
    + intros [= <- <- <-] [= <-]. right. exists x. split; [by left|done].
    + intros Hd Hol. destruct (IH _ _ _ _ Hd Hol) as [[= <-]|(y & Hy & Hid)].
      * right. exists x. split; [by left|done].
      * right. exists y. split; [by right|done].
Qed.

Lemma alg_localInsert_anchored {T} alg (doc doc' : Doc T) agent pos c :
  (∀ x, x ∈ doc_content doc → has_id (doc_content doc) (item_id x)) →
  alg_localInsert alg doc agent pos c = (doc', Ok) →
  ∃ n h, item_content n ≠ None ∧ anchored (doc_content doc) n
         ∧ integrate alg doc n h = (doc', Ok).
Proof.
  intros Hc.
  assert (∀ i id, idAt doc i = Some id → has_id (doc_content doc) id) as Hid.
  { intros i id (y & Hy & <-)%idAt_elem. by apply Hc. }
  assert (∀ this, localInsert this doc agent pos c = (doc', Ok) →
            ∃ n h, item_content n ≠ None ∧ anchored (doc_content doc) n
                   ∧ integrate this doc n h = (doc', Ok)) as Hstd.
  { intros this. unfold localInsert. destruct (findItemAtPos _ _ _) as [|i]; [done|].
    intros H. eexists _, _. split; [|split; [|exact H]]; [done|].
    split; simpl; intros id; apply Hid. }
  destruct alg; simpl; try apply Hstd.
  unfold localInsertSync9. destruct (findItemAtPos _ _ _) as [|i]; [done|].
  destruct (sync9_descend _ _ _ _ _) as [[i' ol] ia] eqn:Hd.
  intros H. eexists _, _. split; [|split; [|exact H]]; [done|].
  split; simpl; [|done]. intros id Hol.
  destruct (sync9_descend_origin _ _ _ _ _ _ _ _ _ Hd Hol) as [?|(y & Hy%subseteq_drop & <-)].
  - by eapply Hid.
  - by apply Hc.
Qed.

(** *** Merging keeps the invariant *)

Lemma merge_pass_preserves {T} alg (P : Doc T → Prop) (Q : Item T → Prop) :
  (∀ d n d', P d → Q n → canInsertNow n d = true →
     integrate alg d n (-1) = (d', Ok) → P d') →
  ∀ missing dest d m k,
    (∀ op, Some op ∈ missing → Q op) → P dest →
    merge_pass alg dest missing = (d, m, k, Ok) →
    P d ∧ ∀ op, Some op ∈ m → Q op.
Proof.
  intros Hstep missing. induction missing as [|o missing IH]; intros dest d m k HQ HP; simpl.
  - intros [= <- <- <-]. done.
  - assert (∀ op, Some op ∈ missing → Q op) as HQ' by (intros; apply HQ; by right).
    destruct o as [op|].
    + destruct (canInsertNow op dest) eqn:Hcan; simpl.
      * destruct (integrate alg dest op (-1)) as [dest' [|e]] eqn:Ei; [|done].
        destruct (merge_pass alg dest' missing) as [[[d1 m1] n1] r1] eqn:E.
        intros [= <- <- <- ->].
        assert (P dest') as HP' by (eapply Hstep; [done|apply HQ; by left|done..]).
        destruct (IH _ _ _ _ HQ' HP' E) as [? Hm]. split; [done|].
        intros op' [?|?]%elem_of_cons; [done|by apply Hm].
      * destruct (merge_pass alg dest missing) as [[[d1 m1] n1] r1] eqn:E.
        intros [= <- <- <- ->]. destruct (IH _ _ _ _ HQ' HP E) as [? Hm].
        split; [done|]. intros op' [[= <-]|?]%elem_of_cons; [apply HQ; by left|by apply Hm].
    + destruct (merge_pass alg dest missing) as [[[d1 m1] n1] r1] eqn:E.
      intros [= <- <- <- ->]. destruct (IH _ _ _ _ HQ' HP E) as [? Hm].
      split; [done|]. intros op' [?|?]%elem_of_cons; [done|by apply Hm].
Qed.

Lemma merge_loop_preserves {T} alg (P : Doc T → Prop) (Q : Item T → Prop) :
  (∀ d n d', P d → Q n → canInsertNow n d = true →
     integrate alg d n (-1) = (d', Ok) → P d') →
  ∀ fuel dest missing remaining d,
    (∀ op, Some op ∈ missing → Q op) → P dest →
    merge_loop fuel alg dest missing remaining = Some (d, Ok) → P d.
Proof.
  intros Hstep fuel. induction fuel as [|fuel IH]; intros dest missing remaining d HQ HP; simpl.
  - destruct (remaining <=? 0); [|done]. by intros [= <-].
  - destruct (remaining <=? 0); [by intros [= <-]|].
    destruct (merge_pass alg dest missing) as [[[d1 m1] n1] r1] eqn:E.
    destruct r1; [|by intros [= ]].
    destruct (merge_pass_preserves alg P Q Hstep _ _ _ _ _ HQ HP E) as [HP1 HQ1].
    destruct (n1 =? 0); [done|]. by apply IH.
Qed.

Lemma missing_of_elem {T} (dest src : Doc T) op :
  op ∈ missing_of dest src ↔
  op ∈ doc_content src ∧ item_content op ≠ None
  ∧ isInVersion (Some (item_id op)) (doc_version dest) = false.
Proof.
  unfold missing_of. rewrite list_elem_of_filter, andb_true_iff, !negb_true_iff.
  destruct (item_content op); simpl; (split; [intros [[? ?] ?]|intros (? & ? & ?)]); done.
Qed.

Lemma valid_doc_anchor_nonneg {T} alg (src : Doc T) op id :
  valid_doc alg src → op ∈ doc_content src →
  originLeft op = Some id ∨ originRight op = Some id → 0 <= id.2.
Proof.
  intros Hs Hop Hid. destruct (vd_anchored _ _ Hs op Hop) as [H1 H2].
  assert (has_id (doc_content src) id) as (y & Hy & <- & _) by (destruct Hid; eauto).
  by apply (ve_in _ (vd_exact _ _ Hs)).
Qed.

Lemma valid_doc_ready_anchored {T} alg (d src : Doc T) op :
  valid_doc alg d → valid_doc alg src → op ∈ doc_content src →
  canInsertNow op d = true → anchored (doc_content d) op.
Proof.
  intros Hd Hs Hop Hcan.
  apply canInsertNow_ready in Hcan as (_ & Hl & Hr); [|apply (ve_nonneg _ (vd_exact _ _ Hd))].
  assert (∀ id, isInVersion (Some id) (doc_version d) = true → 0 <= id.2 →
            has_id (doc_content d) id) as Hin.
  { intros [a s] Hv H0. destruct (ve_all _ (vd_exact _ _ Hd) a s H0 Hv) as (y & Hy & <-).
    by apply (vd_content _ _ Hd). }
  split; intros id Hid.
  - apply Hin; [by rewrite <- Hid|]. eapply valid_doc_anchor_nonneg; eauto.
  - apply Hin; [by rewrite <- Hid|]. eapply valid_doc_anchor_nonneg; eauto.
Qed.

Lemma valid_doc_mergeInto {T} alg (d src d' : Doc T) :
  valid_doc alg d → valid_doc alg src →
  mergeInto alg d src = Some (d', Ok) → valid_doc alg d'.
Proof.
  intros Hd Hs. unfold mergeInto.
  apply (merge_loop_preserves alg (valid_doc alg)
           (λ op, op ∈ doc_content src ∧ item_content op ≠ None)); [| |done].
  - intros d0 n d0' Hd0 [Hn Hc] Hcan Hi. eapply valid_doc_integrate; [done|done| |done].
    eapply valid_doc_ready_anchored; [exact Hd0|exact Hs|exact Hn|exact Hcan].
  - intros op (x & [= <-] & Hx%missing_of_elem)%list_elem_of_fmap. tauto.
Qed.

Lemma Valid_valid_doc {T} alg (d : Doc T) : Valid alg d → valid_doc alg d.
Proof.
  induction 1 as [|d a p c d' _ IH H|d a p d' _ IH H|d target _ IH|d n h d' _ IH Hc Ha H
                  |d src d' _ IH _ IHs H].
  - apply valid_doc_newDoc.
  - apply alg_localInsert_anchored in H as (n & h & Hc & Ha & H); [|apply (vd_content _ _ IH)].
    exact (valid_doc_integrate _ _ _ _ _ IH Hc Ha H).
  - exact (valid_doc_localDelete _ _ _ _ _ IH H).
  - by apply valid_doc_mark_deleted.
  - exact (valid_doc_integrate _ _ _ _ _ IH Hc Ha H).
  - exact (valid_doc_mergeInto _ _ _ _ IH IHs H).
Qed.

(** *** A ready item is integrated *)

Lemma findItem2_found {T} (doc : Doc T) a s atEnd hint :
  (∃ y, y ∈ doc_content doc ∧ needle_match atEnd a s y = true) →
  ∃ i, findItem2 doc (Some (a, s)) atEnd hint = inr i.
Proof.
  intros (y & Hy & Hm).
  destruct (findItem2_hint_cases doc (Some (a, s)) atEnd hint) as [->|(? & ? & ? & _ & _ & _ & ->)];
    [|eauto].
  destruct (findItem2 doc (Some (a, s)) atEnd (-1)) as [e|i] eqn:E; [|eauto].
  apply findItem2_nohint_inl in E as [_ Hno]. by rewrite (Hno y Hy) in Hm.
Qed.

Lemma has_id_found {T} (doc : Doc T) id atEnd hint :
  has_id (doc_content doc) id → ∃ i, findItem2 doc (Some id) atEnd hint = inr i.
Proof.
  intros (y & Hy & Hid & Hc). destruct id as [a s]. apply findItem2_found.
  exists y. split; [done|]. unfold needle_match.
  assert (idEq2 (Some (item_id y)) a s = true) as -> by (by apply idEq2_true).
  destruct (item_content y); [|done]. by destruct atEnd.
Qed.

Lemma anchored_left_found {T} (doc : Doc T) c n atEnd hint :
  doc_content doc = c → anchored c n →
  ∃ i, findItem2 doc (originLeft n) atEnd hint = inr i.
Proof.
  intros <- [Hl _]. destruct (originLeft n) as [id|]; [|by exists (-1)].
  apply has_id_found. by apply Hl.
Qed.

Lemma anchored_right_found {T} (doc : Doc T) c n hint :
  doc_content doc = c → anchored c n → ∃ i, findRight doc (originRight n) hint = inr i.
Proof.
  intros <- [_ Hr]. unfold findRight. destruct (originRight n) as [id|] eqn:E; [|eauto].
  apply has_id_found. by apply Hr.
Qed.

Lemma yjsMod_scan_ok {T} (doc : Doc T) n hint l r rest i dI s :
  (∀ o, o ∈ rest → anchored (doc_content doc) o) →
  ∃ d, yjsMod_scan doc n hint l r rest i dI s = inr d.
Proof.
  revert i dI s. induction rest as [|o rest IH]; intros i dI s Ha; simpl; [eauto|].
  destruct (i =? r); [eauto|].
  assert (∀ o', o' ∈ rest → anchored (doc_content doc) o') as Ha' by (intros; apply Ha; by right).
  destruct (anchored_left_found doc _ o false (hint - 1) eq_refl (Ha o ltac:(by left))) as [ol Hol].
  destruct (anchored_right_found doc _ o hint eq_refl (Ha o ltac:(by left))) as [or Hor].
  unfold findItem. rewrite Hol, Hor.
  repeat (case_match; eauto).
Qed.

Lemma yjs_scan_ok {T} (doc : Doc T) n hint l r rest i dI s :
  (∀ o, o ∈ rest → anchored (doc_content doc) o) →
  ∃ d, yjs_scan doc n hint l r rest i dI s = inr d.
Proof.
  revert i dI s. induction rest as [|o rest IH]; intros i dI s Ha; simpl; [eauto|].
  destruct (i =? r); [eauto|].
  assert (∀ o', o' ∈ rest → anchored (doc_content doc) o') as Ha' by (intros; apply Ha; by right).
  destruct (anchored_left_found doc _ o false (hint - 1) eq_refl (Ha o ltac:(by left))) as [ol Hol].
  destruct (anchored_right_found doc _ o hint eq_refl (Ha o ltac:(by left))) as [or Hor].
  unfold findItem. rewrite Hol, Hor.
  repeat (case_match; eauto).
Qed.

Lemma sync9_scan_ok {T} (doc : Doc T) n hint p rest dI :
  (∀ o, o ∈ rest → anchored (doc_content doc) o) →
  ∃ d, sync9_scan doc n hint p rest dI = inr d.
Proof.
  revert dI. induction rest as [|o rest IH]; intros dI Ha; simpl; [eauto|].
  assert (∀ o', o' ∈ rest → anchored (doc_content doc) o') as Ha' by (intros; apply Ha; by right).
  destruct (anchored_left_found doc _ o (insertAfter o) (hint - 1) eq_refl (Ha o ltac:(by left)))
    as [ol ->].
  repeat (case_match; eauto).
Qed.

Lemma automerge_scan_ok {T} fast (doc : Doc T) n hint parent rest dI lost :
  forest (doc_content doc) → 0 <= dI →
  drop (Z.to_nat dI) (doc_content doc) = rest →
  (lost = false → dI <= parent + 1) →
  ∃ d, automerge_scan fast doc n hint parent rest dI lost = inr d.
Proof.
  intros Hf. revert dI lost. induction rest as [|o rest IH]; intros dI lost H0 Hd Hl; simpl; [eauto|].
  destruct (fast && _); [eauto|].
  destruct (drop_nthZ _ _ _ _ H0 Hd) as ([_ Ho]%nthZ_Some & _ & Hd').
  destruct (forest_lookup doc _ o (hint - 1) Hf Ho) as (ol & -> & Hol & _).
  assert (∃ d, automerge_scan fast doc n hint parent rest (dI + 1) true = inr d) as Hnext.
  { apply IH; [lia|done|done]. }
  destruct (Z.ltb_spec ol parent); [eauto|].
  destruct (Z.eqb_spec ol parent).
  - repeat (case_match; eauto).
  - destruct lost; [done|]. specialize (Hl eq_refl). lia.
Qed.

Lemma seq_ready_eqb {T} (d : Doc T) n :
  seq_ready d n → negb ((item_id n).2 =? lastSeen (doc_version d) (item_id n).1 + 1) = false.
Proof. unfold seq_ready. intros ->. by rewrite Z.eqb_refl. Qed.

Lemma integrate_progress {T} alg (d : Doc T) n h :
  valid_doc alg d → anchored (doc_content d) n → seq_ready d n →
  (alg = automerge → 0 <= item_seq n) →
  ∃ d', integrate alg d n h = (d', Ok).
Proof.
  intros Hv Ha Hr Hs.
  set (d1 := set_version d (item_id n).1 (item_id n).2).
  assert (∀ rest, rest ⊆ doc_content d → ∀ o, o ∈ rest → anchored (doc_content d1) o) as Hrest.
  { intros rest Hsub o Ho. apply (vd_anchored _ _ Hv). by apply Hsub. }
  destruct alg; simpl.
  - unfold integrateYjs. rewrite seq_ready_eqb by done. fold d1.
    destruct (anchored_left_found d1 _ n false (h - 1) eq_refl Ha) as [l Hl].
    destruct (anchored_right_found d1 _ n h eq_refl Ha) as [r Hrr].
    unfold findItem. rewrite Hl, Hrr.
    edestruct (yjs_scan_ok d1 n h l r) as [dI ->]; [|eauto].
    apply Hrest, subseteq_drop.
  - unfold integrateYjsMod. rewrite seq_ready_eqb by done. fold d1.
    destruct (anchored_left_found d1 _ n false (h - 1) eq_refl Ha) as [l Hl].
    destruct (anchored_right_found d1 _ n h eq_refl Ha) as [r Hrr].
    unfold findItem. rewrite Hl, Hrr.
    edestruct (yjsMod_scan_ok d1 n h l r) as [dI ->]; [|eauto].
    apply Hrest, subseteq_drop.
  - unfold integrateAutomerge, integrateAutomerge_gen.
    destruct (Z.leb_spec 0 (item_seq n)) as [_|?]; [|specialize (Hs eq_refl); lia].
    cbn [negb]. rewrite seq_ready_eqb by done. fold d1.
    destruct (anchored_left_found d1 _ n false (h - 1) eq_refl Ha) as [l Hl].
    unfold findItem. rewrite Hl.
    pose proof (findItem2_range _ _ _ _ _ Hl).
    edestruct (automerge_scan_ok true d1 n h l) as [dI ->]; [| |reflexivity| |eauto].
    + by apply (vd_forest _ _ Hv).
    + lia.
    + lia.
  - unfold integrateSync9. unfold seq_ready in Hr. destruct (item_id n) as [a s] eqn:Hid.
    cbn [fst snd] in *. rewrite Hr, Z.eqb_refl. cbn [negb]. rewrite <- Hr.
    change (set_version d a s) with d1.
    destruct (anchored_left_found d1 _ n (insertAfter n) (h - 1) eq_refl Ha) as [p Hp].
    rewrite Hp.
    assert (∃ d', sync9_walk d1 n h p = (d', Ok)) as Hw.
    { unfold sync9_walk. edestruct (sync9_scan_ok d1 n h p) as [dI ->]; [|eauto].
      apply Hrest, subseteq_drop. }
    destruct (_ && _ && _) eqn:Hc; [|done].
    apply andb_true_iff in Hc as [[Hp0%Z.leb_le _]%andb_true_iff _].
    pose proof (findItem2_range _ _ _ _ _ Hp).
    destruct (nthZ_is_Some (doc_content d1) p) as [P ->]; [lia|].
    destruct (negb _); eauto.
Qed.

(** *** Merging never fails *)

Lemma ready_integrates {T} alg (d src : Doc T) op :
  valid_doc alg d → valid_doc alg src → op ∈ doc_content src →
  canInsertNow op d = true →
  ∃ d', integrate alg d op (-1) = (d', Ok).
Proof.
  intros Hd Hs Hop Hcan. apply integrate_progress; [done| | |].
  - exact (valid_doc_ready_anchored alg d src op Hd Hs Hop Hcan).
  - apply canInsertNow_ready in Hcan as [? _]; [done|apply (ve_nonneg _ (vd_exact _ _ Hd))].
  - intros ->. by apply (vd_seq _ _ Hs).
Qed.

Lemma merge_pass_run {T} alg (src : Doc T) missing :
  valid_doc alg src →
  ∀ dest, valid_doc alg dest →
    (∀ op, Some op ∈ missing → op ∈ doc_content src ∧ item_content op ≠ None) →
    ∃ d m k, merge_pass alg dest missing = (d, m, k, Ok).
Proof.
  intros Hs. induction missing as [|o missing IH]; intros dest Hd HQ; simpl; [eauto|].
  assert (∀ op, Some op ∈ missing → op ∈ doc_content src ∧ item_content op ≠ None) as HQ'
    by (intros; apply HQ; by right).
  destruct o as [op|].
  - destruct (HQ op ltac:(by left)) as [Hop Hc].
    destruct (canInsertNow op dest) eqn:Hcan; simpl.
    + destruct (ready_integrates alg dest src op Hd Hs Hop Hcan) as [d' Hi]. rewrite Hi.
      assert (valid_doc alg d') as Hd'.
      { eapply valid_doc_integrate; [exact Hd|done| |exact Hi].
        exact (valid_doc_ready_anchored alg dest src op Hd Hs Hop Hcan). }
      destruct (IH d' Hd' HQ') as (d & m & k & ->). eauto.
    + destruct (IH dest Hd HQ') as (d & m & k & ->). eauto.
  - destruct (IH dest Hd HQ') as (d & m & k & ->). eauto.
Qed.

(** What a pass does to [missing] and to the version. *)
Lemma merge_pass_track {T} alg (dest : Doc T) missing d m k :
  merge_pass alg dest missing = (d, m, k, Ok) →
  (∀ j o, m !! j = Some (Some o) → missing !! j = Some (Some o))
  ∧ (∀ a s, 0 <= s → isInVersion (Some (a, s)) (doc_version d) = true →
       isInVersion (Some (a, s)) (doc_version dest) = true
       ∨ ∃ j op, missing !! j = Some (Some op) ∧ m !! j = Some None ∧ item_id op = (a, s)).
Proof.
  revert dest d m k. induction missing as [|o missing IH]; intros dest d m k; simpl.
  - intros [= <- <- <-]. split; [done|]. auto.
  - destruct o as [op|].
    + destruct (canInsertNow op dest) eqn:Hcan; simpl.
      * destruct (integrate alg dest op (-1)) as [dest' [|e]] eqn:Ei; [|done].
        destruct (merge_pass alg dest' missing) as [[[d1 m1] n1] r1] eqn:E.
        intros [= <- <- <- ->]. destruct (IH _ _ _ _ E) as [H1 H2].
        destruct (integrate_ok_version _ _ _ _ _ Ei) as [Hr Hv].
        split.
        -- intros [|j] o; simpl; [done|]. apply H1.
        -- intros a s Hs0 Ha. destruct (H2 a s Hs0 Ha) as [Hin|(j & op' & Hj & Hm & Hid)].
           ++ rewrite Hv in Hin.
              destruct (isInVersion_insert_inv _ _ _ _ _ Hr Hs0 Hin) as [Heq|?]; [|by left].
              right. exists 0%nat, op. simpl. split; [done|]. split; [done|].
              destruct (item_id op). by injection Heq as -> ->.
           ++ right. exists (S j), op'. done.
      * destruct (merge_pass alg dest missing) as [[[d1 m1] n1] r1] eqn:E.
        intros [= <- <- <- ->]. destruct (IH _ _ _ _ E) as [H1 H2].
        split.
        -- intros [|j] o; simpl; [done|]. apply H1.
        -- intros a s Hs0 Ha. destruct (H2 a s Hs0 Ha) as [Hin|(j & op' & Hj & Hm & Hid)];
             [by left|]. right. exists (S j), op'. done.
    + destruct (merge_pass alg dest missing) as [[[d1 m1] n1] r1] eqn:E.
      intros [= <- <- <- ->]. destruct (IH _ _ _ _ E) as [H1 H2].
      split.
      * intros [|j] o; simpl; [done|]. apply H1.
      * intros a s Hs0 Ha. destruct (H2 a s Hs0 Ha) as [Hin|(j & op' & Hj & Hm & Hid)];
          [by left|]. right. exists (S j), op'. done.
Qed.

Lemma merge_pass_merges {T} alg (dest : Doc T) missing d m k op :
  Some op ∈ missing → canInsertNow op dest = true →
  merge_pass alg dest missing = (d, m, k, Ok) → 1 <= k.
Proof.
  revert dest d m k. induction missing as [|o missing IH]; intros dest d m k; simpl.
  - by intros ?%elem_of_nil.
  - intros Hin Hcan. destruct o as [op'|].
    + destruct (canInsertNow op' dest) eqn:Hcan'; simpl.
      * destruct (integrate alg dest op' (-1)) as [dest' [|e]] eqn:Ei; [|done].
        destruct (merge_pass alg dest' missing) as [[[d1 m1] n1] r1] eqn:E.
        intros [= <- <- <- ->]. destruct (merge_pass_ok _ _ _ _ _ _ E) as (_ & ? & _). lia.
      * destruct (merge_pass alg dest missing) as [[[d1 m1] n1] r1] eqn:E.
        intros [= <- <- <- ->]. apply elem_of_cons in Hin as [[= <-]|Hin]; [congruence|].
        by eapply IH.
    + destruct (merge_pass alg dest missing) as [[[d1 m1] n1] r1] eqn:E.
      intros [= <- <- <- ->]. apply elem_of_cons in Hin as [?|Hin]; [done|]. by eapply IH.
Qed.

Lemma min_rank_exists {A} (f : A → nat) (l : list A) :
  l ≠ [] → ∃ x, x ∈ l ∧ ∀ y, y ∈ l → (f x <= f y)%nat.
Proof.
  induction l as [|a l IH]; [done|]. intros _. destruct l as [|b l].
  - exists a. split; [by left|]. intros y ->%list_elem_of_singleton. done.
  - destruct IH as (x & Hx & Hmin); [done|].
    destruct (decide (f a <= f x)%nat).
    + exists a. split; [by left|]. intros y [->|Hy]%elem_of_cons; [done|].
      specialize (Hmin y Hy). lia.
    + exists x. split; [by right|]. intros y [->|Hy]%elem_of_cons; [lia|]. by apply Hmin.
Qed.

Lemma count_some_pos {A} (l : list (option A)) : 0 < count_some l → ∃ x, Some x ∈ l.
Proof.
  induction l as [|o l IH]; [unfold count_some, lenZ; simpl; lia|].
  rewrite count_some_cons. destruct o as [x|]; simpl.
  - intros _. exists x. by left.
  - intros H. destruct IH as [x Hx]; [lia|]. exists x. by right.
Qed.

Lemma lastSeen_not_in_version v a s :
  version_nonneg v →
  isInVersion (Some (a, s)) v = false →
  (s = 0 ∨ isInVersion (Some (a, s - 1)) v = true) →
  s = lastSeen v a + 1.
Proof.
  intros Hn Hno Hpred. unfold lastSeen, isInVersion in *. simpl in *.
  destruct (v !! a) as [k|] eqn:Hk; simpl.
  - apply Hn in Hk. apply Z.leb_gt in Hno. destruct Hpred as [->|?%Z.leb_le]; lia.
  - destruct Hpred as [->|?]; [done|done].
Qed.

Lemma merging_ready {T} alg (src dest : Doc T) missing rank :
  valid_doc alg src → causal (doc_content src) rank →
  merging alg src dest missing → 0 < count_some missing →
  ∃ op, Some op ∈ missing ∧ canInsertNow op dest = true.
Proof.
  intros Hs [Hp Hl Hr] [Hd Hfrom Huniq Hall] Hpos.
  destruct (count_some_pos _ Hpos) as [x0 Hx0].
  destruct (min_rank_exists (λ x, rank (item_id x)) (omap id missing)) as (op & Hop & Hmin).
  { intros Hnil. assert (x0 ∈ omap id missing) as Hin; [|by rewrite Hnil in Hin; apply elem_of_nil in Hin].
    apply list_elem_of_omap. by exists (Some x0). }
  apply list_elem_of_omap in Hop as (o & Ho & Hoo). simpl in Hoo. subst o.
  exists op. split; [done|].
  destruct (Hfrom op Ho) as (Hsrc & Hc & Hnv).
  assert (∀ y, y ∈ doc_content src → (rank (item_id y) < rank (item_id op))%nat →
            isInVersion (Some (item_id y)) (doc_version dest) = true) as Hlow.
  { intros y Hy Hlt. destruct (vd_content _ _ Hs y Hy) as (y' & Hy' & Hid & Hcy).
    destruct (Hall y' Hy' Hcy) as [Hm|Hv]; [|by rewrite <- Hid].
    assert (y' ∈ omap id missing) as Hin by (apply list_elem_of_omap; by exists (Some y')).
    specialize (Hmin y' Hin). simpl in Hmin. rewrite Hid in Hmin. lia. }
  assert (∀ id, has_id (doc_content src) id → (rank id < rank (item_id op))%nat →
            isInVersion (Some id) (doc_version dest) = true) as Hlow'.
  { intros id (y & Hy & <- & _) Hlt. by apply Hlow. }
  destruct (vd_anchored _ _ Hs op Hsrc) as [Ha1 Ha2].
  apply canInsertNow_ready; [apply (ve_nonneg _ (vd_exact _ _ Hd))|].
  split; [|split].
  - unfold seq_ready. destruct (item_id op) as [a s] eqn:Hid. cbn [fst snd].
    apply lastSeen_not_in_version; [apply (ve_nonneg _ (vd_exact _ _ Hd))|done|].
    destruct (ve_in _ (vd_exact _ _ Hs) op Hsrc) as [Hs0 _]. rewrite Hid in Hs0. simpl in Hs0.
    destruct (decide (s = 0)) as [->|Hne]; [by left|]. right.
    destruct (version_exact_pred src op (vd_exact _ _ Hs) Hsrc) as (y & Hy & Hidy);
      [rewrite Hid; simpl; lia|].
    rewrite Hid in Hidy. simpl in Hidy. rewrite <- Hidy. apply Hlow; [done|].
    rewrite Hidy, <- Hid. specialize (Hp op Hsrc). rewrite Hid in Hp. simpl in Hp.
    rewrite Hid. apply Hp. lia.
  - destruct (originLeft op) as [id|] eqn:Hol; [|done]. apply Hlow'; [by apply Ha1|by eapply Hl].
  - destruct (originRight op) as [id|] eqn:Hor; [|done]. apply Hlow'; [by apply Ha2|by eapply Hr].
Qed.



Lemma merging_pass {T} alg (src dest : Doc T) missing d m k :
  valid_doc alg src → merging alg src dest missing →
  merge_pass alg dest missing = (d, m, k, Ok) →
  merging alg src d m.
Proof.
  intros Hs [Hd Hfrom Huniq Hall] E.
  destruct (merge_pass_track _ _ _ _ _ _ E) as [Hkeep Hver].
  destruct (merge_pass_ok _ _ _ _ _ _ E) as (Hle & _ & _ & Hstay).
  split.
  - eapply (merge_pass_preserves alg (valid_doc alg)
              (λ op, op ∈ doc_content src ∧ item_content op ≠ None)); [| |exact Hd|exact E].
    + intros d0 n d0' Hd0 [Hn Hc] Hcan Hi. eapply valid_doc_integrate; [exact Hd0|done| |exact Hi].
      exact (valid_doc_ready_anchored alg d0 src n Hd0 Hs Hn Hcan).
    + intros op Hop. destruct (Hfrom op Hop) as (? & ? & _). done.
  - intros op [j Hj]%list_elem_of_lookup. pose proof (Hkeep _ _ Hj) as Hj0.
    destruct (Hfrom op (list_elem_of_lookup_2 _ _ _ Hj0)) as (Hsrc & Hc & Hnv).
    split; [done|]. split; [done|].
    destruct (isInVersion (Some (item_id op)) (doc_version d)) eqn:Hin; [|done].
    destruct (ve_in _ (vd_exact _ _ Hs) op Hsrc) as [Hs0 _].
    destruct (item_id op) as [a s] eqn:Hid.
    destruct (Hver a s Hs0 Hin) as [Hold|(j' & op' & Hj' & Hm' & Hid')].
    { rewrite <- Hnv. symmetry. exact Hold. }
    assert (j = j') as <-. { eapply Huniq; [done..|]. by rewrite Hid. }
    congruence.
  - intros i j x y Hx Hy. apply Huniq; by apply Hkeep.
  - intros x Hx Hc. destruct (Hall x Hx Hc) as [Hm|Hv].
    + destruct (Hstay x Hm); [by left|by right].
    + right. by apply Hle.
Qed.

Lemma merge_loop_succeeds {T} alg (src : Doc T) rank :
  valid_doc alg src → causal (doc_content src) rank →
  ∀ fuel dest missing remaining,
    merging alg src dest missing →
    remaining = count_some missing → remaining <= Z.of_nat fuel →
    ∃ d, merge_loop fuel alg dest missing remaining = Some (d, Ok).
Proof.
  intros Hs Hk fuel. induction fuel as [|fuel IH]; intros dest missing remaining Hm Hr Hf; simpl.
  - destruct (Z.leb_spec remaining 0); [eauto|lia].
  - destruct (Z.leb_spec remaining 0); [eauto|].
    destruct (merge_pass_run alg src missing Hs dest (mg_dest _ _ _ _ Hm)) as (d & m & k & E).
    { intros op Hop. destruct (mg_from _ _ _ _ Hm op Hop) as (? & ? & _). done. }
    rewrite E.
    destruct (merging_ready alg src dest missing rank Hs Hk Hm) as (op & Hop & Hcan); [lia|].
    pose proof (merge_pass_merges _ _ _ _ _ _ _ Hop Hcan E) as Hk1.
    destruct (merge_pass_ok _ _ _ _ _ _ E) as (_ & _ & Hcount & _).
    destruct (Z.eqb_spec k 0); [lia|].
    apply IH; [by eapply merging_pass|lia|lia].
Qed.

Lemma filter_sublist_impl {A} (P Q : A → Prop) `{∀ x, Decision (P x)} `{∀ x, Decision (Q x)}
    (l : list A) :
  (∀ x, P x → Q x) → filter P l `sublist_of` filter Q l.
Proof.
  intros HPQ. induction l as [|x l IH]; [done|]. rewrite !filter_cons.
  destruct (decide (P x)) as [HP|HP].
  - rewrite decide_True by auto. by constructor.
  - destruct (decide (Q x)); [by constructor|done].
Qed.

Lemma merging_start {T} alg (src dest : Doc T) :
  valid_doc alg src → valid_doc alg dest →
  merging alg src dest (Some <$> missing_of dest src).
Proof.
  intros Hs Hd. split.
  - done.
  - intros op (x & [= <-] & Hx%missing_of_elem)%list_elem_of_fmap. done.
  - assert (NoDup (item_id <$> missing_of dest src)) as Hnd.
    { eapply sublist_NoDup; [apply (vd_unique _ _ Hs)|]. apply fmap_sublist.
      apply filter_sublist_impl. intros x [? _]%andb_true_iff. done. }
    intros i j x y. rewrite !list_lookup_fmap.
    destruct (missing_of dest src !! i) as [x'|] eqn:Hi; [|done].
    destruct (missing_of dest src !! j) as [y'|] eqn:Hj; [|done].
    intros [= <-] [= <-] Hid. eapply NoDup_lookup; [exact Hnd|..].
    + by rewrite list_lookup_fmap, Hi.
    + by rewrite list_lookup_fmap, Hj, Hid.
  - intros x Hx Hc.
    destruct (isInVersion (Some (item_id x)) (doc_version dest)) eqn:Hv; [by right|].
    left. apply list_elem_of_fmap. exists x. split; [done|]. by apply missing_of_elem.
Qed.

Lemma valid_mergeInto_succeeds {T} alg (dest src : Doc T) :
  valid_doc alg dest → valid_doc alg src →
  ∃ d, mergeInto alg dest src = Some (d, Ok).
Proof.
  intros Hd Hs. destruct (vd_causal _ _ Hs) as [rank Hk]. unfold mergeInto.
  eapply merge_loop_succeeds; [exact Hs|exact Hk|by apply merging_start| |].
  - by rewrite count_some_fmap.
  - unfold lenZ. lia.
Qed.

(** X11: in a document of a valid history an item for which
    [canInsertNow] holds, and whose agent name is not a property name of
    [Object.prototype], is integrated without an error, under each
    algorithm and with any hint, when its anchors name sequence numbers
    that are [0] or more (and, for Automerge, its [seq] is [0] or more). *)
Theorem integrate_ready_succeeds {T} alg (doc : Doc T) n hint :
  Valid alg doc → plain_agent (item_id n).1 →
  canInsertNow n doc = true → anchors_nonneg n →
  (alg = automerge → 0 <= item_seq n) →
  ∃ doc', integrate alg doc n hint = (doc', Ok).
Proof.
  intros Hd%Valid_valid_doc _ Hcan [Hl Hr] Hs.
  apply canInsertNow_ready in Hcan as (Hready & Hvl & Hvr); [|apply (ve_nonneg _ (vd_exact _ _ Hd))].
  apply integrate_progress; [done| |done|done].
  assert (∀ id, isInVersion (Some id) (doc_version doc) = true → 0 <= id.2 →
            has_id (doc_content doc) id) as Hin.
  { intros [a s] Hv H0. destruct (ve_all _ (vd_exact _ _ Hd) a s H0 Hv) as (y & Hy & <-).
    by apply (vd_content _ _ Hd). }
  split; intros id Hid; (apply Hin; [|auto]).
  - rewrite Hid in Hvl. exact Hvl.
  - rewrite Hid in Hvr. exact Hvr.
Qed.

Lemma integrate_ready_succeeds_witness :
  ∃ doc', integrate yjsMod one_item_doc root_item_b (-1) = (doc', Ok).
Proof.
  apply (integrate_ready_succeeds yjsMod one_item_doc root_item_b (-1)).
  - apply (valid_integrate _ newDoc (mkItem (Some "x"%string) ("A"%string, 0) None None 0 true false)
             (-1)); [apply valid_newDoc|done|by split|reflexivity].
  - unfold plain_agent, inherited_names. cbn [item_id root_item_b makeItem fst].
    rewrite !elem_of_cons, elem_of_nil. intros H. repeat destruct H as [H|H]; done.
  - reflexivity.
  - by split.
  - discriminate.
Defined.


(** X12: [mergeInto(dest, src)] between two documents of valid histories
    never fails, under each algorithm: every pass integrates at least one
    item, no [integrate] call throws, and afterwards every item of [src]
    with content is in the version of [dest], which is again a document
    of a valid history. *)
Theorem mergeInto_succeeds {T} alg (dest src : Doc T) :
  Valid alg dest → Valid alg src →
  ∃ dest', mergeInto alg dest src = Some (dest', Ok)
    ∧ Valid alg dest'
    ∧ ∀ x, x ∈ doc_content src → item_content x ≠ None →
        isInVersion (Some (item_id x)) (doc_version dest') = true.
Proof.
  intros Hd Hs.
  destruct (valid_mergeInto_succeeds alg dest src) as [d Hm]; [by apply Valid_valid_doc..|].
  exists d. split; [done|]. split; [exact (valid_mergeInto alg dest src d Hd Hs Hm)|].
  intros x Hx Hc. by eapply mergeInto_covers.
Qed.

Lemma mergeInto_succeeds_witness :
  ∃ dest', mergeInto yjsMod newDoc one_item_doc = Some (dest', Ok)
    ∧ Valid yjsMod dest'
    ∧ ∀ x, x ∈ doc_content one_item_doc → item_content x ≠ None →
        isInVersion (Some (item_id x)) (doc_version dest') = true.
Proof.
  apply (mergeInto_succeeds yjsMod newDoc one_item_doc); [apply valid_newDoc|].
  apply (valid_integrate _ newDoc (mkItem (Some "x"%string) ("A"%string, 0) None None 0 true false)
           (-1)); [apply valid_newDoc|done|by split|reflexivity].
Defined.




(** X13: in a document of a valid history every item's id is carried by
    an item with content, both anchors of every item are ids of items with
    content, no two items with content share an id, and under Automerge
    ids are unique and the item named by [originLeft] stands before the
    item that names it. *)
Theorem valid_anchors {T} alg (doc : Doc T) :
  Valid alg doc →
  (∀ x, x ∈ doc_content doc →
     has_id (doc_content doc) (item_id x) ∧ anchored (doc_content doc) x)
  ∧ NoDup (item_id <$> content_items (doc_content doc))
  ∧ (alg = automerge → forest (doc_content doc)).
Proof.
  intros Hd%Valid_valid_doc. split; [|split].
  - intros x Hx. split; [by apply (vd_content _ _ Hd)|by apply (vd_anchored _ _ Hd)].
  - apply (vd_unique _ _ Hd).
  - apply (vd_forest _ _ Hd).
Qed.

Lemma valid_anchors_witness :
  (∀ x, x ∈ doc_content sync9_split_doc →
     has_id (doc_content sync9_split_doc) (item_id x) ∧ anchored (doc_content sync9_split_doc) x)
  ∧ NoDup (item_id <$> content_items (doc_content sync9_split_doc))
  ∧ (sync9 = automerge → forest (doc_content sync9_split_doc)).
Proof.
  apply (valid_anchors sync9 sync9_split_doc).
  apply (valid_integrate _ sync9_one_doc sync9_before_item (-1)); [|done| |reflexivity].
  - apply (valid_integrate _ newDoc (mkItem (Some "x"%string) ("A"%string, 0) None None 0 true false)
             (-1)); [apply valid_newDoc|done|by split|reflexivity].
  - split; [|done]. intros id [= <-].
    exists (mkItem (Some "x"%string) ("A"%string, 0) None None 0 true false).
    split; [by left|done].
Defined.


(** *** Merging keeps what is there *)

Lemma sublist_contents {T} (c c' : list (Item T)) :
  c `sublist_of` c' → contents c `sublist_of` contents c'.
Proof.
  induction 1 as [|x c c' _ IH|x c c' _ IH]; [done|..]; rewrite !contents_cons.
  - by apply sublist_app.
  - by apply sublist_inserts_l.
Qed.

Lemma mergeInto_from {T} alg (dest src dest' : Doc T) :
  mergeInto alg dest src = Some (dest', Ok) →
  doc_content dest `sublist_of` doc_content dest'
  ∧ ∀ x, x ∈ doc_content dest' → item_content x ≠ None →
      x ∈ doc_content dest ∨ x ∈ doc_content src.
Proof.
  unfold mergeInto.
  apply (merge_loop_preserves alg
           (λ d, doc_content dest `sublist_of` doc_content d
                 ∧ ∀ x, x ∈ doc_content d → item_content x ≠ None →
                     x ∈ doc_content dest ∨ x ∈ doc_content src)
           (λ op, op ∈ doc_content src)).
  - intros d n d' [Hs Hf] Hn _ [Hstep _]%integrate_ok_shape. split.
    + etransitivity; [done|]. by eapply content_step_sublist.
    + intros x Hx Hc. destruct (content_step_elem3 _ _ _ _ _ Hstep Hx) as [->|[?|(P & _ & ->)]];
        [by right|by apply Hf|done].
  - intros op (x & [= <-] & Hx%missing_of_elem)%list_elem_of_fmap. by destruct Hx.
  - split; [done|]. intros; by left.
Qed.

(** X15: a successful [mergeInto(dest, src)] keeps the items of [dest]
    in their order, keeps [getArray(dest)] as a subsequence of the new
    array, never lowers a version entry, and every item with content that
    it adds is an item of [src]. *)
Theorem mergeInto_keeps_items {T} alg (dest src dest' : Doc T) :
  mergeInto alg dest src = Some (dest', Ok) →
  doc_content dest `sublist_of` doc_content dest'
  ∧ getArray dest `sublist_of` getArray dest'
  ∧ ver_le (doc_version dest) (doc_version dest')
  ∧ ∀ x, x ∈ doc_content dest' → item_content x ≠ None →
      x ∈ doc_content dest ∨ x ∈ doc_content src.
Proof.
  intros Hm. destruct (mergeInto_from alg dest src dest' Hm) as [Hsub Hfrom].
  split; [done|]. split; [by apply sublist_contents|]. split; [|done].
  unfold mergeInto in Hm. by eapply merge_loop_ver_le.
Qed.

Lemma mergeInto_keeps_items_witness :
  doc_content (@newDoc string) `sublist_of` doc_content one_item_doc
  ∧ getArray (@newDoc string) `sublist_of` getArray one_item_doc
  ∧ ver_le (doc_version (@newDoc string)) (doc_version one_item_doc)
  ∧ ∀ x, x ∈ doc_content one_item_doc → item_content x ≠ None →
      x ∈ doc_content (@newDoc string) ∨ x ∈ doc_content one_item_doc.
Proof.
  apply (mergeInto_keeps_items yjsMod newDoc one_item_doc one_item_doc). reflexivity.
Defined.



(** *** The version after a merge *)

Lemma valid_doc_version_item {T} alg (d : Doc T) a n :
  valid_doc alg d → doc_version d !! a = Some n →
  ∃ y, y ∈ doc_content d ∧ item_id y = (a, n) ∧ item_content y ≠ None.
Proof.
  intros Hd Hn. pose proof (ve_nonneg _ (vd_exact _ _ Hd) _ _ Hn) as H0.
  destruct (ve_all _ (vd_exact _ _ Hd) a n H0) as (x & Hx & Hid).
  { apply isInVersion_Some. exists n. split; [done|lia]. }
  destruct (vd_content _ _ Hd x Hx) as (y & Hy & Hidy & Hc).
  exists y. split; [done|]. split; [congruence|done].
Qed.

(** X23: [mergeInto(dest, src)] between two documents of valid histories
    leaves in [dest.version], for every agent, the larger of the two
    entries: the version object of [dest] becomes the pointwise maximum
    of both. *)
Theorem mergeInto_version {T} alg (dest src dest' : Doc T) :
  Valid alg dest → Valid alg src →
  mergeInto alg dest src = Some (dest', Ok) →
  doc_version dest'
  = union_with (λ m n, Some (Z.max m n)) (doc_version dest) (doc_version src).
Proof.
  intros Hd%Valid_valid_doc Hs%Valid_valid_doc Hm.
  pose proof (valid_doc_mergeInto _ _ _ _ Hd Hs Hm) as Hd'.
  destruct (mergeInto_from alg dest src dest' Hm) as [_ Hfrom].
  assert (ver_le (doc_version dest) (doc_version dest')) as Hle
    by (unfold mergeInto in Hm; by eapply merge_loop_ver_le).
  apply map_eq. intros a. rewrite lookup_union_with.
  assert (∀ n, doc_version dest !! a = Some n →
            ∃ m, doc_version dest' !! a = Some m ∧ n <= m) as H1.
  { intros n Hn. apply isInVersion_Some, Hle, isInVersion_Some. exists n. split; [done|lia]. }
  assert (∀ n, doc_version src !! a = Some n →
            ∃ m, doc_version dest' !! a = Some m ∧ n <= m) as H2.
  { intros n Hn. destruct (valid_doc_version_item _ _ _ _ Hs Hn) as (y & Hy & Hid & Hc).
    apply isInVersion_Some. rewrite <- Hid. by eapply mergeInto_covers. }
  assert (∀ m, doc_version dest' !! a = Some m →
            (∃ n, doc_version dest !! a = Some n ∧ m <= n)
            ∨ (∃ n, doc_version src !! a = Some n ∧ m <= n)) as H3.
  { intros m Hn. destruct (valid_doc_version_item _ _ _ _ Hd' Hn) as (y & Hy & Hid & Hc).
    destruct (Hfrom y Hy Hc) as [Hin|Hin]; [left|right].
    - apply (ve_in _ (vd_exact _ _ Hd)) in Hin as [_ Hin]. rewrite Hid in Hin.
      by apply isInVersion_Some in Hin.
    - apply (ve_in _ (vd_exact _ _ Hs)) in Hin as [_ Hin]. rewrite Hid in Hin.
      by apply isInVersion_Some in Hin. }
  destruct (doc_version dest !! a) as [n1|], (doc_version src !! a) as [n2|],
    (doc_version dest' !! a) as [m|]; simpl;
    repeat match goal with
    | H : ∀ n, Some ?x = Some n → _ |- _ => specialize (H _ eq_refl)
    | H : ∀ n, None = Some n → _ |- _ => clear H
    | H : ∃ _, _ |- _ => destruct H as (? & ? & ?)
    | H : _ ∨ _ |- _ => destruct H
    end; simplify_eq; try done; f_equal; lia.
Qed.

Lemma mergeInto_version_witness :
  ∃ dest', mergeInto yjsMod newDoc one_item_doc = Some (dest', Ok)
    ∧ doc_version dest'
      = union_with (λ m n, Some (Z.max m n)) (doc_version (@newDoc string)) (doc_version one_item_doc).
Proof.
  exists one_item_doc. split; [reflexivity|].
  apply (mergeInto_version yjsMod newDoc one_item_doc one_item_doc); [apply valid_newDoc| |reflexivity].
  apply (valid_integrate _ newDoc (mkItem (Some "x"%string) ("A"%string, 0) None None 0 true false)
           (-1)); [apply valid_newDoc|done|by split|reflexivity].
Defined.

(** *** What a merge adds *)

Lemma content_items_NoDup_elem {T} (c : list (Item T)) x y :
  NoDup (item_id <$> content_items c) → x ∈ c → y ∈ c →
  item_content x ≠ None → item_content y ≠ None → item_id x = item_id y → x = y.
Proof.
  intros Hnd Hx Hy Hcx Hcy Hid.
  apply (NoDup_ids_elem (content_items c)); [done|by apply content_items_elem..|done].
Qed.

(** X26: [mergeInto(dest, src)] between two documents of valid histories
    adds to [dest] exactly the items that its filter selects from [src]
    (the items with content that are not in [dest.version]), each once:
    the items with content of the new [dest] are those of the old [dest]
    and the selected items, up to order. *)
Theorem mergeInto_adds_missing {T} alg (dest src dest' : Doc T) :
  Valid alg dest → Valid alg src →
  mergeInto alg dest src = Some (dest', Ok) →
  content_items (doc_content dest')
  ≡ₚ content_items (doc_content dest) ++ missing_of dest src.
Proof.
  intros Hd%Valid_valid_doc Hs%Valid_valid_doc Hm.
  pose proof (valid_doc_mergeInto _ _ _ _ Hd Hs Hm) as Hd'.
  destruct (mergeInto_from alg dest src dest' Hm) as [Hsub%sublist_subseteq Hfrom].
  assert (∀ x, x ∈ missing_of dest src → x ∈ doc_content dest') as Hin.
  { intros x Hx. pose proof Hx as (Hxs & Hcx & Hnv)%missing_of_elem.
    pose proof (mergeInto_covers _ _ _ _ _ Hm Hxs Hcx) as Hv.
    destruct (ve_in _ (vd_exact _ _ Hs) x Hxs) as [H0 _].
    destruct (item_id x) as [k s] eqn:Hid. simpl in H0.
    destruct (ve_all _ (vd_exact _ _ Hd') k s H0 Hv) as (z & Hz & Hidz).
    destruct (vd_content _ _ Hd' z Hz) as (y & Hy & Hidy & Hcy).
    destruct (Hfrom y Hy Hcy) as [Hyd|Hys].
    - apply (ve_in _ (vd_exact _ _ Hd)) in Hyd as [_ Hyd]. congruence.
    - assert (x = y) as ->; [|done].
      apply (content_items_NoDup_elem (doc_content src));
        [apply (vd_unique _ _ Hs)|done..|congruence]. }
  apply NoDup_Permutation.
  - eapply NoDup_fmap_1, (vd_unique _ _ Hd').
  - apply NoDup_app. split; [eapply NoDup_fmap_1, (vd_unique _ _ Hd)|]. split.
    + intros x [Hx _]%content_items_elem (_ & _ & Hnv)%missing_of_elem.
      apply (ve_in _ (vd_exact _ _ Hd)) in Hx as [_ Hx]. congruence.
    + eapply sublist_NoDup; [eapply NoDup_fmap_1, (vd_unique _ _ Hs)|].
      unfold missing_of, content_items.
      rewrite <- (list_filter_filter_l _ (λ x, negb (is_null (item_content x)) = true)).
      * apply sublist_filter.
      * intros x [? _]%andb_true_iff. done.
  - intros x. rewrite elem_of_app, !content_items_elem. split.
    + intros [Hx Hcx]. destruct (Hfrom x Hx Hcx) as [?|Hxs]; [by left|].
      destruct (isInVersion (Some (item_id x)) (doc_version dest)) eqn:Hv.
      * left. split; [|done].
        destruct (ve_in _ (vd_exact _ _ Hs) x Hxs) as [H0 _].
        destruct (item_id x) as [k s] eqn:Hid. simpl in H0.
        destruct (ve_all _ (vd_exact _ _ Hd) k s H0 Hv) as (z & Hz & Hidz).
        destruct (vd_content _ _ Hd z Hz) as (y & Hy & Hidy & Hcy).
        assert (x = y) as ->; [|done].
        apply (content_items_NoDup_elem (doc_content dest'));
          [apply (vd_unique _ _ Hd')|done|by apply Hsub|done|done|congruence].
      * right. by apply missing_of_elem.
    + intros [[Hx Hcx]|Hx]; [split; [by apply Hsub|done]|].
      split; [by apply Hin|]. by apply missing_of_elem in Hx as (_ & ? & _).
Qed.

Lemma mergeInto_adds_missing_witness :
  content_items (doc_content one_item_doc)
  ≡ₚ content_items (doc_content (@newDoc string)) ++ missing_of newDoc one_item_doc.
Proof.
  apply (mergeInto_adds_missing yjsMod newDoc one_item_doc one_item_doc);
    [apply valid_newDoc| |reflexivity].
  apply (valid_integrate _ newDoc (mkItem (Some "x"%string) ("A"%string, 0) None None 0 true false)
           (-1)); [apply valid_newDoc|done|by split|reflexivity].
Defined.

(** ** The variants of integrateYjsMod and the first version *)


Lemma yjsMod2_scan_eq {T} (doc : Doc T) n hint l r rest i d s :
  yjsMod2_scan doc n hint l r rest i d s = yjsMod_scan doc n hint l r rest i d s.
Proof.
  revert i d s. induction rest as [|o rest IH]; intros i d s; simpl; [done|].
  repeat (case_match; try done); apply IH.
Qed.

Lemma yjsMod3_scan_eq {T} (doc : Doc T) n hint l r rest i d s :
  yjsMod3_scan doc n hint l r rest i d s = yjsMod_scan doc n hint l r rest i d s.
Proof.
  revert i d s. induction rest as [|o rest IH]; intros i d s; simpl; [done|].
  destruct (i =? r); [done|]. destruct (findItem _ _ _) as [|ol]; [done|].
  destruct (findRight _ _ _) as [|or]; [done|].
  rewrite Z.eqb_refl, orb_true_r. cbn [negb].
  repeat (case_match; try done); apply IH.
Qed.

(** X16: the two unused variants [integrateYjsMod2] and
    [integrateYjsMod3] return the same document and the same outcome as
    [integrateYjsMod] on every document, item and hint; the assertion in
    the loop of [integrateYjsMod3] compares [oleft] with itself and never
    fails. *)
Theorem integrateYjsMod_variants {T} (doc : Doc T) n hint :
  integrateYjsMod2 doc n hint = integrateYjsMod doc n hint
  ∧ integrateYjsMod3 doc n hint = integrateYjsMod doc n hint.
Proof.
  unfold integrateYjsMod2, integrateYjsMod3, integrateYjsMod. split.
  - destruct (negb _); [done|]. destruct (findItem _ _ _); [done|].
    destruct (findRight _ _ _); [done|]. by rewrite yjsMod2_scan_eq.
  - destruct (negb _); [done|]. destruct (findItem _ _ _); [done|].
    destruct (findRight _ _ _); [done|]. by rewrite yjsMod3_scan_eq.
Qed.



(** *** The first version against integrateYjsMod *)

Lemma findIndex_from_fmap {A B} (f : A → B) (p : B → bool) (q : A → bool) l i :
  (∀ x, p (f x) = q x) → findIndex_from p (f <$> l) i = findIndex_from q l i.
Proof.
  intros Hpq. revert i. induction l as [|x l IH]; intros i; simpl; [done|].
  rewrite Hpq. destruct (q x); [done|]. apply IH.
Qed.

Lemma part000_findItem {T} (d : Part000.Doc T) len needle :
  findItem (lift_doc d len) needle (-1) =
  match Part000.findItem d needle with
  | inl _ => inl ItemNotFound
  | inr i => inr i
  end.
Proof.
  destruct needle as [[a s]|]; [|done]. unfold findItem. rewrite findItem2_nohint.
  unfold Part000.findItem, findIndex. cbn [lift_doc doc_content].
  rewrite (findIndex_from_fmap lift_item _ (λ it, idEq (Some (Part000.item_id it)) (Some (a, s)))).
  - by destruct (_ <? 0).
  - intros x. unfold needle_match, idEq2, idEq. simpl.
    by destruct (String.eqb _ _), (_ =? _).
Qed.

Lemma part000_findRight {T} (d : Part000.Doc T) len o :
  findRight (lift_doc d len) o (-1) =
  match Part000.findRight d o with
  | inl _ => inl ItemNotFound
  | inr i => inr i
  end.
Proof.
  destruct o as [id|].
  - apply part000_findItem.
  - simpl. unfold lenZ. by rewrite length_fmap.
Qed.

Lemma part000_findItem_inl {T} (d : Part000.Doc T) needle e :
  Part000.findItem d needle = inl e → e = Part000.ItemNotFound.
Proof.
  destruct needle; [|done]. unfold Part000.findItem. destruct (_ <? 0); [|done]. by intros [= <-].
Qed.

Lemma part000_findRight_inl {T} (d : Part000.Doc T) o e :
  Part000.findRight d o = inl e → e = Part000.ItemNotFound.
Proof. destruct o; [apply part000_findItem_inl|done]. Qed.

Lemma part000_scan {T} (d : Part000.Doc T) len n l r rest i dI cs :
  cs = -1 ∨ 0 <= cs → 0 <= i →
  match Part000.scan d n l r rest i dI cs with
  | inr x => yjsMod_scan (lift_doc d len) (lift_item n) (-1) l r (lift_item <$> rest) i dI (0 <=? cs)
             = inr x
  | inl Part000.UnexpectedConflict =>
      ∃ x, yjsMod_scan (lift_doc d len) (lift_item n) (-1) l r (lift_item <$> rest) i dI (0 <=? cs)
           = inr x
  | inl Part000.ItemNotFound =>
      yjsMod_scan (lift_doc d len) (lift_item n) (-1) l r (lift_item <$> rest) i dI (0 <=? cs)
      = inl ItemNotFound
  | inl _ => False
  end.
Proof.
  revert i dI cs. induction rest as [|o rest IH]; intros i dI cs Hcs Hi.
  - simpl. destruct Hcs as [->|Hcs]; [done|].
    destruct (Z.eqb_spec cs (-1)); [lia|]. by destruct (Z.leb_spec 0 cs); [|lia].
  - cbn [Part000.scan yjsMod_scan fmap list_fmap].
    assert ((if 0 <=? cs then dI else i) = (if cs =? -1 then i else dI)) as ->.
    { destruct Hcs as [->|Hcs]; [done|].
      destruct (Z.eqb_spec cs (-1)); [lia|]. by destruct (Z.leb_spec 0 cs); [|lia]. }
    destruct (i =? r); [done|].
    change (-1 - 1) with (-2).
    assert (∀ needle, findItem (lift_doc d len) needle (-2) = findItem (lift_doc d len) needle (-1))
      as Hh by (by intros [[??]|]).
    rewrite Hh. change (originLeft (lift_item o)) with (Part000.originLeft o).
    rewrite part000_findItem.
    destruct (Part000.findItem d (Part000.originLeft o)) as [e|ol] eqn:El.
    { by apply part000_findItem_inl in El as ->. }
    change (originRight (lift_item o)) with (Part000.originRight o).
    rewrite part000_findRight.
    destruct (Part000.findRight d (Part000.originRight o)) as [e|or] eqn:Er.
    { by apply part000_findRight_inl in Er as ->. }
    change (item_id (lift_item n)) with (Part000.item_id n).
    change (item_id (lift_item o)) with (Part000.item_id o).
    destruct (ol <? l).
    { destruct (0 <=? cs); [eauto|done]. }
    destruct (ol =? l).
    + destruct (or <? r).
      { specialize (IH (i + 1) (if cs =? -1 then i else dI) i ltac:(lia) ltac:(lia)).
        by destruct (Z.leb_spec 0 i); [|lia]. }
      destruct (or =? r).
      * destruct (String.ltb _ _); [done|].
        apply (IH (i + 1) (if cs =? -1 then i else dI) (-1)); [by left|lia].
      * apply (IH (i + 1) (if cs =? -1 then i else dI) (-1)); [by left|lia].
    + apply (IH (i + 1) (if cs =? -1 then i else dI) cs); [done|lia].
Qed.

Lemma part000_integrate {T} (d : Part000.Doc T) n len :
  match Part000.integrate d n with
  | (d', Part000.Ok) =>
      integrateYjsMod (lift_doc d len) (lift_item n) (-1)
      = (lift_doc d' (len + if Part000.isDeleted n then 0 else 1), Ok)
  | (d', Part000.Throw Part000.OutOfOrder) =>
      d' = d ∧ integrateYjsMod (lift_doc d len) (lift_item n) (-1)
               = (lift_doc d len, Throw OutOfOrder)
  | (d', Part000.Throw Part000.ItemNotFound) =>
      integrateYjsMod (lift_doc d len) (lift_item n) (-1) = (lift_doc d' len, Throw ItemNotFound)
  | (d', Part000.Throw Part000.UnexpectedConflict) =>
      ∃ D', integrateYjsMod (lift_doc d len) (lift_item n) (-1) = (D', Ok)
  | (d', Part000.Throw Part000.AssertionError) => False
  end.
Proof.
  unfold Part000.integrate, integrateYjsMod.
  change (item_id (lift_item n)) with (Part000.item_id n).
  change (doc_version (lift_doc d len)) with (Part000.doc_version d).
  destruct (negb _); [done|].
  set (d1 := Part000.set_version d (Part000.item_id n).1 (Part000.item_id n).2).
  change (set_version (lift_doc d len) (Part000.item_id n).1 (Part000.item_id n).2)
    with (lift_doc d1 len).
  change (-1 - 1) with (-2).
  assert (∀ needle, findItem (lift_doc d1 len) needle (-2) = findItem (lift_doc d1 len) needle (-1))
    as Hh by (by intros [[??]|]).
  rewrite Hh. change (originLeft (lift_item n)) with (Part000.originLeft n).
  rewrite part000_findItem.
  destruct (Part000.findItem d1 (Part000.originLeft n)) as [e|l] eqn:El.
  { by apply part000_findItem_inl in El as ->. }
  change (originRight (lift_item n)) with (Part000.originRight n).
  rewrite part000_findRight.
  destruct (Part000.findRight d1 (Part000.originRight n)) as [e|r] eqn:Er.
  { by apply part000_findRight_inl in Er as ->. }
  assert (-1 <= l) as Hl.
  { destruct (Part000.originLeft n); [|by injection El as <-].
    unfold Part000.findItem in El.
    destruct (_ <? 0) eqn:E; [done|]. apply Z.ltb_ge in E. injection El as <-.
    eapply Z.le_trans; [|exact E]. lia. }
  pose proof (part000_scan d1 len n l r (drop (Z.to_nat (l + 1)) (Part000.doc_content d1))
                (l + 1) (l + 1) (-1) ltac:(by left) ltac:(lia)) as Hs.
  change (0 <=? -1) with false in Hs.
  cbn [lift_doc doc_content]. rewrite <- fmap_drop.
  destruct (Part000.scan _ _ _ _ _ _ _ _) as [[]|x].
  - done.
  - by rewrite Hs.
  - destruct Hs as [x ->]. eauto.
  - done.
  - rewrite Hs. rewrite commit_shape. unfold lift_doc. cbn. by rewrite splice_fmap.
Qed.



(** X17: [integrate] of the first version agrees with [integrateYjsMod]
    without a hint: when it succeeds, [integrateYjsMod] yields the same
    content and version; it fails with "Operations out of order" or
    "Could not find item" exactly like [integrateYjsMod]; and where it
    throws "Unexpected conflict" [integrateYjsMod] inserts the item.  That
    error is reachable by the operations of the file itself: after A
    inserts "a", C inserts "c" and merges A, C inserts "x" at 1 and A
    inserts "y" at 1, merging A into C throws it, while [mergeInto] of
    src/crdts.ts on the same documents gives a, y, x, c. *)
Theorem part000_integrate_refines :
  (∀ T (d : Part000.Doc T) n len,
     match Part000.integrate d n with
     | (d', Part000.Ok) =>
         integrateYjsMod (lift_doc d len) (lift_item n) (-1)
         = (lift_doc d' (len + if Part000.isDeleted n then 0 else 1), Ok)
     | (d', Part000.Throw Part000.OutOfOrder) =>
         d' = d ∧ integrateYjsMod (lift_doc d len) (lift_item n) (-1)
                  = (lift_doc d len, Throw OutOfOrder)
     | (d', Part000.Throw Part000.ItemNotFound) =>
         integrateYjsMod (lift_doc d len) (lift_item n) (-1)
         = (lift_doc d' len, Throw ItemNotFound)
     | (d', Part000.Throw Part000.UnexpectedConflict) =>
         ∃ D', integrateYjsMod (lift_doc d len) (lift_item n) (-1) = (D', Ok)
     | (d', Part000.Throw Part000.AssertionError) => False
     end)
  ∧ Part000.getArray part000_c3 = ["a"; "x"; "c"]%string
  ∧ Part000.getArray part000_a2 = ["a"; "y"]%string
  ∧ Part000.mergeInto part000_c3 part000_a2
    = Some (Part000.set_version part000_c3 "A" 1, Part000.Throw Part000.UnexpectedConflict)
  ∧ ∃ D, mergeInto yjsMod (lift_doc part000_c3 3) (lift_doc part000_a2 2) = Some (D, Ok)
         ∧ getArray D = ["a"; "y"; "x"; "c"]%string.
Proof.
  split; [intros T d n len; apply part000_integrate|].
  split; [reflexivity|]. split; [reflexivity|]. split; [reflexivity|].
  eexists. split; reflexivity.
Qed.

(** *** Sequential inserts in the first version *)

Lemma part000_wf_lift {T} (d : Part000.Doc T) len :
  part000_wf d → NoDup (item_id <$> doc_content (lift_doc d len)).
Proof.
  intros [Hnd _]. cbn [lift_doc doc_content]. rewrite <- list_fmap_compose. exact Hnd.
Qed.

Lemma part000_findItem_idAt {T} (d d1 : Part000.Doc T) j :
  part000_wf d → Part000.doc_content d1 = Part000.doc_content d →
  -1 <= j < lenZ (Part000.doc_content d) →
  Part000.findItem d1 (Part000.idAt d j) = inr j.
Proof.
  intros Hwf Hc Hj. unfold Part000.idAt.
  destruct (nthZ (Part000.doc_content d) j) as [y|] eqn:Hy.
  - change (Part000.findItem d1 (Some (Part000.item_id y)) = inr j).
    apply nthZ_Some in Hy as [H0 Hy].
    pose proof (part000_findItem d1 0 (Some (Part000.item_id y))) as Hf.
    rewrite (findItem_unique (lift_doc d1 0) (Part000.item_id y) (Z.to_nat j) (lift_item y)) in Hf.
    + destruct (Part000.findItem d1 (Some (Part000.item_id y))); [done|].
      injection Hf as <-. by rewrite Z2Nat.id.
    + cbn [lift_doc doc_content]. rewrite Hc, <- list_fmap_compose. apply Hwf.
    + cbn [lift_doc doc_content]. by rewrite Hc, list_lookup_fmap, Hy.
    + done.
  - destruct (decide (j = -1)) as [->|]; [done|].
    destruct (nthZ_is_Some (Part000.doc_content d) j) as [? ?]; [lia|congruence].
Qed.

(** X18: the property that [fuzzSequential] tests.  In a document of the
    first version whose ids are unique and in the version, [localInsert]
    at a position [0 <= pos <= doc.content.length] succeeds, [getArray]
    afterwards is the old array with the content inserted at index [pos],
    and the ids stay unique and in the version. *)
Theorem part000_localInsert {T} (d : Part000.Doc T) agent pos c :
  part000_wf d → 0 <= pos <= lenZ (Part000.doc_content d) →
  ∃ d', Part000.localInsert d agent pos c = (d', Part000.Ok)
    ∧ Part000.getArray d' = splice (Part000.getArray d) pos c
    ∧ part000_wf d'.
Proof.
  intros Hwf Hpos. unfold Part000.localInsert, Part000.integrate.
  cbn [Part000.makeItem Part000.item_id Part000.originLeft Part000.originRight fst snd].
  rewrite Z.eqb_refl. cbn [negb].
  set (s := lastSeen (Part000.doc_version d) agent + 1).
  set (d1 := Part000.set_version d agent s).
  rewrite (part000_findItem_idAt d d1 (pos - 1) Hwf eq_refl) by lia.
  assert (Part000.findRight d1 (Part000.idAt d pos) = inr pos) as ->.
  { unfold Part000.findRight. destruct (Part000.idAt d pos) as [id|] eqn:Hid.
    - rewrite <- Hid. apply part000_findItem_idAt; [done|done|].
      unfold Part000.idAt in Hid. destruct (nthZ _ _) eqn:Hn; [|done]. apply nthZ_lt in Hn. lia.
    - f_equal. unfold Part000.idAt in Hid. cbn [d1 Part000.set_version Part000.doc_content].
      destruct (decide (pos = lenZ (Part000.doc_content d))); [done|].
      destruct (nthZ_is_Some (Part000.doc_content d) pos) as [x Hx]; [lia|]. by rewrite Hx in Hid. }
  replace (pos - 1 + 1) with pos by lia.
  assert (∀ n rest, Part000.scan d1 n (pos - 1) pos rest pos pos (-1) = inr pos) as ->.
  { intros n [|o rest]; simpl; [done|]. by rewrite Z.eqb_refl. }
  eexists. split; [done|]. split.
  - unfold Part000.getArray. cbn [Part000.doc_content d1 Part000.set_version].
    by rewrite splice_fmap.
  - destruct Hwf as [Hnd Hin]. cbn [d1 Part000.set_version Part000.doc_content Part000.doc_version].
    assert (isInVersion (Some (agent, s)) (Part000.doc_version d) = false) as Hfresh.
    { destruct (isInVersion _ _) eqn:Hv; [|done]. apply isInVersion_Some in Hv as (k & Hk & Hle).
      unfold s, lastSeen in Hle. rewrite Hk in Hle. simpl in Hle. lia. }
    split; cbn [Part000.doc_content Part000.doc_version].
    + rewrite splice_fmap. apply splice_NoDup; [done|]. simpl.
      intros (x & Hid & Hx)%list_elem_of_fmap. apply Hin in Hx. rewrite <- Hid in Hx.
      pose proof (eq_trans (eq_sym Hx) Hfresh) as Habs. discriminate Habs.
    + intros x [Hx| ->]%splice_elem_of.
      * eapply (ver_le_insert _ agent s eq_refl). by apply Hin.
      * apply isInVersion_insert.
Qed.

Lemma part000_localInsert_witness :
  ∃ d', Part000.localInsert part000_a1 "A" 1 "y"%string = (d', Part000.Ok)
    ∧ Part000.getArray d' = splice (Part000.getArray part000_a1) 1 "y"%string
    ∧ part000_wf d'.
Proof.
  apply (part000_localInsert part000_a1 "A" 1 "y"%string).
  - split; [vm_compute; repeat constructor; set_solver|].
    intros x ->%list_elem_of_singleton. reflexivity.
  - vm_compute. split; discriminate.
Defined.


(** *** [mergeInto] of the first version *)

Lemma part000_canInsertNow {T} (op : Part000.Item T) (d : Part000.Doc T) len :
  canInsertNow (lift_item op) (lift_doc d len) = Part000.canInsertNow op d.
Proof. done. Qed.

Lemma part000_merge_pass {T} (d d' : Part000.Doc T) missing m n len :
  Part000.merge_pass d missing = (d', m, n, Part000.Ok) →
  ∃ len', merge_pass yjsMod (lift_doc d len) (lift_missing missing)
          = (lift_doc d' len', lift_missing m, n, Ok).
Proof.
  revert d d' m n len. induction missing as [|[op|] missing IH]; intros d d' m n len; simpl.
  - intros [= <- <- <-]. by exists len.
  - rewrite part000_canInsertNow. destruct (negb (Part000.canInsertNow op d)).
    + destruct (Part000.merge_pass d missing) as [[[d1 m1] n1] r1] eqn:E.
      intros [= <- <- <- ->]. destruct (IH _ _ _ _ len E) as [len' ->]. by exists len'.
    + pose proof (part000_integrate d op len) as Hi.
      destruct (Part000.integrate d op) as [d0 [|e]]; [|done].
      change (integrate yjsMod (lift_doc d len) (lift_item op) (-1))
        with (integrateYjsMod (lift_doc d len) (lift_item op) (-1)).
      rewrite Hi.
      destruct (Part000.merge_pass d0 missing) as [[[d1 m1] n1] r1] eqn:E.
      intros [= <- <- <- ->].
      destruct (IH _ _ _ _ (len + if Part000.isDeleted op then 0 else 1) E) as [len' ->].
      by exists len'.
  - destruct (Part000.merge_pass d missing) as [[[d1 m1] n1] r1] eqn:E.
    intros [= <- <- <- ->]. destruct (IH _ _ _ _ len E) as [len' ->]. by exists len'.
Qed.

Lemma part000_merge_loop {T} fuel (d d' : Part000.Doc T) missing remaining len r :
  Part000.merge_loop fuel d missing remaining = Some (d', r) →
  r = Part000.Ok ∨ r = Part000.Throw Part000.AssertionError →
  ∃ len', merge_loop fuel yjsMod (lift_doc d len) (lift_missing missing) remaining
          = Some (lift_doc d' len',
                  match r with Part000.Ok => Ok | Part000.Throw _ => Throw AssertionError end).
Proof.
  revert d missing remaining len. induction fuel as [|fuel IH]; intros d missing remaining len; simpl.
  - destruct (remaining <=? 0); [|done]. intros [= <- <-] _. by exists len.
  - destruct (remaining <=? 0); [intros [= <- <-] _; by exists len|].
    destruct (Part000.merge_pass d missing) as [[[d1 m1] n1] [|e]] eqn:E.
    + destruct (part000_merge_pass _ _ _ _ _ len E) as [len1 ->].
      destruct (n1 =? 0); [intros [= <- <-] _; by exists len1|].
      apply IH.
    + intros [= <- <-] [?|[= ->]]; [done|].
      exfalso. clear IH. revert d d1 m1 n1 len E.
      induction missing as [|[op|] missing IH]; intros d d1 m1 n1 len; simpl; [done|..].
      * destruct (negb (Part000.canInsertNow op d)).
        -- destruct (Part000.merge_pass d missing) as [[[d2 m2] n2] r2] eqn:E2.
           intros [= <- <- <- ->]. by eapply IH.
        -- pose proof (part000_integrate d op len) as Hi.
           destruct (Part000.integrate d op) as [d0 [|e]].
           ++ destruct (Part000.merge_pass d0 missing) as [[[d2 m2] n2] r2] eqn:E2.
              intros [= <- <- <- ->]. by eapply IH.
           ++ intros [= <- <- <- ->]. done.
      * destruct (Part000.merge_pass d missing) as [[[d2 m2] n2] r2] eqn:E2.
        intros [= <- <- <- ->]. by eapply IH.
Qed.

Lemma filter_fmap_iff {A B} (f : A → B) (P : B → Prop) (Q : A → Prop)
    `{!∀ x, Decision (P x)} `{!∀ x, Decision (Q x)} (l : list A) :
  (∀ x, P (f x) ↔ Q x) → filter P (f <$> l) = f <$> filter Q l.
Proof.
  intros HPQ. induction l as [|x l IH]; [done|].
  rewrite fmap_cons, !filter_cons, IH.
  destruct (decide (P (f x))) as [HP|HP], (decide (Q x)) as [HQ|HQ]; [done| | |done].
  - by apply HPQ in HP.
  - by apply HPQ in HQ.
Qed.

(** X25: [mergeInto] of the test file's first version agrees with
    [mergeInto] of src/crdts.ts under YjsMod: when it returns, or fails
    the assertion on [mergedOnThisPass], [mergeInto] of src/crdts.ts does
    the same and leaves the same content and version. *)
Theorem part000_mergeInto_refines {T} (d s d' : Part000.Doc T) len lens r :
  Part000.mergeInto d s = Some (d', r) →
  r = Part000.Ok ∨ r = Part000.Throw Part000.AssertionError →
  ∃ len', mergeInto yjsMod (lift_doc d len) (lift_doc s lens)
          = Some (lift_doc d' len',
                  match r with Part000.Ok => Ok | Part000.Throw _ => Throw AssertionError end).
Proof.
  unfold Part000.mergeInto, mergeInto, missing_of. intros Hm Hr.
  set (missing := filter _ (Part000.doc_content s)) in Hm.
  assert (filter
            (λ op, negb (is_null (item_content op))
                   && negb (isInVersion (Some (item_id op)) (doc_version (lift_doc d len))) = true)
            (doc_content (lift_doc s lens))
          = lift_item <$> missing) as ->.
  { unfold missing. cbn [doc_content lift_doc]. by apply filter_fmap_iff. }
  rewrite length_fmap. unfold lenZ. rewrite length_fmap.
  assert (Some <$> (lift_item <$> missing) = lift_missing (Some <$> missing)) as ->.
  { unfold lift_missing. by rewrite <- !list_fmap_compose. }
  by apply part000_merge_loop.
Qed.

Lemma part000_mergeInto_refines_witness :
  ∃ len', mergeInto yjsMod (lift_doc part000_c1 1) (lift_doc part000_a1 1)
          = Some (lift_doc part000_c2 len', Ok).
Proof.
  apply (part000_mergeInto_refines part000_c1 part000_a1 part000_c2 1 1 Part000.Ok);
    [reflexivity|by left].
Defined.

(** *** The replicas of a system are documents of valid histories *)

Lemma sys_reachable_Valid {T} alg (sys : gmap string (Doc T)) a :
  sys_reachable alg sys → Valid alg (replica sys a).
Proof.
  intros Hr. revert a. induction Hr as [|sys sys' _ IH Hstep]; intros c.
  { unfold replica. rewrite lookup_empty. apply valid_newDoc. }
  destruct Hstep as [a pos content d Hop|a pos d Hop|a b x hint d Hx Hc Hcan Hop|a b d Hop];
    rewrite replica_insert; destruct (decide (a = c)) as [<-|Hne]; try apply IH.
  - by eapply valid_localInsert.
  - by eapply valid_localDelete.
  - rewrite replica_fmap by done. by apply valid_marked.
  - eapply valid_integrate; [apply (IH a)|done| |exact Hop].
    eapply valid_doc_ready_anchored; [apply Valid_valid_doc, (IH a)| |exact Hx|done].
    apply Valid_valid_doc, (IH b).
  - eapply valid_mergeInto; [apply (IH a)|apply (IH b)|done].
Qed.

(** *** One object per item *)

Lemma idEq_Some_true (a b : Id) : idEq (Some a) (Some b) = true ↔ a = b.
Proof.
  destruct a as [a s], b as [b t]. unfold idEq. simpl.
  rewrite andb_true_iff, String.eqb_eq, Z.eqb_eq.
  split; [by intros [-> ->]|by intros [= -> ->]].
Qed.

Lemma set_deleted_deleted {T} (x : Item T) : isDeleted x = true → set_deleted x = x.
Proof. destruct x. simpl. by intros ->. Qed.

Lemma mark_deleted_elem {T} target (d : Doc T) x :
  x ∈ doc_content (mark_deleted target d) →
  ∃ x0, x0 ∈ doc_content d ∧ same_item x x0
    ∧ isDeleted x
      = (idEq (Some (item_id x0)) target && negb (is_null (item_content x0))) || isDeleted x0.
Proof.
  unfold mark_deleted. cbn [doc_content set_content].
  intros (x0 & -> & Hx0)%list_elem_of_fmap.
  exists x0. split; [done|].
  destruct (idEq (Some (item_id x0)) target && negb (is_null (item_content x0))).
  - split; [apply same_item_set_deleted|done].
  - split; [apply same_item_refl|done].
Qed.

Lemma same_item_eq {T} (x y : Item T) :
  same_item x y → isDeleted x = isDeleted y → x = y.
Proof.
  destruct x, y. unfold same_item. simpl. intros (-> & -> & -> & -> & -> & ->) ->. done.
Qed.


Lemma NoDup_filter_lookup {A B} (f : A → B) (P : A → Prop) `{!∀ x, Decision (P x)}
    (c : list A) i j x y :
  NoDup (f <$> filter P c) → c !! i = Some x → c !! j = Some y →
  P x → P y → f x = f y → i = j.
Proof.
  revert i j. induction c as [|a c IH]; intros i j Hnd Hx Hy HPx HPy Hf; [done|].
  rewrite filter_cons in Hnd.
  assert (NoDup (f <$> filter P c)) as Hnd'.
  { destruct (decide (P a)); [|done]. rewrite fmap_cons in Hnd. by apply NoDup_cons in Hnd as [_ ?]. }
  assert (∀ k z, c !! k = Some z → P z → P a → f z ≠ f a) as Hhead.
  { intros k z Hz HPz HPa Heq. rewrite decide_True, fmap_cons in Hnd by done.
    apply NoDup_cons in Hnd as [Hnin _]. apply Hnin. rewrite <- Heq.
    apply list_elem_of_fmap. exists z. split; [done|]. apply list_elem_of_filter.
    split; [done|]. by eapply list_elem_of_lookup_2. }
  destruct i as [|i], j as [|j]; simpl in *; [done|..].
  - injection Hx as <-. by destruct (Hhead j y Hy HPy HPx).
  - injection Hy as <-. by destruct (Hhead i x Hx HPx HPy).
  - f_equal. by apply IH.
Qed.

(** [localDelete] changes [content] as marking the object does. *)
Lemma localDelete_marks {T} (d d' : Doc T) a pos :
  NoDup (item_id <$> content_items (doc_content d)) →
  localDelete d a pos = (d', Ok) →
  doc_content d' = doc_content (mark_deleted (localDelete_target d pos) d).
Proof.
  intros Hnd. unfold localDelete, localDelete_target.
  destruct (findItemAtPos d pos false) as [|idx] eqn:Hpos; [done|].
  destruct (nthZ (doc_content d) idx) as [it|] eqn:Hit; [|done].
  assert (item_content it ≠ None) as Hcit.
  { unfold findItemAtPos in Hpos.
    assert (visible it = true) as Hv.
    { eapply findItemAtPos_from_visible; [exact Hpos|]. by rewrite Z.sub_0_r. }
    unfold visible in Hv. apply andb_true_iff in Hv as [_ Hv]. by destruct (item_content it). }
  apply nthZ_Some in Hit as [H0 Hit]. cbn [fmap option_fmap option_map]. intros Hd'.
  assert (doc_content d' = <[Z.to_nat idx := set_deleted it]> (doc_content d)) as ->.
  { destruct (isDeleted it) eqn:Hdel; simpl in Hd'; injection Hd' as <-; simpl; [|done].
    rewrite set_deleted_deleted by done. by rewrite list_insert_id. }
  unfold mark_deleted. cbn [doc_content set_content]. apply list_eq. intros i.
  rewrite list_lookup_fmap.
  destruct (decide (i = Z.to_nat idx)) as [->|Hne].
  - rewrite list_lookup_insert_eq by (by eapply lookup_lt_Some). rewrite Hit.
    cbn [fmap option_fmap option_map].
    assert (idEq (Some (item_id it)) (Some (item_id it)) = true) as ->
      by (by apply idEq_Some_true).
    by destruct (item_content it).
  - rewrite list_lookup_insert_ne by done.
    destruct (doc_content d !! i) as [x|] eqn:Hx; [|done].
    cbn [fmap option_fmap option_map].
    destruct (idEq (Some (item_id x)) (Some (item_id it))) eqn:He; [|done].
    destruct (item_content x) eqn:Hcx; [|done]. cbn [is_null negb andb].
    apply idEq_Some_true in He. destruct Hne.
    apply (NoDup_filter_lookup item_id _ _ _ _ _ _ Hnd Hx Hit); [by rewrite Hcx|..|done].
    by destruct (item_content it).
Qed.

Lemma sys_shared_update {T} (sys : gmap string (Doc T)) a d :
  sys_shared sys →
  ver_le (doc_version (replica sys a)) (doc_version d) →
  NoDup (item_id <$> content_items (doc_content d)) →
  (∀ x, x ∈ doc_content d → item_content x ≠ None →
     in_sys sys x
     ∨ ((∀ y, in_sys sys y → item_content y ≠ None → item_id y ≠ item_id x)
        ∧ (item_id x).1 = a
        ∧ isInVersion (Some (item_id x)) (doc_version d) = true)) →
  sys_shared (<[a := d]> sys).
Proof.
  intros [Hsame Hown] Hle Hnd Hitems. split.
  - assert (∀ x y, x ∈ doc_content d → in_sys sys y →
              item_content x ≠ None → item_content y ≠ None →
              item_id x = item_id y → x = y) as Hmixed.
    { intros x y Hx Hy Hcx Hcy Hid. destruct (Hitems _ Hx Hcx) as [?|[Hfresh _]]; [by apply Hsame|].
      by destruct (Hfresh _ Hy Hcy). }
    intros x y [Hx|Hx]%in_sys_insert [Hy|Hy]%in_sys_insert Hcx Hcy Hid.
    + by apply (content_items_NoDup_elem (doc_content d)).
    + by apply Hmixed.
    + symmetry. by apply Hmixed.
    + by apply Hsame.
  - assert (∀ x, in_sys sys x → item_content x ≠ None →
              isInVersion (Some (item_id x))
                (doc_version (replica (<[a := d]> sys) (item_id x).1)) = true) as Hold.
    { intros x Hx Hcx. rewrite replica_insert. destruct (decide (a = (item_id x).1)) as [->|].
      - apply Hle. by apply Hown.
      - by apply Hown. }
    intros x [Hx|Hx]%in_sys_insert Hcx; [|by apply Hold].
    destruct (Hitems _ Hx Hcx) as [?|(_ & Ha & Hin)]; [by apply Hold|].
    by rewrite replica_insert, Ha, decide_True.
Qed.

Lemma integrate_from {T} alg (d d' : Doc T) n h x :
  integrate alg d n h = (d', Ok) → x ∈ doc_content d' → item_content x ≠ None →
  x = n ∨ x ∈ doc_content d.
Proof.
  intros [Hstep _]%integrate_ok_shape Hx Hc.
  destruct (content_step_elem3 _ _ _ _ _ Hstep Hx) as [->|[?|(P & _ & ->)]]; [by left|by right|done].
Qed.

Lemma sys_shared_step {T} alg (sys sys' : gmap string (Doc T)) :
  sys_reachable alg sys → sys_shared sys → sys_step alg sys sys' → sys_shared sys'.
Proof.
  intros Hr Hsh Hstep.
  assert (sys_reachable alg sys') as Hr' by (by eapply sys_next).
  assert (∀ a d, sys' = <[a := d]> sys →
            NoDup (item_id <$> content_items (doc_content d))) as Hnd.
  { intros a d ->. pose proof (sys_reachable_Valid alg _ a Hr') as HV.
    rewrite replica_insert, decide_True in HV by done.
    apply (vd_unique _ _ (Valid_valid_doc _ _ HV)). }
  destruct Hstep as [a pos content d Hop|a pos d Hop|a b x hint d Hx Hc Hcan Hop|a b d Hop].
  - apply alg_localInsert_integrate in Hop as (n & h & Hcn & _ & Hag & Hi).
    destruct (integrate_ok_ver_le _ _ _ _ _ Hi) as [Hle Hin].
    apply sys_shared_update; [done|done|by eapply Hnd|].
    intros x Hx Hcx. destruct (integrate_from _ _ _ _ _ _ Hi Hx Hcx) as [->|Hold];
      [|left; by exists a].
    right. split; [|done]. intros y Hy Hcy Hid.
    apply (ss_owner _ Hsh) in Hy; [|done]. rewrite Hid, Hag in Hy.
    apply integrate_ok_version in Hi as [Hrd _].
    apply seq_ready_not_in_version in Hrd. congruence.
  - set (target := localDelete_target (replica sys a) pos) in *.
    assert (∀ b, doc_content (replica (<[a := d]> (mark_deleted target <$> sys)) b)
                 = doc_content (mark_deleted target (replica sys b))
               ∧ doc_version (replica (<[a := d]> (mark_deleted target <$> sys)) b)
                 = doc_version (replica sys b)) as Hcopy.
    { intros b. rewrite replica_insert. destruct (decide (a = b)) as [<-|Hne].
      - split.
        + eapply localDelete_marks; [|done].
          apply (vd_unique _ _ (Valid_valid_doc _ _ (sys_reachable_Valid alg _ a Hr))).
        + by apply localDelete_ids in Hop as (-> & _).
      - by rewrite replica_fmap. }
    assert (∀ x, in_sys (<[a := d]> (mark_deleted target <$> sys)) x →
              ∃ x0, in_sys sys x0 ∧ same_item x x0
                ∧ isDeleted x
                  = (idEq (Some (item_id x0)) target && negb (is_null (item_content x0)))
                    || isDeleted x0) as Hrep.
    { intros x [b Hx]. rewrite (proj1 (Hcopy b)) in Hx.
      apply mark_deleted_elem in Hx as (x0 & Hx0 & ?). exists x0. split; [by exists b|done]. }
    split.
    + intros x y (x0 & Hx0 & Hsx & Hdx)%Hrep (y0 & Hy0 & Hsy & Hdy)%Hrep Hcx Hcy Hid.
      assert (x0 = y0) as <-.
      { apply (ss_same _ Hsh); [done..| | |].
        - destruct Hsx as (_ & _ & _ & _ & <- & _). done.
        - destruct Hsy as (_ & _ & _ & _ & <- & _). done.
        - destruct Hsx as [<- _], Hsy as [<- _]. done. }
      apply same_item_eq; [|congruence].
      eapply same_item_trans; [done|by apply same_item_sym].
    + intros x (x0 & Hx0 & Hsx & _)%Hrep Hcx.
      destruct Hsx as (Hid & _ & _ & _ & Hc' & _). rewrite Hid, (proj2 (Hcopy _)).
      apply (ss_owner _ Hsh); [done|congruence].
  - destruct (integrate_ok_ver_le _ _ _ _ _ Hop) as [Hle _].
    apply sys_shared_update; [done|done|by eapply Hnd|].
    intros y Hy Hcy. left.
    destruct (integrate_from _ _ _ _ _ _ Hop Hy Hcy) as [->|Hold]; [by exists b|by exists a].
  - apply sys_shared_update; [done| |by eapply Hnd|].
    + unfold mergeInto in Hop. by eapply merge_loop_ver_le.
    + intros y Hy Hcy. left.
      destruct (mergeInto_from _ _ _ _ Hop) as [_ Hfrom].
      destruct (Hfrom y Hy Hcy); [by exists a|by exists b].
Qed.

Lemma sys_shared_reachable {T} alg (sys : gmap string (Doc T)) :
  sys_reachable alg sys → sys_shared sys.
Proof.
  induction 1 as [|sys sys' Hr IH Hstep]; [|by eapply sys_shared_step].
  assert (∀ a, replica (∅ : gmap string (Doc T)) a = newDoc) as Hempty.
  { intros a. unfold replica. by rewrite lookup_empty. }
  split.
  - intros x y [b Hx]. rewrite Hempty in Hx. by apply elem_of_nil in Hx.
  - intros x [b Hx]. rewrite Hempty in Hx. by apply elem_of_nil in Hx.
Qed.

Lemma getArray_content_items {T} (d : Doc T) :
  getArray d = omap item_content (filter (λ i, visible i = true) (content_items (doc_content d))).
Proof.
  unfold getArray, content_items. f_equal. rewrite list_filter_filter.
  apply list_filter_iff. intros x. unfold visible. split; [|tauto].
  intros Hv. split; [done|]. by apply andb_true_iff in Hv as [_ ?].
Qed.

(** X24: in every system of replicas reached by local inserts, local
    deletes, deliveries of ready items and merges, under each of the four
    algorithms, two replicas with the same version hold the same items
    with content (the same objects, so the same [isDeleted] flags), and
    [getArray] of one is a permutation of [getArray] of the other. *)
Theorem same_version_same_items {T} alg (sys : gmap string (Doc T)) (a b : string) :
  sys_reachable alg sys →
  doc_version (replica sys a) = doc_version (replica sys b) →
  content_items (doc_content (replica sys a)) ≡ₚ content_items (doc_content (replica sys b))
  ∧ getArray (replica sys a) ≡ₚ getArray (replica sys b).
Proof.
  intros Hr Hv. pose proof (sys_shared_reachable alg sys Hr) as Hsh.
  assert (∀ a b, doc_version (replica sys a) = doc_version (replica sys b) →
            ∀ x, x ∈ content_items (doc_content (replica sys a)) →
                 x ∈ content_items (doc_content (replica sys b))) as Hsub.
  { intros a' b' Hv' x [Hx Hcx]%content_items_elem.
    pose proof (Valid_valid_doc _ _ (sys_reachable_Valid alg sys a' Hr)) as Ha.
    pose proof (Valid_valid_doc _ _ (sys_reachable_Valid alg sys b' Hr)) as Hb.
    destruct (ve_in _ (vd_exact _ _ Ha) x Hx) as [H0 Hin]. rewrite Hv' in Hin.
    destruct (item_id x) as [k s] eqn:Hid. simpl in H0.
    destruct (ve_all _ (vd_exact _ _ Hb) k s H0 Hin) as (z & Hz & Hidz).
    destruct (vd_content _ _ Hb z Hz) as (y & Hy & Hidy & Hcy).
    assert (x = y) as ->; [|by apply content_items_elem].
    apply (ss_same _ Hsh); [by exists a'|by exists b'|done|done|congruence]. }
  assert (content_items (doc_content (replica sys a))
          ≡ₚ content_items (doc_content (replica sys b))) as Hp.
  { apply NoDup_Permutation.
    - eapply NoDup_fmap_1,
        (vd_unique _ _ (Valid_valid_doc _ _ (sys_reachable_Valid alg sys a Hr))).
    - eapply NoDup_fmap_1,
        (vd_unique _ _ (Valid_valid_doc _ _ (sys_reachable_Valid alg sys b Hr))).
    - intros x. split; apply Hsub; done. }
  split; [done|]. rewrite !getArray_content_items. by rewrite Hp.
Qed.

Lemma same_version_same_items_witness :
  content_items (doc_content (replica shared_sys2 "A"))
    ≡ₚ content_items (doc_content (replica shared_sys2 "B"))
  ∧ getArray (replica shared_sys2 "A") ≡ₚ getArray (replica shared_sys2 "B").
Proof.
  apply (same_version_same_items yjsMod shared_sys2 "A" "B"); [|reflexivity].
  apply (sys_next yjsMod shared_sys1).
  - apply (sys_next yjsMod ∅); [apply sys_init|].
    apply (step_insert yjsMod ∅ "A" 0 "x"%string). reflexivity.
  - apply (step_merge yjsMod shared_sys1 "B" "A"). reflexivity.
Defined.

(** *** The order on keys and on paths of keys *)

Lemma akey_lt_trans a b c : akey_lt a b → akey_lt b c → akey_lt a c.
Proof.
  intros [H1|[H1 H1']] [H2|[H2 H2']].
  - left. lia.
  - left. lia.
  - left. lia.
  - right. split; [congruence|]. by eapply key_lt_trans.
Qed.

Lemma akey_lt_irrefl a : ¬ akey_lt a a.
Proof. intros [H|[_ H]]; [lia|by eapply key_lt_irrefl]. Qed.

Lemma alex_lt_trans p q r : alex_lt p q → alex_lt q r → alex_lt p r.
Proof.
  intros H. revert r. induction H as [k q|a b p q Hab|a p q Hpq IH]; intros r Hr.
  - inversion Hr; constructor.
  - inversion Hr as [|b' c q' r' Hbc|b' q' r' Hqr]; subst.
    + apply alex_head. by eapply akey_lt_trans.
    + by apply alex_head.
  - inversion Hr as [|a' c q' r' Hac|a' q' r' Hqr]; subst.
    + by apply alex_head.
    + apply alex_tail. by apply IH.
Qed.

Lemma alex_lt_irrefl p : ¬ alex_lt p p.
Proof.
  induction p as [|a p IH]; intros H; inversion H; subst; [by eapply akey_lt_irrefl|done].
Qed.

Lemma alex_lt_asym p q : alex_lt p q → alex_lt q p → False.
Proof. intros H1 H2. by eapply alex_lt_irrefl, alex_lt_trans. Qed.

Lemma alex_lt_app p a b : alex_lt (p ++ a) (p ++ b) ↔ alex_lt a b.
Proof.
  induction p as [|k p IH]; [done|]. simpl. split.
  - intros H. inversion H; subst; [by destruct (akey_lt_irrefl k)|by apply IH].
  - intros H. apply alex_tail. by apply IH.
Qed.

Lemma alex_lt_extend p k r : alex_lt p (p ++ k :: r).
Proof. rewrite <- (app_nil_r p) at 1. apply alex_lt_app. constructor. Qed.

(** A path after [p] that does not extend [p] is after every extension of [p]. *)
Lemma alex_lt_not_extension p q r :
  alex_lt p q → (∀ s, q ≠ p ++ s) → alex_lt (p ++ r) q.
Proof.
  intros H. revert r. induction H as [k q|a b p q Hab|a p q Hpq IH]; intros r Hne.
  - by destruct (Hne (k :: q)).
  - by apply alex_head.
  - simpl. apply alex_tail. apply IH. intros s ->. by destruct (Hne s).
Qed.

(** An extension of [p] before [p ++ [k]] stays before it when extended. *)
Lemma alex_lt_child p k0 r k s :
  alex_lt (p ++ k0 :: r) (p ++ [k]) → alex_lt (p ++ k0 :: r ++ s) (p ++ [k]).
Proof.
  rewrite !alex_lt_app. intros H. inversion H; subst; [by apply alex_head|].
  match goal with H' : alex_lt _ [] |- _ => inversion H' end.
Qed.

(** *** Paths of keys *)

Lemma am_tree_forest {T} (c : list (Item T)) : am_tree c → forest c.
Proof.
  intros [Hnd Hpar]. split; [done|]. intros i x p Hx Hol.
  destruct (Hpar _ _ _ Hx Hol) as (j & y & ? & ? & ? & _). eauto.
Qed.

Lemma am_path_elem {T} (c : list (Item T)) x p : am_path c x p → x ∈ c.
Proof. by destruct 1. Qed.

Lemma am_path_mono {T} (c c' : list (Item T)) x p :
  (∀ y, y ∈ c → y ∈ c') → am_path c x p → am_path c' x p.
Proof.
  intros Hsub. induction 1 as [x Hx Hol|x y p Hx Hy Hol _ IH].
  - apply am_path_root; auto.
  - apply am_path_child with y; auto.
Qed.

Lemma am_path_unique {T} (c : list (Item T)) x p q :
  NoDup (item_id <$> c) → am_path c x p → am_path c x q → p = q.
Proof.
  intros Hnd H. revert q. induction H as [x Hx Hol|x y p Hx Hy Hol _ IH]; intros q Hq.
  - inversion Hq; subst; [done|congruence].
  - inversion Hq as [|x' y' p' _ Hy' Hol' Hp']; subst; [congruence|].
    assert (y' = y) as -> by (eapply NoDup_ids_elem; [done..|congruence]).
    by rewrite (IH _ Hp').
Qed.

(** The path of an item is the path of its parent followed by its own key. *)
Lemma am_path_inv {T} (c : list (Item T)) x p :
  am_path c x p →
  ∃ p0, p = p0 ++ [am_key x]
    ∧ (originLeft x = None → p0 = [])
    ∧ (∀ q, originLeft x = Some q → ∃ y, y ∈ c ∧ item_id y = q ∧ am_path c y p0).
Proof.
  destruct 1 as [x Hx Hol|x y p Hx Hy Hol Hp].
  - exists []. split; [done|]. split; [done|]. intros q. congruence.
  - exists p. split; [done|]. split; [congruence|]. intros q Hq. rewrite Hol in Hq.
    injection Hq as <-. eauto.
Qed.

Lemma am_path_last {T} (c : list (Item T)) a b p :
  NoDup (item_id <$> c) → am_path c a p → am_path c b p → a = b.
Proof.
  intros Hnd Ha Hb.
  destruct (am_path_inv _ _ _ Ha) as (pa & Hpa & _).
  destruct (am_path_inv _ _ _ Hb) as (pb & Hpb & _).
  rewrite Hpa in Hpb. apply app_inj_tail in Hpb as [_ Hid].
  eapply NoDup_ids_elem; [done|by eapply am_path_elem..|]. by injection Hid.
Qed.

(** In a sorted document the order of two paths gives the order of the indices. *)
Lemma am_sorted_index {T} (c : list (Item T)) i j x y p q :
  NoDup (item_id <$> c) → am_sorted c →
  c !! i = Some x → c !! j = Some y →
  am_path c x p → am_path c y q →
  alex_lt p q → (i < j)%nat.
Proof.
  intros Hnd Hs Hx Hy Hp Hq Hlt. destruct (Nat.lt_total i j) as [|[->|Hgt]]; [done|..].
  - rewrite Hx in Hy. injection Hy as <-.
    rewrite (am_path_unique _ _ _ _ Hnd Hp Hq) in Hlt.
    by apply alex_lt_irrefl in Hlt.
  - destruct (alex_lt_asym _ _ Hlt). by eapply (as_sorted _ Hs j i).
Qed.

(** *** The Automerge scan on a sorted document *)

Section AmScan.
Context {T : Type} (doc : Doc T) (x : Item T) (hint parent : Z) (P : list akey).
Hypothesis Hf : forest (doc_content doc).
Hypothesis Hs : am_sorted (doc_content doc).
Hypothesis HP :
  (parent = -1 ∧ P = [])
  ∨ (∃ y, 0 <= parent ∧ doc_content doc !! Z.to_nat parent = Some y
          ∧ am_path (doc_content doc) y P).

(** The item at a later index whose parent stands before [parent] is
    after every extension of [P]. *)
Lemma am_scan_break i o ol q r :
  parent < Z.of_nat i → doc_content doc !! i = Some o →
  findItem doc (originLeft o) (hint - 1) = inr ol → ol < parent →
  am_path (doc_content doc) o q → alex_lt (P ++ r) q.
Proof using Hf Hs HP.
  intros Hi Ho Hol Hlt Hq. pose proof (forest_nodup _ Hf) as Hnd.
  destruct (forest_lookup doc i o (hint - 1) Hf Ho) as (ol' & Hol' & Hr & Hnone & Hsome).
  rewrite Hol in Hol'. injection Hol' as <-.
  destruct HP as [[-> _]|(y & H0 & Hy & Hpy)]; [lia|].
  apply alex_lt_not_extension.
  { eapply (as_sorted _ Hs (Z.to_nat parent) i); [lia|done..]. }
  intros s ->.
  destruct (am_path_inv _ _ _ Hq) as (p0 & Hp0 & Hroot & Hchild).
  destruct s as [|k s _] using rev_ind.
  - rewrite app_nil_r in Hq.
    assert (o = y) as -> by (by eapply am_path_last).
    assert (i = Z.to_nat parent) by (eapply NoDup_ids_lookup; done). lia.
  - rewrite app_assoc in Hp0. apply app_inj_tail in Hp0 as [<- _].
    destruct (originLeft o) as [qid|] eqn:Hoo.
    + destruct (Hsome _ eq_refl) as (yo & Hol0 & Hyo & Hidyo).
      destruct (Hchild _ eq_refl) as (yo' & Hyo' & Hid' & Hpyo).
      assert (yo' = yo) as ->.
      { eapply NoDup_ids_elem; [done..|by eapply list_elem_of_lookup_2|congruence]. }
      destruct s as [|k' s].
      * rewrite app_nil_r in Hpyo.
        assert (yo = y) as -> by (by eapply am_path_last).
        assert (Z.to_nat ol = Z.to_nat parent) by (eapply NoDup_ids_lookup; done). lia.
      * assert (Z.to_nat parent < Z.to_nat ol)%nat; [|lia].
        eapply (am_sorted_index (doc_content doc)); [done..|]. apply alex_lt_extend.
    + specialize (Hroot eq_refl). destruct (am_path_inv _ _ _ Hpy) as (py & -> & _).
      by destruct py, s.
Qed.

(** The item at a later index whose parent is at [parent] has the path
    [P] followed by its key. *)
Lemma am_scan_sibling i o q :
  parent < Z.of_nat i → doc_content doc !! i = Some o →
  findItem doc (originLeft o) (hint - 1) = inr parent →
  am_path (doc_content doc) o q → q = P ++ [am_key o].
Proof using Hf HP.
  intros Hi Ho Hol Hq. pose proof (forest_nodup _ Hf) as Hnd.
  destruct (forest_lookup doc i o (hint - 1) Hf Ho) as (ol' & Hol' & Hr & Hnone & Hsome).
  rewrite Hol in Hol'. injection Hol' as <-.
  destruct (am_path_inv _ _ _ Hq) as (p0 & -> & Hroot & Hchild). f_equal.
  destruct (originLeft o) as [qid|] eqn:Hoo.
  - destruct (Hsome _ eq_refl) as (yo & Hol0 & Hyo & Hidyo).
    destruct (Hchild _ eq_refl) as (yo' & Hyo' & Hid' & Hpyo).
    assert (yo' = yo) as ->.
    { eapply NoDup_ids_elem; [done..|by eapply list_elem_of_lookup_2|congruence]. }
    destruct HP as [[-> _]|(y & H0 & Hy & Hpy)]; [lia|].
    rewrite Hyo in Hy. injection Hy as ->. by eapply am_path_unique.
  - rewrite (Hroot eq_refl). destruct HP as [[_ ->]|(y & H0 & _)]; [done|].
    specialize (Hnone eq_refl). lia.
Qed.

(** The item at a later index whose parent has a path [P ++ k :: r]
    before [P ++ [key x]] has such a path too. *)
Lemma am_scan_descendant i o ol yo k r q :
  doc_content doc !! i = Some o →
  findItem doc (originLeft o) (hint - 1) = inr ol → 0 <= ol →
  doc_content doc !! Z.to_nat ol = Some yo →
  am_path (doc_content doc) yo (P ++ k :: r) →
  alex_lt (P ++ k :: r) (P ++ [am_key x]) →
  am_path (doc_content doc) o q →
  (∃ k' r', q = P ++ k' :: r') ∧ alex_lt q (P ++ [am_key x]).
Proof using Hf.
  intros Ho Hol H0 Hyo Hpyo Hlt Hq. pose proof (forest_nodup _ Hf) as Hnd.
  destruct (forest_lookup doc i o (hint - 1) Hf Ho) as (ol' & Hol' & Hr & Hnone & Hsome).
  rewrite Hol in Hol'. injection Hol' as <-.
  destruct (am_path_inv _ _ _ Hq) as (p0 & -> & Hroot & Hchild).
  destruct (originLeft o) as [qid|] eqn:Hoo; [|specialize (Hnone eq_refl); lia].
  destruct (Hsome _ eq_refl) as (yo1 & _ & Hyo1 & Hidyo).
  destruct (Hchild _ eq_refl) as (yo' & Hyo' & Hid' & Hpyo').
  rewrite Hyo in Hyo1. injection Hyo1 as <-.
  assert (yo' = yo) as ->.
  { eapply NoDup_ids_elem; [done..|by eapply list_elem_of_lookup_2|congruence]. }
  rewrite (am_path_unique _ _ _ _ Hnd Hpyo' Hpyo).
  split.
  - exists k, (r ++ [am_key o]). by rewrite <- app_assoc.
  - rewrite <- app_assoc. simpl. by apply alex_lt_child.
Qed.
End AmScan.

(** On a sorted document the scan for an item [x] whose parent has path
    [P] never fails its assertion and stops at the index that splits the
    document into the paths before and after [P ++ [key x]]. *)
Lemma am_scan {T} (doc : Doc T) (x : Item T) (hint parent : Z) (P : list akey) rest i lc :
  forest (doc_content doc) → am_sorted (doc_content doc) →
  ((parent = -1 ∧ P = [])
   ∨ (∃ y, 0 <= parent ∧ doc_content doc !! Z.to_nat parent = Some y
           ∧ am_path (doc_content doc) y P)) →
  (∀ o, o ∈ doc_content doc → (item_id o).1 = (item_id x).1 →
        (item_id o).2 < (item_id x).2) →
  parent < i <= lenZ (doc_content doc) →
  drop (Z.to_nat i) (doc_content doc) = rest →
  (lc = true ∨ i = parent + 1) →
  (∀ j y q, parent < Z.of_nat j < i → doc_content doc !! j = Some y →
     am_path (doc_content doc) y q →
     (∃ k r, q = P ++ k :: r) ∧ alex_lt q (P ++ [am_key x])) →
  ∃ d, automerge_scan false doc x hint parent rest i lc = inr d
    ∧ i <= d <= lenZ (doc_content doc)
    ∧ (∀ j y q, parent < Z.of_nat j < d → doc_content doc !! j = Some y →
         am_path (doc_content doc) y q → alex_lt q (P ++ [am_key x]))
    ∧ (∀ j y q, d <= Z.of_nat j → doc_content doc !! j = Some y →
         am_path (doc_content doc) y q → alex_lt (P ++ [am_key x]) q).
Proof.
  intros Hf Hs HP Hkey.
  assert (-1 <= parent) as Hl1 by (destruct HP as [[-> _]|(y & H0 & _)]; lia).
  revert i lc.
  induction rest as [|o rest IH]; intros i lc Hi Hd Hlc Hpre.
  - exists i. apply drop_nil_len in Hd; [|lia]. subst i. simpl.
    split; [done|]. split; [lia|]. split; [intros j y q Hj Hy Hq; by eapply Hpre|].
    intros j y q Hj Hy. apply lookup_lt_Some in Hy. unfold lenZ in Hj. lia.
  - assert (0 <= i) as Hi0 by lia.
    destruct (drop_nthZ _ _ _ _ Hi0 Hd) as ([_ Ho]%nthZ_Some & Hlt & Hd').
    destruct (forest_lookup doc _ o (hint - 1) Hf Ho) as (ol & Hol & Hr & Hnone & Hsome).
    assert (o ∈ doc_content doc) as Hoin by (by eapply list_elem_of_lookup_2).
    destruct (as_path _ Hs _ Hoin) as [qo Hqo].
    assert (∀ d, alex_lt (P ++ [am_key x]) qo → d = i →
              ∀ j y q, d <= Z.of_nat j → doc_content doc !! j = Some y →
                am_path (doc_content doc) y q → alex_lt (P ++ [am_key x]) q) as Hafter.
    { intros d Hlto -> j y q Hj Hy Hq.
      destruct (decide (j = Z.to_nat i)) as [->|Hne].
      - rewrite Ho in Hy. injection Hy as <-.
        by rewrite (am_path_unique _ _ _ _ (forest_nodup _ Hf) Hq Hqo).
      - eapply alex_lt_trans; [done|].
        eapply (as_sorted _ Hs (Z.to_nat i) j); [lia|done..]. }
    assert (∀ k r, qo = P ++ k :: r → alex_lt qo (P ++ [am_key x]) →
              ∀ j y q, parent < Z.of_nat j < i + 1 → doc_content doc !! j = Some y →
                am_path (doc_content doc) y q →
                (∃ k r, q = P ++ k :: r) ∧ alex_lt q (P ++ [am_key x])) as Hnext.
    { intros k r Hk Hlto j y q Hj Hy Hq.
      destruct (decide (j = Z.to_nat i)) as [->|Hne]; [|apply (Hpre j y); [lia|done..]].
      rewrite Ho in Hy. injection Hy as <-.
      rewrite (am_path_unique _ _ _ _ (forest_nodup _ Hf) Hq Hqo). eauto. }
    cbn [automerge_scan andb]. rewrite Hol.
    destruct (Z.ltb_spec ol parent) as [Holl|Holl].
    { exists i. split; [done|]. split; [lia|].
      split; [intros j y q Hj Hy Hq; by eapply Hpre|].
      apply Hafter; [|done].
      eapply (am_scan_break doc hint parent P Hf Hs HP (Z.to_nat i)); [lia|done..]. }
    destruct (Z.eqb_spec ol parent) as [->|Hne].
    + assert (qo = P ++ [am_key o]) as Hqo'.
      { eapply (am_scan_sibling doc hint parent P Hf HP (Z.to_nat i)); [lia|done..]. }
      assert (akey_lt (am_key o) (am_key x) →
              ∃ d, automerge_scan false doc x hint parent rest (i + 1) true = inr d
                ∧ i <= d <= lenZ (doc_content doc)
                ∧ (∀ j y q, parent < Z.of_nat j < d → doc_content doc !! j = Some y →
                     am_path (doc_content doc) y q → alex_lt q (P ++ [am_key x]))
                ∧ (∀ j y q, d <= Z.of_nat j → doc_content doc !! j = Some y →
                     am_path (doc_content doc) y q → alex_lt (P ++ [am_key x]) q))
        as Hskip.
      { intros Hlt'. destruct (IH (i + 1) true) as (d & Hscan & Hd1 & Hd2 & Hd3);
          [lia|done|by left| |].
        { apply (Hnext (am_key o) []); [done|]. rewrite Hqo'. by apply alex_lt_app, alex_head. }
        exists d. split; [done|]. split; [lia|]. done. }
      destruct (Z.ltb_spec (item_seq o) (item_seq x)) as [Hseq|Hseq].
      { exists i. split; [done|]. split; [lia|].
        split; [intros j y q Hj Hy Hq; by eapply Hpre|].
        apply Hafter; [|done]. rewrite Hqo'. apply alex_lt_app, alex_head. by left. }
      destruct (Z.eqb_spec (item_seq x) (item_seq o)) as [Heq|Hneq].
      * destruct (String.ltb (item_id x).1 (item_id o).1) eqn:Hag.
        -- exists i. split; [done|]. split; [lia|].
           split; [intros j y q Hj Hy Hq; by eapply Hpre|].
           apply Hafter; [|done]. rewrite Hqo'. apply alex_lt_app, alex_head.
           right. split; [done|]. by left.
        -- apply Hskip. right. split; [done|]. simpl.
           destruct (ltb_total (item_id o).1 (item_id x).1) as [?|[Heq'|Hgt]];
             [by left| |congruence].
           right. split; [done|]. by apply Hkey.
      * apply Hskip. left. simpl. lia.
    + assert (parent < ol) as Hgt by lia.
      destruct (originLeft o) as [qid|] eqn:Hoo; [|specialize (Hnone eq_refl); lia].
      destruct (Hsome _ eq_refl) as (yo & Hol0 & Hyo & Hidyo).
      assert (yo ∈ doc_content doc) as Hyoin by (by eapply list_elem_of_lookup_2).
      destruct (as_path _ Hs _ Hyoin) as [qyo Hqyo].
      destruct (Hpre (Z.to_nat ol) yo qyo) as [(k & r & ->) Hltyo]; [lia|done..|].
      destruct (am_scan_descendant doc x hint P Hf (Z.to_nat i) o ol yo k r qo)
        as [(k' & r' & Hk') Hlto]; [done|by rewrite Hoo|done..|].
      destruct Hlc as [->|Hlc]; [|lia].
      destruct (IH (i + 1) true) as (d & Hscan & Hd1 & Hd2 & Hd3); [lia|done|by left| |].
      { by apply (Hnext k' r'). }
      exists d. split; [done|]. split; [lia|]. done.
Qed.

(** *** A successful [integrateAutomerge] keeps the order *)

Lemma automerge_scan_content {T} fast (d1 d2 : Doc T) N hint parent rest i lc :
  doc_content d1 = doc_content d2 →
  automerge_scan fast d1 N hint parent rest i lc
  = automerge_scan fast d2 N hint parent rest i lc.
Proof.
  intros H. revert i lc.
  induction rest as [|O rest IH]; intros i lc; simpl; [done|].
  unfold findItem. rewrite (findItem2_content d1 d2) by done.
  by repeat (case_match; try done).
Qed.

Lemma integrateAutomerge_scan {T} fast (doc doc' : Doc T) N hint :
  integrateAutomerge_gen fast doc N hint = (doc', Ok) →
  ∃ parent destIdx,
    seq_ready doc N
    ∧ findItem doc (originLeft N) (hint - 1) = inr parent
    ∧ automerge_scan fast doc N hint parent
        (drop (Z.to_nat (parent + 1)) (doc_content doc)) (parent + 1) false = inr destIdx
    ∧ doc_content doc' = splice (doc_content doc) destIdx N.
Proof.
  unfold integrateAutomerge_gen.
  destruct (negb (0 <=? item_seq N)); [done|].
  destruct (Z.eqb_spec (item_id N).2 (lastSeen (doc_version doc) (item_id N).1 + 1))
    as [Hr|]; [|done].
  cbn [negb]. set (doc1 := set_version doc (item_id N).1 (item_id N).2).
  unfold findItem. rewrite (findItem2_content doc1 doc) by done.
  destruct (findItem2 doc (originLeft N) false (hint - 1)) as [|parent] eqn:Hp; [done|].
  rewrite (automerge_scan_content fast doc1 doc) by done.
  change (doc_content doc1) with (doc_content doc).
  destruct (automerge_scan _ _ _ _ _ _ _ _) as [|destIdx] eqn:Hscan; [done|].
  intros [= <-]. exists parent, destIdx. rewrite commit_shape.
  split; [exact Hr|]. do 2 (split; [done|]).
  by destruct (_ <? _).
Qed.

Lemma am_sorted_nil {T} : am_sorted (@nil (Item T)).
Proof.
  split.
  - intros x Hx. by apply elem_of_nil in Hx.
  - intros i j x y p q _ Hx. done.
Qed.

Lemma am_sorted_integrate {T} (doc doc' : Doc T) N hint :
  am_wf doc → am_sorted (doc_content doc) →
  integrateAutomerge doc N hint = (doc', Ok) →
  am_sorted (doc_content doc').
Proof.
  intros Hwf Hs Hi. rewrite integrateAutomerge_fast_path_tree in Hi by apply (wf_tree _ Hwf).
  apply integrateAutomerge_scan in Hi as (parent & d & Hr & Hparent & Hscan & ->).
  pose proof (am_tree_forest _ (wf_tree _ Hwf)) as Hf.
  pose proof (forest_nodup _ Hf) as Hnd.
  set (c := doc_content doc) in *.
  (* the parent and its path *)
  assert (∃ P, ((parent = -1 ∧ P = [])
                ∨ (∃ y, 0 <= parent ∧ c !! Z.to_nat parent = Some y ∧ am_path c y P))
               ∧ (originLeft N = None → P = [])
               ∧ (∀ p, originLeft N = Some p →
                    ∃ y, 0 <= parent ∧ c !! Z.to_nat parent = Some y ∧ item_id y = p
                         ∧ am_path c y P)) as (P & HP & HPnone & HPsome).
  { destruct (originLeft N) as [[pa ps]|] eqn:Hol.
    - apply findItem2_inr in Hparent as (y & [H0 Hy]%nthZ_Some & Hm).
      apply needle_match_false_true in Hm.
      destruct (as_path _ Hs y) as [P HyP]; [by eapply list_elem_of_lookup_2|].
      exists P. split; [right; eauto|]. split; [done|]. intros p [= <-]. eauto 6.
    - injection Hparent as <-. exists []. split; [by left|]. split; [done|]. done. }
  assert (-1 <= parent) as Hl1 by (destruct HP as [[-> _]|(y & H0 & _)]; (subst c; lia)).
  assert (parent < lenZ c) as Hl2.
  { destruct HP as [[-> _]|(y & H0 & Hy%lookup_lt_Some & _)]; unfold lenZ in *; (subst c; lia). }
  assert (∀ o, o ∈ c → (item_id o).1 = (item_id N).1 → (item_id o).2 < (item_id N).2)
    as Hkey.
  { intros o Ho Hag. apply (wf_version _ Hwf) in Ho. destruct (item_id o) as [oa os].
    apply isInVersion_Some in Ho as (s & Hv & Hle). simpl in *. subst oa.
    unfold seq_ready, lastSeen in Hr. rewrite Hv in Hr. simpl in Hr. (subst c; lia). }
  destruct (am_scan doc N hint parent P (drop (Z.to_nat (parent + 1)) c) (parent + 1) false
              Hf Hs HP Hkey) as (d' & Hscan' & Hd & Hbetween & Hafter);
    [(subst c; lia)|done|by right| |].
  { intros j y q Hj. (subst c; lia). }
  fold c in Hscan'. rewrite Hscan in Hscan'. injection Hscan' as <-.
  assert (∀ j y q, Z.of_nat j < d → c !! j = Some y → am_path c y q →
            alex_lt q (P ++ [am_key N])) as Hbefore.
  { intros j y q Hj Hy Hq. destruct (Z.lt_ge_cases parent (Z.of_nat j)).
    - apply (Hbetween j y); [(subst c; lia)|done..].
    - destruct HP as [[-> _]|(yp & H0 & Hyp & HypP)]; [(subst c; lia)|].
      destruct (decide (j = Z.to_nat parent)) as [->|Hne].
      + rewrite Hyp in Hy. injection Hy as <-.
        rewrite (am_path_unique _ _ _ _ Hnd Hq HypP). apply alex_lt_extend.
      + eapply alex_lt_trans; [|apply alex_lt_extend].
        eapply (as_sorted _ Hs j (Z.to_nat parent)); [(subst c; lia)|done..]. }
  assert (item_id N ∉ item_id <$> c) as Hfresh.
  { intros (o & Hid & Ho)%list_elem_of_fmap. apply (wf_version _ Hwf) in Ho.
    rewrite <- Hid, seq_ready_not_in_version in Ho; done. }
  assert (forest (splice c d N)) as Hf'.
  { apply forest_splice; [done..|(subst c; lia)|]. intros p Hol.
    destruct (HPsome _ Hol) as (y & H0 & Hy & Hid & _).
    exists (Z.to_nat parent), y. split; [(subst c; lia)|done]. }
  assert (am_path (splice c d N) N (P ++ [am_key N])) as HNpath.
  { destruct (originLeft N) as [p|] eqn:Hol.
    - destruct (HPsome _ eq_refl) as (y & H0 & Hy & Hid & HyP).
      apply am_path_child with y.
      + apply splice_elem_of. by right.
      + apply splice_elem_of. left. by eapply list_elem_of_lookup_2.
      + by rewrite Hol, Hid.
      + eapply am_path_mono; [|done]. intros z Hz. apply splice_elem_of. by left.
    - rewrite (HPnone eq_refl). apply am_path_root; [|done]. apply splice_elem_of. by right. }
  assert (∀ y q, y ∈ c → am_path (splice c d N) y q → am_path c y q) as Hold.
  { intros y q Hy Hq. destruct (as_path _ Hs _ Hy) as [q0 Hq0].
    assert (am_path (splice c d N) y q0) as Hq0'.
    { eapply am_path_mono; [|done]. intros z Hz. apply splice_elem_of. by left. }
    by rewrite (am_path_unique _ _ _ _ (forest_nodup _ Hf') Hq Hq0'). }
  split.
  - intros z [Hz| ->]%splice_elem_of; [|eauto].
    destruct (as_path _ Hs _ Hz) as [q Hq]. exists q.
    eapply am_path_mono; [|done]. intros z' Hz'. apply splice_elem_of. by left.
  - intros i j a b p q Hij Ha Hb Hp Hq.
    apply splice_lookup in Ha; [|(subst c; lia)]. apply splice_lookup in Hb; [|(subst c; lia)].
    assert (∀ q', am_path (splice c d N) N q' → q' = P ++ [am_key N]) as HNq.
    { intros q' Hq'. by eapply am_path_unique; [apply (forest_nodup _ Hf')|..]. }
    destruct Ha as [[Hi Ha]|[[Hi ->]|[Hi Ha]]], Hb as [[Hj Hb]|[[Hj ->]|[Hj Hb]]];
      try (subst c; lia).
    + apply (as_sorted _ Hs i j a b p q); [(subst c; lia)|done|done|..];
        (apply Hold; [by eapply list_elem_of_lookup_2|done]).
    + rewrite (HNq _ Hq). apply (Hbefore i a); [(subst c; lia)|done|].
      apply Hold; [by eapply list_elem_of_lookup_2|done].
    + apply (as_sorted _ Hs i (j - 1) a b p q); [(subst c; lia)|done|done|..];
        (apply Hold; [by eapply list_elem_of_lookup_2|done]).
    + rewrite (HNq _ Hp). apply (Hafter (j - 1)%nat b); [(subst c; lia)|done|].
      apply Hold; [by eapply list_elem_of_lookup_2|done].
    + apply (as_sorted _ Hs (i - 1) (j - 1) a b p q); [(subst c; lia)|done|done|..];
        (apply Hold; [by eapply list_elem_of_lookup_2|done]).
Qed.

(** *** Copies of a sorted document *)

Lemma same_item_key {T} (x y : Item T) : same_item x y → am_key x = am_key y.
Proof. intros (Hid & _ & _ & Hs & _). unfold am_key. by rewrite Hid, Hs. Qed.

Lemma am_path_copies {T} (c c' : list (Item T)) x x' p :
  (∀ y, y ∈ c → ∃ y', y' ∈ c' ∧ same_item y y') →
  am_path c x p → same_item x x' → x' ∈ c' → am_path c' x' p.
Proof.
  intros Hcopy H. revert x'.
  induction H as [x Hx Hol|x y p Hx Hy Hol _ IH]; intros x' Hs Hx'.
  - rewrite (same_item_key _ _ Hs). apply am_path_root; [done|].
    destruct Hs as (_ & <- & _). done.
  - rewrite (same_item_key _ _ Hs). destruct (Hcopy _ Hy) as (y' & Hy' & Hsy).
    apply am_path_child with y'; [done..| |by apply IH].
    destruct Hs as (_ & <- & _). destruct Hsy as (<- & _). done.
Qed.

Lemma am_sorted_copies {T} (c c' : list (Item T)) :
  am_sorted c → Forall2 same_item c' c → am_sorted c'.
Proof.
  intros [Hpath Hsorted] Hcopy.
  assert (∀ y, y ∈ c → ∃ y', y' ∈ c' ∧ same_item y y') as H1.
  { intros y [i Hy]%list_elem_of_lookup.
    destruct (Forall2_lookup_r _ _ _ _ _ Hcopy Hy) as (y' & Hy' & Hs).
    exists y'. split; [by eapply list_elem_of_lookup_2|by apply same_item_sym]. }
  assert (∀ y', y' ∈ c' → ∃ y, y ∈ c ∧ same_item y' y) as H2.
  { intros y' [i Hy']%list_elem_of_lookup.
    destruct (Forall2_lookup_l _ _ _ _ _ Hcopy Hy') as (y & Hy & Hs).
    exists y. split; [by eapply list_elem_of_lookup_2|done]. }
  split.
  - intros x' [i Hx']%list_elem_of_lookup.
    destruct (Forall2_lookup_l _ _ _ _ _ Hcopy Hx') as (x & Hx & Hs).
    destruct (Hpath x) as [p Hp]; [by eapply list_elem_of_lookup_2|].
    exists p. eapply am_path_copies; [done|done|by apply same_item_sym|].
    by eapply list_elem_of_lookup_2.
  - intros i j x' y' p q Hij Hx' Hy' Hp Hq.
    destruct (Forall2_lookup_l _ _ _ _ _ Hcopy Hx') as (x & Hx & Hsx).
    destruct (Forall2_lookup_l _ _ _ _ _ Hcopy Hy') as (y & Hy & Hsy).
    apply (Hsorted i j x y p q); [done..| |].
    + eapply am_path_copies; [exact H2|done..|]. by eapply list_elem_of_lookup_2.
    + eapply am_path_copies; [exact H2|done..|]. by eapply list_elem_of_lookup_2.
Qed.

(** *** One flag per item *)





Lemma am_shared_update {T} (sys : gmap string (Doc T)) a d :
  am_shared sys → NoDup (item_id <$> doc_content d) →
  (∀ x, x ∈ doc_content d →
     in_sys sys x ∨ (item_content x ≠ None ∧ ∀ y, in_sys sys y → item_id y ≠ item_id x)) →
  am_shared (<[a := d]> sys).
Proof.
  intros [Hc Hfl] Hnd Hitems. split.
  - intros x [Hx|Hx]%in_sys_insert; [|by apply Hc].
    destruct (Hitems _ Hx) as [?|[? _]]; [by apply Hc|done].
  - assert (∀ x y, x ∈ doc_content d → in_sys sys y → item_id x = item_id y →
                   isDeleted x = isDeleted y) as Hmixed.
    { intros x y Hx Hy Hid. destruct (Hitems _ Hx) as [?|[_ Hfresh]]; [by apply Hfl|].
      by destruct (Hfresh _ Hy). }
    intros x y [Hx|Hx]%in_sys_insert [Hy|Hy]%in_sys_insert Hid.
    + by rewrite (NoDup_ids_elem _ _ _ Hnd Hx Hy Hid).
    + by apply Hmixed.
    + symmetry. by apply Hmixed.
    + by apply Hfl.
Qed.

(** *** The invariant of convergence *)

Lemma integrateAutomerge_elem {T} (doc doc' : Doc T) N hint x :
  integrate automerge doc N hint = (doc', Ok) →
  x ∈ doc_content doc' ↔ x ∈ doc_content doc ∨ x = N.
Proof.
  intros (parent & d & _ & _ & _ & _ & ->)%integrateAutomerge_ok. apply splice_elem_of.
Qed.

Lemma am_conv_merge {T} (sys : gmap string (Doc T)) a b d :
  am_conv sys → mergeInto automerge (replica sys a) (replica sys b) = Some (d, Ok) →
  am_sorted (doc_content d) ∧ ∀ x, x ∈ doc_content d → in_sys sys x.
Proof.
  intros [Hinv Hsh Hso]. unfold mergeInto. intros Hm.
  enough (fits sys d ∧ am_sorted (doc_content d) ∧ ∀ x, x ∈ doc_content d → in_sys sys x)
    by tauto.
  revert Hm.
  apply (merge_loop_preserves automerge
           (λ d, fits sys d ∧ am_sorted (doc_content d)
                 ∧ ∀ x, x ∈ doc_content d → in_sys sys x)
           (λ op, in_sys sys op)).
  - intros d0 n d0' (Hfit & Hs0 & Hin) Hn Hcan Hi. split; [|split].
    + eapply fits_deliver; done.
    + eapply am_sorted_integrate; [apply Hfit|done|exact Hi].
    + intros x [Hx| ->]%(integrateAutomerge_elem _ _ _ _ _ Hi); [by apply Hin|done].
  - intros op (x & [= <-] & [Hx _]%missing_of_elem)%list_elem_of_fmap. by exists b.
  - split; [by apply am_inv_fits|]. split; [apply Hso|]. intros x Hx. by exists a.
Qed.

Lemma am_conv_step {T} (sys sys' : gmap string (Doc T)) :
  am_conv sys → sys_step automerge sys sys' → am_conv sys'.
Proof.
  intros Hcv Hstep. pose proof (am_inv_step _ _ (cv_inv _ Hcv) Hstep) as Hinv'.
  destruct Hcv as [Hinv Hsh Hso].
  assert (∀ a d, am_inv (<[a := d]> sys) → am_sorted (doc_content d) →
            (∀ x, x ∈ doc_content d →
               in_sys sys x
               ∨ (item_content x ≠ None ∧ ∀ y, in_sys sys y → item_id y ≠ item_id x)) →
            am_conv (<[a := d]> sys)) as Hupd.
  { intros a d Hi Hs Hitems. split; [done| |].
    - apply am_shared_update; [done| |done].
      pose proof (inv_wf _ Hi a) as Hwf. rewrite replica_insert, decide_True in Hwf by done.
      apply (am_nodup _ (wf_tree _ Hwf)).
    - intros b. rewrite replica_insert. by destruct (decide (a = b)). }
  destruct Hstep as [a pos content d Hop|a pos d Hop|a b x hint d Hx Hc Hcan Hop|a b d Hop].
  - (* localInsert *)
    apply alg_localInsert_integrate in Hop as (n & h & Hcn & _ & Hag & Hi).
    apply Hupd; [done| |].
    + eapply am_sorted_integrate; [apply (inv_wf _ Hinv a)|apply Hso|exact Hi].
    + intros x [Hx| ->]%(integrateAutomerge_elem _ _ _ _ _ Hi); [left; by exists a|].
      right. split; [by rewrite Hcn|]. intros y Hy Hid.
      apply (inv_owner _ Hinv) in Hy. rewrite Hid, Hag in Hy.
      apply integrate_ok_version in Hi as [Hr _].
      apply seq_ready_not_in_version in Hr. congruence.
  - (* localDelete *)
    set (target := localDelete_target (replica sys a) pos) in *.
    assert (∀ b, doc_content (replica (<[a := d]> (mark_deleted target <$> sys)) b)
                 = doc_content (mark_deleted target (replica sys b))) as Hcontent.
    { intros b. rewrite replica_insert. destruct (decide (a = b)) as [<-|Hne].
      - eapply localDelete_marks; [|done].
        eapply sublist_NoDup; [apply (am_nodup _ (wf_tree _ (inv_wf _ Hinv a)))|].
        apply fmap_sublist, sublist_filter.
      - by rewrite replica_fmap. }
    assert (∀ x, in_sys (<[a := d]> (mark_deleted target <$> sys)) x →
              ∃ x0, in_sys sys x0 ∧ same_item x x0
                ∧ isDeleted x
                  = (idEq (Some (item_id x0)) target && negb (is_null (item_content x0)))
                    || isDeleted x0) as Hrep.
    { intros x [b Hx]. rewrite Hcontent in Hx.
      apply mark_deleted_elem in Hx as (x0 & Hx0 & ?). exists x0. split; [by exists b|done]. }
    split; [done| |].
    + split.
      * intros x (x0 & Hx0 & (_ & _ & _ & _ & -> & _) & _)%Hrep. by apply (sh_content _ Hsh).
      * intros x y (x0 & Hx0 & Hsx & ->)%Hrep (y0 & Hy0 & Hsy & ->)%Hrep Hid.
        assert (item_id x0 = item_id y0) as Hid0.
        { destruct Hsx as [<- _], Hsy as [<- _]. done. }
        rewrite (sh_flag _ Hsh x0 y0), Hid0 by done.
        pose proof (sh_content _ Hsh _ Hx0). pose proof (sh_content _ Hsh _ Hy0).
        by destruct (item_content x0), (item_content y0).
    + intros b. rewrite Hcontent. eapply am_sorted_copies; [apply (Hso b)|].
      apply mark_deleted_copies.
  - (* delivery of one item *)
    apply Hupd; [done| |].
    + eapply am_sorted_integrate; [apply (inv_wf _ Hinv a)|apply Hso|exact Hop].
    + intros y [Hy| ->]%(integrateAutomerge_elem _ _ _ _ _ Hop); left; [by exists a|by exists b].
  - (* mergeInto *)
    destruct (am_conv_merge sys a b d) as [Hs Hin]; [done..|].
    apply Hupd; [done..|]. intros x Hx. left. by apply Hin.
Qed.

Lemma am_conv_reachable {T} (sys : gmap string (Doc T)) :
  sys_reachable automerge sys → am_conv sys.
Proof.
  induction 1 as [|sys sys' Hr IH Hstep]; [|by eapply am_conv_step].
  assert (∀ a, replica (∅ : gmap string (Doc T)) a = newDoc) as Hempty.
  { intros a. unfold replica. by rewrite lookup_empty. }
  split.
  - apply am_inv_reachable. constructor.
  - split.
    + intros x [b Hx]. rewrite Hempty in Hx. by apply elem_of_nil in Hx.
    + intros x y [b Hx]. rewrite Hempty in Hx. by apply elem_of_nil in Hx.
  - intros a. rewrite Hempty. apply am_sorted_nil.
Qed.

(** *** Replicas that have seen the same items *)


Lemma am_conv_content {T} (sys : gmap string (Doc T)) a b :
  am_conv sys →
  (∀ k s, 0 <= s →
     isInVersion (Some (k, s)) (doc_version (replica sys a)) = true
     ↔ isInVersion (Some (k, s)) (doc_version (replica sys b)) = true) →
  doc_content (replica sys a) = doc_content (replica sys b).
Proof.
  intros [Hinv Hsh Hso] Hv.
  assert (∀ a b,
            (∀ k s, 0 <= s →
               isInVersion (Some (k, s)) (doc_version (replica sys a)) = true →
               isInVersion (Some (k, s)) (doc_version (replica sys b)) = true) →
            ∀ x, x ∈ doc_content (replica sys a) → x ∈ doc_content (replica sys b)) as Hsub.
  { intros a' b' Hv' x Hx.
    pose proof (wf_version _ (inv_wf _ Hinv a') _ Hx) as Hin.
    destruct (wf_seq _ (inv_wf _ Hinv a') _ Hx) as [H0 _].
    destruct (item_id x) as [k s] eqn:Hid. simpl in H0.
    destruct (wf_closed _ (inv_wf _ Hinv b') k s H0 (Hv' _ _ H0 Hin)) as (y & Hy & Hidy).
    assert (x = y) as ->; [|done].
    apply same_item_eq.
    - apply (inv_same _ Hinv); [by exists a'|by exists b'|congruence].
    - apply (sh_flag _ Hsh); [by exists a'|by exists b'|congruence]. }
  assert (∀ x, x ∈ doc_content (replica sys a) ↔ x ∈ doc_content (replica sys b)) as Hsame.
  { intros x. split; apply Hsub; intros k s H0; by apply Hv. }
  pose proof (am_nodup _ (wf_tree _ (inv_wf _ Hinv a))) as Hnd1.
  pose proof (am_nodup _ (wf_tree _ (inv_wf _ Hinv b))) as Hnd2.
  pose proof (Hso a) as Hs1. pose proof (Hso b) as Hs2.
  set (c1 := doc_content (replica sys a)) in *.
  set (c2 := doc_content (replica sys b)) in *.
  assert (∀ x p, am_path c2 x p → am_path c1 x p) as H21.
  { intros x p. apply am_path_mono. intros y. by rewrite Hsame. }
  apply (StronglySorted_unique_strong (am_path_lt c1)).
  - intros x y _ _ (p & q & Hp1 & Hq1 & Hlt) (q' & p' & Hq2 & Hp2 & Hlt').
    rewrite (am_path_unique _ _ _ _ Hnd1 Hp2 Hp1) in Hlt'.
    rewrite (am_path_unique _ _ _ _ Hnd1 Hq2 Hq1) in Hlt'.
    by destruct (alex_lt_asym _ _ Hlt).
  - apply index_sorted_StronglySorted. intros i j x y Hij Hx Hy.
    destruct (as_path _ Hs1 x) as [p Hpx]; [by eapply list_elem_of_lookup_2|].
    destruct (as_path _ Hs1 y) as [q Hqy]; [by eapply list_elem_of_lookup_2|].
    exists p, q. split; [done|]. split; [done|]. by eapply (as_sorted _ Hs1 i j).
  - apply index_sorted_StronglySorted. intros i j x y Hij Hx Hy.
    destruct (as_path _ Hs2 x) as [p Hpx]; [by eapply list_elem_of_lookup_2|].
    destruct (as_path _ Hs2 y) as [q Hqy]; [by eapply list_elem_of_lookup_2|].
    exists p, q. split; [auto|]. split; [auto|]. by eapply (as_sorted _ Hs2 i j).
  - apply NoDup_Permutation; [by eapply NoDup_fmap_1..|done].
Qed.

(** X20: in every system of replicas reached by local inserts, local
    deletes, deliveries of ready items and merges under Automerge, two
    replicas with the same version hold the same items in the same
    order, with the same [isDeleted] flags, and so the same array. *)
Theorem automerge_converges {T} (sys : gmap string (Doc T)) (a b : string) :
  sys_reachable automerge sys →
  doc_version (replica sys a) = doc_version (replica sys b) →
  doc_content (replica sys a) = doc_content (replica sys b)
  ∧ getArray (replica sys a) = getArray (replica sys b).
Proof.
  intros Hcv%am_conv_reachable Hv.
  assert (doc_content (replica sys a) = doc_content (replica sys b)) as Hc.
  { apply am_conv_content; [done|]. intros k s _. by rewrite Hv. }
  split; [done|]. unfold getArray. by rewrite Hc.
Qed.

Lemma automerge_converges_witness :
  doc_content (replica two_replica_sys "A") = doc_content (replica two_replica_sys "B")
  ∧ getArray (replica two_replica_sys "A") = getArray (replica two_replica_sys "B").
Proof.
  apply (automerge_converges two_replica_sys "A" "B"); [|reflexivity].
  apply (sys_next automerge one_replica_sys).
  - apply (sys_next automerge ∅); [apply sys_init|].
    apply (step_insert automerge ∅ "A" 0 "x"%string). reflexivity.
  - apply (step_merge automerge one_replica_sys "B" "A"). reflexivity.
Defined.

(** X21: in such a system, for two replicas [a] and [b],
    [mergeInto(a, b)] followed by [mergeInto(b, a)] never fails and
    leaves both replicas with the same content and the same array. *)
Theorem automerge_merge_converges {T} (sys : gmap string (Doc T)) (a b : string) :
  sys_reachable automerge sys → a ≠ b →
  ∃ d1 d2,
    mergeInto automerge (replica sys a) (replica sys b) = Some (d1, Ok)
    ∧ mergeInto automerge (replica sys b) d1 = Some (d2, Ok)
    ∧ doc_content d1 = doc_content d2
    ∧ getArray d1 = getArray d2.
Proof.
  intros Hr Hab.
  destruct (valid_mergeInto_succeeds automerge (replica sys a) (replica sys b))
    as [d1 Hm1]; [by apply Valid_valid_doc, sys_reachable_Valid..|].
  set (sys1 := <[a := d1]> sys).
  assert (sys_reachable automerge sys1) as Hr1.
  { apply (sys_next automerge sys); [done|]. by apply step_merge with b. }
  assert (replica sys1 a = d1) as Ha1.
  { unfold sys1. by rewrite replica_insert, decide_True. }
  assert (replica sys1 b = replica sys b) as Hb1.
  { unfold sys1. by rewrite replica_insert, decide_False. }
  destruct (valid_mergeInto_succeeds automerge (replica sys1 b) (replica sys1 a))
    as [d2 Hm2]; [by apply Valid_valid_doc, sys_reachable_Valid..|].
  set (sys2 := <[b := d2]> sys1).
  assert (sys_reachable automerge sys2) as Hr2.
  { apply (sys_next automerge sys1); [done|]. by apply step_merge with a. }
  assert (replica sys2 a = d1) as Ha2.
  { unfold sys2. by rewrite replica_insert, decide_False. }
  assert (replica sys2 b = d2) as Hb2.
  { unfold sys2. by rewrite replica_insert, decide_True. }
  rewrite Ha1, Hb1 in Hm2. exists d1, d2. do 2 (split; [done|]).
  pose proof (am_conv_reachable _ Hr) as Hcv.
  pose proof (am_conv_reachable _ Hr1) as Hcv1.
  pose proof (am_conv_reachable _ Hr2) as Hcv2.
  assert (doc_content d1 = doc_content d2) as Hc.
  { rewrite <- Ha2, <- Hb2. apply am_conv_content; [done|].
    rewrite Ha2, Hb2. intros k s H0. split; intros Hin.
    - pose proof (inv_wf _ (cv_inv _ Hcv1) a) as Hwf. rewrite Ha1 in Hwf.
      destruct (wf_closed _ Hwf k s H0 Hin) as (x & Hx & Hid).
      rewrite <- Hid.
      eapply mergeInto_covers; [exact Hm2|exact Hx|].
      apply (sh_content _ (cv_shared _ Hcv1)). exists a. by rewrite Ha1.
    - pose proof (inv_wf _ (cv_inv _ Hcv2) b) as Hwf. rewrite Hb2 in Hwf.
      destruct (wf_closed _ Hwf k s H0 Hin) as (x & Hx & Hid). rewrite <- Hid.
      assert (x ∈ doc_content (replica sys b) ∨ x ∈ doc_content d1) as [Hxb|Hx1].
      { clear Hid. revert x Hx. unfold mergeInto in Hm2. revert Hm2.
        apply (merge_loop_preserves automerge
                 (λ d, ∀ x, x ∈ doc_content d →
                         x ∈ doc_content (replica sys b) ∨ x ∈ doc_content d1)
                 (λ op, op ∈ doc_content d1)).
        - intros d0 n d0' Hd0 Hn _ Hi x [Hx| ->]%(integrateAutomerge_elem _ _ _ _ _ Hi);
            [by apply Hd0|by right].
        - intros op (x & [= <-] & [Hx _]%missing_of_elem)%list_elem_of_fmap. done.
        - intros x Hx. by left. }
      + eapply mergeInto_covers; [exact Hm1|exact Hxb|].
        apply (sh_content _ (cv_shared _ Hcv)). by exists b.
      + pose proof (inv_wf _ (cv_inv _ Hcv1) a) as Hwf1. rewrite Ha1 in Hwf1.
        by apply (wf_version _ Hwf1). }
  split; [done|]. unfold getArray. by rewrite Hc.
Qed.

Lemma automerge_merge_converges_witness :
  ∃ d1 d2,
    mergeInto automerge (replica one_replica_sys "B") (replica one_replica_sys "A")
      = Some (d1, Ok)
    ∧ mergeInto automerge (replica one_replica_sys "A") d1 = Some (d2, Ok)
    ∧ doc_content d1 = doc_content d2
    ∧ getArray d1 = getArray d2.
Proof.
  apply (automerge_merge_converges one_replica_sys "B" "A"); [|discriminate].
  apply (sys_next automerge ∅); [apply sys_init|].
  apply (step_insert automerge ∅ "A" 0 "x"%string). reflexivity.
Defined.

(** X22: in such a system two items of a document with the same
    [originLeft] stand in the order of their keys: the item with the
    higher [seq] first, for equal [seq] the item of the smaller agent
    name first, and for one agent the item created first. *)
Theorem automerge_sibling_order {T} (sys : gmap string (Doc T)) (a : string)
    (i j : nat) (x y : Item T) :
  sys_reachable automerge sys →
  doc_content (replica sys a) !! i = Some x →
  doc_content (replica sys a) !! j = Some y →
  originLeft x = originLeft y →
  (i < j)%nat ↔
    item_seq y < item_seq x
    ∨ (item_seq x = item_seq y
       ∧ (String.ltb (item_id x).1 (item_id y).1 = true
          ∨ ((item_id x).1 = (item_id y).1 ∧ (item_id x).2 < (item_id y).2))).
Proof.
  intros [Hinv _ Hso]%am_conv_reachable Hx Hy Hol.
  pose proof (am_nodup _ (wf_tree _ (inv_wf _ Hinv a))) as Hnd.
  specialize (Hso a). set (c := doc_content (replica sys a)) in *.
  destruct (as_path _ Hso x) as [p Hp]; [by eapply list_elem_of_lookup_2|].
  destruct (as_path _ Hso y) as [q Hq]; [by eapply list_elem_of_lookup_2|].
  destruct (am_path_inv _ _ _ Hp) as (P & HP & Hroot & Hchild).
  destruct (am_path_inv _ _ _ Hq) as (Q & HQ & Hroot' & Hchild').
  assert (Q = P) as ->.
  { destruct (originLeft x) as [pid|] eqn:Hox.
    - destruct (Hchild _ eq_refl) as (u & Hu & Hidu & Hpu).
      destruct (Hchild' _ (eq_sym Hol)) as (v & Hv & Hidv & Hpv).
      assert (v = u) as -> by (eapply NoDup_ids_elem; [done..|congruence]).
      by eapply am_path_unique.
    - rewrite Hroot, Hroot' by done. done. }
  change (akey_lt (am_key x) (am_key y)) with
    (item_seq y < item_seq x
     ∨ (item_seq x = item_seq y
        ∧ (String.ltb (item_id x).1 (item_id y).1 = true
           ∨ ((item_id x).1 = (item_id y).1 ∧ (item_id x).2 < (item_id y).2)))).
  split.
  - intros Hij. pose proof (as_sorted _ Hso i j x y p q Hij Hx Hy Hp Hq) as Hlt.
    rewrite HP, HQ in Hlt. apply alex_lt_app in Hlt.
    inversion Hlt as [|? ? ? ? Hk|? ? ? Hn]; subst; [exact Hk|inversion Hn].
  - intros Hk. eapply (am_sorted_index c); [done..|].
    rewrite HP, HQ. apply alex_lt_app. by apply alex_head.
Qed.

Lemma automerge_sibling_order_witness :
  (0 < 1)%nat ↔
    item_seq sibling_b < item_seq sibling_a
    ∨ (item_seq sibling_a = item_seq sibling_b
       ∧ (String.ltb (item_id sibling_a).1 (item_id sibling_b).1 = true
          ∨ ((item_id sibling_a).1 = (item_id sibling_b).1
             ∧ (item_id sibling_a).2 < (item_id sibling_b).2))).
Proof.
  apply (automerge_sibling_order sibling_sys "A" 0 1 sibling_a sibling_b);
    [|reflexivity..].
  apply (sys_next automerge
           (<["B"%string := (localInsert automerge newDoc "B" 0 "y"%string).1]> one_replica_sys)).
  - apply (sys_next automerge one_replica_sys).
    + apply (sys_next automerge ∅); [apply sys_init|].
      apply (step_insert automerge ∅ "A" 0 "x"%string). reflexivity.
    + apply (step_insert automerge one_replica_sys "B" 0 "y"%string). reflexivity.
  - apply (step_merge automerge _ "A" "B"). reflexivity.
Defined.

(** *** Splicing into a Sync9 document *)

Lemma sync9_doc_nil {T} : sync9_doc (@nil (Item T)).
Proof.
  split.
  - intros i x a s Hx. done.
  - intros i j x y z _ Hx. done.
  - intros x Hx. by apply elem_of_nil in Hx.
Qed.

Lemma sync9_doc_splice {T} (c : list (Item T)) d M :
  sync9_doc c → 0 <= d <= lenZ c →
  (∀ a s, originLeft M = Some (a, s) →
     ∃ j y, Z.of_nat j < d ∧ c !! j = Some y ∧ needle_match (insertAfter M) a s y = true) →
  originLeft M ≠ Some (item_id M) →
  (∀ x, nthZ c d = Some x → originLeft x ≠ Some (item_id M)) →
  (∀ i x, c !! i = Some x → item_id x = item_id M → d < Z.of_nat i →
     ∃ j y, (j < i)%nat ∧ c !! j = Some y ∧ item_id y = item_id x) →
  (∀ j y z, Z.of_nat j < d → c !! j = Some y → item_id y = item_id M →
     nthZ c (d - 1) = Some z → originLeft M ≠ Some (item_id z)) →
  sync9_doc (splice c d M).
Proof.
  intros [Hpar Hsplit Hself] Hd HA HselfM H1 H2 H3. split.
  - intros i x a s Hx Hol. apply splice_lookup in Hx; [|lia].
    destruct Hx as [[Hi Hx]|[[Hi ->]|[Hi Hx]]].
    + destruct (Hpar _ _ _ _ Hx Hol) as (j & y & Hj & Hy & Hm). exists j, y.
      split; [done|]. split; [|done]. apply splice_lookup; [lia|]. left. split; [lia|done].
    + destruct (HA _ _ Hol) as (j & y & Hj & Hy & Hm). exists j, y.
      split; [lia|]. split; [|done]. apply splice_lookup; [lia|]. left. split; [lia|done].
    + destruct (Hpar _ _ _ _ Hx Hol) as (j & y & Hj & Hy & Hm).
      destruct (Z.lt_ge_cases (Z.of_nat j) d).
      * exists j, y. split; [lia|]. split; [|done].
        apply splice_lookup; [lia|]. left. split; [lia|done].
      * exists (S j), y. split; [lia|]. split; [|done].
        apply splice_lookup; [lia|]. right. right. split; [lia|].
        by replace (S j - 1)%nat with j by lia.
  - intros i j x y z Hji Hx Hy Hid Hz.
    apply splice_lookup in Hx; [|lia]. apply splice_lookup in Hy; [|lia].
    apply splice_lookup in Hz; [|lia].
    destruct Hx as [[Hi Hx]|[[Hi ->]|[Hi Hx]]].
    + destruct Hy as [[Hj Hy]|[[Hj ->]|[Hj Hy]]]; [|lia..].
      destruct Hz as [[Hk Hz]|[[Hk ->]|[Hk Hz]]]; [|lia..].
      exact (Hsplit i j x y z Hji Hx Hy Hid Hz).
    + destruct Hy as [[Hj Hy]|[[Hj ->]|[Hj Hy]]]; [|lia..].
      destruct Hz as [[Hk Hz]|[[Hk ->]|[Hk Hz]]]; [|lia..].
      apply (H3 j y z); [lia|done|done|]. apply nthZ_Some. split; [lia|].
      by replace (Z.to_nat (d - 1)) with (i - 1)%nat by lia.
    + destruct Hz as [[Hk Hz]|[[Hk ->]|[Hk Hz]]].
      * lia.
      * apply (H1 x). apply nthZ_Some. split; [lia|].
        by replace (Z.to_nat d) with (i - 1)%nat by lia.
      * assert (∃ j0 y0, (j0 < i - 1)%nat ∧ c !! j0 = Some y0 ∧ item_id y0 = item_id x)
          as (j0 & y0 & Hj0 & Hy0 & Hid0).
        { destruct Hy as [[Hj Hy]|[[Hj ->]|[Hj Hy]]].
          - exists j, y. split; [lia|done].
          - apply (H2 (i - 1)%nat x); [done|by symmetry|lia].
          - exists (j - 1)%nat, y. split; [lia|done]. }
        exact (Hsplit (i - 1)%nat j0 x y0 z Hj0 Hx Hy0 Hid0 Hz).
  - intros x [Hx| ->]%splice_elem_of; [by apply Hself|done].
Qed.

(** *** A successful [integrateSync9] *)

Lemma sync9_scan_range {T} (doc : Doc T) N hint parent rest destIdx r :
  sync9_scan doc N hint parent rest destIdx = inr r →
  destIdx <= r <= destIdx + lenZ rest.
Proof.
  revert destIdx. induction rest as [|O rest IH]; intros destIdx; simpl.
  - intros [= <-]. unfold lenZ. simpl. lia.
  - assert (lenZ (O :: rest) = lenZ rest + 1) as -> by (unfold lenZ; simpl; lia).
    pose proof (IH (destIdx + 1)) as IH'.
    repeat (case_match; try done); try (intros [= <-]; unfold lenZ; lia);
      intros ?%IH'; lia.
Qed.

Lemma sync9_scan_content {T} (d1 d2 : Doc T) N hint parent rest i :
  doc_content d1 = doc_content d2 →
  sync9_scan d1 N hint parent rest i = sync9_scan d2 N hint parent rest i.
Proof.
  intros H. revert i. induction rest as [|O rest IH]; intros i; simpl; [done|].
  rewrite (findItem2_content d1 d2) by done.
  by repeat (case_match; try done).
Qed.

Lemma integrateSync9_inv {T} (doc doc' : Doc T) N h :
  integrateSync9 doc N h = (doc', Ok) →
  ∃ p, findItem2 doc (originLeft N) (insertAfter N) (h - 1) = inr p ∧
    ((∃ dI, p < dI <= lenZ (doc_content doc)
        ∧ doc_content doc' = splice (doc_content doc) dI N)
     ∨ (∃ P, nthZ (doc_content doc) p = Some P ∧ item_content P ≠ None
          ∧ insertAfter N = false
          ∧ doc_content doc'
            = splice (splice (doc_content doc) p (placeholder P)) (p + 1) N)).
Proof.
  unfold integrateSync9. destruct (item_id N) as [agent seq].
  destruct (negb _); [done|].
  set (doc1 := set_version doc agent seq).
  rewrite (findItem2_content doc1 doc) by done.
  destruct (findItem2 doc (originLeft N) (insertAfter N) (h - 1)) as [|p] eqn:Hp; [done|].
  assert (sync9_walk doc1 N h p = (doc', Ok) →
          ∃ dI, p < dI <= lenZ (doc_content doc)
            ∧ doc_content doc' = splice (doc_content doc) dI N) as Hwalk.
  { unfold sync9_walk. rewrite (sync9_scan_content doc1 doc) by done.
    change (doc_content doc1) with (doc_content doc).
    destruct (sync9_scan _ _ _ _ _ _) as [|dI] eqn:Hscan; [done|].
    intros [= <-]. exists dI. apply sync9_scan_range in Hscan.
    apply findItem2_range in Hp.
    assert (lenZ (drop (Z.to_nat (p + 1)) (doc_content doc)) = lenZ (doc_content doc) - (p + 1))
      as Hlen by (unfold lenZ in *; rewrite length_drop; lia).
    rewrite Hlen in Hscan. split; [lia|].
    unfold commitSync9. by destruct (negb (isDeleted N) && negb (is_null (item_content N))). }
  intros H. exists p. split; [done|].
  destruct ((0 <=? p) && negb (is_null (originLeft N)) && negb (insertAfter N)) eqn:Hc;
    [|left; by apply Hwalk].
  change (doc_content doc1) with (doc_content doc) in H.
  destruct (nthZ (doc_content doc) p) as [P|] eqn:HP; [|done].
  destruct (item_content P) as [cP|] eqn:HcP; simpl in H; [|left; by apply Hwalk].
  right. exists P. split; [done|]. split; [by rewrite HcP|].
  apply andb_true_iff in Hc as [_ Hia]. apply negb_true_iff in Hia. split; [done|].
  injection H as <-. unfold commitSync9.
  by destruct (negb (isDeleted N) && negb (is_null (item_content N))).
Qed.

(** *** [integrate] keeps the shape of a Sync9 document *)

Lemma lenZ_splice {A} (c : list A) d x : 0 <= d <= lenZ c → lenZ (splice c d x) = lenZ c + 1.
Proof.
  unfold lenZ, splice. intros Hd.
  rewrite length_app, length_take, length_cons, length_drop. lia.
Qed.

Lemma needle_match_id {T} (x y : Item T) a s :
  item_id x = item_id y → needle_match false a s x = needle_match false a s y.
Proof. unfold needle_match. intros ->. cbn [negb andb]. by rewrite !andb_false_r. Qed.

Lemma needle_match_same {T} (x y : Item T) atEnd a s :
  same_item x y → needle_match atEnd a s x = needle_match atEnd a s y.
Proof. intros (Hid & _ & _ & _ & Hc & _). unfold needle_match. by rewrite Hid, Hc. Qed.

Lemma needle_match_true {T} (x : Item T) atEnd a s :
  needle_match atEnd a s x = true → item_id x = (a, s).
Proof.
  unfold needle_match. rewrite orb_true_iff, !andb_true_iff.
  intros [[_ H]|[_ H]]; by apply idEq2_true in H.
Qed.

Lemma sync9_doc_integrate {T} (d d' : Doc T) N h :
  valid_doc sync9 d → sync9_doc (doc_content d) → anchored (doc_content d) N →
  integrate sync9 d N h = (d', Ok) → sync9_doc (doc_content d').
Proof.
  intros Hv Hs Han Hi. destruct (integrate_ok_version _ _ _ _ _ Hi) as [Hr _].
  simpl in Hi. apply integrateSync9_inv in Hi as (p & Hp & Hshape).
  set (c := doc_content d) in *.
  assert (∀ y, y ∈ c → item_id y ≠ item_id N) as Hfresh.
  { intros y Hy. by eapply version_exact_fresh; [apply (vd_exact _ _ Hv)|..]. }
  assert (∀ x, x ∈ c ∨ x = N → originLeft x ≠ Some (item_id N)) as Hnamed.
  { intros x Hx Hol.
    assert (anchored c x) as [Hl _] by (destruct Hx as [Hx| ->]; [by apply (vd_anchored _ _ Hv)|done]).
    destruct (Hl _ Hol) as (y & Hy & Hid & _). by destruct (Hfresh y). }
  pose proof (findItem2_range _ _ _ _ _ Hp) as Hprange. fold c in Hprange.
  assert (∀ a s, originLeft N = Some (a, s) →
            ∃ it, 0 <= p ∧ c !! Z.to_nat p = Some it
                  ∧ needle_match (insertAfter N) a s it = true) as Hparent.
  { intros a s Hol. rewrite Hol in Hp.
    apply findItem2_inr in Hp as (it & [H0 Hit]%nthZ_Some & Hm). eauto. }
  destruct Hshape as [(dI & HdI & ->)|(P & HP & HcP & Hia & ->)].
  - apply sync9_doc_splice; [done|lia| | | | |].
    + intros a s Hol. destruct (Hparent _ _ Hol) as (it & H0 & Hit & Hm).
      exists (Z.to_nat p), it. split; [lia|done].
    + apply Hnamed. by right.
    + intros x [_ Hx%list_elem_of_lookup_2]%nthZ_Some. apply Hnamed. by left.
    + intros i x Hx%list_elem_of_lookup_2 Hid. by destruct (Hfresh x).
    + intros j y z _ Hy%list_elem_of_lookup_2 Hid. by destruct (Hfresh y).
  - apply nthZ_Some in HP as HP'. destruct HP' as [H0 HP'].
    assert (P ∈ c) as HPin by (by eapply list_elem_of_lookup_2).
    assert (sync9_doc (splice c p (placeholder P))) as Hs1.
    { apply sync9_doc_splice; [done|lia| | | | |].
      - intros a s Hol. destruct (s9_parent _ Hs _ _ _ _ HP' Hol) as (j & y & Hj & Hy & Hm).
        exists j, y. split; [lia|done].
      - exact (s9_self _ Hs P HPin).
      - intros x Hx. rewrite HP in Hx. injection Hx as <-. exact (s9_self _ Hs P HPin).
      - intros i x Hx Hid Hi. exists (Z.to_nat p), P. split; [lia|]. split; [done|by symmetry].
      - intros j y z Hj Hy Hid [H1 Hz]%nthZ_Some.
        apply (s9_split _ Hs (Z.to_nat p) j P y z); [lia|done..|].
        by replace (Z.to_nat p - 1)%nat with (Z.to_nat (p - 1)) by lia. }
    assert (∀ x, x ∈ splice c p (placeholder P) → item_id x ≠ item_id N) as Hfresh1.
    { intros x [Hx| ->]%splice_elem_of; [by apply Hfresh|]. by apply (Hfresh P). }
    apply sync9_doc_splice; [done|rewrite lenZ_splice; lia| | | | |].
    + intros a s Hol. destruct (Hparent _ _ Hol) as (it & _ & Hit & Hm).
      rewrite HP' in Hit. injection Hit as <-. rewrite Hia in *.
      exists (Z.to_nat p), (placeholder P). split; [lia|]. split.
      * apply splice_lookup; [lia|]. right. left. split; [lia|done].
      * by rewrite (needle_match_id _ P).
    + apply Hnamed. by right.
    + intros x [_ Hx]%nthZ_Some. apply splice_lookup in Hx; [|lia].
      destruct Hx as [[? _]|[[? _]|[_ Hx]]]; [lia..|].
      replace (Z.to_nat (p + 1) - 1)%nat with (Z.to_nat p) in Hx by lia.
      rewrite HP' in Hx. injection Hx as <-. apply Hnamed. by left.
    + intros i x Hx%list_elem_of_lookup_2 Hid. by destruct (Hfresh1 x).
    + intros j y z _ Hy%list_elem_of_lookup_2 Hid. by destruct (Hfresh1 y).
Qed.

Lemma sync9_doc_copies {T} (c c' : list (Item T)) :
  sync9_doc c → Forall2 (λ x y, same_item x y) c' c → sync9_doc c'.
Proof.
  intros [Hpar Hsplit Hself] Hcopy. split.
  - intros i x' a s Hx' Hol.
    destruct (Forall2_lookup_l _ _ _ _ _ Hcopy Hx') as (x & Hx & Hsx).
    destruct (Hpar i x a s Hx) as (j & y & Hj & Hy & Hm).
    { destruct Hsx as (_ & <- & _). done. }
    destruct (Forall2_lookup_r _ _ _ _ _ Hcopy Hy) as (y' & Hy' & Hsy).
    exists j, y'. split; [done|]. split; [done|].
    rewrite (needle_match_same _ _ _ _ _ Hsy).
    destruct Hsx as (_ & _ & _ & _ & _ & ->). done.
  - intros i j x' y' z' Hji Hx' Hy' Hid Hz' Hol.
    destruct (Forall2_lookup_l _ _ _ _ _ Hcopy Hx') as (x & Hx & Hsx).
    destruct (Forall2_lookup_l _ _ _ _ _ Hcopy Hy') as (y & Hy & Hsy).
    destruct (Forall2_lookup_l _ _ _ _ _ Hcopy Hz') as (z & Hz & Hsz).
    apply (Hsplit i j x y z Hji Hx Hy); [|done|].
    + destruct Hsx as (<- & _), Hsy as (<- & _). done.
    + destruct Hsx as (_ & <- & _), Hsz as (<- & _). done.
  - intros x' Hx' Hol. destruct (same_items_l _ _ _ Hcopy Hx') as (x & Hx & Hsx).
    apply (Hself x Hx). destruct Hsx as (<- & <- & _). done.
Qed.

Lemma Valid_sync9_doc {T} (d : Doc T) : Valid sync9 d → sync9_doc (doc_content d).
Proof.
  induction 1 as [|d a p c d' HV IH H|d a p d' HV IH H|d target HV IH
                  |d n h d' HV IH Hc Ha H|d src d' HV IH HVs IHs H].
  - apply sync9_doc_nil.
  - pose proof (Valid_valid_doc _ _ HV) as Hd.
    apply alg_localInsert_anchored in H as (n & h & Hc & Ha & H); [|apply (vd_content _ _ Hd)].
    by eapply sync9_doc_integrate.
  - apply localDelete_ids in H as (_ & _ & Hsame). by eapply sync9_doc_copies.
  - eapply sync9_doc_copies; [done|apply mark_deleted_copies].
  - eapply sync9_doc_integrate; [by apply Valid_valid_doc|done..].
  - pose proof (Valid_valid_doc _ _ HV) as Hd. pose proof (Valid_valid_doc _ _ HVs) as Hsrc.
    unfold mergeInto in H.
    enough (valid_doc sync9 d' ∧ sync9_doc (doc_content d')) by tauto.
    revert H.
    apply (merge_loop_preserves sync9
             (λ d, valid_doc sync9 d ∧ sync9_doc (doc_content d))
             (λ op, op ∈ doc_content src ∧ item_content op ≠ None)).
    + intros d0 n d0' [Hd0 Hs0] [Hn Hc] Hcan Hi.
      assert (anchored (doc_content d0) n) as Han
        by exact (valid_doc_ready_anchored sync9 d0 src n Hd0 Hsrc Hn Hcan).
      split; [by eapply valid_doc_integrate|by eapply sync9_doc_integrate].
    + intros op (x & [= <-] & Hx%missing_of_elem)%list_elem_of_fmap. tauto.
    + done.
Qed.

(** *** Lookups in a Sync9 document *)

Lemma findItem2_hit {T} (doc : Doc T) a s atEnd h it :
  nthZ (doc_content doc) h = Some it → needle_match atEnd a s it = true →
  findItem2 doc (Some (a, s)) atEnd h = inr h.
Proof.
  intros Hit Hm. unfold findItem2. pose proof (nthZ_lt _ _ _ Hit) as Hr.
  destruct (Z.leb_spec 0 h); [|lia]. destruct (Z.ltb_spec h (lenZ (doc_content doc))); [|lia].
  simpl. by rewrite Hit, Hm.
Qed.

(** A lookup that misses the hint returns the first item that passes the
    test, at or before any item that passes it. *)
Lemma findItem2_first {T} (doc : Doc T) a s atEnd h j y :
  doc_content doc !! j = Some y → needle_match atEnd a s y = true →
  (∀ it, nthZ (doc_content doc) h = Some it → needle_match atEnd a s it = false) →
  ∃ j0 y0, findItem2 doc (Some (a, s)) atEnd h = inr (Z.of_nat j0) ∧ (j0 <= j)%nat
    ∧ doc_content doc !! j0 = Some y0 ∧ needle_match atEnd a s y0 = true.
Proof.
  intros Hy Hm Hmiss.
  destruct (findItem2_hint_cases doc (Some (a, s)) atEnd h)
    as [->|(a' & s' & it & [= <- <-] & Hit & Hmit & _)].
  2:{ rewrite (Hmiss _ Hit) in Hmit. done. }
  destruct (findItem2 doc (Some (a, s)) atEnd (-1)) as [e|idx] eqn:E.
  { apply findItem2_nohint_inl in E as [_ Hno].
    rewrite (Hno y) in Hm; [done|by eapply list_elem_of_lookup_2]. }
  apply findItem2_nohint_inr in E as (y0 & [H0 Hy0]%nthZ_Some & Hm0 & Hfirst).
  exists (Z.to_nat idx), y0. split; [f_equal; lia|]. split; [|done].
  destruct (Nat.le_gt_cases (Z.to_nat idx) j) as [|Hlt]; [done|].
  rewrite (Hfirst (Z.of_nat j) y) in Hm; [done|lia|]. apply nthZ_Some.
  split; [lia|]. by rewrite Nat2Z.id.
Qed.

(** In a Sync9 document the item at index [i] that does not name the
    item before it has its parent before index [i - 1]. *)
Lemma sync9_next_parent {T} (doc : Doc T) i o :
  sync9_doc (doc_content doc) → nthZ (doc_content doc) i = Some o →
  idEq (originLeft o) (idAt doc (i - 1)) = false →
  ∃ op, findItem2 doc (originLeft o) (insertAfter o) (i - 1) = inr op ∧ op < i - 1.
Proof.
  intros Hs [H0 Ho]%nthZ_Some Hne.
  destruct (originLeft o) as [[a s]|] eqn:Hol.
  - destruct (s9_parent _ Hs _ _ _ _ Ho Hol) as (j & y & Hj & Hy & Hm).
    assert (∀ it, nthZ (doc_content doc) (i - 1) = Some it →
              needle_match (insertAfter o) a s it = false) as Hmiss.
    { intros it Hit. destruct (needle_match (insertAfter o) a s it) eqn:Hmit; [|done].
      apply needle_match_true in Hmit. unfold idAt in Hne. rewrite Hit in Hne. cbn [fmap option_fmap option_map] in Hne.
      rewrite Hmit in Hne. by rewrite (proj2 (idEq_Some_true (a, s) (a, s)) eq_refl) in Hne. }
    destruct (findItem2_first doc a s (insertAfter o) (i - 1) j y Hy Hm Hmiss)
      as (j0 & y0 & Hf & Hj0 & Hy0 & Hm0).
    exists (Z.of_nat j0). split; [done|].
    destruct (decide (Z.of_nat j0 = i - 1)) as [Heq|]; [|lia].
    rewrite (Hmiss y0) in Hm0; [done|]. apply nthZ_Some. split; [lia|].
    by rewrite <- Heq, Nat2Z.id.
  - exists (-1). split; [done|].
    unfold idAt in Hne. destruct (nthZ (doc_content doc) (i - 1)) as [z|] eqn:Hz; [|done].
    apply nthZ_Some in Hz. lia.
Qed.

(** An item of a Sync9 document that names the item before it is the
    first item with its id. *)
Lemma sync9_first_copy {T} (doc : Doc T) i Y :
  sync9_doc (doc_content doc) → nthZ (doc_content doc) i = Some Y →
  idEq (originLeft Y) (idAt doc (i - 1)) = true →
  findItem2 doc (Some (item_id Y)) false (i - 1) = inr i.
Proof.
  intros Hs [H0 HY]%nthZ_Some Heq.
  assert (∀ j y, (j < Z.to_nat i)%nat → doc_content doc !! j = Some y →
            item_id y ≠ item_id Y) as Hnone.
  { intros j y Hj Hy Hid.
    destruct (lookup_lt_is_Some_2 (doc_content doc) (Z.to_nat i - 1)) as [z Hz].
    { apply lookup_lt_Some in HY. lia. }
    apply (s9_split _ Hs _ _ _ _ _ Hj HY Hy Hid Hz).
    unfold idAt in Heq.
    assert (nthZ (doc_content doc) (i - 1) = Some z) as Hz'.
    { apply nthZ_Some. split; [lia|]. by replace (Z.to_nat (i - 1)) with (Z.to_nat i - 1)%nat by lia. }
    rewrite Hz' in Heq. cbn [fmap option_fmap option_map] in Heq.
    destruct (originLeft Y) as [q|]; [|done]. apply idEq_Some_true in Heq. by rewrite Heq. }
  assert (needle_match false (item_id Y).1 (item_id Y).2 Y = true) as HmY.
  { unfold needle_match. by rewrite idEq2_self. }
  destruct (item_id Y) as [a s] eqn:HidY. simpl in HmY.
  destruct (findItem2_first doc a s false (i - 1) (Z.to_nat i) Y HY HmY)
    as (j0 & y0 & Hf & Hj0 & Hy0 & Hm0).
  { intros it [H1 Hit]%nthZ_Some. destruct (needle_match false a s it) eqn:Hm; [|done].
    apply needle_match_true in Hm. destruct (Hnone (Z.to_nat (i - 1)) it); [lia|done|congruence]. }
  assert (j0 = Z.to_nat i) as ->.
  { destruct (decide (j0 = Z.to_nat i)) as [->|Hne]; [done|].
    apply needle_match_true in Hm0. destruct (Hnone j0 y0); [lia|done|congruence]. }
  rewrite Z2Nat.id in Hf by lia. exact Hf.
Qed.

(** *** The position found by [localInsertSync9] *)

Lemma findItemAtPos_from_stick_take {T} (l : list (Item T)) i pos :
  0 <= pos <= visible_count l →
  ∃ n, findItemAtPos_from l i pos true = inr (i + Z.of_nat n)
       ∧ (n <= length l)%nat
       ∧ visible_count (take n l) = pos
       ∧ (pos = 0 → n = 0%nat)
       ∧ (0 < pos → ∃ x, (0 < n)%nat ∧ l !! (n - 1)%nat = Some x ∧ visible x = true).
Proof.
  revert i pos. induction l as [|a l IH]; intros i pos Hpos.
  - unfold visible_count, lenZ in Hpos. simpl in Hpos. assert (pos = 0) as -> by lia.
    exists 0%nat. simpl. rewrite Z.add_0_r.
    split; [done|]. split; [done|]. split; [reflexivity|]. split; [done|lia].
  - rewrite visible_count_cons in Hpos. pose proof (visible_count_nonneg l).
    simpl. destruct (Z.eqb_spec pos 0) as [->|Hp0].
    { exists 0%nat. rewrite Z.add_0_r.
      split; [done|]. split; [simpl; lia|]. split; [reflexivity|]. split; [done|lia]. }
    rewrite not_visible. destruct (visible a) eqn:Hv; simpl.
    + destruct (IH (i + 1) (pos - 1)) as (n & -> & Hn & Ht & Hz & Hlast); [lia|].
      exists (S n). split; [f_equal; lia|]. split; [simpl; lia|].
      split; [simpl; rewrite visible_count_cons, Hv; lia|]. split; [lia|].
      intros _. destruct (decide (pos = 1)) as [->|Hne].
      * rewrite (Hz eq_refl). exists a. split; [lia|]. split; [done|done].
      * destruct Hlast as (x & Hn0 & Hx & Hvx); [lia|]. exists x. split; [lia|].
        split; [|done]. simpl. rewrite Nat.sub_0_r.
        destruct n as [|n]; [lia|]. simpl in *. by rewrite Nat.sub_0_r in Hx.
    + destruct (IH (i + 1) pos) as (n & -> & Hn & Ht & Hz & Hlast); [lia|].
      exists (S n). split; [f_equal; lia|]. split; [simpl; lia|].
      split; [simpl; rewrite visible_count_cons, Hv; lia|]. split; [lia|].
      intros Hp. destruct Hlast as (x & Hn0 & Hx & Hvx); [lia|]. exists x. split; [lia|].
      split; [|done]. simpl. rewrite Nat.sub_0_r.
      destruct n as [|n]; [lia|]. simpl in *. by rewrite Nat.sub_0_r in Hx.
Qed.

Lemma idAt_Some {T} (doc : Doc T) i x :
  nthZ (doc_content doc) i = Some x → idAt doc i = Some (item_id x).
Proof. unfold idAt. by intros ->. Qed.

(** The scan of [localInsertSync9] passes placeholders only and stops
    either before an item that does not name the item before it, or at
    an item with content that does. *)
Lemma sync9_descend_spec {T} (doc : Doc T) rest i ol ia i' ol' ia' :
  0 <= i <= lenZ (doc_content doc) →
  drop (Z.to_nat i) (doc_content doc) = rest →
  sync9_descend rest i (idAt doc (i - 1)) ol ia = (i', ol', ia') →
  i <= i' <= lenZ (doc_content doc)
  ∧ (∀ j x, i <= Z.of_nat j < i' → doc_content doc !! j = Some x → item_content x = None)
  ∧ (((i' = lenZ (doc_content doc)
       ∨ ∃ o, nthZ (doc_content doc) i' = Some o
              ∧ idEq (originLeft o) (idAt doc (i' - 1)) = false)
      ∧ ((i' = i ∧ ol' = ol ∧ ia' = ia)
         ∨ (i < i' ∧ ol' = idAt doc (i' - 1) ∧ ia' = false
            ∧ ∃ Z, nthZ (doc_content doc) (i' - 1) = Some Z ∧ item_content Z = None)))
     ∨ (∃ Y, nthZ (doc_content doc) i' = Some Y ∧ item_content Y ≠ None
          ∧ idEq (originLeft Y) (idAt doc (i' - 1)) = true
          ∧ ol' = Some (item_id Y) ∧ ia' = false)).
Proof.
  revert i ol ia. induction rest as [|o rest IH]; intros i ol ia Hi Hd; simpl.
  - intros [= <- <- <-]. apply drop_nil_len in Hd; [|done].
    split; [lia|]. split; [intros j x Hj; lia|]. left. split; [by left|]. by left.
  - destruct (drop_nthZ _ _ _ _ (proj1 Hi) Hd) as (Ho & Hlt & Hd').
    destruct (idEq (originLeft o) (idAt doc (i - 1))) eqn:Heq; simpl.
    2:{ intros [= <- <- <-]. split; [lia|]. split; [intros j x Hj; lia|].
        left. split; [right; eauto|]. by left. }
    destruct (item_content o) as [co|] eqn:Hco; simpl.
    { intros [= <- <- <-]. split; [lia|]. split; [intros j x Hj; lia|].
      right. exists o. split; [done|]. split; [by rewrite Hco|]. done. }
    rewrite <- (idAt_Some doc i o Ho). replace i with (i + 1 - 1) at 2 by lia.
    intros Hrec. destruct (IH (i + 1) _ _ ltac:(lia) Hd' Hrec) as (Hr & Hph & Hcases).
    split; [lia|]. split.
    { intros j x Hj Hx. destruct (decide (Z.of_nat j = i)) as [Hji|Hji].
      - apply nthZ_Some in Ho as [_ Ho]. rewrite <- Hji, Nat2Z.id in Ho. congruence.
      - apply (Hph j); [lia|done]. }
    destruct Hcases as [[Hstop [(-> & -> & ->)|(Hlt' & -> & -> & HZ)]]|HY].
    + left. split; [done|]. right. split; [lia|].
      replace (i + 1 - 1) with i by lia. split; [done|]. split; [done|].
      exists o. done.
    + left. split; [done|]. right. split; [lia|]. done.
    + by right.
Qed.

(** *** [integrateSync9] of a local insert *)

Lemma integrateSync9_after {T} (doc : Doc T) N i :
  sync9_doc (doc_content doc) → seq_ready doc N → 0 <= i <= lenZ (doc_content doc) →
  findItem2 doc (originLeft N) (insertAfter N) (i - 1) = inr (i - 1) →
  (insertAfter N = true
   ∨ ∃ Z, nthZ (doc_content doc) (i - 1) = Some Z ∧ item_content Z = None) →
  (i = lenZ (doc_content doc)
   ∨ ∃ o, nthZ (doc_content doc) i = Some o
          ∧ idEq (originLeft o) (idAt doc (i - 1)) = false) →
  ∃ doc', integrateSync9 doc N i = (doc', Ok)
    ∧ doc_content doc' = splice (doc_content doc) i N.
Proof.
  intros Hs Hr Hi Hf Hwalk Hstop. unfold seq_ready in Hr. unfold integrateSync9.
  destruct (item_id N) as [agent seq] eqn:Hid. cbn [fst snd] in *. subst seq.
  rewrite Z.eqb_refl. cbn [negb].
  set (doc1 := set_version doc agent (lastSeen (doc_version doc) agent + 1)).
  rewrite (findItem2_content doc1 doc) by done. rewrite Hf.
  assert (sync9_walk doc1 N i (i - 1)
          = (commitSync9 doc1 N i, Ok)) as Hw.
  { unfold sync9_walk. rewrite (sync9_scan_content doc1 doc) by done.
    change (doc_content doc1) with (doc_content doc).
    replace (i - 1 + 1) with i by lia.
    destruct Hstop as [->|(o & Ho & Hne)].
    - unfold lenZ. rewrite Nat2Z.id, drop_all. done.
    - apply nthZ_Some in Ho as Ho'. destruct Ho' as [H0 Ho'].
      rewrite (drop_S _ _ _ Ho'). cbn [sync9_scan].
      destruct (sync9_next_parent doc i o Hs Ho Hne) as (op & -> & Hop).
      destruct (Z.ltb_spec op (i - 1)); [done|lia]. }
  assert (doc_content (commitSync9 doc1 N i) = splice (doc_content doc) i N) as Hc.
  { unfold commitSync9. by destruct (negb (isDeleted N) && negb (is_null (item_content N))). }
  destruct ((0 <=? i - 1) && negb (is_null (originLeft N)) && negb (insertAfter N)) eqn:Hcond.
  2:{ rewrite Hw. eauto. }
  apply andb_true_iff in Hcond as [_ Hia]. apply negb_true_iff in Hia.
  destruct Hwalk as [Hia'|(Z & HZ & HcZ)]; [congruence|].
  change (doc_content doc1) with (doc_content doc). rewrite HZ, HcZ. cbn [is_null negb].
  rewrite Hw. eauto.
Qed.

Lemma integrateSync9_before {T} (doc : Doc T) N i Y :
  seq_ready doc N → originLeft N = Some (item_id Y) → insertAfter N = false →
  findItem2 doc (Some (item_id Y)) false (i - 1) = inr i →
  nthZ (doc_content doc) i = Some Y → item_content Y ≠ None →
  ∃ doc', integrateSync9 doc N i = (doc', Ok)
    ∧ doc_content doc' = splice (splice (doc_content doc) i (placeholder Y)) (i + 1) N.
Proof.
  intros Hr Hol Hia Hf HY HcY. unfold seq_ready in Hr. unfold integrateSync9.
  destruct (item_id N) as [agent seq] eqn:Hid. cbn [fst snd] in *. subst seq.
  rewrite Z.eqb_refl. cbn [negb]. rewrite Hol, Hia.
  rewrite (findItem2_content _ doc) by done. rewrite Hf. cbn [is_null negb andb].
  apply nthZ_Some in HY as HY'. destruct HY' as [H0 HY'].
  destruct (Z.leb_spec 0 i); [|lia]. cbn [andb set_version doc_content]. rewrite HY.
  destruct (item_content Y) eqn:HcY'; [|done]. cbn [is_null negb].
  eexists. split; [done|].
  unfold commitSync9. by destruct (negb (isDeleted N) && negb (is_null (item_content N))).
Qed.

Lemma visible_count_take_placeholders {T} (c : list (Item T)) (n m : nat) :
  (n <= m)%nat →
  (∀ j x, (n <= j < m)%nat → c !! j = Some x → item_content x = None) →
  visible_count (take m c) = visible_count (take n c).
Proof.
  intros Hnm. induction Hnm as [|m Hnm IH]; intros Hph; [done|].
  destruct (c !! m) as [x|] eqn:Hx.
  - rewrite (take_S_r _ _ _ Hx), visible_count_app, visible_count_cons.
    assert (visible x = false) as ->.
    { unfold visible. rewrite (Hph m x); [by rewrite andb_false_r|lia|done]. }
    rewrite IH; [unfold visible_count at 2, lenZ; simpl; lia|].
    intros j y Hj. apply Hph. lia.
  - apply lookup_ge_None in Hx. rewrite !take_ge by lia. rewrite <- IH.
    + by rewrite take_ge by lia.
    + intros j y Hj. apply Hph. lia.
Qed.

Lemma localInsertSync9_at {T} (doc : Doc T) agent pos c :
  sync9_doc (doc_content doc) → 0 <= pos <= visible_count (doc_content doc) →
  ∃ doc', localInsertSync9 sync9 doc agent pos c = (doc', Ok)
    ∧ contents (doc_content doc') = splice (contents (doc_content doc)) pos c.
Proof.
  intros Hs Hpos. unfold localInsertSync9, findItemAtPos.
  destruct (findItemAtPos_from_stick_take (doc_content doc) 0 pos Hpos)
    as (n0 & -> & Hn0 & Htake & Hzero & Hlast).
  rewrite Z.add_0_l.
  destruct (sync9_descend _ _ _ _ _) as [[i' ol] ia] eqn:Hdesc.
  apply sync9_descend_spec in Hdesc as (Hi' & Hph & Hcases); [|unfold lenZ; lia|done].
  set (N := {| item_content := Some c;
               item_id := (agent, lastSeen (doc_version doc) agent + 1);
               originLeft := ol; originRight := None; item_seq := 0;
               insertAfter := ia; isDeleted := false |}).
  assert (seq_ready doc N) as Hr by done.
  assert (visible_count (take (Z.to_nat i') (doc_content doc)) = pos) as Hvis.
  { rewrite <- Htake. apply visible_count_take_placeholders; [lia|].
    intros j x Hj. apply Hph. lia. }
  cbn [integrate].
  destruct Hcases as [[Hstop Hk]|(Y & HY & HcY & Heq & -> & ->)].
  - destruct (integrateSync9_after doc N i' Hs Hr) as (doc' & -> & Hc); [lia| | |done|].
    + subst N. cbn [originLeft insertAfter].
      destruct Hk as [(-> & -> & ->)|(Hlt & -> & -> & Z & HZ & HcZ)].
      * destruct (decide (pos = 0)) as [Hp0|Hp0].
        { rewrite (Hzero Hp0). done. }
        destruct Hlast as (x & Hn & Hx & Hvx); [lia|].
        assert (nthZ (doc_content doc) (Z.of_nat n0 - 1) = Some x) as Hx'.
        { apply nthZ_Some. split; [lia|].
          by replace (Z.to_nat (Z.of_nat n0 - 1)) with (n0 - 1)%nat by lia. }
        rewrite (idAt_Some _ _ _ Hx'). destruct (item_id x) as [a s] eqn:Hidx.
        apply (findItem2_hit doc a s true _ x Hx').
        unfold needle_match. rewrite Hidx, (proj2 (idEq2_true (a, s) a s) eq_refl).
        unfold visible in Hvx. apply andb_true_iff in Hvx as [_ ->]. done.
      * rewrite (idAt_Some _ _ _ HZ). destruct (item_id Z) as [a s] eqn:HidZ.
        apply (findItem2_hit doc a s false _ Z HZ).
        unfold needle_match. by rewrite HidZ, (proj2 (idEq2_true (a, s) a s) eq_refl).
    + subst N. cbn [insertAfter].
      destruct Hk as [(-> & -> & ->)|(Hlt & -> & -> & Z & HZ & HcZ)]; [by left|right; eauto].
    + eexists. split; [done|]. rewrite Hc, contents_splice by lia. subst N. simpl.
      by rewrite Hvis.
  - destruct (integrateSync9_before doc N i' Y Hr) as (doc' & -> & Hc); [done..| |done|done|].
    { by apply sync9_first_copy. }
    eexists. split; [done|]. apply nthZ_lt in HY as HY'.
    rewrite Hc, contents_splice by (rewrite lenZ_splice; lia). subst N. cbn [item_content isDeleted].
    rewrite contents_splice by lia. cbn [placeholder item_content]. f_equal.
    unfold splice at 1. replace (Z.to_nat (i' + 1)) with (S (Z.to_nat i')) by lia.
    rewrite take_app_ge by (rewrite length_take; unfold lenZ in *; lia).
    rewrite length_take. replace (S (Z.to_nat i') - _)%nat with 1%nat by (unfold lenZ in *; lia).
    rewrite visible_count_app. simpl. rewrite take_0, visible_count_cons, visible_placeholder.
    unfold visible_count at 2, lenZ. simpl. lia.
Qed.

(** *** Local inserts in documents of valid histories *)

Lemma seq_bounded_copies {T} (d d' : Doc T) :
  seq_bounded d → Forall2 (λ x y, same_item x y) (doc_content d') (doc_content d) →
  maxSeq d' = maxSeq d → seq_bounded d'.
Proof.
  intros [H0 Hb] Hc Hm. split; [lia|]. intros x Hx. rewrite Hm.
  destruct (same_items_l _ _ _ Hc Hx) as (y & Hy & Hs). apply Hb in Hy.
  destruct Hs as (_ & _ & _ & -> & _). done.
Qed.

Lemma Valid_seq_bounded {T} (d : Doc T) : Valid automerge d → seq_bounded d.
Proof.
  induction 1 as [|d a p c d' HV IH H|d a p d' HV IH H|d target HV IH
                  |d n h d' HV IH Hc Ha H|d src d' HV IH HVs IHs H].
  - split; [done|]. intros x Hx. by apply elem_of_nil in Hx.
  - apply alg_localInsert_integrate in H as (n & h & _ & _ & _ & H).
    by eapply seq_bounded_integrate.
  - by eapply seq_bounded_localDelete.
  - eapply seq_bounded_copies; [done|apply mark_deleted_copies|done].
  - by eapply seq_bounded_integrate.
  - eapply (mergeInto_invariant automerge seq_bounded); [|exact IH|exact H].
    intros d0 n d0' Hd0 _ Hi. by eapply seq_bounded_integrate.
Qed.

Lemma alg_localInsert_position {T} alg (doc : Doc T) agent pos c :
  Valid alg doc → 0 <= pos <= lenZ (getArray doc) →
  ∃ doc', alg_localInsert alg doc agent pos c = (doc', Ok)
    ∧ getArray doc' = splice (getArray doc) pos c.
Proof.
  intros HV Hpos.
  assert (alg ≠ sync9 → ∃ doc', alg_localInsert alg doc agent pos c = (doc', Ok)
                          ∧ getArray doc' = splice (getArray doc) pos c) as Hstd.
  { intros Hne. destruct (alg_localInsert_at alg doc agent pos c Hne) as (doc' & H & Hg & _);
      [|done|eauto]. intros ->. by apply Valid_seq_bounded. }
  destruct alg; try (by apply Hstd).
  change (getArray doc) with (contents (doc_content doc)) in *.
  rewrite contents_length in Hpos.
  destruct (localInsertSync9_at doc agent pos c) as (doc' & H & Hg);
    [by apply Valid_sync9_doc|done|]. by exists doc'.
Qed.

(** X14: in a document of a valid history a local insert at a position
    [0 <= pos <= getArray(doc).length] succeeds under each of the four
    algorithms and puts the content at index [pos] of [getArray]; for
    Sync9 [localInsertSync9] finds the item to insert after or to split
    and the scan of [integrateSync9] stops at once.  The result is again
    a document of a valid history. *)
Theorem localInsert_position {T} alg (doc : Doc T) agent pos c :
  Valid alg doc → 0 <= pos <= lenZ (getArray doc) →
  ∃ doc', alg_localInsert alg doc agent pos c = (doc', Ok)
    ∧ Valid alg doc'
    ∧ getArray doc' = splice (getArray doc) pos c.
Proof.
  intros HV Hpos.
  destruct (alg_localInsert_position alg doc agent pos c HV Hpos) as (doc' & H & Hg).
  exists doc'. split; [done|]. split; [|done]. by eapply valid_localInsert.
Qed.

Lemma localInsert_position_witness :
  ∃ doc', alg_localInsert sync9 sync9_one_doc "B" 0 "y"%string = (doc', Ok)
    ∧ Valid sync9 doc'
    ∧ getArray doc' = splice (getArray sync9_one_doc) 0 "y"%string.
Proof.
  apply (localInsert_position sync9 sync9_one_doc "B" 0 "y"%string).
  - apply (valid_integrate _ newDoc (mkItem (Some "x"%string) ("A"%string, 0) None None 0 true false)
             (-1)); [apply valid_newDoc|done|by split|reflexivity].
  - vm_compute. split; discriminate.
Defined.


(** *** Replaying an editing trace *)

Lemma replay_edit alg (doc : Doc string) patches l :
  Valid alg doc →
  edit (getArray doc) patches = Some l →
  ∃ doc', replay alg doc patches = (doc', Ok) ∧ getArray doc' = l.
Proof.
  revert doc. induction patches as [|[[pos delCount] inserted] rest IH];
    intros doc HV; simpl.
  - intros [= <-]. eauto.
  - destruct (negb (String.length inserted =? 0)%nat).
    + destruct (Z.leb_spec 0 pos); [|done].
      destruct (Z.leb_spec pos (lenZ (getArray doc))); [|done].
      simpl. intros He.
      destruct (alg_localInsert_position alg doc "A" pos inserted HV ltac:(lia))
        as (doc' & Hi & Hg).
      rewrite Hi. apply IH; [by eapply valid_localInsert|by rewrite Hg].
    + destruct (negb (delCount =? 0)); [|by apply IH].
      destruct (Z.leb_spec 0 pos); [|done].
      destruct (Z.ltb_spec pos (lenZ (getArray doc))); [|done].
      simpl. intros He.
      destruct (localDelete_at doc "A" pos ltac:(lia)) as (doc' & Hd & Hg & _).
      rewrite Hd. apply IH; [by eapply valid_localDelete|by rewrite Hg].
Qed.

(** X19: [bench] replays an editing trace on a new document under each
    of the four algorithms without an exception when every insert
    position is inside [0, length] and every delete position inside
    [0, length) of the array at that point, and [getArray] of the final
    document is the array the same patches give on a plain list, so the
    final [assert.strictEqual] compares its [join] with that of the
    list. *)
Theorem bench_replay alg txns l :
  edit [] (concat txns) = Some l →
  ∃ doc, bench alg txns = (doc, Ok)
    ∧ getArray doc = l
    ∧ String.concat "" (getArray doc) = String.concat "" l.
Proof.
  intros He. destruct (replay_edit alg newDoc (concat txns) l) as (doc & Hr & Hg).
  - apply valid_newDoc.
  - done.
  - exists doc. split; [done|]. split; [done|]. by rewrite Hg.
Qed.

Lemma bench_replay_witness :
  ∃ doc, bench sync9 [[(0, 0, "a"); (1, 0, "b")]; [(0, 1, "")]]%string = (doc, Ok)
    ∧ getArray doc = ["b"%string]
    ∧ String.concat "" (getArray doc) = String.concat "" ["b"%string].
Proof.
  apply (bench_replay sync9 [[(0, 0, "a"); (1, 0, "b")]; [(0, 1, "")]]%string ["b"%string]).
  reflexivity.
Defined.

(** ** Convergence under YjsMod

    A YjsMod document keeps the shape [ymod_sorted].  The loop of
    [integrateYjsMod] inserts a new item at the one index that keeps the
    shape, so two documents with the same items are equal. *)

(** *** Indices *)

Lemma index_of_range {T} (c : list (Item T)) id : -1 <= index_of c id < lenZ c.
Proof.
  unfold index_of.
  destruct (findIndex_spec (needle_match false id.1 id.2) c) as [[-> _]|(n & x & -> & Hx & _)].
  - unfold lenZ. lia.
  - apply lookup_lt_Some in Hx. unfold lenZ. lia.
Qed.

Lemma index_of_found {T} (c : list (Item T)) id :
  0 <= index_of c id → ∃ y, nthZ c (index_of c id) = Some y ∧ item_id y = id.
Proof.
  unfold index_of.
  destruct (findIndex_spec (needle_match false id.1 id.2) c) as [[-> _]|(n & x & -> & Hx & Hm & _)];
    [lia|].
  intros _. exists x. split; [apply nthZ_Some; rewrite Nat2Z.id; split; [lia|done]|].
  apply needle_match_false_true in Hm. by destruct id.
Qed.

Lemma index_of_absent {T} (c : list (Item T)) id :
  id ∉ item_id <$> c → index_of c id = -1.
Proof.
  intros Hn. pose proof (index_of_range c id).
  destruct (Z.eq_dec (index_of c id) (-1)) as [|Hne]; [done|].
  destruct (index_of_found c id) as (y & [_ Hy]%nthZ_Some & Hid); [lia|].
  destruct Hn. apply list_elem_of_fmap. exists y. split; [done|]. by eapply list_elem_of_lookup_2.
Qed.

Lemma index_of_lookup {T} (c : list (Item T)) k y :
  NoDup (item_id <$> c) → nthZ c k = Some y → index_of c (item_id y) = k.
Proof.
  intros Hnd Hy. pose proof (index_of_range c (item_id y)).
  apply nthZ_Some in Hy as [H0 Hy].
  destruct (Z.eq_dec (index_of c (item_id y)) (-1)) as [Hm|Hne].
  - unfold index_of in Hm.
    destruct (findIndex_spec (needle_match false (item_id y).1 (item_id y).2) c)
      as [[_ Hno]|(n & x & Hn & _)]; [|lia].
    apply list_elem_of_lookup_2 in Hy. specialize (Hno _ Hy).
    assert (needle_match false (item_id y).1 (item_id y).2 y = true) as Ht.
    { apply needle_match_false_true. by destruct (item_id y). }
    congruence.
  - destruct (index_of_found c (item_id y)) as (z & [_ Hz]%nthZ_Some & Hid); [lia|].
    assert (Z.to_nat (index_of c (item_id y)) = Z.to_nat k)
      by (by eapply (NoDup_ids_lookup c)).
    lia.
Qed.

Lemma findItem_index_of {T} (doc : Doc T) id hint :
  NoDup (item_id <$> doc_content doc) → 0 <= index_of (doc_content doc) id →
  findItem doc (Some id) hint = inr (index_of (doc_content doc) id).
Proof.
  intros Hnd H0. destruct (index_of_found _ _ H0) as (y & [_ Hy]%nthZ_Some & Hid).
  rewrite (findItem_unique doc id _ y hint Hnd Hy Hid). f_equal. lia.
Qed.

Lemma findItem_inr_index_of {T} (doc : Doc T) o hint k :
  NoDup (item_id <$> doc_content doc) → findItem doc o hint = inr k →
  k = match o with None => -1 | Some id => index_of (doc_content doc) id end
  ∧ (o ≠ None → 0 <= k).
Proof.
  intros Hnd Hf. destruct o as [[agent seq]|]; [|by injection Hf as <-].
  unfold findItem in Hf. apply findItem2_inr in Hf as (y & Hy & Hm%needle_match_false_true).
  rewrite <- Hm, (index_of_lookup _ _ _ Hnd Hy). split; [done|]. intros _.
  by apply nthZ_Some in Hy as [? _].
Qed.

(** *** Splicing an item into a list *)

Lemma shift_mono d a b : a < b ↔ shift d a < shift d b.
Proof. unfold shift. destruct (Z.ltb_spec a d), (Z.ltb_spec b d); lia. Qed.

Lemma shift_mono_le d a b : a <= b ↔ shift d a <= shift d b.
Proof. unfold shift. destruct (Z.ltb_spec a d), (Z.ltb_spec b d); lia. Qed.

Lemma shift_inj d a b : shift d a = shift d b ↔ a = b.
Proof. unfold shift. destruct (Z.ltb_spec a d), (Z.ltb_spec b d); lia. Qed.

Lemma shift_ne d a : shift d a ≠ d.
Proof. unfold shift. destruct (Z.ltb_spec a d); lia. Qed.

Lemma shift_cases d a : (a < d ∧ shift d a = a) ∨ (d <= a ∧ shift d a = a + 1).
Proof. unfold shift. destruct (Z.ltb_spec a d); lia. Qed.

Lemma lenZ_splice' {A} (c : list A) d m : 0 <= d <= lenZ c → lenZ (splice c d m) = lenZ c + 1.
Proof.
  unfold lenZ, splice. intros Hd. rewrite length_app, length_take. simpl. rewrite length_drop. lia.
Qed.

Lemma nthZ_splice {A} (c : list A) d m k x :
  0 <= d <= lenZ c →
  nthZ (splice c d m) k = Some x ↔ (k = d ∧ x = m) ∨ ∃ k0, k = shift d k0 ∧ nthZ c k0 = Some x.
Proof.
  intros Hd. rewrite nthZ_Some. split.
  - intros [H0 Hk]. apply splice_lookup in Hk; [|done].
    destruct Hk as [[Hlt Hk]|[[Heq ->]|[Hgt Hk]]].
    + right. exists k. split; [unfold shift; destruct (Z.ltb_spec k d); lia|].
      apply nthZ_Some. done.
    + left. split; [lia|done].
    + right. exists (k - 1). split; [unfold shift; destruct (Z.ltb_spec (k - 1) d); lia|].
      apply nthZ_Some. split; [lia|]. by replace (Z.to_nat (k - 1)) with (Z.to_nat k - 1)%nat by lia.
  - intros [[-> ->]|(k0 & -> & [H0 Hk]%nthZ_Some)].
    + split; [lia|]. apply splice_lookup; [done|]. right. left. split; [lia|done].
    + destruct (shift_cases d k0) as [[Hlt ->]|[Hge ->]].
      * split; [done|]. apply splice_lookup; [done|]. left. split; [lia|done].
      * split; [lia|]. apply splice_lookup; [done|]. right. right. split; [lia|].
        by replace (Z.to_nat (k0 + 1) - 1)%nat with (Z.to_nat k0) by lia.
Qed.

Lemma nthZ_elem_of {A} (c : list A) x : x ∈ c ↔ ∃ k, nthZ c k = Some x.
Proof.
  rewrite list_elem_of_lookup. split.
  - intros [i Hi]. exists (Z.of_nat i). apply nthZ_Some. rewrite Nat2Z.id. split; [lia|done].
  - intros [k [_ Hk]%nthZ_Some]. eauto.
Qed.

Lemma index_of_splice {T} (c : list (Item T)) d m id :
  0 <= d <= lenZ c → NoDup (item_id <$> splice c d m) → id ≠ item_id m →
  index_of (splice c d m) id = shift d (index_of c id).
Proof.
  intros Hd Hnd Hne.
  assert (NoDup (item_id <$> c)) as Hnd0.
  { rewrite splice_fmap in Hnd. unfold splice in Hnd.
    apply NoDup_app in Hnd as (H1 & H2 & H3). apply NoDup_cons in H3 as [_ H3].
    rewrite <- (take_drop (Z.to_nat d) (item_id <$> c)). apply NoDup_app.
    split; [done|]. split; [|done]. intros x Hx Hx'. apply (H2 x Hx). by right. }
  pose proof (index_of_range c id) as Hr.
  destruct (Z.eq_dec (index_of c id) (-1)) as [Hm|Hp].
  - rewrite Hm. unfold shift. destruct (Z.ltb_spec (-1) d); [|lia].
    apply index_of_absent. intros (y & Hid & [Hy| ->]%splice_elem_of)%list_elem_of_fmap; [|done].
    apply nthZ_elem_of in Hy as [k Hk].
    pose proof (index_of_lookup _ _ _ Hnd0 Hk) as Hl. rewrite <- Hid in Hl.
    apply nthZ_lt in Hk. lia.
  - destruct (index_of_found c id) as (y & Hy & <-); [lia|].
    apply index_of_lookup; [done|]. apply nthZ_splice; [done|]. right. eauto.
Qed.

Lemma index_of_splice_new {T} (c : list (Item T)) d m :
  0 <= d <= lenZ c → NoDup (item_id <$> splice c d m) →
  index_of (splice c d m) (item_id m) = d.
Proof.
  intros Hd Hnd. apply index_of_lookup; [done|]. apply nthZ_splice; [done|]. by left.
Qed.

Lemma leftIdx_splice {T} (c : list (Item T)) d m y :
  0 <= d <= lenZ c → NoDup (item_id <$> splice c d m) → originLeft y ≠ Some (item_id m) →
  leftIdx (splice c d m) y = shift d (leftIdx c y).
Proof.
  intros Hd Hnd Hne. unfold leftIdx. destruct (originLeft y) as [id|].
  - apply index_of_splice; [done..|congruence].
  - unfold shift. destruct (Z.ltb_spec (-1) d); [done|lia].
Qed.

Lemma rightIdx_splice {T} (c : list (Item T)) d m y :
  0 <= d <= lenZ c → NoDup (item_id <$> splice c d m) → originRight y ≠ Some (item_id m) →
  rightIdx (splice c d m) y = shift d (rightIdx c y).
Proof.
  intros Hd Hnd Hne. unfold rightIdx. destruct (originRight y) as [id|].
  - apply index_of_splice; [done..|congruence].
  - rewrite lenZ_splice' by done. unfold shift. destruct (Z.ltb_spec (lenZ c) d); lia.
Qed.

Lemma splice_NoDup_inv {T} (c : list (Item T)) d m :
  NoDup (item_id <$> splice c d m) →
  NoDup (item_id <$> c) ∧ item_id m ∉ item_id <$> c.
Proof.
  rewrite splice_fmap. unfold splice. intros Hnd.
  apply NoDup_app in Hnd as (H1 & H2 & H3). apply NoDup_cons in H3 as [H3 H4].
  rewrite <- (take_drop (Z.to_nat d) (item_id <$> c)). split.
  - apply NoDup_app. split; [done|]. split; [|done]. intros x Hx Hx'. apply (H2 x Hx). by right.
  - rewrite elem_of_app. intros [Hx|Hx]; [|done]. apply (H2 _ Hx). by left.
Qed.

(** *** Inserting an item into a sorted document *)

Lemma anchors_not_self {T} (c : list (Item T)) x :
  item_id x ∉ item_id <$> c →
  (originLeft x ≠ None → 0 <= leftIdx c x) → 0 <= rightIdx c x →
  originLeft x ≠ Some (item_id x) ∧ originRight x ≠ Some (item_id x).
Proof.
  intros Hfresh Hl Hr. unfold leftIdx, rightIdx in *. split; intros Heq; rewrite Heq in *.
  - rewrite index_of_absent in Hl by done. specialize (Hl ltac:(done)). lia.
  - rewrite index_of_absent in Hr by done. lia.
Qed.

Lemma sorted_unreferenced {T} (c : list (Item T)) id :
  ymod_sorted c → id ∉ item_id <$> c → unreferenced c id.
Proof.
  intros Hs Hfresh y [k Hk]%nthZ_elem_of. split; intros Heq.
  - destruct (ys_left _ Hs _ _ Hk) as [_ H0]. unfold leftIdx in H0. rewrite Heq in H0.
    rewrite index_of_absent in H0 by done. specialize (H0 ltac:(done)). lia.
  - pose proof (ys_between _ Hs _ _ Hk) as H0. unfold rightIdx in H0. rewrite Heq in H0.
    rewrite index_of_absent in H0 by done. apply nthZ_lt in Hk. lia.
Qed.

Section Splice.
Context {T : Type} (c : list (Item T)) (x : Item T) (d : Z).
Hypothesis Hd : 0 <= d <= lenZ c.
Hypothesis Hnd : NoDup (item_id <$> splice c d x).
Hypothesis Hunref : unreferenced c (item_id x).
Hypothesis Hself : originLeft x ≠ Some (item_id x) ∧ originRight x ≠ Some (item_id x).

Local Abbreviation c' := (splice c d x).

Local Ltac shift_lia :=
  repeat match goal with
  | H : context [shift ?d ?a] |- _ =>
      let H' := fresh in let v := fresh in
      pose proof (shift_cases d a) as H'; set (v := shift d a) in *; clearbody v
  | |- context [shift ?d ?a] =>
      let H' := fresh in let v := fresh in
      pose proof (shift_cases d a) as H'; set (v := shift d a) in *; clearbody v
  end; lia.

Lemma splice_old k y : nthZ c k = Some y → nthZ c' (shift d k) = Some y.
Proof. intros Hy. apply nthZ_splice; [done|]. right. eauto. Qed.

Lemma splice_new : nthZ c' d = Some x.
Proof. apply nthZ_splice; [done|]. by left. Qed.

Lemma splice_left_old k y : nthZ c k = Some y → leftIdx c' y = shift d (leftIdx c y).
Proof.
  intros Hy. apply leftIdx_splice; [done..|]. apply Hunref. apply nthZ_elem_of. eauto.
Qed.

Lemma splice_right_old k y : nthZ c k = Some y → rightIdx c' y = shift d (rightIdx c y).
Proof.
  intros Hy. apply rightIdx_splice; [done..|]. apply Hunref. apply nthZ_elem_of. eauto.
Qed.

Lemma splice_left_new : leftIdx c' x = shift d (leftIdx c x).
Proof. apply leftIdx_splice; [done..|]. apply Hself. Qed.

Lemma splice_right_new : rightIdx c' x = shift d (rightIdx c x).
Proof. apply rightIdx_splice; [done..|]. apply Hself. Qed.

Lemma sorted_splice_inv : ymod_sorted c' → ymod_sorted c ∧ fits_at c x d.
Proof.
  intros Hs. pose proof splice_new as Hx.
  pose proof splice_left_new as HLx. pose proof splice_right_new as HRx.
  split; split.
  - apply (splice_NoDup_inv _ _ _ Hnd).
  - intros k y Hy. destruct (ys_left _ Hs _ _ (splice_old _ _ Hy)) as [H1 H2].
    rewrite (splice_left_old _ _ Hy) in H1, H2. split; [shift_lia|].
    intros Hn. specialize (H2 Hn). shift_lia.
  - intros k y Hy. pose proof (ys_between _ Hs _ _ (splice_old _ _ Hy)) as H1.
    rewrite (splice_right_old _ _ Hy) in H1. shift_lia.
  - intros i j y z Hy Hz Hij.
    pose proof (ys_preorder _ Hs _ _ _ _ (splice_old _ _ Hy) (splice_old _ _ Hz)) as H1.
    rewrite (splice_left_old _ _ Hy), (splice_left_old _ _ Hz) in H1. shift_lia.
  - intros i j y z Hy Hz Hij Heq.
    pose proof (ys_sibling _ Hs _ _ _ _ (splice_old _ _ Hy) (splice_old _ _ Hz)) as H1.
    rewrite (splice_left_old _ _ Hy), (splice_left_old _ _ Hz),
      (splice_right_old _ _ Hy), (splice_right_old _ _ Hz) in H1.
    destruct H1 as [H1|[H1|[H1 H2]]]; [shift_lia|shift_lia|..].
    + left. shift_lia.
    + right. left. shift_lia.
    + right. right. split; [shift_lia|done].
  - intros i y r Hy Hr.
    pose proof (ys_right _ Hs _ y r (splice_old _ _ Hy)) as H1.
    rewrite (splice_right_old _ _ Hy) in H1. specialize (H1 (splice_old _ _ Hr)).
    rewrite (splice_left_old _ _ Hr), (splice_left_old _ _ Hy) in H1. shift_lia.
  - destruct (ys_left _ Hs _ _ Hx) as [H1 _]. pose proof (ys_between _ Hs _ _ Hx) as H2.
    rewrite HLx in H1. rewrite HRx in H2. shift_lia.
  - intros Hn. destruct (ys_left _ Hs _ _ Hx) as [_ H1]. specialize (H1 Hn). rewrite HLx in H1.
    shift_lia.
  - intros k y Hy Hk.
    pose proof (ys_preorder _ Hs _ _ _ _ Hx (splice_old _ _ Hy)) as H1.
    rewrite HLx, (splice_left_old _ _ Hy) in H1. shift_lia.
  - intros k y Hy Hk Hl.
    pose proof (ys_preorder _ Hs _ _ _ _ (splice_old _ _ Hy) Hx) as H1.
    rewrite HLx, (splice_left_old _ _ Hy) in H1. shift_lia.
  - intros k y Hy Hk Heq.
    pose proof (ys_sibling _ Hs _ _ _ _ (splice_old _ _ Hy) Hx) as H1.
    rewrite HLx, HRx, (splice_left_old _ _ Hy), (splice_right_old _ _ Hy) in H1.
    destruct H1 as [H1|[H1|[H1 H2]]]; [shift_lia|shift_lia|..].
    + left. shift_lia.
    + right. left. shift_lia.
    + right. right. split; [shift_lia|done].
  - intros k y Hy Hk Heq.
    pose proof (ys_sibling _ Hs _ _ _ _ Hx (splice_old _ _ Hy)) as H1.
    rewrite HLx, HRx, (splice_left_old _ _ Hy), (splice_right_old _ _ Hy) in H1.
    destruct H1 as [H1|[H1|[H1 H2]]]; [shift_lia|shift_lia|..].
    + left. shift_lia.
    + right. left. shift_lia.
    + right. right. split; [shift_lia|done].
  - intros r Hr. pose proof (ys_right _ Hs _ x r Hx) as H1. rewrite HRx in H1.
    specialize (H1 (splice_old _ _ Hr)). rewrite HLx, (splice_left_old _ _ Hr) in H1.
    shift_lia.
Qed.

Lemma sorted_splice : ymod_sorted c → fits_at c x d → ymod_sorted c'.
Proof.
  intros Hs Hf. pose proof splice_new as Hx.
  pose proof splice_left_new as HLx. pose proof splice_right_new as HRx.
  pose proof (fa_range _ _ _ Hf) as Hrange.
  assert (∀ i y, nthZ c' i = Some y →
            (i = d ∧ y = x) ∨ ∃ k, i = shift d k ∧ nthZ c k = Some y) as Hcase.
  { intros i y Hy. by apply nthZ_splice in Hy. }
  split.
  - done.
  - intros i y [[-> ->]|(k & -> & Hy)]%Hcase.
    + rewrite HLx. split; [shift_lia|]. intros Hn. pose proof (fa_left _ _ _ Hf Hn). shift_lia.
    + rewrite (splice_left_old _ _ Hy). destruct (ys_left _ Hs _ _ Hy) as [H1 H2].
      split; [shift_lia|]. intros Hn. specialize (H2 Hn). shift_lia.
  - intros i y [[-> ->]|(k & -> & Hy)]%Hcase.
    + rewrite HRx. shift_lia.
    + rewrite (splice_right_old _ _ Hy). pose proof (ys_between _ Hs _ _ Hy). shift_lia.
  - intros i j y z [[-> ->]|(k & -> & Hy)]%Hcase [[-> ->]|(k' & -> & Hz)]%Hcase Hij.
    + lia.
    + rewrite HLx in *. rewrite (splice_left_old _ _ Hz).
      pose proof (fa_inside _ _ _ Hf _ _ Hz). shift_lia.
    + rewrite HLx. rewrite (splice_left_old _ _ Hy) in *.
      pose proof (fa_outside _ _ _ Hf _ _ Hy). shift_lia.
    + rewrite (splice_left_old _ _ Hy) in *. rewrite (splice_left_old _ _ Hz).
      pose proof (ys_preorder _ Hs _ _ _ _ Hy Hz). shift_lia.
  - intros i j y z [[-> ->]|(k & -> & Hy)]%Hcase [[-> ->]|(k' & -> & Hz)]%Hcase Hij Heq.
    + lia.
    + rewrite HLx, (splice_left_old _ _ Hz) in Heq.
      rewrite HRx, (splice_right_old _ _ Hz).
      destruct (fa_after _ _ _ Hf _ _ Hz) as [H1|[H1|[H1 H2]]]; [shift_lia|shift_lia|..].
      * left. shift_lia.
      * right. left. shift_lia.
      * right. right. split; [shift_lia|done].
    + rewrite HLx, (splice_left_old _ _ Hy) in Heq.
      rewrite HRx, (splice_right_old _ _ Hy).
      destruct (fa_before _ _ _ Hf _ _ Hy) as [H1|[H1|[H1 H2]]]; [shift_lia|shift_lia|..].
      * left. shift_lia.
      * right. left. shift_lia.
      * right. right. split; [shift_lia|done].
    + rewrite (splice_left_old _ _ Hy), (splice_left_old _ _ Hz) in Heq.
      rewrite (splice_right_old _ _ Hy), (splice_right_old _ _ Hz).
      destruct (ys_sibling _ Hs _ _ _ _ Hy Hz) as [H1|[H1|[H1 H2]]]; [shift_lia|shift_lia|..].
      * left. shift_lia.
      * right. left. shift_lia.
      * right. right. split; [shift_lia|done].
  - intros i y r [[-> ->]|(k & -> & Hy)]%Hcase Hr.
    + rewrite HRx in Hr. apply Hcase in Hr as [[Hr _]|(k' & Hk' & Hr)]; [shift_lia|].
      assert (k' = rightIdx c x) as -> by shift_lia.
      rewrite HLx, (splice_left_old _ _ Hr). pose proof (fa_right _ _ _ Hf _ Hr). shift_lia.
    + rewrite (splice_right_old _ _ Hy) in Hr.
      apply Hcase in Hr as [[Hr _]|(k' & Hk' & Hr)]; [shift_lia|].
      assert (k' = rightIdx c y) as -> by shift_lia.
      rewrite (splice_left_old _ _ Hr), (splice_left_old _ _ Hy).
      pose proof (ys_right _ Hs _ _ _ Hy Hr). shift_lia.
Qed.
End Splice.

(** *** At most one index fits *)

Lemma key_lt_asym a b : key_lt a b → key_lt b a → False.
Proof. intros H1 H2. apply (key_lt_irrefl a). by eapply key_lt_trans. Qed.

Lemma fits_at_unique {T} (c : list (Item T)) x d1 d2 :
  ymod_sorted c → 0 <= d1 → d2 <= lenZ c → fits_at c x d1 → fits_at c x d2 → d1 < d2 → False.
Proof.
  intros Hs H0 Hlen F1 F2 Hlt.
  pose proof (fa_range _ _ _ F1) as R1. pose proof (fa_range _ _ _ F2) as R2.
  assert (∀ k y, nthZ c k = Some y → d1 <= k < d2 → leftIdx c x <= leftIdx c y) as HA.
  { intros k y Hy Hk. apply (fa_inside _ _ _ F2 _ _ Hy). lia. }
  assert (∀ n k y, d2 - k <= n → nthZ c k = Some y → d1 <= k < d2 →
            leftIdx c y = leftIdx c x → False) as HD.
  { intros n. induction (Z.to_nat n) as [|n' IH] eqn:En in n |- *; intros k y Hn Hy Hk Heq;
      [lia|].
    destruct (fa_after _ _ _ F1 _ _ Hy) as [H1|[H1|[H1 H2]]]; [lia|done|lia| |].
    - destruct (fa_before _ _ _ F2 _ _ Hy) as [H3|[H3|[H3 _]]]; [lia|done| |lia|lia].
      pose proof (ys_between _ Hs _ _ Hy) as Hb.
      destruct (nthZ_is_Some c (rightIdx c y)) as [r Hr]; [lia|].
      pose proof (ys_right _ Hs _ _ _ Hy Hr) as Hrl.
      pose proof (HA _ _ Hr ltac:(lia)).
      apply (IH (n - 1)) with (k := rightIdx c y) (y := r); [lia|lia|done|lia|lia].
    - destruct (fa_before _ _ _ F2 _ _ Hy) as [H3|[H3|[_ H3]]]; [lia|done|lia|lia|].
      by eapply key_lt_asym. }
  destruct (nthZ_is_Some c d1) as [y Hy]; [lia|].
  destruct (ys_left _ Hs _ _ Hy) as [Hl _].
  pose proof (HA _ _ Hy ltac:(lia)) as Hge.
  destruct (Z.eq_dec (leftIdx c y) (leftIdx c x)) as [Heq|Hne].
  - by apply (HD (d2 - d1) d1 y).
  - pose proof (fa_outside _ _ _ F1 _ _ Hy ltac:(lia) Hl). lia.
Qed.

(** *** Two sorted documents with the same items are equal *)

Lemma max_rank_exists {T} (rank : Id → nat) (c : list (Item T)) :
  c ≠ [] → ∃ m, m ∈ c ∧ ∀ y, y ∈ c → (rank (item_id y) <= rank (item_id m))%nat.
Proof.
  induction c as [|a c IH]; [done|]. intros _. destruct c as [|b c].
  - exists a. split; [by left|]. intros y ->%list_elem_of_singleton. lia.
  - destruct IH as (m & Hm & Hmax); [done|].
    destruct (le_lt_dec (rank (item_id a)) (rank (item_id m))).
    + exists m. split; [by right|]. intros y [->|Hy]%elem_of_cons; [done|by apply Hmax].
    + exists a. split; [by left|]. intros y [->|Hy]%elem_of_cons; [lia|].
      specialize (Hmax _ Hy). lia.
Qed.

Lemma split_splice {A} (c : list A) x :
  x ∈ c → ∃ c' d, 0 <= d <= lenZ c' ∧ c = splice c' d x.
Proof.
  intros (l1 & l2 & ->)%list_elem_of_split. exists (l1 ++ l2), (lenZ l1).
  unfold lenZ, splice. rewrite length_app, Nat2Z.id. split; [lia|].
  by rewrite take_app_length, drop_app_length.
Qed.

Lemma causal_sub {T} (c c' : list (Item T)) rank :
  causal c rank → (∀ x, x ∈ c' → x ∈ c) → causal c' rank.
Proof. intros [H1 H2 H3] Hsub. split; eauto. Qed.

Lemma causal_max_unreferenced {T} (c : list (Item T)) rank (m : Item T) :
  causal c rank → (∀ y, y ∈ c → (rank (item_id y) <= rank (item_id m))%nat) →
  unreferenced c (item_id m).
Proof.
  intros Hk Hmax y Hy. specialize (Hmax _ Hy). split; intros Heq.
  - pose proof (rank_left _ _ Hk _ _ Hy Heq). lia.
  - pose proof (rank_right _ _ Hk _ _ Hy Heq). lia.
Qed.

Lemma causal_not_self {T} (c : list (Item T)) rank (m : Item T) :
  causal c rank → m ∈ c →
  originLeft m ≠ Some (item_id m) ∧ originRight m ≠ Some (item_id m).
Proof.
  intros Hk Hm. split; intros Heq.
  - pose proof (rank_left _ _ Hk _ _ Hm Heq). lia.
  - pose proof (rank_right _ _ Hk _ _ Hm Heq). lia.
Qed.

Lemma unreferenced_sub {T} (c c' : list (Item T)) id :
  unreferenced c id → (∀ x, x ∈ c' → x ∈ c) → unreferenced c' id.
Proof. intros H Hsub y Hy. apply H. by apply Hsub. Qed.

Lemma ymod_sorted_unique {T} (c1 c2 : list (Item T)) rank :
  ymod_sorted c1 → ymod_sorted c2 → c1 ≡ₚ c2 → causal c1 rank → c1 = c2.
Proof.
  remember (List.length c1) as n eqn:Hn. revert c1 c2 Hn.
  induction n as [|n IH]; intros c1 c2 Hn Hs1 Hs2 Hp Hk.
  - destruct c1; [|done]. by apply Permutation_nil in Hp.
  - destruct (max_rank_exists rank c1) as (m & Hm & Hmax); [by destruct c1|].
    pose proof (causal_max_unreferenced _ _ _ Hk Hmax) as Hun.
    pose proof (causal_not_self _ _ _ Hk Hm) as Hself.
    assert (m ∈ c2) as Hm2 by (by rewrite <- Hp).
    destruct (split_splice _ _ Hm) as (c1' & d1 & Hd1 & ->).
    destruct (split_splice _ _ Hm2) as (c2' & d2 & Hd2 & ->).
    assert (c1' ≡ₚ c2') as Hp'.
    { rewrite !splice_perm in Hp. by apply Permutation_cons_inv in Hp. }
    assert (∀ x, x ∈ c1' → x ∈ splice c1' d1 m) as Hsub1
      by (intros x Hx; apply splice_elem_of; by left).
    assert (∀ x, x ∈ c2' → x ∈ splice c1' d1 m) as Hsub2
      by (intros x Hx; apply Hsub1; by rewrite Hp').
    destruct (sorted_splice_inv c1' m d1 Hd1 (ys_nodup _ Hs1)
                (unreferenced_sub _ _ _ Hun Hsub1) Hself Hs1) as [Hs1' Hf1].
    destruct (sorted_splice_inv c2' m d2 Hd2 (ys_nodup _ Hs2)
                (unreferenced_sub _ _ _ Hun Hsub2) Hself Hs2) as [Hs2' Hf2].
    assert (c1' = c2') as <-.
    { apply (IH c1' c2'); [|done..|by eapply causal_sub].
      rewrite splice_perm in Hn. simpl in Hn. lia. }
    destruct (Z.lt_total d1 d2) as [Hlt|[->|Hgt]]; [|done|].
    + destruct (fits_at_unique c1' m d1 d2); [done|lia|lia|done..].
    + destruct (fits_at_unique c1' m d2 d1); [done|lia|lia|done..].
Qed.

(** *** A causally closed part of a sorted document is sorted *)

Lemma filter_splice_out {A} (P : A → Prop) `{!∀ x, Decision (P x)} (c : list A) d m :
  ¬ P m → filter P (splice c d m) = filter P c.
Proof.
  intros Hn. unfold splice. rewrite filter_app, filter_cons, decide_False by done.
  by rewrite <- filter_app, take_drop.
Qed.

Lemma filter_all {A} (P : A → Prop) `{!∀ x, Decision (P x)} (c : list A) :
  Forall P c → filter P c = c.
Proof.
  induction 1 as [|x c Hx _ IH]; [done|]. by rewrite filter_cons, decide_True, IH.
Qed.

Lemma ymod_sorted_filter {T} (K : Item T → Prop) `{!∀ x, Decision (K x)}
    (c : list (Item T)) rank :
  ymod_sorted c → causal c rank →
  (∀ y z, y ∈ c → z ∈ c → K y →
     originLeft y = Some (item_id z) ∨ originRight y = Some (item_id z) → K z) →
  ymod_sorted (filter K c).
Proof.
  remember (List.length c) as n eqn:Hn. revert c Hn.
  induction n as [|n IH]; intros c Hn Hs Hk Hclosed.
  - by destruct c.
  - destruct (decide (filter (λ x, ¬ K x) c = [])) as [Hall|Hsome].
    + assert (filter K c = c) as ->; [|done].
      apply filter_all. apply Forall_forall. intros x Hx.
      destruct (decide (K x)) as [|Hnk]; [done|].
      assert (x ∈ filter (λ x, ¬ K x) c) as Hx' by (by apply list_elem_of_filter).
      rewrite Hall in Hx'. by apply elem_of_nil in Hx'.
    + destruct (max_rank_exists rank _ Hsome) as (m & [Hnm Hm]%list_elem_of_filter & Hmax).
      assert (unreferenced c (item_id m)) as Hun.
      { intros y Hy.
        destruct (decide (K y)) as [Hy'|Hy'].
        - split; intros Heq; apply Hnm; by apply (Hclosed y m); [..|left + right].
        - assert (y ∈ filter (λ x, ¬ K x) c) as Hyf by (by apply list_elem_of_filter).
          specialize (Hmax _ Hyf). split; intros Heq.
          + pose proof (rank_left _ _ Hk _ _ Hy Heq). lia.
          + pose proof (rank_right _ _ Hk _ _ Hy Heq). lia. }
      pose proof (causal_not_self _ _ _ Hk Hm) as Hself.
      destruct (split_splice _ _ Hm) as (c' & d & Hd & ->).
      assert (∀ x, x ∈ c' → x ∈ splice c' d m) as Hsub
        by (intros x Hx; apply splice_elem_of; by left).
      destruct (sorted_splice_inv c' m d Hd (ys_nodup _ Hs)
                  (unreferenced_sub _ _ _ Hun Hsub) Hself Hs) as [Hs' _].
      rewrite filter_splice_out by done.
      apply (IH c'); [|done|by eapply causal_sub|].
      * rewrite splice_perm in Hn. simpl in Hn. lia.
      * intros y z Hy Hz. apply Hclosed; by apply Hsub.
Qed.

(** *** The loop of integrateYjsMod on a sorted document *)

Lemma sorted_findItem_left {T} (doc : Doc T) i o hint :
  ymod_sorted (doc_content doc) → nthZ (doc_content doc) i = Some o →
  findItem doc (originLeft o) hint = inr (leftIdx (doc_content doc) o).
Proof.
  intros Hs Ho. destruct (ys_left _ Hs _ _ Ho) as [_ H0]. unfold leftIdx in *.
  destruct (originLeft o) as [id|]; [|done].
  apply findItem_index_of; [apply (ys_nodup _ Hs)|]. by apply H0.
Qed.

Lemma sorted_findRight {T} (doc : Doc T) i o hint :
  ymod_sorted (doc_content doc) → nthZ (doc_content doc) i = Some o →
  findRight doc (originRight o) hint = inr (rightIdx (doc_content doc) o).
Proof.
  intros Hs Ho. pose proof (ys_between _ Hs _ _ Ho) as H. unfold rightIdx, findRight in *.
  destruct (originRight o) as [id|]; [|done].
  apply findItem_index_of; [apply (ys_nodup _ Hs)|]. apply nthZ_lt in Ho. lia.
Qed.

Lemma ltb_false_key_lt (x o : Id) :
  String.ltb x.1 o.1 = false → (o.1 = x.1 → o.2 < x.2) → key_lt o x.
Proof.
  intros Hf Hs. destruct (ltb_total x.1 o.1) as [H|[H|H]]; [congruence|right|by left].
  split; [done|]. by apply Hs.
Qed.

Section Scan.
Context {T : Type} (doc : Doc T) (x : Item T) (hint : Z).
Local Abbreviation c := (doc_content doc).
Local Abbreviation L := (leftIdx (doc_content doc) x).
Local Abbreviation R := (rightIdx (doc_content doc) x).
Hypothesis Hs : ymod_sorted c.
Hypothesis HLR : L < R <= lenZ c.
Hypothesis Hleft : originLeft x ≠ None → 0 <= L.
Hypothesis Hkey : ∀ o, o ∈ c → (item_id o).1 = (item_id x).1 → (item_id o).2 < (item_id x).2.
Hypothesis Hwf : ∀ r, nthZ c R = Some r → leftIdx c r <= L.

Lemma scan_done i e scanning :
  scan_inv c x i e scanning →
  (e = lenZ c ∨ ∃ b, nthZ c e = Some b ∧ leftIdx c b <= L) →
  (∀ k y, nthZ c k = Some y → i <= k → leftIdx c y = L →
     R <= k ∨ rightIdx c y < R ∨ (R = rightIdx c y ∧ key_lt (item_id x) (item_id y))) →
  fits_at c x e.
Proof.
  intros [Hr Hin Hbe Haf Hfr] Hbar Hrest. split.
  - lia.
  - done.
  - intros k y Hy Hk. apply (Hin _ _ Hy). lia.
  - intros k y Hy Hk Hl. destruct Hbar as [->|(b & Hb & Hbl)].
    + apply nthZ_lt in Hy. lia.
    + destruct (Z.eq_dec k e) as [->|Hne].
      * rewrite Hb in Hy. by injection Hy as <-.
      * pose proof (ys_preorder _ Hs _ _ _ _ Hy Hb). lia.
  - intros k y Hy Hk Heq. by apply (Hbe _ _ Hy).
  - intros k y Hy Hk Heq. destruct (Z.lt_ge_cases k i).
    + right. left. apply (Haf _ _ Hy); [lia|done].
    + by apply (Hrest _ _ Hy).
  - done.
Qed.

Lemma scan_barrier (i dest : Z) (scanning : bool) o :
  scan_inv c x i (if scanning then dest else i) scanning →
  nthZ c i = Some o → leftIdx c o <= L →
  (if scanning then dest else i) = lenZ c
  ∨ ∃ b, nthZ c (if scanning then dest else i) = Some b ∧ leftIdx c b <= L.
Proof.
  intros Hinv Ho Hol. right. pose proof (si_frozen _ _ _ _ _ Hinv) as Hf.
  destruct scanning.
  - destruct Hf as (y & Hy & Hyl). exists y. split; [done|lia].
  - by exists o.
Qed.

(** The state after an item that the new item must follow. *)
Lemma scan_reset (i dest : Z) (scanning : bool) o :
  scan_inv c x i (if scanning then dest else i) scanning →
  nthZ c i = Some o → i < R → leftIdx c o = L →
  R < rightIdx c o ∨ (rightIdx c o = R ∧ key_lt (item_id o) (item_id x)) →
  scan_inv c x (i + 1) (i + 1) false.
Proof.
  intros [Hr Hin Hbe Haf Hfr] Ho HiR Hol Hor. split.
  - lia.
  - intros k y Hy Hk. destruct (Z.eq_dec k i) as [->|].
    + rewrite Ho in Hy. injection Hy as <-. lia.
    + apply (Hin _ _ Hy). lia.
  - intros k y Hy Hk Heq.
    destruct (Z.eq_dec k i) as [->|Hne].
    { rewrite Ho in Hy. injection Hy as <-. tauto. }
    destruct (Z.lt_ge_cases k (if scanning then dest else i)) as [Hlt|Hge].
    + destruct (Hbe _ _ Hy Hlt Heq) as [H|[H|H]]; [left; lia|tauto|tauto].
    + pose proof (Haf _ _ Hy ltac:(lia) Heq) as Hsm.
      destruct (ys_sibling _ Hs _ _ _ _ Hy Ho ltac:(lia) ltac:(lia)) as [H|[H|[H _]]];
        [left; lia|lia|lia].
  - intros k y Hy Hk. lia.
  - done.
Qed.

Lemma yjsMod_scan_fits rest (i dest : Z) (scanning : bool) d :
  0 <= i → drop (Z.to_nat i) c = rest →
  scan_inv c x i (if scanning then dest else i) scanning →
  yjsMod_scan doc x hint L R rest i dest scanning = inr d →
  fits_at c x d.
Proof.
  revert i dest scanning.
  induction rest as [|o rest IH]; intros i dest scanning H0 Hd Hinv.
  - cbn [yjsMod_scan]. intros [= <-].
    assert (lenZ c <= i) as Hlen.
    { apply (f_equal length) in Hd. rewrite length_drop in Hd. simpl in Hd. unfold lenZ. lia. }
    pose proof (si_range _ _ _ _ _ Hinv) as Hr.
    pose proof (si_frozen _ _ _ _ _ Hinv) as Hf.
    apply (scan_done i _ scanning Hinv).
    + destruct scanning.
      * right. destruct Hf as (y & Hy & Hyl). exists y. split; [done|lia].
      * left. lia.
    + intros k y Hy%nthZ_lt Hk. lia.
  - destruct (drop_nthZ _ _ _ _ H0 Hd) as (Ho & Hlt & Hd').
    pose proof (si_range _ _ _ _ _ Hinv) as Hr.
    cbn [yjsMod_scan].
    destruct (Z.eqb_spec i R) as [HiR|HiR].
    { intros [= <-]. apply (scan_done i _ scanning Hinv).
      - apply (scan_barrier _ _ _ o Hinv Ho). apply Hwf. by rewrite <- HiR.
      - intros k y Hy Hk Heq. left. lia. }
    rewrite (sorted_findItem_left doc i o _ Hs Ho), (sorted_findRight doc i o _ Hs Ho).
    destruct (Z.ltb_spec (leftIdx c o) L) as [Hlo|Hlo].
    { intros [= <-]. apply (scan_done i _ scanning Hinv).
      - apply (scan_barrier _ _ _ o Hinv Ho). lia.
      - intros k y Hy Hk Heq. destruct (Z.eq_dec k i) as [->|Hne].
        + rewrite Ho in Hy. injection Hy as <-. lia.
        + pose proof (ys_preorder _ Hs _ _ _ _ Hy Ho). lia. }
    destruct (Z.eqb_spec (leftIdx c o) L) as [Heq|Hne].
    + destruct (Z.ltb_spec (rightIdx c o) R) as [Hro|Hro].
      { intros Hscan. apply (IH (i + 1) (if scanning then dest else i) true ltac:(lia) Hd'); [|exact Hscan].
        destruct Hinv as [_ Hin Hbe Haf Hfr]. split.
        - lia.
        - intros k y Hy Hk. destruct (Z.eq_dec k i) as [->|].
          + rewrite Ho in Hy. injection Hy as <-. lia.
          + apply (Hin _ _ Hy). lia.
        - done.
        - intros k y Hy Hk Hyl. destruct (Z.eq_dec k i) as [->|].
          + rewrite Ho in Hy. by injection Hy as <-.
          + apply (Haf _ _ Hy); [lia|done].
        - destruct scanning; [done|]. by exists o. }
      destruct (Z.eqb_spec (rightIdx c o) R) as [Hre|Hrne].
      * destruct (String.ltb (item_id x).1 (item_id o).1) eqn:Hag.
        { intros [= <-]. apply (scan_done i _ scanning Hinv).
          - apply (scan_barrier _ _ _ o Hinv Ho). lia.
          - intros k y Hy Hk Hyl. destruct (Z.eq_dec k i) as [->|Hki].
            + rewrite Ho in Hy. injection Hy as <-. right. right. split; [done|by left].
            + destruct (ys_sibling _ Hs _ _ _ _ Ho Hy ltac:(lia) ltac:(lia)) as [H|[H|[H Hk']]].
              * left. lia.
              * right. left. lia.
              * right. right. split; [lia|]. eapply key_lt_trans; [|exact Hk']. by left. }
        intros Hscan. apply (IH (i + 1) (if scanning then dest else i) false ltac:(lia) Hd'); [|exact Hscan].
        apply (scan_reset i dest scanning o Hinv Ho); [lia|done|].
        right. split; [done|]. apply ltb_false_key_lt; [done|].
        apply Hkey. apply nthZ_elem_of. eauto.
      * intros Hscan. apply (IH (i + 1) (if scanning then dest else i) false ltac:(lia) Hd'); [|exact Hscan].
        apply (scan_reset i dest scanning o Hinv Ho); [lia|done|]. left. lia.
    + intros Hscan. apply (IH (i + 1) (if scanning then dest else i) scanning ltac:(lia) Hd'); [|exact Hscan].
      destruct Hinv as [_ Hin Hbe Haf Hfr]. split.
      * destruct scanning; lia.
      * intros k y Hy Hk. destruct (Z.eq_dec k i) as [->|].
        -- rewrite Ho in Hy. injection Hy as <-. lia.
        -- apply (Hin _ _ Hy). lia.
      * intros k y Hy Hk Hyl. destruct scanning; [by apply (Hbe _ _ Hy)|].
        destruct (Z.eq_dec k i) as [->|].
        -- rewrite Ho in Hy. injection Hy as <-. lia.
        -- destruct (Hbe _ _ Hy ltac:(lia) Hyl) as [H|[H|H]]; [left; lia|tauto|tauto].
      * intros k y Hy Hk Hyl. destruct scanning; [|lia].
        destruct (Z.eq_dec k i) as [->|].
        -- rewrite Ho in Hy. injection Hy as <-. lia.
        -- apply (Haf _ _ Hy); [lia|done].
      * destruct scanning; [done|lia].
Qed.

Lemma scan_start : scan_inv c x (L + 1) (L + 1) false.
Proof.
  split; [lia|intros; lia| |intros; lia|done].
  intros k y Hy Hk Heq. destruct (ys_left _ Hs _ _ Hy). lia.
Qed.
End Scan.

(** *** integrateYjsMod keeps a document sorted *)

Lemma integrateYjsMod_fits {T} (doc doc' : Doc T) x hint :
  ymod_sorted (doc_content doc) →
  integrateYjsMod doc x hint = (doc', Ok) →
  leftIdx (doc_content doc) x < rightIdx (doc_content doc) x →
  (∀ o, o ∈ doc_content doc → (item_id o).1 = (item_id x).1 → (item_id o).2 < (item_id x).2) →
  (∀ r, nthZ (doc_content doc) (rightIdx (doc_content doc) x) = Some r →
        leftIdx (doc_content doc) r <= leftIdx (doc_content doc) x) →
  ∃ d, 0 <= d <= lenZ (doc_content doc) ∧ fits_at (doc_content doc) x d
       ∧ (originLeft x ≠ None → 0 <= leftIdx (doc_content doc) x)
       ∧ doc_content doc' = splice (doc_content doc) d x.
Proof.
  intros Hs (left & right & d & _ & Hl & Hr & Hscan & ->)%integrateYjsMod_ok HLR Hkey Hwf.
  pose proof (ys_nodup _ Hs) as Hnd.
  destruct (findItem_inr_index_of _ _ _ _ Hnd Hl) as [HL HL0]. fold (leftIdx (doc_content doc) x) in HL.
  assert (right = rightIdx (doc_content doc) x) as HR.
  { unfold findRight, rightIdx in *. destruct (originRight x) as [id|]; [|by injection Hr].
    by destruct (findItem_inr_index_of _ _ _ _ Hnd Hr). }
  subst left right.
  assert (rightIdx (doc_content doc) x <= lenZ (doc_content doc)) as HRlen.
  { unfold rightIdx. destruct (originRight x) as [id|]; [|lia].
    pose proof (index_of_range (doc_content doc) id). lia. }
  assert (-1 <= leftIdx (doc_content doc) x) as HLge.
  { unfold leftIdx. destruct (originLeft x) as [id|]; [|lia].
    pose proof (index_of_range (doc_content doc) id). lia. }
  assert (fits_at (doc_content doc) x d) as Hf.
  { refine (yjsMod_scan_fits doc x hint Hs ltac:(lia) HL0 Hkey Hwf _
              (leftIdx (doc_content doc) x + 1) (leftIdx (doc_content doc) x + 1) false d
              ltac:(lia) eq_refl _ Hscan).
    apply scan_start; [done|lia]. }
  exists d. pose proof (fa_range _ _ _ Hf). split; [lia|]. done.
Qed.

Lemma integrateYjsMod_sorted {T} (doc doc' : Doc T) x hint :
  ymod_sorted (doc_content doc) →
  integrateYjsMod doc x hint = (doc', Ok) →
  item_id x ∉ item_id <$> doc_content doc →
  leftIdx (doc_content doc) x < rightIdx (doc_content doc) x →
  (∀ o, o ∈ doc_content doc → (item_id o).1 = (item_id x).1 → (item_id o).2 < (item_id x).2) →
  (∀ r, nthZ (doc_content doc) (rightIdx (doc_content doc) x) = Some r →
        leftIdx (doc_content doc) r <= leftIdx (doc_content doc) x) →
  ymod_sorted (doc_content doc').
Proof.
  intros Hs Hi Hfresh HLR Hkey Hwf.
  destruct (integrateYjsMod_fits _ _ _ _ Hs Hi HLR Hkey Hwf) as (d & Hd & Hf & HL0 & ->).
  assert (-1 <= leftIdx (doc_content doc) x) as HLge.
  { unfold leftIdx. destruct (originLeft x) as [id|]; [|lia].
    pose proof (index_of_range (doc_content doc) id). lia. }
  apply sorted_splice; [done| | | |done..].
  - rewrite splice_fmap. apply splice_NoDup; [apply (ys_nodup _ Hs)|done].
  - by apply sorted_unreferenced.
  - apply (anchors_not_self (doc_content doc)); [done..|lia].
Qed.

Lemma seq_ready_fresh_key {T} (doc : Doc T) x :
  version_exact doc → seq_ready doc x →
  (item_id x ∉ item_id <$> doc_content doc)
  ∧ ∀ o, o ∈ doc_content doc → (item_id o).1 = (item_id x).1 → (item_id o).2 < (item_id x).2.
Proof.
  intros Hve Hr.
  assert (∀ o, o ∈ doc_content doc → (item_id o).1 = (item_id x).1 →
            (item_id o).2 < (item_id x).2) as Hkey.
  { intros o Ho Hag. destruct (ve_in _ Hve _ Ho) as [_ Hin].
    destruct (item_id o) as [a s] eqn:Hid. simpl in *.
    apply isInVersion_Some in Hin as (s' & Hs' & Hle).
    unfold seq_ready, lastSeen in Hr. rewrite <- Hag, Hs' in Hr. simpl in Hr. lia. }
  split; [|done]. intros (o & Hid & Ho)%list_elem_of_fmap.
  specialize (Hkey o Ho). rewrite Hid in Hkey. specialize (Hkey eq_refl). lia.
Qed.

(** *** A local insert keeps a document sorted *)

Lemma findItemAtPos_from_le {T} (l : list (Item T)) i pos se r :
  findItemAtPos_from l i pos se = inr r → r <= i + lenZ l.
Proof.
  revert i pos. induction l as [|a l IH]; intros i pos; simpl.
  - destruct (pos =? 0); [|done]. intros [= <-]. unfold lenZ. simpl. lia.
  - assert (lenZ (a :: l) = lenZ l + 1) as -> by (unfold lenZ; simpl; lia).
    destruct (se && _); [intros [= <-]; unfold lenZ; lia|].
    destruct (_ || _); [intros ?%IH; lia|].
    destruct (pos =? 0); [intros [= <-]; unfold lenZ; lia|]. intros ?%IH. lia.
Qed.

Lemma idAt_leftIdx {T} (doc : Doc T) (x : Item T) i :
  NoDup (item_id <$> doc_content doc) → 0 <= i <= lenZ (doc_content doc) →
  originLeft x = idAt doc (i - 1) → leftIdx (doc_content doc) x = i - 1.
Proof.
  intros Hnd Hi Hol. unfold leftIdx, idAt in *. rewrite Hol.
  destruct (nthZ (doc_content doc) (i - 1)) as [y|] eqn:Hy; cbn.
  - by apply index_of_lookup.
  - destruct (Z.eq_dec i 0) as [->|]; [done|].
    destruct (nthZ_is_Some (doc_content doc) (i - 1)) as [y Hy']; [lia|congruence].
Qed.

Lemma idAt_rightIdx {T} (doc : Doc T) (x : Item T) i :
  NoDup (item_id <$> doc_content doc) → 0 <= i <= lenZ (doc_content doc) →
  originRight x = idAt doc i → rightIdx (doc_content doc) x = i.
Proof.
  intros Hnd Hi Hor. unfold rightIdx, idAt in *. rewrite Hor.
  destruct (nthZ (doc_content doc) i) as [y|] eqn:Hy; cbn.
  - by apply index_of_lookup.
  - destruct (Z.eq_dec i (lenZ (doc_content doc))) as [->|]; [done|].
    destruct (nthZ_is_Some (doc_content doc) i) as [y Hy']; [lia|congruence].
Qed.

Lemma localInsert_sorted {T} (doc doc' : Doc T) agent pos content :
  version_exact doc → ymod_sorted (doc_content doc) →
  localInsert yjsMod doc agent pos content = (doc', Ok) →
  ymod_sorted (doc_content doc').
Proof.
  intros Hve Hs. unfold localInsert.
  destruct (findItemAtPos doc pos false) as [|i] eqn:Hpos; [done|].
  unfold findItemAtPos in Hpos.
  pose proof (findItemAtPos_from_ge _ _ _ _ _ Hpos) as Hi0.
  pose proof (findItemAtPos_from_le _ _ _ _ _ Hpos) as Hi1.
  set (n := {| item_content := Some content; item_id := _ |}). cbn [integrate]. intros Hi.
  pose proof (ys_nodup _ Hs) as Hnd.
  assert (leftIdx (doc_content doc) n = i - 1) as HL by (apply idAt_leftIdx; [done|lia|done]).
  assert (rightIdx (doc_content doc) n = i) as HR by (apply idAt_rightIdx; [done|lia|done]).
  destruct (seq_ready_fresh_key doc n Hve) as [Hfresh Hkey].
  { by apply integrateYjsMod_ok in Hi as (? & ? & ? & ? & _). }
  eapply integrateYjsMod_sorted; [done|exact Hi|done|lia|done|].
  rewrite HL, HR. intros r Hr. destruct (ys_left _ Hs _ _ Hr). lia.
Qed.

(** *** Copies of items *)

Lemma findIndex_from_ext {A B} (p : A → bool) (q : B → bool) l l' i :
  Forall2 (λ x y, p x = q y) l l' → findIndex_from p l i = findIndex_from q l' i.
Proof.
  intros H. revert i. induction H as [|x y l l' Hxy _ IH]; intros i; simpl; [done|].
  rewrite Hxy. destruct (q y); [done|]. apply IH.
Qed.

Lemma index_of_copies {T} (c' c : list (Item T)) id :
  Forall2 same_item c' c → index_of c' id = index_of c id.
Proof.
  intros H. unfold index_of, findIndex. apply findIndex_from_ext.
  eapply Forall2_impl; [exact H|]. intros x y (Hid & _). unfold needle_match. simpl.
  by rewrite !andb_false_r, !orb_false_r, Hid.
Qed.

Lemma ymod_sorted_copies {T} (c' c : list (Item T)) :
  Forall2 same_item c' c → ymod_sorted c → ymod_sorted c'.
Proof.
  intros Hc Hs.
  assert (item_id <$> c' = item_id <$> c) as Hids.
  { clear -Hc. induction Hc as [|x y c' c [Hid _] _ IH]; [done|].
    rewrite !fmap_cons. by rewrite Hid, IH. }
  assert (lenZ c' = lenZ c) as Hlen.
  { unfold lenZ. by rewrite (Forall2_length _ _ _ Hc). }
  assert (∀ i x', nthZ c' i = Some x' →
            ∃ x, nthZ c i = Some x ∧ item_id x' = item_id x
                 ∧ leftIdx c' x' = leftIdx c x ∧ rightIdx c' x' = rightIdx c x) as Hcopy.
  { intros i x' [H0 Hx']%nthZ_Some.
    destruct (Forall2_lookup_l _ _ _ _ _ Hc Hx') as (x & Hx & (Hid & Hol & Hor & _)).
    exists x. split; [by apply nthZ_Some|]. split; [done|].
    unfold leftIdx, rightIdx. rewrite Hol, Hor, Hlen.
    split; [destruct (originLeft x)|destruct (originRight x)]; try done;
      by apply index_of_copies. }
  assert (∀ x' x : Item T, same_item x' x → originLeft x' = originLeft x) as Hol
    by (by intros ?? (_ & ? & _)).
  split.
  - rewrite Hids. apply (ys_nodup _ Hs).
  - intros i x' Hx'. destruct (Hcopy _ _ Hx') as (x & Hx & Hid & -> & _).
    destruct (ys_left _ Hs _ _ Hx) as [H1 H2]. split; [done|].
    apply nthZ_Some in Hx' as [H0 Hx'].
    destruct (Forall2_lookup_l _ _ _ _ _ Hc Hx') as (x0 & Hx0 & Hsame).
    apply nthZ_Some in Hx as [_ Hx]. rewrite Hx in Hx0. injection Hx0 as <-.
    by rewrite (Hol _ _ Hsame).
  - intros i x' Hx'. destruct (Hcopy _ _ Hx') as (x & Hx & Hid & _ & ->).
    by apply (ys_between _ Hs).
  - intros i j x' y' Hx' Hy'.
    destruct (Hcopy _ _ Hx') as (x & Hx & _ & -> & _).
    destruct (Hcopy _ _ Hy') as (y & Hy & _ & -> & _).
    by apply (ys_preorder _ Hs _ _ _ _ Hx Hy).
  - intros i j x' y' Hx' Hy'.
    destruct (Hcopy _ _ Hx') as (x & Hx & -> & -> & ->).
    destruct (Hcopy _ _ Hy') as (y & Hy & -> & -> & ->).
    by apply (ys_sibling _ Hs _ _ _ _ Hx Hy).
  - intros i x' r' Hx' Hr'.
    destruct (Hcopy _ _ Hx') as (x & Hx & _ & -> & Hrx). rewrite Hrx in Hr'.
    destruct (Hcopy _ _ Hr') as (r & Hr & _ & -> & _).
    by apply (ys_right _ Hs _ _ _ Hx Hr).
Qed.

(** *** Two sorted documents order their common items alike *)

Lemma filter_lookup_lt {A} (P : A → Prop) `{!∀ x, Decision (P x)} (c : list A) i j u v :
  filter P c !! i = Some u → filter P c !! j = Some v → (i < j)%nat →
  ∃ i' j', c !! i' = Some u ∧ c !! j' = Some v ∧ (i' < j')%nat.
Proof.
  revert i j. induction c as [|a c IH]; intros i j; [done|].
  rewrite filter_cons. destruct (decide (P a)).
  - destruct i as [|i], j as [|j]; simpl; try lia.
    + intros [= <-] Hv _.
      apply list_elem_of_lookup_2, list_elem_of_filter in Hv as [_ [k Hk]%list_elem_of_lookup].
      exists 0%nat, (S k). split; [done|]. split; [done|lia].
    + intros Hu Hv Hlt. destruct (IH i j Hu Hv) as (i' & j' & ? & ? & ?); [lia|].
      exists (S i'), (S j'). split; [done|]. split; [done|lia].
  - intros Hu Hv Hlt. destruct (IH i j Hu Hv Hlt) as (i' & j' & ? & ? & ?).
    exists (S i'), (S j'). split; [done|]. split; [done|lia].
Qed.

Lemma sorted_anchor_present {T} (c : list (Item T)) y id :
  ymod_sorted c → y ∈ c → originLeft y = Some id ∨ originRight y = Some id →
  id ∈ item_id <$> c.
Proof.
  intros Hs [k Hk]%nthZ_elem_of Hor.
  assert (0 <= index_of c id) as H0.
  { destruct Hor as [Hol|Hor].
    - destruct (ys_left _ Hs _ _ Hk) as [_ H]. unfold leftIdx in H. rewrite Hol in H. by apply H.
    - pose proof (ys_between _ Hs _ _ Hk) as H. unfold rightIdx in H. rewrite Hor in H.
      apply nthZ_lt in Hk. lia. }
  destruct (index_of_found _ _ H0) as (z & Hz & <-).
  apply list_elem_of_fmap. exists z. split; [done|]. apply nthZ_elem_of. eauto.
Qed.

Lemma sorted_common {T} (c1 c2 : list (Item T)) rank1 rank2 :
  ymod_sorted c1 → ymod_sorted c2 → causal c1 rank1 → causal c2 rank2 →
  (∀ y z, y ∈ c1 → z ∈ c2 → item_id y = item_id z → y = z) →
  filter (λ y, item_id y ∈ item_id <$> c2) c1 = filter (λ z, item_id z ∈ item_id <$> c1) c2.
Proof.
  intros Hs1 Hs2 Hk1 Hk2 Hsame.
  assert (∀ (ca cb : list (Item T)) rank, ymod_sorted ca → ymod_sorted cb → causal ca rank →
            (∀ y z, y ∈ ca → z ∈ cb → item_id y = item_id z → y = z) →
            ymod_sorted (filter (λ y, item_id y ∈ item_id <$> cb) ca)) as Hsorted.
  { intros ca cb rank Hsa Hsb Hka Hsab. apply (ymod_sorted_filter _ _ rank); [done..|].
    intros y z Hy Hz (y' & Hid & Hy')%list_elem_of_fmap Hor.
    assert (y = y') as <- by (by apply Hsab).
    by apply (sorted_anchor_present cb y). }
  assert (∀ (ca cb : list (Item T)) x, (∀ y z, y ∈ ca → z ∈ cb → item_id y = item_id z → y = z) →
            x ∈ filter (λ y, item_id y ∈ item_id <$> cb) ca → x ∈ ca ∧ x ∈ cb) as Helem.
  { intros ca cb x Hsab [(x' & Hid & Hx')%list_elem_of_fmap Hx]%list_elem_of_filter.
    split; [done|]. by rewrite (Hsab x x' Hx Hx' Hid). }
  apply (ymod_sorted_unique _ _ rank1).
  - by apply (Hsorted c1 c2 rank1).
  - apply (Hsorted c2 c1 rank2); [done..|]. intros y z Hy Hz Hid. symmetry. by apply Hsame.
  - apply NoDup_Permutation.
    + apply NoDup_filter. eapply NoDup_fmap_1, (ys_nodup _ Hs1).
    + apply NoDup_filter. eapply NoDup_fmap_1, (ys_nodup _ Hs2).
    + intros x. split.
      * intros [H1 H2]%Helem; [|done]. apply list_elem_of_filter. split; [|done].
        apply list_elem_of_fmap. eauto.
      * intros [H2 H1]%Helem; [|intros y z Hy Hz Hid; symmetry; by apply Hsame].
        apply list_elem_of_filter. split; [|done]. apply list_elem_of_fmap. eauto.
  - eapply causal_sub; [done|]. by intros x [_ ?]%list_elem_of_filter.
Qed.

Lemma NoDup_ids_nthZ {T} (c : list (Item T)) i j x :
  NoDup (item_id <$> c) → nthZ c i = Some x → nthZ c j = Some x → i = j.
Proof.
  intros Hnd [H0 Hi]%nthZ_Some [H0' Hj]%nthZ_Some.
  assert (Z.to_nat i = Z.to_nat j) by (by eapply (NoDup_ids_lookup c)). lia.
Qed.

Lemma sorted_order_transfer {T} (c1 c2 : list (Item T)) rank1 rank2 u v i j i' j' :
  ymod_sorted c1 → ymod_sorted c2 → causal c1 rank1 → causal c2 rank2 →
  (∀ y z, y ∈ c1 → z ∈ c2 → item_id y = item_id z → y = z) →
  nthZ c1 i = Some u → nthZ c1 j = Some v → nthZ c2 i' = Some u → nthZ c2 j' = Some v →
  i < j → i' < j'.
Proof.
  intros Hs1 Hs2 Hk1 Hk2 Hsame Hu1 Hv1 Hu2 Hv2 Hij.
  pose proof (sorted_common c1 c2 rank1 rank2 Hs1 Hs2 Hk1 Hk2 Hsame) as Heq.
  assert (∀ w k k', nthZ c1 k = Some w → nthZ c2 k' = Some w →
            w ∈ filter (λ y, item_id y ∈ item_id <$> c2) c1) as Hin.
  { intros w k k' Hw1 Hw2. apply list_elem_of_filter. split.
    - apply list_elem_of_fmap. exists w. split; [done|]. apply nthZ_elem_of. eauto.
    - apply nthZ_elem_of. eauto. }
  destruct (proj1 (list_elem_of_lookup _ _) (Hin _ _ _ Hu1 Hu2)) as [a Ha].
  destruct (proj1 (list_elem_of_lookup _ _) (Hin _ _ _ Hv1 Hv2)) as [b Hb].
  assert (∀ (c : list (Item T)) n w k, c !! n = Some w → nthZ c k = Some w →
            NoDup (item_id <$> c) → k = Z.of_nat n) as Hpos.
  { intros c n w k Hn Hk Hnd. apply (NoDup_ids_nthZ c _ _ w); [done..|].
    apply nthZ_Some. rewrite Nat2Z.id. split; [lia|done]. }
  destruct (lt_eq_lt_dec a b) as [[Hlt|Heqab]|Hgt].
  - rewrite Heq in Ha, Hb.
    destruct (filter_lookup_lt _ _ _ _ _ _ Ha Hb Hlt) as (a' & b' & Ha' & Hb' & Hlt').
    rewrite (Hpos c2 _ _ _ Ha' Hu2 (ys_nodup _ Hs2)), (Hpos c2 _ _ _ Hb' Hv2 (ys_nodup _ Hs2)). lia.
  - subst b. rewrite Ha in Hb. injection Hb as <-.
    pose proof (NoDup_ids_nthZ c1 _ _ _ (ys_nodup _ Hs1) Hu1 Hv1). lia.
  - destruct (filter_lookup_lt _ _ _ _ _ _ Hb Ha Hgt) as (b' & a' & Hb' & Ha' & Hlt').
    rewrite (Hpos c1 _ _ _ Ha' Hu1 (ys_nodup _ Hs1)) in Hij.
    rewrite (Hpos c1 _ _ _ Hb' Hv1 (ys_nodup _ Hs1)) in Hij. lia.
Qed.

(** *** Delivering an item of one sorted document to another *)

Lemma index_of_present {T} (c : list (Item T)) id :
  id ∈ item_id <$> c → ∃ y, nthZ c (index_of c id) = Some y ∧ item_id y = id.
Proof.
  intros Hin. apply index_of_found. pose proof (index_of_range c id).
  destruct (Z.eq_dec (index_of c id) (-1)) as [Hm|]; [|lia].
  apply list_elem_of_fmap in Hin as (y & -> & Hy). unfold index_of in Hm.
  destruct (findIndex_spec (needle_match false (item_id y).1 (item_id y).2) c)
    as [[_ Hno]|(n & z & Hn & _)]; [|lia].
  specialize (Hno _ Hy).
  assert (needle_match false (item_id y).1 (item_id y).2 y = true) as Ht.
  { apply needle_match_false_true. by destruct (item_id y). }
  congruence.
Qed.

Lemma delivered_anchors {T} (c1 c2 : list (Item T)) rank1 rank2 x :
  ymod_sorted c1 → ymod_sorted c2 → causal c1 rank1 → causal c2 rank2 →
  (∀ y z, y ∈ c1 → z ∈ c2 → item_id y = item_id z → y = z) →
  x ∈ c2 →
  (∀ id, originLeft x = Some id ∨ originRight x = Some id → id ∈ item_id <$> c1) →
  leftIdx c1 x < rightIdx c1 x
  ∧ ∀ r, nthZ c1 (rightIdx c1 x) = Some r → leftIdx c1 r <= leftIdx c1 x.
Proof.
  intros Hs1 Hs2 Hk1 Hk2 Hsame [p Hp]%nthZ_elem_of Hanch.
  assert (∀ id, id ∈ item_id <$> c1 → id ∈ item_id <$> c2 →
            ∃ w, nthZ c1 (index_of c1 id) = Some w ∧ nthZ c2 (index_of c2 id) = Some w) as Hboth.
  { intros id (w1 & Hw1 & Hid1)%index_of_present (w2 & Hw2 & Hid2)%index_of_present.
    exists w1. split; [done|]. rewrite (Hsame w1 w2); [done|by apply nthZ_elem_of; eauto..|congruence]. }
  assert (∀ u v, originLeft u = Some v → leftIdx c1 u = index_of c1 v ∧ leftIdx c2 u = index_of c2 v)
    as HLu by (intros u v Hu; unfold leftIdx; by rewrite Hu).
  destruct (ys_left _ Hs2 _ _ Hp) as [HL2 HL2'].
  pose proof (ys_between _ Hs2 _ _ Hp) as HR2.
  assert (∀ lid rid, originLeft x = Some lid → originRight x = Some rid →
            index_of c1 lid < index_of c1 rid) as Hlr.
  { intros lid rid Hol Hor.
    destruct (Hboth lid) as (l & Hl1 & Hl2);
      [apply Hanch; by left|by apply (sorted_anchor_present c2 x); [|apply nthZ_elem_of; eauto|left]|].
    destruct (Hboth rid) as (r & Hr1 & Hr2);
      [apply Hanch; by right|by apply (sorted_anchor_present c2 x); [|apply nthZ_elem_of; eauto|right]|].
    eapply (sorted_order_transfer c2 c1 rank2 rank1 l r _ _ _ _ Hs2 Hs1 Hk2 Hk1);
      [intros y z Hy Hz Hid; symmetry; by apply Hsame|done..|].
    unfold leftIdx, rightIdx in HL2, HR2. rewrite Hol in HL2. rewrite Hor in HR2. lia. }
  split.
  - unfold leftIdx, rightIdx.
    destruct (originRight x) as [rid|] eqn:Hor.
    + destruct (originLeft x) as [lid|] eqn:Hol; [by apply Hlr|].
      destruct (index_of_present c1 rid) as (r & Hr & _); [apply Hanch; by right|].
      apply nthZ_lt in Hr. lia.
    + destruct (originLeft x) as [lid|]; [|unfold lenZ; lia].
      pose proof (index_of_range c1 lid). lia.
  - intros r Hr.
    assert (-1 <= leftIdx c1 x) as HLge.
    { unfold leftIdx. destruct (originLeft x) as [id|]; [|lia].
      pose proof (index_of_range c1 id). lia. }
    destruct (originRight x) as [rid|] eqn:Hor.
    2:{ unfold rightIdx in Hr. rewrite Hor in Hr. apply nthZ_lt in Hr. lia. }
    assert (rightIdx c1 x = index_of c1 rid) as HR1 by (unfold rightIdx; by rewrite Hor).
    assert (rightIdx c2 x = index_of c2 rid) as HR2' by (unfold rightIdx; by rewrite Hor).
    destruct (Hboth rid) as (r' & Hr1 & Hr2);
      [apply Hanch; by right|by apply (sorted_anchor_present c2 x); [|apply nthZ_elem_of; eauto|right]|].
    rewrite HR1, Hr1 in Hr. injection Hr as ->.
    rewrite <- HR2' in Hr2. pose proof (ys_right _ Hs2 _ _ _ Hp Hr2) as Hrl2.
    destruct (originLeft r) as [rlid|] eqn:Hrol.
    2:{ unfold leftIdx at 1. rewrite Hrol. done. }
    destruct (HLu _ _ Hrol) as [Hr1l Hr2l].
    destruct (ys_left _ Hs2 _ _ Hr2) as [_ Hr2p]. rewrite Hrol in Hr2p. specialize (Hr2p ltac:(done)).
    destruct (originLeft x) as [lid|] eqn:Hol.
    2:{ unfold leftIdx in Hrl2 at 2. rewrite Hol in Hrl2. lia. }
    destruct (HLu _ _ Hol) as [Hx1l Hx2l].
    destruct (Hboth rlid) as (rl & Hrl1 & Hrl2');
      [by apply (sorted_anchor_present c1 r); [|apply nthZ_elem_of; eauto|left]
      |by apply (sorted_anchor_present c2 r); [|apply nthZ_elem_of; eauto|left]|].
    destruct (Hboth lid) as (l & Hl1 & Hl2);
      [apply Hanch; by left|by apply (sorted_anchor_present c2 x); [|apply nthZ_elem_of; eauto|left]|].
    rewrite Hr1l, Hx1l. rewrite Hr2l, Hx2l in Hrl2.
    destruct (Z.eq_dec (index_of c2 rlid) (index_of c2 lid)) as [Heq|Hne].
    + rewrite Heq, Hl2 in Hrl2'. injection Hrl2' as <-.
      pose proof (NoDup_ids_nthZ c1 _ _ _ (ys_nodup _ Hs1) Hrl1 Hl1). lia.
    + assert (index_of c1 rlid < index_of c1 lid); [|lia].
      eapply (sorted_order_transfer c2 c1 rank2 rank1 rl l _ _ _ _ Hs2 Hs1 Hk2 Hk1);
        [intros y z Hy Hz Hid; symmetry; by apply Hsame|done..|lia].
Qed.

Lemma has_id_elem {T} (c : list (Item T)) id : has_id c id → id ∈ item_id <$> c.
Proof. intros (y & Hy & <- & _). apply list_elem_of_fmap. eauto. Qed.

Lemma integrate_delivered_sorted {T} (d src d' : Doc T) x hint :
  valid_doc yjsMod d → valid_doc yjsMod src →
  ymod_sorted (doc_content d) → ymod_sorted (doc_content src) →
  (∀ y z, y ∈ doc_content d → z ∈ doc_content src → item_id y = item_id z → y = z) →
  x ∈ doc_content src → canInsertNow x d = true →
  integrate yjsMod d x hint = (d', Ok) →
  ymod_sorted (doc_content d').
Proof.
  intros Hvd Hvs Hsd Hss Hsame Hx Hcan Hi. cbn [integrate] in Hi.
  destruct (vd_causal _ _ Hvd) as [rank1 Hk1]. destruct (vd_causal _ _ Hvs) as [rank2 Hk2].
  pose proof (valid_doc_ready_anchored _ _ _ _ Hvd Hvs Hx Hcan) as [Hal Har].
  destruct (delivered_anchors (doc_content d) (doc_content src) rank1 rank2 x) as [HLR Hwf];
    [done..| |].
  { intros id [Hid|Hid]; apply has_id_elem; auto. }
  destruct (seq_ready_fresh_key d x (vd_exact _ _ Hvd)) as [Hfresh Hkey].
  { by apply integrateYjsMod_ok in Hi as (? & ? & ? & ? & _). }
  exact (integrateYjsMod_sorted d d' x hint Hsd Hi Hfresh HLR Hkey Hwf).
Qed.

(** *** Every order of the items of a sorted document rebuilds it *)

Lemma valid_sorted_content {T} alg (d : Doc T) x :
  valid_doc alg d → NoDup (item_id <$> doc_content d) → x ∈ doc_content d →
  item_content x ≠ None.
Proof.
  intros Hv Hnd Hx. destruct (vd_content _ _ Hv x Hx) as (y & Hy & Hid & Hc).
  by rewrite (NoDup_ids_elem _ x y Hnd Hx Hy).
Qed.

Lemma integrateYjsMod_content {T} (doc doc' : Doc T) x hint :
  integrateYjsMod doc x hint = (doc', Ok) →
  ∃ d, doc_content doc' = splice (doc_content doc) d x.
Proof. intros (l & r & d & _ & _ & _ & _ & ->)%integrateYjsMod_ok. by exists d. Qed.

Lemma integrate_sorted_sub {T} (c : list (Item T)) rank (d d' : Doc T) x hint :
  ymod_sorted c → causal c rank → (∀ y, y ∈ c → item_content y ≠ None) →
  valid_doc yjsMod d → ymod_sorted (doc_content d) → (∀ y, y ∈ doc_content d → y ∈ c) →
  x ∈ c → anchored (doc_content d) x →
  integrateYjsMod d x hint = (d', Ok) →
  valid_doc yjsMod d' ∧ ymod_sorted (doc_content d') ∧ (∀ y, y ∈ doc_content d' → y ∈ c)
  ∧ doc_content d' ≡ₚ x :: doc_content d.
Proof.
  intros Hsc Hk Hcont Hv Hs Hsub Hx Han Hi.
  assert (valid_doc yjsMod d') as Hv' by (eapply (valid_doc_integrate yjsMod); eauto).
  destruct (integrateYjsMod_content _ _ _ _ Hi) as [p Hp].
  split; [done|]. split; [|split].
  - destruct (delivered_anchors (doc_content d) c rank rank x) as [HLR Hwf]; [done..| | | |done| |].
    + by eapply causal_sub.
    + done.
    + intros y z Hy Hz Hid. apply (NoDup_ids_elem c); [apply (ys_nodup _ Hsc)|by apply Hsub|done..].
    + destruct Han as [Hal Har]. intros id [Hid|Hid]; apply has_id_elem; auto.
    + destruct (seq_ready_fresh_key d x (vd_exact _ _ Hv)) as [Hfresh Hkey].
      { by apply integrateYjsMod_ok in Hi as (? & ? & ? & ? & _). }
      exact (integrateYjsMod_sorted d d' x hint Hs Hi Hfresh HLR Hkey Hwf).
  - intros y. rewrite Hp, splice_elem_of. intros [Hy| ->]; [by apply Hsub|done].
  - rewrite Hp. apply splice_perm.
Qed.

Lemma integrateAll_sorted {T} (c : list (Item T)) rank :
  ymod_sorted c → causal c rank →
  (∀ y, y ∈ c → item_content y ≠ None) → (∀ y, y ∈ c → 0 <= (item_id y).2) →
  ∀ order (d0 : Doc T),
    valid_doc yjsMod d0 → ymod_sorted (doc_content d0) → (∀ y, y ∈ doc_content d0 → y ∈ c) →
    (∀ x, x ∈ order → x ∈ c) →
    integrateAll yjsMod d0 order ≠ NotReady →
    ∃ d, integrateAll yjsMod d0 order = Done d
         ∧ valid_doc yjsMod d ∧ ymod_sorted (doc_content d)
         ∧ doc_content d ≡ₚ order ++ doc_content d0.
Proof.
  intros Hsc Hk Hcont Hnn order.
  induction order as [|x order IH]; intros d0 Hv Hs Hsub Hord; cbn [integrateAll].
  { intros _. by exists d0. }
  destruct (canInsertNow x d0) eqn:Hcan; [|done].
  assert (x ∈ c) as Hx by (apply Hord; by left).
  apply canInsertNow_ready in Hcan as (Hrd & Hl & Hr); [|apply (ve_nonneg _ (vd_exact _ _ Hv))].
  assert (anchored (doc_content d0) x) as Han.
  { assert (∀ id, originLeft x = Some id ∨ originRight x = Some id →
              isInVersion (Some id) (doc_version d0) = true → has_id (doc_content d0) id) as Hin.
    { intros [a s] Hor Hver.
      pose proof (sorted_anchor_present c x (a, s) Hsc Hx Hor) as (z & Hid & Hz)%list_elem_of_fmap.
      pose proof (Hnn _ Hz) as H0. rewrite <- Hid in H0. simpl in H0.
      destruct (ve_all _ (vd_exact _ _ Hv) a s H0 Hver) as (y & Hy & Hidy).
      exists y. split; [done|]. split; [done|]. by apply Hcont, Hsub. }
    split; intros id Hid; apply Hin; auto; by rewrite <- Hid. }
  destruct (integrate_progress yjsMod d0 x (-1) Hv Han Hrd) as [d' Hi]; [done|].
  rewrite Hi. cbn [integrate] in Hi.
  destruct (integrate_sorted_sub c rank d0 d' x (-1)) as (Hv' & Hs' & Hsub' & Hp'); [done..|].
  intros Hnr. destruct (IH d' Hv' Hs' Hsub') as (d & Hd & Hvd & Hsd & Hpd); [|done|].
  { intros y Hy. apply Hord. by right. }
  exists d. split; [done|]. split; [done|]. split; [done|].
  rewrite Hpd, Hp'. simpl. by rewrite Permutation_middle.
Qed.

Lemma ymod_sorted_nil {T} : ymod_sorted (@nil (Item T)).
Proof.
  assert (∀ i (x : Item T), nthZ [] i = Some x → False) as Hnil.
  { intros i x [_ H]%nthZ_Some. by rewrite lookup_nil in H. }
  split; [apply NoDup_nil_2|..];
    intros; match goal with H : nthZ [] _ = Some _ |- _ => destruct (Hnil _ _ H) end.
Qed.

Lemma ymod_sorted_rebuild {T} (c order : list (Item T)) rank :
  ymod_sorted c → causal c rank →
  (∀ y, y ∈ c → item_content y ≠ None) → (∀ y, y ∈ c → 0 <= (item_id y).2) →
  c ≡ₚ order → integrateAll yjsMod newDoc order ≠ NotReady →
  ∃ d, integrateAll yjsMod newDoc order = Done d ∧ doc_content d = c.
Proof.
  intros Hs Hk Hcont Hnn Hp Hnr.
  destruct (integrateAll_sorted c rank Hs Hk Hcont Hnn order newDoc)
    as (d & Hd & _ & Hsd & Hpd); [apply valid_doc_newDoc|apply ymod_sorted_nil| | |done|].
  { by intros y ?%elem_of_nil. }
  { intros x Hx. by rewrite Hp. }
  exists d. split; [done|]. symmetry. apply (ymod_sorted_unique _ _ rank); [done..| |done].
  rewrite Hpd. simpl. by rewrite app_nil_r.
Qed.

(** *** The documents of a YjsMod system are sorted *)

Lemma sys_sorted_same {T} (sys : gmap string (Doc T)) (d src : Doc T) :
  sys_shared sys → valid_doc yjsMod d → valid_doc yjsMod src →
  ymod_sorted (doc_content d) → ymod_sorted (doc_content src) →
  (∀ y, y ∈ doc_content d → in_sys sys y) → (∀ z, z ∈ doc_content src → in_sys sys z) →
  ∀ y z, y ∈ doc_content d → z ∈ doc_content src → item_id y = item_id z → y = z.
Proof.
  intros Hsh Hvd Hvs Hsd Hss Hd Hsrc y z Hy Hz Hid.
  apply (ss_same _ Hsh); [by apply Hd|by apply Hsrc| | |done].
  - by apply (valid_sorted_content yjsMod d); [|apply (ys_nodup _ Hsd)|].
  - by apply (valid_sorted_content yjsMod src); [|apply (ys_nodup _ Hss)|].
Qed.

Lemma ymod_sorted_merge_step {T} (sys : gmap string (Doc T)) (src d d' : Doc T) n hint :
  sys_shared sys → valid_doc yjsMod src → ymod_sorted (doc_content src) →
  (∀ z, z ∈ doc_content src → in_sys sys z) →
  valid_doc yjsMod d ∧ ymod_sorted (doc_content d) ∧ (∀ y, y ∈ doc_content d → in_sys sys y) →
  n ∈ doc_content src → canInsertNow n d = true →
  integrate yjsMod d n hint = (d', Ok) →
  valid_doc yjsMod d' ∧ ymod_sorted (doc_content d') ∧ (∀ y, y ∈ doc_content d' → in_sys sys y).
Proof.
  intros Hsh Hvs Hss Hsrc (Hvd & Hsd & Hd) Hn Hcan Hi.
  split; [|split].
  - eapply valid_doc_integrate; [exact Hvd| | |exact Hi].
    + by apply (valid_sorted_content yjsMod src); [|apply (ys_nodup _ Hss)|].
    + exact (valid_doc_ready_anchored yjsMod d src n Hvd Hvs Hn Hcan).
  - eapply (integrate_delivered_sorted d src); [done..| |done|done|exact Hi].
    by apply (sys_sorted_same sys).
  - cbn [integrate] in Hi. destruct (integrateYjsMod_content _ _ _ _ Hi) as [p ->].
    intros y [Hy| ->]%splice_elem_of; [by apply Hd|by apply Hsrc].
Qed.

Lemma ymod_sorted_step {T} (sys sys' : gmap string (Doc T)) :
  sys_reachable yjsMod sys →
  (∀ a, ymod_sorted (doc_content (replica sys a))) →
  sys_step yjsMod sys sys' →
  ∀ a, ymod_sorted (doc_content (replica sys' a)).
Proof.
  intros Hr Hs Hstep c.
  pose proof (sys_shared_reachable yjsMod sys Hr) as Hsh.
  assert (∀ a, valid_doc yjsMod (replica sys a)) as Hv
    by (intros a; apply Valid_valid_doc, (sys_reachable_Valid yjsMod sys a Hr)).
  destruct Hstep as [a pos content d Hop|a pos d Hop|a b x hint d Hx Hc Hcan Hop|a b d Hop];
    rewrite replica_insert; destruct (decide (a = c)) as [<-|Hne]; try apply Hs.
  - exact (localInsert_sorted _ _ _ _ _ (vd_exact _ _ (Hv a)) (Hs a) Hop).
  - apply localDelete_ids in Hop as (_ & _ & Hcopies).
    by apply (ymod_sorted_copies _ (doc_content (replica sys a))).
  - rewrite replica_fmap by done.
    apply (ymod_sorted_copies _ (doc_content (replica sys c))); [apply mark_deleted_copies|done].
  - eapply (integrate_delivered_sorted (replica sys a) (replica sys b)); [done..| |done|done|exact Hop].
    apply (sys_sorted_same sys); [done..|intros y Hy; by exists a|intros y Hy; by exists b].
  - unfold mergeInto in Hop.
    refine (proj1 (proj2 (merge_loop_preserves yjsMod
              (λ d, valid_doc yjsMod d ∧ ymod_sorted (doc_content d)
                    ∧ ∀ y, y ∈ doc_content d → in_sys sys y)
              (λ n, n ∈ doc_content (replica sys b)) _ _ _ _ _ _ _ _ Hop))).
    + intros d0 n d0' HP HQ Hcn Hi.
      apply (ymod_sorted_merge_step sys (replica sys b) d0 d0' n (-1)); try done.
      intros z Hz. by exists b.
    + intros op (op' & [= <-] & Hop')%list_elem_of_fmap.
      by apply missing_of_elem in Hop' as [? _].
    + split; [done|]. split; [done|]. intros y Hy. by exists a.
Qed.

Lemma ymod_sorted_reachable {T} (sys : gmap string (Doc T)) a :
  sys_reachable yjsMod sys → ymod_sorted (doc_content (replica sys a)).
Proof.
  intros Hr. revert a. induction Hr as [|sys sys' Hr IH Hstep]; intros a.
  - unfold replica. rewrite lookup_empty. apply ymod_sorted_nil.
  - by apply (ymod_sorted_step sys sys').
Qed.

(** *** Convergence of YjsMod *)

Lemma yjsMod_same_items {T} (sys : gmap string (Doc T)) a b :
  sys_reachable yjsMod sys →
  doc_version (replica sys a) = doc_version (replica sys b) →
  doc_content (replica sys a) ≡ₚ doc_content (replica sys b).
Proof.
  intros Hr Hver. pose proof (sys_shared_reachable yjsMod sys Hr) as Hsh.
  assert (∀ a, valid_doc yjsMod (replica sys a)) as Hv
    by (intros a'; apply Valid_valid_doc, (sys_reachable_Valid yjsMod sys a' Hr)).
  assert (∀ a, ymod_sorted (doc_content (replica sys a))) as Hs
    by (intros a'; by apply ymod_sorted_reachable).
  assert (∀ a b, doc_version (replica sys a) = doc_version (replica sys b) →
            ∀ x, x ∈ doc_content (replica sys a) → x ∈ doc_content (replica sys b)) as Hsub.
  { intros a' b' Hv' x Hx.
    destruct (ve_in _ (vd_exact _ _ (Hv a')) x Hx) as [H0 Hin]. rewrite Hv' in Hin.
    destruct (item_id x) as [k s] eqn:Hid. simpl in H0.
    destruct (ve_all _ (vd_exact _ _ (Hv b')) k s H0 Hin) as (z & Hz & Hidz).
    assert (x = z) as ->; [|done].
    apply (sys_sorted_same sys (replica sys a') (replica sys b')); try done.
    - intros y Hy. by exists a'.
    - intros y Hy. by exists b'.
    - congruence. }
  apply NoDup_Permutation.
  - eapply NoDup_fmap_1, (ys_nodup _ (Hs a)).
  - eapply NoDup_fmap_1, (ys_nodup _ (Hs b)).
  - intros x. split; by apply Hsub.
Qed.

Lemma yjsMod_sys_converges {T} (sys : gmap string (Doc T)) a b :
  sys_reachable yjsMod sys →
  doc_version (replica sys a) = doc_version (replica sys b) →
  doc_content (replica sys a) = doc_content (replica sys b).
Proof.
  intros Hr Hver.
  destruct (vd_causal _ _ (Valid_valid_doc _ _ (sys_reachable_Valid yjsMod sys a Hr)))
    as [rank Hk].
  apply (ymod_sorted_unique _ _ rank); [by apply ymod_sorted_reachable..| |done].
  by apply yjsMod_same_items.
Qed.

Lemma yjsMod_replica_rebuild {T} (sys : gmap string (Doc T)) a order :
  sys_reachable yjsMod sys →
  doc_content (replica sys a) ≡ₚ order →
  integrateAll yjsMod newDoc order ≠ NotReady →
  ∃ d, integrateAll yjsMod newDoc order = Done d
       ∧ doc_content d = doc_content (replica sys a).
Proof.
  intros Hr Hp Hnr.
  pose proof (Valid_valid_doc _ _ (sys_reachable_Valid yjsMod sys a Hr)) as Hv.
  pose proof (ymod_sorted_reachable sys a Hr) as Hs.
  destruct (vd_causal _ _ Hv) as [rank Hk].
  apply (ymod_sorted_rebuild _ _ rank); [done..| | |done|done].
  - intros y Hy. by apply (valid_sorted_content yjsMod (replica sys a)); [|apply (ys_nodup _ Hs)|].
  - intros y Hy. by apply (ve_in _ (vd_exact _ _ Hv)).
Qed.

Lemma isInVersion_empty (id : Id) : isInVersion (Some id) ∅ = false.
Proof. destruct id as [a s]. unfold isInVersion. simpl. by rewrite lookup_empty.
Qed.

Lemma yjsMod_replica_merge {T} (sys : gmap string (Doc T)) a :
  sys_reachable yjsMod sys →
  ∃ d, mergeInto yjsMod newDoc (replica sys a) = Some (d, Ok)
       ∧ doc_content d = doc_content (replica sys a).
Proof.
  intros Hr.
  pose proof (Valid_valid_doc _ _ (sys_reachable_Valid yjsMod sys a Hr)) as Hv.
  pose proof (ymod_sorted_reachable sys a Hr) as Hs.
  destruct (valid_mergeInto_succeeds yjsMod newDoc (replica sys a)) as [d Hd];
    [apply valid_doc_newDoc|done|].
  exists d. split; [done|].
  destruct (mergeInto_order _ _ _ _ Hd) as (order & Ho & Hp).
  assert (missing_of newDoc (replica sys a) = doc_content (replica sys a)) as Hm.
  { unfold missing_of. apply filter_all, Forall_forall. intros x Hx.
    rewrite andb_true_iff, !negb_true_iff. split.
    - pose proof (valid_sorted_content yjsMod _ x Hv (ys_nodup _ Hs) Hx).
      by destruct (item_content x).
    - apply isInVersion_empty. }
  rewrite Hm in Hp.
  destruct (yjsMod_replica_rebuild sys a order Hr Hp) as (d' & Hd' & Hc); [by rewrite Ho|].
  rewrite Ho in Hd'. by injection Hd' as <-.
Qed.

(** *** Building a system step by step *)

Lemma sys_reachable_insert {T} alg (sys : gmap string (Doc T)) a pos content :
  sys_reachable alg sys →
  (alg_localInsert alg (replica sys a) a pos content).2 = Ok →
  sys_reachable alg (sys_insert alg sys a pos content).
Proof.
  intros Hr Hok. apply (sys_next alg sys); [done|]. apply step_insert with (pos := pos) (content := content).
  by destruct (alg_localInsert alg (replica sys a) a pos content) as [d o]; simpl in *; subst.
Qed.

Lemma sys_reachable_merge {T} alg (sys : gmap string (Doc T)) a b :
  sys_reachable alg sys →
  snd <$> mergeInto alg (replica sys a) (replica sys b) = Some Ok →
  sys_reachable alg (sys_merge alg sys a b).
Proof.
  intros Hr Hok. apply (sys_next alg sys); [done|]. apply step_merge with (b := b).
  unfold sys_merge. destruct (mergeInto alg (replica sys a) (replica sys b)) as [[d o]|]; [|done].
  simpl in *. by injection Hok as ->.
Qed.

Lemma conv_sys_reachable : sys_reachable yjsMod conv_sys.
Proof.
  repeat (first [apply sys_reachable_merge; [|reflexivity]
                |apply sys_reachable_insert; [|reflexivity]]).
  apply sys_init.
Qed.

(** C1 (amended): under YjsMod the order of integration does not matter
    for the items that replicas make.  In a system reached by local
    inserts, local deletes, deliveries of ready items and merges, two
    replicas with the same version hold the same [content] and the same
    [getArray]; every order of the items of a replica that picks only ready
    items integrates them into a fresh document without failure and
    rebuilds the [content] of the replica, and so does [mergeInto] into a
    fresh document (the agent names being ones for which the lookup in the
    version object finds no inherited property).  More generally every such
    order of the items of a list [c] that has the shape [ymod_sorted]
    rebuilds [c].  For every set of items whose right anchor is the end of
    the document two such orders yield the same document, also through
    [mergeInto]; and for the item sets of the tests [interleavingBackward],
    [withTails] and [localVsConcurrent] every such order yields the
    expected content. *)
Theorem yjsMod_confluence :
  (∀ (T : Type) (sys : gmap string (Doc T)) (a b : string),
     sys_reachable yjsMod sys →
     doc_version (replica sys a) = doc_version (replica sys b) →
     doc_content (replica sys a) = doc_content (replica sys b)
     ∧ getArray (replica sys a) = getArray (replica sys b))
  ∧ (∀ (T : Type) (sys : gmap string (Doc T)) (a : string) (order : list (Item T)),
       sys_reachable yjsMod sys →
       (∀ x, x ∈ doc_content (replica sys a) → plain_agent (item_id x).1) →
       doc_content (replica sys a) ≡ₚ order →
       integrateAll yjsMod newDoc order ≠ NotReady →
       ∃ d, integrateAll yjsMod newDoc order = Done d
            ∧ doc_content d = doc_content (replica sys a))
  ∧ (∀ (T : Type) (sys : gmap string (Doc T)) (a : string),
       sys_reachable yjsMod sys →
       (∀ x, x ∈ doc_content (replica sys a) → plain_agent (item_id x).1) →
       ∃ d, mergeInto yjsMod newDoc (replica sys a) = Some (d, Ok)
            ∧ doc_content d = doc_content (replica sys a))
  ∧ (∀ (T : Type) (c order : list (Item T)) (rank : Id → nat),
       ymod_sorted c → causal c rank →
       (∀ y, y ∈ c → item_content y ≠ None ∧ 0 <= (item_id y).2
                     ∧ plain_agent (item_id y).1) →
       c ≡ₚ order →
       integrateAll yjsMod newDoc order ≠ NotReady →
       ∃ d, integrateAll yjsMod newDoc order = Done d ∧ doc_content d = c)
  ∧ (∀ (T : Type) (S o1 o2 : list (Item T)) (d1 : Doc T),
       Forall (λ x, originRight x = None) S →
       S ≡ₚ o1 → integrateAll yjsMod newDoc o1 = Done d1 →
       (∀ d2, S ≡ₚ o2 → integrateAll yjsMod newDoc o2 = Done d2 → d2 = d1)
       ∧ (∀ src dm, missing_of newDoc src ≡ₚ S →
            mergeInto yjsMod newDoc src = Some (dm, Ok) → dm = d1))
  ∧ (∀ order, interleavingBackward ≡ₚ order →
       integrateAll yjsMod newDoc order ≠ NotReady →
       ∃ d, integrateAll yjsMod newDoc order = Done d
            ∧ getArray d = ["a"; "a"; "a"; "b"; "b"; "b"]%string)
  ∧ (∀ order, withTails ≡ₚ order →
       integrateAll yjsMod newDoc order ≠ NotReady →
       ∃ d, integrateAll yjsMod newDoc order = Done d
            ∧ getArray d = ["a0"; "a"; "a1"; "b0"; "b"; "b1"]%string)
  ∧ (∀ order, localVsConcurrent ≡ₚ order →
       integrateAll yjsMod newDoc order ≠ NotReady →
       ∃ d, integrateAll yjsMod newDoc order = Done d
            ∧ getArray d = ["a"; "d"; "b"; "c"]%string).
Proof.
  split; [|split; [|split; [|split; [|split; [|split; [|split]]]]]].
  - intros T sys a b Hr Hv.
    pose proof (yjsMod_sys_converges sys a b Hr Hv) as Hc. split; [done|].
    by rewrite !getArray_content_items, Hc.
  - intros T sys a order Hr _. by apply yjsMod_replica_rebuild.
  - intros T sys a Hr _. by apply yjsMod_replica_merge.
  - intros T c order rank Hs Hk Hc. apply (ymod_sorted_rebuild c order rank Hs Hk).
    + intros y Hy. by apply Hc.
    + intros y Hy. by apply Hc.
  - intros T S o1 o2 d1 HS Hp1 H1. split.
    + intros d2 Hp2 H2. by eapply (appended_confluence S o2 o1).
    + intros src dm Hm (order & Ho & Hp)%mergeInto_order.
      eapply (appended_confluence S order o1); [done| |done..]. by rewrite <- Hm.
  - intros order. by apply scenario_sound; [vm_compute|..].
  - intros order. by apply scenario_sound; [vm_compute|..].
  - intros order. by apply scenario_sound; [vm_compute|..].
Qed.

Lemma yjsMod_confluence_witness :
  doc_version (replica conv_sys "A") = doc_version (replica conv_sys "B")
  ∧ doc_content (replica conv_sys "A") = doc_content (replica conv_sys "B")
  ∧ getArray (replica conv_sys "A") = getArray (replica conv_sys "B")
  ∧ getArray (replica conv_sys "A") = ["w"; "a"; "x"; "y"; "c"; "z"]%string
  ∧ (omap item_content conv_order = ["a"; "c"; "w"; "x"; "y"; "z"]%string
     ∧ ∃ d, integrateAll yjsMod newDoc conv_order = Done d
            ∧ doc_content d = doc_content (replica conv_sys "A"))
  ∧ (omap item_content conv_order2 = ["a"; "w"; "c"; "x"; "y"; "z"]%string
     ∧ ∃ d, integrateAll yjsMod newDoc conv_order2 = Done d
            ∧ doc_content d = doc_content (replica conv_sys "A")).
Proof.
  assert (∀ x, x ∈ doc_content (replica conv_sys "A") →
            item_content x ≠ None ∧ 0 <= (item_id x).2 ∧ plain_agent (item_id x).1) as Hitems.
  { apply Forall_forall.
    let c := eval vm_compute in (doc_content (replica conv_sys "A")) in
    change (doc_content (replica conv_sys "A")) with c.
    repeat (apply Forall_cons; split); [..|by apply Forall_nil];
      cbv beta; cbn [item_id item_content fst snd]; (split; [done|split; [done|]]);
      unfold plain_agent, inherited_names;
      rewrite !elem_of_cons, elem_of_nil; intros H; repeat destruct H as [H|H]; done. }
  split; [reflexivity|].
  destruct (proj1 yjsMod_confluence string conv_sys "A"%string "B"%string) as [Hc Hg];
    [apply conv_sys_reachable|reflexivity|].
  split; [exact Hc|]. split; [exact Hg|]. split; [reflexivity|].
  split; (split; [reflexivity|]).
  - apply (proj1 (proj2 yjsMod_confluence) string conv_sys "A"%string conv_order).
    + apply conv_sys_reachable.
    + intros x Hx. by apply Hitems.
    + unfold conv_order.
      destruct (doc_content (replica conv_sys "A")) as [|w [|a [|x [|y [|c [|z [|]]]]]]];
        try reflexivity.
      etrans; [apply perm_swap|]. apply perm_skip. symmetry.
      apply (Permutation_middle [w; x; y] [z] c).
    + vm_compute. discriminate.
  - destruct (vd_causal _ _ (Valid_valid_doc _ _
                (sys_reachable_Valid yjsMod conv_sys "A" conv_sys_reachable))) as [rank Hk].
    apply (proj1 (proj2 (proj2 (proj2 yjsMod_confluence))) string
             (doc_content (replica conv_sys "A")) conv_order2 rank).
    + apply ymod_sorted_reachable, conv_sys_reachable.
    + exact Hk.
    + exact Hitems.
    + unfold conv_order2.
      destruct (doc_content (replica conv_sys "A")) as [|w [|a [|x [|y [|c [|z [|]]]]]]];
        try reflexivity.
      etrans; [apply perm_swap|]. do 2 apply perm_skip. symmetry.
      apply (Permutation_middle [x; y] [z] c).
    + vm_compute. discriminate.
Defined.
